(** * PocketMine IDE: the PHP indexer ([PhpIndexer], src/main.js)

    A shallow embedding of the indexer's lexer, declaration parser, symbol
    table, inheritance resolver and completion engine, followed by the
    properties of the specification that were checked against it.

    Conventions of the embedding.
    - A JavaScript string is the list of its UTF-16 code units ([jsstring]).
    - A JavaScript [Map] is an association list in insertion order with
      unique keys ([JsMap]): iteration order is observable in the completion
      engine (first match wins, stable sort), so order is kept.
    - A JavaScript [Set] of strings is a duplicate-free list in insertion
      order ([JsSet]).
    - Class definition objects are shared between [this.classes], the
      per-file map and [this.currentClass] and are mutated in place; they
      live in a store ([ix_heap]) and are referred to by their index.
    - [while] loops run on a fuel argument that bounds the number of
      iterations; the caller passes a bound that the loop cannot exceed. *)

From Stdlib Require Import Strings.String Strings.Ascii.
From Stdlib Require Import List Bool Arith NArith ZArith Lia.
From Stdlib Require Import Sorting.Permutation Sorting.Sorted.
Import ListNotations.

Set Implicit Arguments.

(* ================================================================== *)
(** ** JavaScript strings *)
(* ================================================================== *)

Definition codeunit := N.
Definition jsstring := list codeunit.

(** A string literal of the source, as code units. *)
Definition lit (s : string) : jsstring :=
  map N_of_ascii (list_ascii_of_string s).
Arguments lit s%_string.

Fixpoint str_eqb (a b : jsstring) : bool :=
  match a, b with
  | [], [] => true
  | x :: a', y :: b' => N.eqb x y && str_eqb a' b'
  | _, _ => false
  end.

(** [s.substr(i, n)] *)
Definition substr (s : jsstring) (i n : nat) : jsstring :=
  firstn n (skipn i s).

(** [s.substring(a, b)]: both ends are clamped to the length and swapped
    when out of order. *)
Definition substring (s : jsstring) (a b : nat) : jsstring :=
  let a' := Nat.min a (length s) in
  let b' := Nat.min b (length s) in
  firstn (Nat.max a' b' - Nat.min a' b') (skipn (Nat.min a' b') s).

(** [s[i]] ([None] is [undefined]). *)
Definition charAt (s : jsstring) (i : nat) : option codeunit :=
  nth_error s i.

(** [s[i] === c] *)
Definition charIs (s : jsstring) (i : nat) (c : codeunit) : bool :=
  match charAt s i with
  | Some x => N.eqb x c
  | None => false
  end.

Definition NL : codeunit := 10%N.          (* line feed *)
Definition BACKSLASH : codeunit := 92%N.   (* backslash *)
Definition DQUOTE : codeunit := 34%N.      (* double quote *)
Definition SQUOTE : codeunit := 39%N.      (* single quote *)
Definition DOLLAR : codeunit := 36%N.      (* dollar sign *)
Definition BOM : codeunit := 65279%N.      (* 0xFEFF *)

(** The regular expression class [\s] of ECMAScript: white space and line
    terminators. *)
Definition isWhitespace (c : codeunit) : bool :=
  ((9 <=? c) && (c <=? 13) || (c =? 32) || (c =? 160) || (c =? 5760)
   || (8192 <=? c) && (c <=? 8202) || (c =? 8232) || (c =? 8233)
   || (c =? 8239) || (c =? 8287) || (c =? 12288) || (c =? 65279))%N.

Definition isAsciiLetter (c : codeunit) : bool :=
  ((97 <=? c) && (c <=? 122) || (65 <=? c) && (c <=? 90))%N.

Definition isDigit (c : codeunit) : bool :=
  ((48 <=? c) && (c <=? 57))%N.

(** [/[a-zA-Z_]/] *)
Definition isIdentStart (c : codeunit) : bool :=
  isAsciiLetter c || (c =? 95)%N.

(** [/[a-zA-Z0-9_]/] *)
Definition isVarChar (c : codeunit) : bool :=
  isAsciiLetter c || isDigit c || (c =? 95)%N.

(** [/[a-zA-Z0-9_\\]/] *)
Definition isIdentChar (c : codeunit) : bool :=
  isVarChar c || (c =? BACKSLASH)%N.

(** [toLowerCase] on one code unit.  Exact on U+0000..U+00FF (ASCII and the
    Latin-1 supplement); code units above U+00FF are left as they are. *)
Definition lowerUnit (c : codeunit) : codeunit :=
  if ((65 <=? c) && (c <=? 90))%N then (c + 32)%N
  else if ((192 <=? c) && (c <=? 222) && negb (c =? 215))%N then (c + 32)%N
  else c.

Definition toLowerCase (s : jsstring) : jsstring := map lowerUnit s.

(** [s.startsWith(p)] *)
Fixpoint startsWith (s p : jsstring) : bool :=
  match p, s with
  | [], _ => true
  | y :: p', x :: s' => N.eqb x y && startsWith s' p'
  | _ :: _, [] => false
  end.

(** [s.includes(p)] *)
Fixpoint includes (s p : jsstring) : bool :=
  startsWith s p ||
  match s with
  | [] => false
  | _ :: s' => includes s' p
  end.

(* ================================================================== *)
(** ** Tokens and the lexer ([tokenize]) *)
(* ================================================================== *)

(** [TOKEN_TYPES], and the type ['CHAR'] of single-character tokens. *)
Inductive TokenType :=
| T_OPEN_TAG | T_NAMESPACE | T_USE | T_CLASS | T_INTERFACE | T_TRAIT
| T_FUNCTION | T_VARIABLE | T_CONST | T_PUBLIC | T_PROTECTED | T_PRIVATE
| T_STATIC | T_ABSTRACT | T_FINAL | T_EXTENDS | T_IMPLEMENTS | T_STRING
| T_WHITESPACE | T_COMMENT | T_DOC_COMMENT | CHAR.

Definition TokenType_eqb (a b : TokenType) : bool :=
  match a, b with
  | T_OPEN_TAG, T_OPEN_TAG | T_NAMESPACE, T_NAMESPACE | T_USE, T_USE
  | T_CLASS, T_CLASS | T_INTERFACE, T_INTERFACE | T_TRAIT, T_TRAIT
  | T_FUNCTION, T_FUNCTION | T_VARIABLE, T_VARIABLE | T_CONST, T_CONST
  | T_PUBLIC, T_PUBLIC | T_PROTECTED, T_PROTECTED | T_PRIVATE, T_PRIVATE
  | T_STATIC, T_STATIC | T_ABSTRACT, T_ABSTRACT | T_FINAL, T_FINAL
  | T_EXTENDS, T_EXTENDS | T_IMPLEMENTS, T_IMPLEMENTS | T_STRING, T_STRING
  | T_WHITESPACE, T_WHITESPACE | T_COMMENT, T_COMMENT
  | T_DOC_COMMENT, T_DOC_COMMENT | CHAR, CHAR => true
  | _, _ => false
  end.

Record Token := mkToken {
  tok_type : TokenType;
  tok_value : jsstring;
  tok_line : nat;
  tok_column : nat
}.

(** The [switch (lowerValue)] of the identifier rule. *)
Definition keywordType (lowerValue : jsstring) : TokenType :=
  if str_eqb lowerValue (lit "namespace") then T_NAMESPACE
  else if str_eqb lowerValue (lit "use") then T_USE
  else if str_eqb lowerValue (lit "class") then T_CLASS
  else if str_eqb lowerValue (lit "interface") then T_INTERFACE
  else if str_eqb lowerValue (lit "trait") then T_TRAIT
  else if str_eqb lowerValue (lit "function") then T_FUNCTION
  else if str_eqb lowerValue (lit "const") then T_CONST
  else if str_eqb lowerValue (lit "public") then T_PUBLIC
  else if str_eqb lowerValue (lit "protected") then T_PROTECTED
  else if str_eqb lowerValue (lit "private") then T_PRIVATE
  else if str_eqb lowerValue (lit "static") then T_STATIC
  else if str_eqb lowerValue (lit "abstract") then T_ABSTRACT
  else if str_eqb lowerValue (lit "final") then T_FINAL
  else if str_eqb lowerValue (lit "extends") then T_EXTENDS
  else if str_eqb lowerValue (lit "implements") then T_IMPLEMENTS
  else T_STRING.

(** [while (i < a.length && p(a[i])) i++], on a string or an array. *)
Fixpoint scanWhile (A : Type) (p : A -> bool) (fuel : nat) (a : list A)
  (i : nat) : nat :=
  match fuel with
  | 0 => i
  | S fuel' =>
      match nth_error a i with
      | Some c => if p c then scanWhile p fuel' a (S i) else i
      | None => i
      end
  end.

(** The body loop of a block comment:
    [while (i < content.length - 1) { if (content.substr(i, 2) === '*/')
    { i += 2; break; } if (content[i] === '\n') { line++; column = 1; }
    i++; }].  The result is the new [(i, line, column)]. *)
Fixpoint scanBlockComment (fuel : nat) (content : jsstring)
  (i line column : nat) : nat * nat * nat :=
  match fuel with
  | 0 => (i, line, column)
  | S fuel' =>
      if i <? length content - 1 then
        if str_eqb (substr content i 2) (lit "*/") then (i + 2, line, column)
        else if charIs content i NL
             then scanBlockComment fuel' content (S i) (S line) 1
             else scanBlockComment fuel' content (S i) line column
      else (i, line, column)
  end.

(** The body loop of a quoted string:
    [while (i < content.length) { if (content[i] === quote &&
    content[i - 1] !== '\\') { i++; break; } i++; }]. *)
Fixpoint scanString (fuel : nat) (content : jsstring) (quote : codeunit)
  (i : nat) : nat :=
  match fuel with
  | 0 => i
  | S fuel' =>
      if i <? length content then
        if charIs content i quote && negb (charIs content (i - 1) BACKSLASH)
        then S i
        else scanString fuel' content quote (S i)
      else i
  end.

(** The variables of the main loop of [tokenize]. *)
Record LexState := mkLex {
  lex_i : nat;
  lex_line : nat;
  lex_column : nat;
  lex_tokens : list Token
}.

(** One iteration of [while (i < content.length)], entered with
    [i < content.length]. *)
Definition lexStep (content : jsstring) (st : LexState) : LexState :=
  let i := lex_i st in
  let tokens := lex_tokens st in
  match charAt content i with
  | None => st
  | Some char =>
      (* Track line and column *)
      let line := if (char =? NL)%N then S (lex_line st) else lex_line st in
      let column := if (char =? NL)%N then 1 else S (lex_column st) in
      let rest := length content - i in
      if isWhitespace char then
        mkLex (S i) line column tokens
      else if str_eqb (substr content i 5) (lit "<?php") then
        mkLex (i + 5) line column
          (tokens ++ [mkToken T_OPEN_TAG (lit "<?php") line column])
      else if str_eqb (substr content i 2) (lit "//")
              || str_eqb (substr content i 1) (lit "#") then
        let j := scanWhile (fun c => negb (c =? NL)%N) rest content i in
        mkLex j line column
          (tokens ++ [mkToken T_COMMENT (substring content i j) line column])
      else if str_eqb (substr content i 2) (lit "/*") then
        let isDocComment := str_eqb (substr content i 3) (lit "/**") in
        let '(j, line', column') :=
          scanBlockComment rest content (i + 2) line column in
        mkLex j line' column'
          (tokens ++ [mkToken (if isDocComment then T_DOC_COMMENT
                               else T_COMMENT)
                        (substring content i j) line' column'])
      else if (char =? DQUOTE)%N || (char =? SQUOTE)%N then
        let j := scanString rest content char (S i) in
        mkLex j line column
          (tokens ++ [mkToken T_STRING (substring content i j) line column])
      else if (char =? DOLLAR)%N then
        let j := scanWhile isVarChar rest content (S i) in
        mkLex j line column
          (tokens ++ [mkToken T_VARIABLE (substring content i j) line column])
      else if isIdentStart char then
        let j := scanWhile isIdentChar rest content i in
        let value := substring content i j in
        let lowerValue := toLowerCase value in
        mkLex j line column
          (tokens ++ [mkToken (keywordType lowerValue) value line column])
      else
        mkLex (S i) line column
          (tokens ++ [mkToken CHAR [char] line column])
  end.

(** [while (i < content.length) { ... }] *)
Fixpoint lexLoop (fuel : nat) (content : jsstring) (st : LexState)
  : LexState :=
  match fuel with
  | 0 => st
  | S fuel' =>
      if lex_i st <? length content
      then lexLoop fuel' content (lexStep content st)
      else st
  end.

(** [if (content.charCodeAt(0) === 0xFEFF) content = content.slice(1)] *)
Definition stripBOM (content : jsstring) : jsstring :=
  match content with
  | c :: rest => if (c =? BOM)%N then rest else content
  | [] => content
  end.

Definition lexInit : LexState := mkLex 0 1 1 [].

(** [tokenize(content)].  Every iteration advances [i] by at least one
    (see [lexStep_progress]), so [content.length] iterations are enough. *)
Definition tokenize (content : jsstring) : list Token :=
  let content := stripBOM content in
  lex_tokens (lexLoop (length content) content lexInit).

(* ================================================================== *)
(** ** More string operations of the parser *)
(* ================================================================== *)

Fixpoint dropWhile (A : Type) (p : A -> bool) (l : list A) : list A :=
  match l with
  | [] => []
  | x :: l' => if p x then dropWhile p l' else l
  end.

Definition trimStart (s : jsstring) : jsstring := dropWhile isWhitespace s.
Definition trimEnd (s : jsstring) : jsstring :=
  rev (dropWhile isWhitespace (rev s)).

(** [s.trim()] *)
Definition trim (s : jsstring) : jsstring := trimEnd (trimStart s).

(** Truthiness of a string: [if (s)]. *)
Definition nonEmpty (s : jsstring) : bool :=
  match s with [] => false | _ :: _ => true end.

(** [s.split(c)] for a one-character separator [c].  [cur] is the piece
    being read. *)
Fixpoint splitOnFrom (c : codeunit) (cur : jsstring) (s : jsstring)
  : list jsstring :=
  match s with
  | [] => [cur]
  | x :: s' =>
      if (x =? c)%N then cur :: splitOnFrom c [] s'
      else splitOnFrom c (cur ++ [x]) s'
  end.

Definition splitOn (c : codeunit) (s : jsstring) : list jsstring :=
  splitOnFrom c [] s.

(** [s.split(/\s+/)]: the separators are the maximal white-space runs.
    [inSep] holds while a separator is being read. *)
Fixpoint splitWsFrom (inSep : bool) (cur : jsstring) (s : jsstring)
  : list jsstring :=
  match s with
  | [] => [cur]
  | x :: s' =>
      if isWhitespace x then
        if inSep then splitWsFrom true cur s'
        else cur :: splitWsFrom true [] s'
      else splitWsFrom false (cur ++ [x]) s'
  end.

Definition splitWs (s : jsstring) : list jsstring := splitWsFrom false [] s.

(** [s.substring(n)] *)
Definition substringFrom (s : jsstring) (n : nat) : jsstring := skipn n s.

(** [/re/.test(s)] for a one-character class [p]: some code unit of [s] is
    in the class. *)
Definition testClass (p : codeunit -> bool) (s : jsstring) : bool :=
  existsb p s.

(** [arr.pop()] result, on a non-empty array. *)
Definition lastOr (A : Type) (l : list A) (d : A) : A := last l d.

(** Decimal digits of a number, for template literals. *)
Fixpoint natDigits (fuel n : nat) (acc : jsstring) : jsstring :=
  match fuel with
  | 0 => acc
  | S fuel' =>
      let acc' := N.of_nat (48 + n mod 10) :: acc in
      if n / 10 =? 0 then acc' else natDigits fuel' (n / 10) acc'
  end.

Definition natToString (n : nat) : jsstring := natDigits (S n) n [].

(* ================================================================== *)
(** ** Maps and sets *)
(* ================================================================== *)

Definition JsSet := list jsstring.

Definition set_has (s : JsSet) (x : jsstring) : bool :=
  existsb (str_eqb x) s.

Definition set_add (s : JsSet) (x : jsstring) : JsSet :=
  if set_has s x then s else s ++ [x].

Definition JsMap (V : Type) := list (jsstring * V).

Fixpoint map_get (V : Type) (m : JsMap V) (k : jsstring) : option V :=
  match m with
  | [] => None
  | (k', v) :: m' => if str_eqb k' k then Some v else map_get m' k
  end.

Definition map_has (V : Type) (m : JsMap V) (k : jsstring) : bool :=
  match map_get m k with Some _ => true | None => false end.

(** [m.set(k, v)]: an existing key keeps its place, a new key goes last. *)
Fixpoint map_set (V : Type) (m : JsMap V) (k : jsstring) (v : V) : JsMap V :=
  match m with
  | [] => [(k, v)]
  | (k', v') :: m' =>
      if str_eqb k' k then (k', v) :: m' else (k', v') :: map_set m' k v
  end.

(** [m.size] *)
Definition map_size (V : Type) (m : JsMap V) : nat := length m.

(** In-place update of an array slot (a store cell). *)
Fixpoint updNth (A : Type) (l : list A) (n : nat) (f : A -> A) : list A :=
  match l, n with
  | [], _ => []
  | x :: l', 0 => f x :: l'
  | x :: l', S n' => x :: updNth l' n' f
  end.

(* ================================================================== *)
(** ** Data model of the symbol table *)
(* ================================================================== *)

(** The result of [parseDocComment]. *)
Record DocComment := mkDoc {
  doc_summary : jsstring;
  doc_description : jsstring;
  doc_tags : JsMap (list jsstring)
}.

(** The result of [parseParameter]. *)
Record ParameterDef := mkParam {
  par_name : jsstring;
  par_type : option jsstring;
  par_defaultValue : option jsstring;
  par_isReference : bool;
  par_isVariadic : bool
}.

(** [functionDefinition] of [parseFunction].  [fn_inherited] is the field
    [inherited], absent ([false]) until the resolver copies the member. *)
Record FunctionDef := mkFunction {
  fn_name : jsstring;
  fn_modifiers : JsSet;
  fn_parameters : list ParameterDef;
  fn_returnType : option jsstring;
  fn_docComment : option DocComment;
  fn_file : option jsstring;
  fn_line : nat;
  fn_isMethod : bool;
  fn_class : option jsstring;
  fn_inherited : bool
}.

(** A property entry of [parseProperty]. *)
Record PropertyDef := mkProperty {
  pr_name : jsstring;
  pr_modifiers : JsSet;
  pr_defaultValue : option jsstring;
  pr_file : option jsstring;
  pr_line : nat;
  pr_docComment : option DocComment;
  pr_inherited : bool
}.

(** A class constant entry of [parseProperty]. *)
Record ConstDef := mkConst {
  cn_name : jsstring;
  cn_value : jsstring;
  cn_modifiers : JsSet;
  cn_file : option jsstring;
  cn_line : nat;
  cn_docComment : option DocComment
}.

(** [classDefinition] of [parseClass].  [cls_inheritanceResolved] is the
    flag [inheritanceResolved], absent ([false]) until the resolver sets
    it. *)
Record ClassDef := mkClass {
  cls_name : jsstring;
  cls_fullName : jsstring;
  cls_namespace : jsstring;
  cls_type : jsstring;
  cls_modifiers : JsSet;
  cls_extends : list jsstring;
  cls_implements : list jsstring;
  cls_methods : JsMap FunctionDef;
  cls_properties : JsMap PropertyDef;
  cls_constants : JsMap ConstDef;
  cls_file : option jsstring;
  cls_docComment : option DocComment;
  cls_line : nat;
  cls_inheritanceResolved : bool
}.

(** A reference to a class definition object: its index in the store. *)
Definition ClassRef := nat.

(** An entry of [this.fileIndex]. *)
Record FileData := mkFile {
  fd_path : jsstring;
  fd_namespace : jsstring;
  fd_uses : JsMap jsstring;
  fd_classes : JsMap ClassRef;
  fd_functions : JsMap FunctionDef;
  fd_lastModified : Z
}.

(** The fields of a [PhpIndexer], and the store of class objects. *)
Record Indexer := mkIndexer {
  ix_classes : JsMap ClassRef;
  ix_interfaces : JsMap ClassRef;
  ix_traits : JsMap ClassRef;
  ix_functions : JsMap FunctionDef;
  ix_namespaces : JsMap JsSet;
  ix_uses : JsMap (JsMap jsstring);
  ix_fileIndex : JsMap FileData;
  ix_done : JsSet;
  ix_currentFile : option jsstring;
  ix_currentNamespace : jsstring;
  ix_currentClass : option ClassRef;
  ix_currentFunction : option FunctionDef;
  ix_lastDocComment : option DocComment;
  ix_totalFiles : nat;
  ix_processedFiles : nat;
  ix_onProgress : bool;
  ix_heap : list ClassDef
}.

(** [new PhpIndexer()] *)
Definition newIndexer : Indexer :=
  mkIndexer [] [] [] [] [] [] [] [] None [] None None None 0 0 false [].

(** Field assignments. *)
Definition set_classes (st : Indexer) v :=
  mkIndexer v (ix_interfaces st) (ix_traits st) (ix_functions st)
    (ix_namespaces st) (ix_uses st) (ix_fileIndex st) (ix_done st)
    (ix_currentFile st) (ix_currentNamespace st) (ix_currentClass st)
    (ix_currentFunction st) (ix_lastDocComment st) (ix_totalFiles st)
    (ix_processedFiles st) (ix_onProgress st) (ix_heap st).
Definition set_functions (st : Indexer) v :=
  mkIndexer (ix_classes st) (ix_interfaces st) (ix_traits st) v
    (ix_namespaces st) (ix_uses st) (ix_fileIndex st) (ix_done st)
    (ix_currentFile st) (ix_currentNamespace st) (ix_currentClass st)
    (ix_currentFunction st) (ix_lastDocComment st) (ix_totalFiles st)
    (ix_processedFiles st) (ix_onProgress st) (ix_heap st).
Definition set_namespaces (st : Indexer) v :=
  mkIndexer (ix_classes st) (ix_interfaces st) (ix_traits st)
    (ix_functions st) v (ix_uses st) (ix_fileIndex st) (ix_done st)
    (ix_currentFile st) (ix_currentNamespace st) (ix_currentClass st)
    (ix_currentFunction st) (ix_lastDocComment st) (ix_totalFiles st)
    (ix_processedFiles st) (ix_onProgress st) (ix_heap st).
Definition set_fileIndex (st : Indexer) v :=
  mkIndexer (ix_classes st) (ix_interfaces st) (ix_traits st)
    (ix_functions st) (ix_namespaces st) (ix_uses st) v (ix_done st)
    (ix_currentFile st) (ix_currentNamespace st) (ix_currentClass st)
    (ix_currentFunction st) (ix_lastDocComment st) (ix_totalFiles st)
    (ix_processedFiles st) (ix_onProgress st) (ix_heap st).
Definition set_done (st : Indexer) v :=
  mkIndexer (ix_classes st) (ix_interfaces st) (ix_traits st)
    (ix_functions st) (ix_namespaces st) (ix_uses st) (ix_fileIndex st) v
    (ix_currentFile st) (ix_currentNamespace st) (ix_currentClass st)
    (ix_currentFunction st) (ix_lastDocComment st) (ix_totalFiles st)
    (ix_processedFiles st) (ix_onProgress st) (ix_heap st).
Definition set_currentFile (st : Indexer) v :=
  mkIndexer (ix_classes st) (ix_interfaces st) (ix_traits st)
    (ix_functions st) (ix_namespaces st) (ix_uses st) (ix_fileIndex st)
    (ix_done st) v (ix_currentNamespace st) (ix_currentClass st)
    (ix_currentFunction st) (ix_lastDocComment st) (ix_totalFiles st)
    (ix_processedFiles st) (ix_onProgress st) (ix_heap st).
Definition set_currentNamespace (st : Indexer) v :=
  mkIndexer (ix_classes st) (ix_interfaces st) (ix_traits st)
    (ix_functions st) (ix_namespaces st) (ix_uses st) (ix_fileIndex st)
    (ix_done st) (ix_currentFile st) v (ix_currentClass st)
    (ix_currentFunction st) (ix_lastDocComment st) (ix_totalFiles st)
    (ix_processedFiles st) (ix_onProgress st) (ix_heap st).
Definition set_currentClass (st : Indexer) v :=
  mkIndexer (ix_classes st) (ix_interfaces st) (ix_traits st)
    (ix_functions st) (ix_namespaces st) (ix_uses st) (ix_fileIndex st)
    (ix_done st) (ix_currentFile st) (ix_currentNamespace st) v
    (ix_currentFunction st) (ix_lastDocComment st) (ix_totalFiles st)
    (ix_processedFiles st) (ix_onProgress st) (ix_heap st).
Definition set_currentFunction (st : Indexer) v :=
  mkIndexer (ix_classes st) (ix_interfaces st) (ix_traits st)
    (ix_functions st) (ix_namespaces st) (ix_uses st) (ix_fileIndex st)
    (ix_done st) (ix_currentFile st) (ix_currentNamespace st)
    (ix_currentClass st) v (ix_lastDocComment st) (ix_totalFiles st)
    (ix_processedFiles st) (ix_onProgress st) (ix_heap st).
Definition set_lastDocComment (st : Indexer) v :=
  mkIndexer (ix_classes st) (ix_interfaces st) (ix_traits st)
    (ix_functions st) (ix_namespaces st) (ix_uses st) (ix_fileIndex st)
    (ix_done st) (ix_currentFile st) (ix_currentNamespace st)
    (ix_currentClass st) (ix_currentFunction st) v (ix_totalFiles st)
    (ix_processedFiles st) (ix_onProgress st) (ix_heap st).
Definition set_totalFiles (st : Indexer) v :=
  mkIndexer (ix_classes st) (ix_interfaces st) (ix_traits st)
    (ix_functions st) (ix_namespaces st) (ix_uses st) (ix_fileIndex st)
    (ix_done st) (ix_currentFile st) (ix_currentNamespace st)
    (ix_currentClass st) (ix_currentFunction st) (ix_lastDocComment st) v
    (ix_processedFiles st) (ix_onProgress st) (ix_heap st).
Definition set_processedFiles (st : Indexer) v :=
  mkIndexer (ix_classes st) (ix_interfaces st) (ix_traits st)
    (ix_functions st) (ix_namespaces st) (ix_uses st) (ix_fileIndex st)
    (ix_done st) (ix_currentFile st) (ix_currentNamespace st)
    (ix_currentClass st) (ix_currentFunction st) (ix_lastDocComment st)
    (ix_totalFiles st) v (ix_onProgress st) (ix_heap st).
Definition set_onProgress (st : Indexer) v :=
  mkIndexer (ix_classes st) (ix_interfaces st) (ix_traits st)
    (ix_functions st) (ix_namespaces st) (ix_uses st) (ix_fileIndex st)
    (ix_done st) (ix_currentFile st) (ix_currentNamespace st)
    (ix_currentClass st) (ix_currentFunction st) (ix_lastDocComment st)
    (ix_totalFiles st) (ix_processedFiles st) v (ix_heap st).
Definition set_heap (st : Indexer) v :=
  mkIndexer (ix_classes st) (ix_interfaces st) (ix_traits st)
    (ix_functions st) (ix_namespaces st) (ix_uses st) (ix_fileIndex st)
    (ix_done st) (ix_currentFile st) (ix_currentNamespace st)
    (ix_currentClass st) (ix_currentFunction st) (ix_lastDocComment st)
    (ix_totalFiles st) (ix_processedFiles st) (ix_onProgress st) v.

(** The class object behind a reference. *)
Definition deref (st : Indexer) (r : ClassRef) : option ClassDef :=
  nth_error (ix_heap st) r.

(** Mutation of the class object behind a reference. *)
Definition updClass (st : Indexer) (r : ClassRef) (f : ClassDef -> ClassDef)
  : Indexer :=
  set_heap st (updNth (ix_heap st) r f).

(** Mutation of the file record stored under [fileKey]: the parser holds
    it as [fileData = this.fileIndex.get(fileKey)].  [processPhpFile] sets
    the record before it parses, so the parser finds it; under a key
    without a record, where [fileData] is [undefined] and the access a
    [TypeError], the state is left as it is here. *)
Definition updFile (st : Indexer) (fileKey : jsstring)
  (f : FileData -> FileData) : Indexer :=
  match map_get (ix_fileIndex st) fileKey with
  | Some fd => set_fileIndex st (map_set (ix_fileIndex st) fileKey (f fd))
  | None => st
  end.

Definition cls_set_methods (c : ClassDef) v :=
  mkClass (cls_name c) (cls_fullName c) (cls_namespace c) (cls_type c)
    (cls_modifiers c) (cls_extends c) (cls_implements c) v
    (cls_properties c) (cls_constants c) (cls_file c) (cls_docComment c)
    (cls_line c) (cls_inheritanceResolved c).
Definition cls_set_properties (c : ClassDef) v :=
  mkClass (cls_name c) (cls_fullName c) (cls_namespace c) (cls_type c)
    (cls_modifiers c) (cls_extends c) (cls_implements c) (cls_methods c)
    v (cls_constants c) (cls_file c) (cls_docComment c)
    (cls_line c) (cls_inheritanceResolved c).
Definition cls_set_constants (c : ClassDef) v :=
  mkClass (cls_name c) (cls_fullName c) (cls_namespace c) (cls_type c)
    (cls_modifiers c) (cls_extends c) (cls_implements c) (cls_methods c)
    (cls_properties c) v (cls_file c) (cls_docComment c)
    (cls_line c) (cls_inheritanceResolved c).
Definition cls_set_inheritanceResolved (c : ClassDef) v :=
  mkClass (cls_name c) (cls_fullName c) (cls_namespace c) (cls_type c)
    (cls_modifiers c) (cls_extends c) (cls_implements c) (cls_methods c)
    (cls_properties c) (cls_constants c) (cls_file c) (cls_docComment c)
    (cls_line c) v.

Definition fd_set_namespace (fd : FileData) v :=
  mkFile (fd_path fd) v (fd_uses fd) (fd_classes fd) (fd_functions fd)
    (fd_lastModified fd).
Definition fd_set_uses (fd : FileData) v :=
  mkFile (fd_path fd) (fd_namespace fd) v (fd_classes fd) (fd_functions fd)
    (fd_lastModified fd).
Definition fd_set_classes (fd : FileData) v :=
  mkFile (fd_path fd) (fd_namespace fd) (fd_uses fd) v (fd_functions fd)
    (fd_lastModified fd).
Definition fd_set_functions (fd : FileData) v :=
  mkFile (fd_path fd) (fd_namespace fd) (fd_uses fd) (fd_classes fd) v
    (fd_lastModified fd).

(* ================================================================== *)
(** ** The declaration parser *)
(* ================================================================== *)

Fixpoint takeWhile (A : Type) (p : A -> bool) (l : list A) : list A :=
  match l with
  | [] => []
  | x :: l' => if p x then x :: takeWhile p l' else []
  end.

Definition endsWith (s p : jsstring) : bool := startsWith (rev s) (rev p).

(** [s.replace(/^p/, '')] for a literal [p]. *)
Definition stripPrefix (p s : jsstring) : jsstring :=
  if startsWith s p then skipn (length p) s else s.

(** [s.replace(/p$/, '')] for a literal [p]. *)
Definition stripSuffix (p s : jsstring) : jsstring :=
  if endsWith s p then firstn (length s - length p) s else s.

Definition STAR : codeunit := 42%N.
Definition AT : codeunit := 64%N.

(** [line.replace(/^\s*\*\s?/, '').trim()] *)
Definition cleanDocLine (line : jsstring) : jsstring :=
  match trimStart line with
  | c :: rest =>
      if (c =? STAR)%N then
        trim (match rest with
              | r :: rest' => if isWhitespace r then rest' else rest
              | [] => []
              end)
      else trim line
  | [] => trim line
  end.

(** Line terminators: the code units that [.] does not match. *)
Definition isLineTerminator (c : codeunit) : bool :=
  ((c =? 10) || (c =? 13) || (c =? 8232) || (c =? 8233))%N.

(** [line.match(...)] for the tag pattern: an at sign, a non-empty maximal
    run of word characters (the tag name, group 1), then either the end of
    the line or white space followed by a rest without line terminators
    (group 2).  The result is the tag name and [tagMatch[2] || '']. *)
Definition matchTag (line : jsstring) : option (jsstring * jsstring) :=
  match line with
  | c :: rest =>
      if (c =? AT)%N then
        let w := takeWhile isVarChar rest in
        let after := dropWhile isVarChar rest in
        if nonEmpty w then
          match after with
          | [] => Some (w, [])
          | x :: _ =>
              if isWhitespace x then
                let v := dropWhile isWhitespace after in
                if existsb isLineTerminator v then None else Some (w, v)
              else None
          end
        else None
      else None
  | [] => None
  end.

Inductive DocSection := SecSummary | SecDescription | SecTags.

(** [arr[arr.length - 1] += s] *)
Definition appendToLast (l : list jsstring) (s : jsstring) : list jsstring :=
  match rev l with
  | [] => l
  | x :: r => rev r ++ [x ++ s]
  end.

(** The body of [for (const line of lines)] in [parseDocComment]; the state
    is [(doc, currentSection, currentTag)]. *)
Definition docLine (acc : DocComment * DocSection * option jsstring)
  (line : jsstring) : DocComment * DocSection * option jsstring :=
  let '(doc, currentSection, currentTag) := acc in
  if startsWith line [AT] then
    match matchTag line with
    | Some (tagName, tagValue) =>
        let tags :=
          if map_has (doc_tags doc) tagName then doc_tags doc
          else map_set (doc_tags doc) tagName [] in
        let tags :=
          match map_get tags tagName with
          | Some vs => map_set tags tagName (vs ++ [tagValue])
          | None => tags
          end in
        (mkDoc (doc_summary doc) (doc_description doc) tags,
         SecTags, Some tagName)
    | None => acc
    end
  else
    match currentSection with
    | SecSummary =>
        if negb (nonEmpty (doc_summary doc)) then
          (mkDoc line (doc_description doc) (doc_tags doc),
           SecDescription, currentTag)
        else acc
    | SecDescription =>
        (mkDoc (doc_summary doc)
           (doc_description doc
            ++ (if nonEmpty (doc_description doc) then [NL] else [])
            ++ line)
           (doc_tags doc),
         currentSection, currentTag)
    | SecTags =>
        match currentTag with
        | Some tag =>
            if nonEmpty tag then
              match map_get (doc_tags doc) tag with
              | Some tagValues =>
                  if 0 <? length tagValues then
                    (mkDoc (doc_summary doc) (doc_description doc)
                       (map_set (doc_tags doc) tag
                          (appendToLast tagValues (NL :: line))),
                     currentSection, currentTag)
                  else acc
              | None => acc
              end
            else acc
        | None => acc
        end
    end.

(** [parseDocComment(docComment)] *)
Definition parseDocComment (docComment : jsstring) : DocComment :=
  let lines :=
    filter nonEmpty
      (map cleanDocLine
         (splitOn NL
            (stripSuffix (lit "*/") (stripPrefix (lit "/**") docComment)))) in
  fst (fst (fold_left docLine lines (mkDoc [] [] [], SecSummary, None))).

(** [parseParameter(paramStr)] *)
Definition parseParameter (paramStr : jsstring) : ParameterDef :=
  let paramStr := trim paramStr in
  let isReference := startsWith paramStr (lit "&") in
  let paramStr :=
    if isReference then trim (substringFrom paramStr 1) else paramStr in
  let isVariadic := startsWith paramStr (lit "...") in
  let paramStr :=
    if isVariadic then trim (substringFrom paramStr 3) else paramStr in
  let parts := splitOn 61%N paramStr in
  let mainPart := trim (nth 0 parts []) in
  let defaultValue :=
    if 1 <? length parts then Some (trim (nth 1 parts [])) else None in
  let tokens := splitWs mainPart in
  let type := if 2 <=? length tokens then Some (nth 0 tokens []) else None in
  let name :=
    if 2 <=? length tokens then nth (length tokens - 1) tokens []
    else if length tokens =? 1 then nth 0 tokens []
    else [] in
  let name :=
    if startsWith name [DOLLAR] then substringFrom name 1 else name in
  mkParam name type defaultValue isReference isVariadic.

Definition typeIs (t : Token) (ty : TokenType) : bool :=
  TokenType_eqb (tok_type t) ty.

Definition valueIs (t : Token) (s : jsstring) : bool :=
  str_eqb (tok_value t) s.

(** [namespaceName += tokens[i].value] while the token is a [T_STRING] or a
    backslash, and likewise for other accumulating loops: the values of the
    tokens from [i] on are appended to [acc] until [stop] holds or the
    tokens end. *)
Fixpoint collectUntil (stop : Token -> bool) (fuel : nat)
  (tokens : list Token) (i : nat) (acc : jsstring) : nat * jsstring :=
  match fuel with
  | 0 => (i, acc)
  | S fuel' =>
      match nth_error tokens i with
      | Some t =>
          if stop t then (i, acc)
          else collectUntil stop fuel' tokens (S i) (acc ++ tok_value t)
      | None => (i, acc)
      end
  end.

(** [parseNamespace(tokens, start, fileData)]: the new state and the next
    index. *)
Definition parseNamespace (st : Indexer) (tokens : list Token) (start : nat)
  (fileKey : jsstring) : Indexer * nat :=
  let n := length tokens in
  let i := scanWhile (fun t => typeIs t T_WHITESPACE) n tokens (S start) in
  let '(i, namespaceName) :=
    collectUntil
      (fun t => negb (typeIs t T_STRING || valueIs t [BACKSLASH]))
      n tokens i [] in
  if nonEmpty namespaceName then
    let st := set_currentNamespace st namespaceName in
    let st := updFile st fileKey (fun fd => fd_set_namespace fd namespaceName) in
    let st :=
      if map_has (ix_namespaces st) namespaceName then st
      else set_namespaces st (map_set (ix_namespaces st) namespaceName []) in
    (st, i)
  else (st, i).

(** The accumulating loop of [parseUse]. *)
Fixpoint useLoop (fuel : nat) (tokens : list Token) (i : nat)
  (useName alias : jsstring) (inAlias : bool) : nat * jsstring * jsstring :=
  match fuel with
  | 0 => (i, useName, alias)
  | S fuel' =>
      match nth_error tokens i with
      | None => (i, useName, alias)
      | Some t =>
          if valueIs t (lit ";") then (i, useName, alias)
          else if str_eqb (toLowerCase (tok_value t)) (lit "as") then
            useLoop fuel' tokens (S i) useName alias true
          else if typeIs t T_STRING || valueIs t [BACKSLASH] then
            if inAlias
            then useLoop fuel' tokens (S i) useName (alias ++ tok_value t)
                   inAlias
            else useLoop fuel' tokens (S i) (useName ++ tok_value t) alias
                   inAlias
          else useLoop fuel' tokens (S i) useName alias inAlias
      end
  end.

(** [parseUse(tokens, start, fileData)] *)
Definition parseUse (st : Indexer) (tokens : list Token) (start : nat)
  (fileKey : jsstring) : Indexer * nat :=
  let n := length tokens in
  let i := scanWhile (fun t => typeIs t T_WHITESPACE) n tokens (S start) in
  let '(i, useName, alias) := useLoop n tokens i [] [] false in
  if nonEmpty useName then
    let finalAlias :=
      if nonEmpty alias then alias
      else lastOr (splitOn BACKSLASH useName) [] in
    (updFile st fileKey
       (fun fd => fd_set_uses fd (map_set (fd_uses fd) finalAlias useName)),
     i)
  else (st, i).

(** [tokens[start].line] *)
Definition lineAt (tokens : list Token) (start : nat) : nat :=
  match nth_error tokens start with
  | Some t => tok_line t
  | None => 0
  end.

(** [isIgnorable(tk)] of [parseFunction], on a token that exists. *)
Definition isIgnorable (tk : Token) : bool :=
  typeIs tk T_WHITESPACE || typeIs tk T_COMMENT || typeIs tk T_DOC_COMMENT
  || (typeIs tk CHAR && testClass isWhitespace (tok_value tk)).

(** The six [if (tokenType === ...) modifiers.add(...)] of the backward
    scan of [parseFunction]. *)
Definition addFunctionModifier (modifiers : JsSet) (tokenType : TokenType)
  : JsSet :=
  match tokenType with
  | T_PUBLIC => set_add modifiers (lit "public")
  | T_PROTECTED => set_add modifiers (lit "protected")
  | T_PRIVATE => set_add modifiers (lit "private")
  | T_STATIC => set_add modifiers (lit "static")
  | T_ABSTRACT => set_add modifiers (lit "abstract")
  | T_FINAL => set_add modifiers (lit "final")
  | _ => modifiers
  end.

(** [let j = start - 1; while (j >= 0 && tokens[j].type !== 'CHAR')
    { ...; j--; }] of [parseFunction], entered with [n = j + 1]. *)
Fixpoint functionModifiersFrom (tokens : list Token) (n : nat)
  (modifiers : JsSet) : JsSet :=
  match n with
  | 0 => modifiers
  | S j =>
      match nth_error tokens j with
      | Some t =>
          if typeIs t CHAR then modifiers
          else functionModifiersFrom tokens j
                 (addFunctionModifier modifiers (tok_type t))
      | None => modifiers
      end
  end.

(** The modifier set of [parseFunction]: the backward scan and the default
    visibility. *)
Definition functionModifiers (tokens : list Token) (start : nat) : JsSet :=
  let modifiers := functionModifiersFrom tokens start [] in
  if negb (set_has modifiers (lit "public"))
     && negb (set_has modifiers (lit "protected"))
     && negb (set_has modifiers (lit "private"))
  then set_add modifiers (lit "public")
  else modifiers.

(** The parenthesis matching loop of the anonymous-closure skip. *)
Fixpoint closeParenLoop (fuel : nat) (tokens : list Token) (i : nat)
  (depth : Z) : nat :=
  match fuel with
  | 0 => i
  | S fuel' =>
      match nth_error tokens i with
      | None => i
      | Some t =>
          let depth := if valueIs t (lit "(") then (depth + 1)%Z else depth in
          if valueIs t (lit ")") then
            let depth := (depth - 1)%Z in
            if (depth =? 0)%Z then S i
            else closeParenLoop fuel' tokens (S i) depth
          else closeParenLoop fuel' tokens (S i) depth
      end
  end.

Definition LPAREN : codeunit := 40%N.
Definition RPAREN : codeunit := 41%N.

(** [currentParam.replace(/^\(+/, '').replace(/\)+$/, '').trim()] *)
Definition stripParens (s : jsstring) : jsstring :=
  let s := dropWhile (fun c => (c =? LPAREN)%N) s in
  let s := rev (dropWhile (fun c => (c =? RPAREN)%N) (rev s)) in
  trim s.

(** The parameter list loop of [parseFunction]. *)
Fixpoint paramLoop (fuel : nat) (tokens : list Token) (i : nat)
  (parameters : list ParameterDef) (inParams : bool) (paramDepth : Z)
  (currentParam : jsstring) : nat * list ParameterDef :=
  match fuel with
  | 0 => (i, parameters)
  | S fuel' =>
      match nth_error tokens i with
      | None => (i, parameters)
      | Some token =>
          if valueIs token (lit "(") then
            paramLoop fuel' tokens (S i) parameters true (paramDepth + 1)%Z
              (currentParam ++ tok_value token)
          else if valueIs token (lit ")") then
            let paramDepth := (paramDepth - 1)%Z in
            if (paramDepth =? 0)%Z then
              let parameters :=
                if nonEmpty (trim currentParam) then
                  let trimmed := stripParens currentParam in
                  if nonEmpty trimmed
                  then parameters ++ [parseParameter trimmed]
                  else parameters
                else parameters in
              (S i, parameters)
            else
              paramLoop fuel' tokens (S i) parameters inParams paramDepth
                (currentParam ++ tok_value token)
          else if inParams && valueIs token (lit ",")
                  && (paramDepth =? 1)%Z then
            let parameters :=
              if nonEmpty (trim currentParam)
              then parameters ++ [parseParameter (trim currentParam)]
              else parameters in
            paramLoop fuel' tokens (S i) parameters inParams paramDepth []
          else if inParams then
            paramLoop fuel' tokens (S i) parameters inParams paramDepth
              (currentParam ++ tok_value token)
          else
            paramLoop fuel' tokens (S i) parameters inParams paramDepth
              currentParam
      end
  end.

(** [/[\\?|]/] *)
Definition isTypeMarker (c : codeunit) : bool :=
  ((c =? BACKSLASH) || (c =? 63) || (c =? 124))%N.

(** [s || null] *)
Definition orNull (s : jsstring) : option jsstring :=
  if nonEmpty s then Some s else None.

(** [parseFunction(tokens, start, fileData)] *)
Definition parseFunction (st : Indexer) (tokens : list Token) (start : nat)
  (fileKey : jsstring) : Indexer * nat :=
  let n := length tokens in
  (* Parse modifiers, backwards from the function keyword *)
  let modifiers := functionModifiers tokens start in
  let i := scanWhile isIgnorable n tokens (S start) in
  let named :=
    match nth_error tokens i with
    | Some t => typeIs t T_STRING
    | None => false
    end in
  if negb named then
    (* anonymous closure *)
    let i := scanWhile (fun t => negb (valueIs t (lit "("))) n tokens i in
    if n <=? i then (st, i + 1)
    else
      let i := closeParenLoop n tokens i 0 in
      let i :=
        scanWhile (fun t => negb (valueIs t (lit "{"))
                            && negb (valueIs t (lit ";"))) n tokens i in
      (st, i + 1)
  else
    let functionName :=
      match nth_error tokens i with Some t => tok_value t | None => [] end in
    let i := S i in
    let '(i, parameters) := paramLoop n tokens i [] false 0 [] in
    let i := scanWhile isIgnorable n tokens i in
    let '(i, returnType) :=
      match nth_error tokens i with
      | Some t =>
          if valueIs t (lit ":") then
            let '(i, typeTokens) :=
              collectUntil
                (fun tk => negb (typeIs tk T_STRING
                                 || (typeIs tk CHAR
                                     && testClass isTypeMarker (tok_value tk))))
                n tokens (S i) [] in
            (i, orNull (trim typeTokens))
          else (i, None)
      | None => (i, None)
      end in
    let currentClass :=
      match ix_currentClass st with
      | Some r => deref st r
      | None => None
      end in
    let functionDefinition :=
      mkFunction functionName modifiers parameters returnType
        (ix_lastDocComment st) (ix_currentFile st) (lineAt tokens start)
        (match ix_currentClass st with Some _ => true | None => false end)
        (match currentClass with
         | Some c => orNull (cls_name c)
         | None => None
         end)
        false in
    let st :=
      match ix_currentClass st with
      | Some r =>
          updClass st r
            (fun c => cls_set_methods c
                        (map_set (cls_methods c) functionName
                           functionDefinition))
      | None =>
          let fullName :=
            if nonEmpty (ix_currentNamespace st)
            then ix_currentNamespace st ++ [BACKSLASH] ++ functionName
            else functionName in
          let st :=
            set_functions st
              (map_set (ix_functions st) fullName functionDefinition) in
          updFile st fileKey
            (fun fd => fd_set_functions fd
                         (map_set (fd_functions fd) functionName
                            functionDefinition))
      end in
    (set_lastDocComment st None, i).

(** The modifier loop of [parseProperty]. *)
Fixpoint propertyModifiersLoop (fuel : nat) (tokens : list Token) (i : nat)
  (modifiers : JsSet) : nat * JsSet :=
  match fuel with
  | 0 => (i, modifiers)
  | S fuel' =>
      match nth_error tokens i with
      | None => (i, modifiers)
      | Some t =>
          if typeIs t T_PUBLIC then
            propertyModifiersLoop fuel' tokens (S i)
              (set_add modifiers (lit "public"))
          else if typeIs t T_PROTECTED then
            propertyModifiersLoop fuel' tokens (S i)
              (set_add modifiers (lit "protected"))
          else if typeIs t T_PRIVATE then
            propertyModifiersLoop fuel' tokens (S i)
              (set_add modifiers (lit "private"))
          else if typeIs t T_STATIC then
            propertyModifiersLoop fuel' tokens (S i)
              (set_add modifiers (lit "static"))
          else if typeIs t T_CONST then
            (S i, set_add modifiers (lit "const"))
          else if isIgnorable t then
            propertyModifiersLoop fuel' tokens (S i) modifiers
          else (i, modifiers)
      end
  end.

Definition isSpaceOrComment (t : Token) : bool :=
  typeIs t T_WHITESPACE || typeIs t T_COMMENT.

(** [if (i < tokens.length && tokens[i].value === s) i++] *)
Definition skipIf (tokens : list Token) (i : nat) (s : jsstring) : nat :=
  match nth_error tokens i with
  | Some t => if valueIs t s then S i else i
  | None => i
  end.

(** The variable loop of [parseProperty]:
    [while (i < tokens.length) { ... }] over [$a, $b = 1;]. *)
Fixpoint propertyVarsLoop (fuel : nat) (st : Indexer) (tokens : list Token)
  (i : nat) (modifiers : JsSet) : Indexer * nat :=
  match fuel with
  | 0 => (st, i)
  | S fuel' =>
      let n := length tokens in
      if i <? n then
        let i := scanWhile isSpaceOrComment n tokens i in
        match nth_error tokens i with
        | Some varToken =>
            if typeIs varToken T_VARIABLE then
              let propName := stripPrefix [DOLLAR] (tok_value varToken) in
              let i := S i in
              let i := scanWhile isSpaceOrComment n tokens i in
              let '(i, defaultValue) :=
                match nth_error tokens i with
                | Some t =>
                    if valueIs t (lit "=") then
                      let '(i, val) :=
                        collectUntil
                          (fun tk => valueIs tk (lit ",")
                                     || valueIs tk (lit ";"))
                          n tokens (S i) [] in
                      (i, orNull (trim val))
                    else (i, None)
                | None => (i, None)
                end in
              let st :=
                match ix_currentClass st with
                | Some r =>
                    updClass st r
                      (fun c => cls_set_properties c
                         (map_set (cls_properties c) propName
                            (mkProperty propName modifiers defaultValue
                               (ix_currentFile st) (tok_line varToken)
                               (ix_lastDocComment st) false)))
                | None => st
                end in
              match nth_error tokens i with
              | Some t =>
                  if valueIs t (lit ",") then
                    propertyVarsLoop fuel' st tokens (S i) modifiers
                  else if valueIs t (lit ";") then (st, S i)
                  else propertyVarsLoop fuel' st tokens i modifiers
              | None => propertyVarsLoop fuel' st tokens i modifiers
              end
            else
              let i :=
                scanWhile (fun t => negb (valueIs t (lit ";"))) n tokens i in
              (st, skipIf tokens i (lit ";"))
        | None =>
            let i :=
              scanWhile (fun t => negb (valueIs t (lit ";"))) n tokens i in
            (st, skipIf tokens i (lit ";"))
        end
      else (st, i)
  end.

(** [parseProperty(tokens, start, fileData)] *)
Definition parseProperty (st : Indexer) (tokens : list Token) (start : nat)
  (fileKey : jsstring) : Indexer * nat :=
  let n := length tokens in
  let '(i, modifiers) := propertyModifiersLoop n tokens start [] in
  (* default visibility public if not set and not const *)
  let modifiers :=
    if negb (set_has modifiers (lit "public"))
       && negb (set_has modifiers (lit "protected"))
       && negb (set_has modifiers (lit "private"))
       && negb (set_has modifiers (lit "const"))
    then set_add modifiers (lit "public")
    else modifiers in
  let variables (i : nat) : Indexer * nat :=
    let '(st, i) := propertyVarsLoop (S n) st tokens i modifiers in
    (set_lastDocComment st None, i) in
  if set_has modifiers (lit "const") then
    let i := scanWhile isSpaceOrComment n tokens i in
    match nth_error tokens i with
    | Some t =>
        if typeIs t T_STRING then
          let constName := tok_value t in
          let i := S i in
          let i :=
            scanWhile (fun tk => negb (valueIs tk (lit "="))) n tokens i in
          let i := skipIf tokens i (lit "=") in
          let '(i, val) :=
            collectUntil (fun tk => valueIs tk (lit ";")) n tokens i [] in
          let i := skipIf tokens i (lit ";") in
          let st :=
            match ix_currentClass st with
            | Some r =>
                updClass st r
                  (fun c => cls_set_constants c
                     (map_set (cls_constants c) constName
                        (mkConst constName (trim val) modifiers
                           (ix_currentFile st) (lineAt tokens start)
                           (ix_lastDocComment st))))
            | None => st
            end in
          (set_lastDocComment st None, i)
        else variables i
    | None => variables i
    end
  else variables i.

(** The backward scan of [parseClass] for [abstract] and [final], entered
    with [n = j + 1]. *)
Fixpoint classModifiersFrom (tokens : list Token) (n : nat)
  (modifiers : JsSet) : JsSet :=
  match n with
  | 0 => modifiers
  | S j =>
      match nth_error tokens j with
      | Some t =>
          if typeIs t CHAR then modifiers
          else
            let modifiers :=
              if typeIs t T_ABSTRACT
              then set_add modifiers (lit "abstract") else modifiers in
            let modifiers :=
              if typeIs t T_FINAL
              then set_add modifiers (lit "final") else modifiers in
            classModifiersFrom tokens j modifiers
      | None => modifiers
      end
  end.

(** The inner loop after [implements]: every [T_STRING] up to the brace. *)
Fixpoint implementsLoop (fuel : nat) (tokens : list Token) (i : nat)
  (implementsInterfaces : list jsstring) : nat * list jsstring :=
  match fuel with
  | 0 => (i, implementsInterfaces)
  | S fuel' =>
      match nth_error tokens i with
      | None => (i, implementsInterfaces)
      | Some t =>
          if valueIs t (lit "{") then (i, implementsInterfaces)
          else
            implementsLoop fuel' tokens (S i)
              (if typeIs t T_STRING
               then implementsInterfaces ++ [tok_value t]
               else implementsInterfaces)
      end
  end.

(** The header loop of [parseClass]: extends and implements. *)
Fixpoint classHeaderLoop (fuel : nat) (tokens : list Token) (i : nat)
  (extendsClass implementsInterfaces : list jsstring)
  : nat * list jsstring * list jsstring :=
  match fuel with
  | 0 => (i, extendsClass, implementsInterfaces)
  | S fuel' =>
      let n := length tokens in
      match nth_error tokens i with
      | None => (i, extendsClass, implementsInterfaces)
      | Some t =>
          if valueIs t (lit "{") then (i, extendsClass, implementsInterfaces)
          else if typeIs t T_EXTENDS then
            let i := scanWhile (fun t => typeIs t T_WHITESPACE) n tokens (S i) in
            match nth_error tokens i with
            | Some t' =>
                if typeIs t' T_STRING then
                  classHeaderLoop fuel' tokens (S i)
                    (extendsClass ++ [tok_value t']) implementsInterfaces
                else
                  classHeaderLoop fuel' tokens i extendsClass
                    implementsInterfaces
            | None =>
                classHeaderLoop fuel' tokens i extendsClass
                  implementsInterfaces
            end
          else if typeIs t T_IMPLEMENTS then
            let '(i, implementsInterfaces) :=
              implementsLoop n tokens (S i) implementsInterfaces in
            classHeaderLoop fuel' tokens i extendsClass implementsInterfaces
          else
            classHeaderLoop fuel' tokens (S i) extendsClass
              implementsInterfaces
      end
  end.

(** The body loop of [parseClass]:
    [while (i < tokens.length && braceDepth > 0) { ... }]. *)
Fixpoint classBodyLoop (fuel : nat) (st : Indexer) (tokens : list Token)
  (i braceDepth : nat) (fileKey : jsstring) : Indexer * nat :=
  match fuel with
  | 0 => (st, i)
  | S fuel' =>
      match nth_error tokens i with
      | None => (st, i)
      | Some tk =>
          if braceDepth =? 0 then (st, i)
          else if valueIs tk (lit "{") then
            classBodyLoop fuel' st tokens (S i) (S braceDepth) fileKey
          else if valueIs tk (lit "}") then
            classBodyLoop fuel' st tokens (S i) (braceDepth - 1) fileKey
          else if typeIs tk T_DOC_COMMENT then
            classBodyLoop fuel'
              (set_lastDocComment st
                 (Some (parseDocComment (tok_value tk))))
              tokens (S i) braceDepth fileKey
          else if typeIs tk T_FUNCTION then
            let '(st, i) := parseFunction st tokens i fileKey in
            classBodyLoop fuel' st tokens i braceDepth fileKey
          else if typeIs tk T_PUBLIC || typeIs tk T_PROTECTED
                  || typeIs tk T_PRIVATE || typeIs tk T_STATIC
                  || typeIs tk T_CONST then
            let '(st, i) := parseProperty st tokens i fileKey in
            classBodyLoop fuel' st tokens i braceDepth fileKey
          else classBodyLoop fuel' st tokens (S i) braceDepth fileKey
      end
  end.

(** [parseClass(tokens, start, fileData)] *)
Definition parseClass (st : Indexer) (tokens : list Token) (start : nat)
  (fileKey : jsstring) : Indexer * nat :=
  let n := length tokens in
  let classType :=
    match nth_error tokens start with
    | Some t => toLowerCase (tok_value t)
    | None => []
    end in
  (* Parse modifiers (abstract, final) *)
  let modifiers := classModifiersFrom tokens start [] in
  (* Skip ignorable tokens to class name *)
  let i :=
    scanWhile (fun t => typeIs t T_WHITESPACE || typeIs t T_COMMENT
                        || typeIs t T_DOC_COMMENT) n tokens (S start) in
  match nth_error tokens i with
  | None => (st, i)
  | Some nameToken =>
      if negb (typeIs nameToken T_STRING) then (st, i)
      else
        let className := tok_value nameToken in
        let i := S i in
        let '(i, extendsClass, implementsInterfaces) :=
          classHeaderLoop n tokens i [] [] in
        (* Build class data *)
        let fullClassName :=
          if nonEmpty (ix_currentNamespace st)
          then ix_currentNamespace st ++ [BACKSLASH] ++ className
          else className in
        let classDefinition :=
          mkClass className fullClassName (ix_currentNamespace st) classType
            modifiers extendsClass implementsInterfaces [] [] []
            (ix_currentFile st) (ix_lastDocComment st) (lineAt tokens start)
            false in
        let ref : ClassRef := length (ix_heap st) in
        let st := set_heap st (ix_heap st ++ [classDefinition]) in
        let st := set_classes st (map_set (ix_classes st) fullClassName ref) in
        let st :=
          updFile st fileKey
            (fun fd => fd_set_classes fd
                         (map_set (fd_classes fd) className ref)) in
        let st := set_currentClass st (Some ref) in
        let st :=
          if nonEmpty (ix_currentNamespace st) then
            match map_get (ix_namespaces st) (ix_currentNamespace st) with
            | Some members =>
                set_namespaces st
                  (map_set (ix_namespaces st) (ix_currentNamespace st)
                     (set_add members fullClassName))
            | None => st
            end
          else st in
        let st := set_lastDocComment st None in
        match nth_error tokens i with
        | None => (st, i)
        | Some t =>
            if negb (valueIs t (lit "{")) then (st, i)
            else
              (* Scan class body until the matching brace *)
              let i := scanWhile (fun t => negb (valueIs t (lit "{")))
                         n tokens i in
              let '(braceDepth, i) :=
                match nth_error tokens i with
                | Some t' => if valueIs t' (lit "{") then (1, S i) else (0, i)
                | None => (0, i)
                end in
              let '(st, i) := classBodyLoop n st tokens i braceDepth fileKey in
              (set_currentClass st None, i)
        end
  end.

(** The loop of [parseTokens(tokens, fileKey)]. *)
Fixpoint parseTokensLoop (fuel : nat) (st : Indexer) (tokens : list Token)
  (i : nat) (fileKey : jsstring) : Indexer :=
  match fuel with
  | 0 => st
  | S fuel' =>
      match nth_error tokens i with
      | None => st
      | Some token =>
          match tok_type token with
          | T_NAMESPACE =>
              let '(st, i) := parseNamespace st tokens i fileKey in
              parseTokensLoop fuel' st tokens i fileKey
          | T_USE =>
              let '(st, i) := parseUse st tokens i fileKey in
              parseTokensLoop fuel' st tokens i fileKey
          | T_CLASS | T_INTERFACE | T_TRAIT =>
              let '(st, i) := parseClass st tokens i fileKey in
              parseTokensLoop fuel' st tokens i fileKey
          | T_FUNCTION =>
              let '(st, i) := parseFunction st tokens i fileKey in
              parseTokensLoop fuel' st tokens i fileKey
          | T_DOC_COMMENT =>
              parseTokensLoop fuel'
                (set_lastDocComment st
                   (Some (parseDocComment (tok_value token))))
                tokens (S i) fileKey
          | _ => parseTokensLoop fuel' st tokens (S i) fileKey
          end
      end
  end.

Definition parseTokens (st : Indexer) (tokens : list Token)
  (fileKey : jsstring) : Indexer :=
  parseTokensLoop (length tokens) st tokens 0 fileKey.

Definition SLASH : codeunit := 47%N.

(** [normalizeFilePath(filePath)]: every backslash becomes a slash. *)
Definition normalizeFilePath (filePath : jsstring) : jsstring :=
  map (fun c => if (c =? BACKSLASH)%N then SLASH else c) filePath.

(** [clearIndex()] *)
Definition clearIndex (st : Indexer) : Indexer :=
  mkIndexer [] [] [] [] [] [] [] []
    (ix_currentFile st) (ix_currentNamespace st) (ix_currentClass st)
    (ix_currentFunction st) (ix_lastDocComment st) (ix_totalFiles st)
    (ix_processedFiles st) (ix_onProgress st) (ix_heap st).

(** [processPhpFile(filePath)], from the point where the read of the file
    has settled: [content] is [None] when the read failed (the error is
    caught and logged, nothing else happens), and [now] is [Date.now()]. *)
Definition processPhpFile (st : Indexer) (filePath : jsstring)
  (content : option jsstring) (now : Z) : Indexer :=
  match content with
  | None => st
  | Some content =>
      let st := set_currentFile st (Some filePath) in
      let st := set_currentNamespace st [] in
      let st := set_currentClass st None in
      let st := set_currentFunction st None in
      let fileKey := normalizeFilePath filePath in
      let st :=
        set_fileIndex st
          (map_set (ix_fileIndex st) fileKey
             (mkFile filePath [] [] [] [] now)) in
      let tokens := tokenize content in
      parseTokens st tokens fileKey
  end.

(* ================================================================== *)
(** ** Symbol table queries and the inheritance resolver *)
(* ================================================================== *)

(** The fields of the [context] argument that [resolveClassName] reads.
    The resolver passes a class definition. *)
Record Context := mkContext {
  ctx_namespace : jsstring;
  ctx_file : option jsstring
}.

Definition classContext (c : ClassDef) : Context :=
  mkContext (cls_namespace c) (cls_file c).

(** The result of [resolveClassName]: a class object, [null], or the
    [TypeError] of [normalizeFilePath] on a context without a file. *)
Inductive Resolved :=
| Found (r : ClassRef)
| NoMatch
| TypeError.

(** [resolveClassName(className, context)] *)
Definition resolveClassName (st : Indexer) (className : jsstring)
  (context : Context) : Resolved :=
  (* Try direct lookup first *)
  match map_get (ix_classes st) className with
  | Some r => Found r
  | None =>
      (* Try with current namespace *)
      let namespaced :=
        if nonEmpty (ctx_namespace context) then
          map_get (ix_classes st)
            (ctx_namespace context ++ [BACKSLASH] ++ className)
        else None in
      match namespaced with
      | Some r => Found r
      | None =>
          (* Try use statements *)
          match ctx_file context with
          | None => TypeError
          | Some file =>
              match map_get (ix_fileIndex st) (normalizeFilePath file) with
              | Some fileData =>
                  match map_get (fd_uses fileData) className with
                  | Some fullName =>
                      match map_get (ix_classes st) fullName with
                      | Some r => Found r
                      | None => NoMatch
                      end
                  | None => NoMatch
                  end
              | None => NoMatch
              end
          end
      end
  end.

(** [modifiers.has('public') || modifiers.has('protected')] *)
Definition isInheritable (modifiers : JsSet) : bool :=
  set_has modifiers (lit "public") || set_has modifiers (lit "protected").

(** [{ ...methodData, inherited: true }] *)
Definition inheritedMethod (m : FunctionDef) : FunctionDef :=
  mkFunction (fn_name m) (fn_modifiers m) (fn_parameters m) (fn_returnType m)
    (fn_docComment m) (fn_file m) (fn_line m) (fn_isMethod m) (fn_class m)
    true.

(** [{ ...propData, inherited: true }] *)
Definition inheritedProperty (p : PropertyDef) : PropertyDef :=
  mkProperty (pr_name p) (pr_modifiers p) (pr_defaultValue p) (pr_file p)
    (pr_line p) (pr_docComment p) true.

(** [for (const [methodName, methodData] of parentClass.methods)
    if (!classData.methods.has(methodName) && ...)
    classData.methods.set(methodName, ...)], on the child's map. *)
Definition inheritMethods (own parent : JsMap FunctionDef)
  : JsMap FunctionDef :=
  fold_left
    (fun acc entry =>
       let '(methodName, methodData) := entry in
       if negb (map_has acc methodName)
          && isInheritable (fn_modifiers methodData)
       then map_set acc methodName (inheritedMethod methodData)
       else acc)
    parent own.

Definition inheritProperties (own parent : JsMap PropertyDef)
  : JsMap PropertyDef :=
  fold_left
    (fun acc entry =>
       let '(propName, propData) := entry in
       if negb (map_has acc propName)
          && isInheritable (pr_modifiers propData)
       then map_set acc propName (inheritedProperty propData)
       else acc)
    parent own.

(** How a call returns: normally, or by an exception that unwinds it.  The
    state is the store at that point. *)
Inductive Outcome :=
| Done (st : Indexer)
| StackOverflow (st : Indexer)
| Thrown (st : Indexer).

(** The loop [for (const parentName of classData.extends)] of
    [resolveInheritance]; [resolve] is the recursive call. *)
Fixpoint inheritLoop (resolve : Indexer -> ClassRef -> Outcome)
  (st : Indexer) (classData : ClassRef) (context : Context)
  (parents : list jsstring) : Outcome :=
  match parents with
  | [] => Done st
  | parentName :: parents' =>
      match resolveClassName st parentName context with
      | TypeError => Thrown st
      | NoMatch => inheritLoop resolve st classData context parents'
      | Found parentClass =>
          (* Ensure parent is resolved first *)
          match resolve st parentClass with
          | Done st =>
              let st :=
                match deref st parentClass with
                | Some parent =>
                    let st :=
                      updClass st classData
                        (fun c => cls_set_methods c
                           (inheritMethods (cls_methods c)
                              (cls_methods parent))) in
                    updClass st classData
                      (fun c => cls_set_properties c
                         (inheritProperties (cls_properties c)
                            (cls_properties parent)))
                | None => st
                end in
              inheritLoop resolve st classData context parents'
          | StackOverflow st => StackOverflow st
          | Thrown st => Thrown st
          end
      end
  end.

(** [resolveInheritance(classData)].  [depth] is the number of nested calls
    the call stack still admits; a call beyond it raises the engine's
    [RangeError], which nothing in the resolver catches. *)
Fixpoint resolveInheritance (depth : nat) (st : Indexer)
  (classData : ClassRef) : Outcome :=
  match depth with
  | 0 => StackOverflow st
  | S depth' =>
      match deref st classData with
      | None => Done st
      | Some c =>
          if cls_inheritanceResolved c then Done st
          else
            match inheritLoop (resolveInheritance depth') st classData
                    (classContext c) (cls_extends c) with
            | Done st =>
                Done (updClass st classData
                        (fun c => cls_set_inheritanceResolved c true))
            | StackOverflow st => StackOverflow st
            | Thrown st => Thrown st
            end
      end
  end.

(** The loop of [postProcessIndex()] over the entries of [this.classes];
    [buildCompletionCaches()] does nothing. *)
Fixpoint postProcessLoop (depth : nat) (st : Indexer)
  (entries : list (jsstring * ClassRef)) : Outcome :=
  match entries with
  | [] => Done st
  | (_, classData) :: entries' =>
      match resolveInheritance depth st classData with
      | Done st => postProcessLoop depth st entries'
      | StackOverflow st => StackOverflow st
      | Thrown st => Thrown st
      end
  end.

Definition postProcessIndex (depth : nat) (st : Indexer) : Outcome :=
  postProcessLoop depth st (ix_classes st).

(** [setProgressCallback(callback)]: only the presence of a callback is
    kept. *)
Definition setProgressCallback (st : Indexer) (callback : bool) : Indexer :=
  set_onProgress st callback.

(** A file of an indexing run: its path, what the read gave, and the clock
    when it was processed. *)
Definition FileInput := (jsstring * option jsstring * Z)%type.

Definition processFiles (st : Indexer) (batch : list FileInput) : Indexer :=
  fold_left
    (fun st f => let '(filePath, content, now) := f in
                 processPhpFile st filePath content now)
    batch st.

(** The batch loop of [indexPhpFiles]: [i] counts the files before the
    batch, [total] is [files.length]; the result carries the progress
    reports [(processedFiles, totalFiles)] made so far. *)
Fixpoint batchLoop (fuel : nat) (st : Indexer) (files : list FileInput)
  (i total : nat) (reports : list (nat * nat))
  : Indexer * list (nat * nat) :=
  match fuel with
  | 0 => (st, reports)
  | S fuel' =>
      match files with
      | [] => (st, reports)
      | _ =>
          let batchSize := 10 in
          let st := processFiles st (firstn batchSize files) in
          let st := set_processedFiles st (Nat.min (i + batchSize) total) in
          let reports :=
            if ix_onProgress st
            then reports ++ [(ix_processedFiles st, ix_totalFiles st)]
            else reports in
          batchLoop fuel' st (skipn batchSize files) (i + batchSize) total
            reports
      end
  end.

(** [indexPhpFiles(pocketMinePath)].  [files] is what [findPhpFiles] gives
    ([None] when the enumeration fails and the error is rethrown); within
    a batch the files come in the order in which their reads settle. *)
Definition indexPhpFiles (depth : nat) (st : Indexer)
  (files : option (list FileInput)) : Outcome * list (nat * nat) :=
  let st := clearIndex st in
  match files with
  | None => (Thrown st, [])
  | Some files =>
      let st := set_totalFiles st (length files) in
      let st := set_processedFiles st 0 in
      let '(st, reports) :=
        batchLoop (length files) st files 0 (length files) [] in
      (postProcessIndex depth st, reports)
  end.

(* ================================================================== *)
(** ** The completion engine *)
(* ================================================================== *)

(** A completion item. *)
Record Completion := mkCompletion {
  caption : jsstring;
  value : jsstring;
  meta : jsstring;
  score : Z;
  docText : jsstring;
  snippet : option jsstring
}.

Definition withDocText (c : Completion) (d : jsstring) : Completion :=
  mkCompletion (caption c) (value c) (meta c) (score c) d (snippet c).

Definition withSnippet (c : Completion) (s : jsstring) : Completion :=
  mkCompletion (caption c) (value c) (meta c) (score c) (docText c) (Some s).

(** [arr.join(sep)] *)
Fixpoint joinWith (sep : jsstring) (l : list jsstring) : jsstring :=
  match l with
  | [] => []
  | [x] => x
  | x :: l' => x ++ sep ++ joinWith sep l'
  end.

(** The body of the [forEach] of [formatParameters]: the signature text and
    the snippet placeholder of the parameter at [index]. *)
Definition formatParameter (param : ParameterDef) (index : nat)
  : jsstring * jsstring :=
  let paramStr :=
    (match par_type param with
     | Some t => if nonEmpty t then t ++ lit " " else []
     | None => []
     end)
    ++ (if par_isReference param then lit "&" else [])
    ++ (if par_isVariadic param then lit "..." else [])
    ++ lit "$" ++ par_name param
    ++ (match par_defaultValue param with
        | Some d => lit " = " ++ d
        | None => []
        end) in
  let placeholder :=
    lit "${" ++ natToString (index + 1) ++ lit ":$" ++ par_name param
    ++ lit "}" in
  (paramStr, placeholder).

(** [formatParameters(parameters)]: [(snippet, signature)]. *)
Definition formatParameters (parameters : list ParameterDef)
  : jsstring * jsstring :=
  let formatted :=
    map (fun ip => formatParameter (snd ip) (fst ip))
      (combine (seq 0 (length parameters)) parameters) in
  (joinWith (lit ", ") (map snd formatted),
   joinWith (lit ", ") (map fst formatted)).

(** [data.name || 'No documentation available'] *)
Definition nameOrNoDoc (name : jsstring) : jsstring :=
  if nonEmpty name then name else lit "No documentation available".

(** [formatDocText(data)], on the fields [docComment] and [name] of
    [data]. *)
Definition formatDocText (docComment : option DocComment) (name : jsstring)
  : jsstring :=
  match docComment with
  | None => nameOrNoDoc name
  | Some doc =>
      let text := doc_summary doc in
      let text :=
        if nonEmpty (doc_description doc) then
          text ++ (if nonEmpty text then [NL; NL] else [])
          ++ doc_description doc
        else text in
      let text :=
        match map_get (doc_tags doc) (lit "param") with
        | Some params =>
            text ++ [NL; NL] ++ lit "Parameters:" ++ [NL]
            ++ joinWith [NL] (map (fun p => lit "  " ++ p) params)
        | None => text
        end in
      let text :=
        match map_get (doc_tags doc) (lit "return") with
        | Some returns =>
            text ++ [NL; NL] ++ lit "Returns: "
            ++ nth 0 returns (lit "undefined")
        | None => text
        end in
      if nonEmpty text then text else nameOrNoDoc name
  end.

(** [createMethodCompletion(methodName, methodData)] *)
Definition createMethodCompletion (methodName : jsstring)
  (methodData : FunctionDef) : Completion :=
  let params := formatParameters (fn_parameters methodData) in
  mkCompletion methodName
    (methodName ++ lit "(" ++ fst params ++ lit ")")
    (if set_has (fn_modifiers methodData) (lit "static")
     then lit "static method" else lit "method")
    1000
    (formatDocText (fn_docComment methodData) (fn_name methodData)
     ++ [NL; NL] ++ lit "Signature: " ++ methodName ++ lit "("
     ++ snd params ++ lit ")")
    None.

(** [createFunctionCompletion(functionName, functionData)] *)
Definition createFunctionCompletion (functionName : jsstring)
  (functionData : FunctionDef) : Completion :=
  let params := formatParameters (fn_parameters functionData) in
  mkCompletion functionName
    (functionName ++ lit "(" ++ fst params ++ lit ")")
    (lit "function")
    900
    (formatDocText (fn_docComment functionData) (fn_name functionData)
     ++ [NL; NL] ++ lit "Signature: " ++ functionName ++ lit "("
     ++ snd params ++ lit ")")
    None.

(** [commonMethods] *)
Definition commonMethods : list jsstring :=
  [lit "__construct"; lit "getName"; lit "getId"; lit "toString";
   lit "getValue"].

(** [calculateScore(itemName, prefix, data = {})].  Of [data] only the field
    [modifiers] is read; [None] is a [data] without it.  The lower-casing
    is [toLowerCase], so the definition is the method on names and
    prefixes within U+0000..U+00FF; [calculateScoreWith] below is the
    method on all of them. *)
Definition calculateScore (itemName prefix : jsstring)
  (modifiers : option JsSet) : Z :=
  let score := 1000%Z in
  let lowerItem := toLowerCase itemName in
  let lowerPrefix := toLowerCase prefix in
  let score :=
    if str_eqb lowerItem lowerPrefix then (score + 500)%Z
    else if startsWith lowerItem lowerPrefix then (score + 300)%Z
    else if includes lowerItem lowerPrefix then (score + 100)%Z
    else score in
  let score :=
    match modifiers with
    | Some m => if set_has m (lit "public") then (score + 50)%Z else score
    | None => score
    end in
  let score :=
    if existsb (str_eqb itemName) commonMethods then (score + 25)%Z
    else score in
  score.

(** [calculateScore] over the host's [String.prototype.toLowerCase], taken
    as the parameter [lower]: what the method computes for every name and
    prefix, also above U+00FF where [toLowerCase] of this file leaves the
    code units as they are.  [calculateScore] is its instance at
    [toLowerCase]. *)
Definition calculateScoreWith (lower : jsstring -> jsstring)
  (itemName prefix : jsstring) (modifiers : option JsSet) : Z :=
  let score := 1000%Z in
  let lowerItem := lower itemName in
  let lowerPrefix := lower prefix in
  let score :=
    if str_eqb lowerItem lowerPrefix then (score + 500)%Z
    else if startsWith lowerItem lowerPrefix then (score + 300)%Z
    else if includes lowerItem lowerPrefix then (score + 100)%Z
    else score in
  let score :=
    match modifiers with
    | Some m => if set_has m (lit "public") then (score + 50)%Z else score
    | None => score
    end in
  let score :=
    if existsb (str_eqb itemName) commonMethods then (score + 25)%Z
    else score in
  score.

(** [Array.prototype.sort(compare)]: a stable sort; [x] goes before the
    first element that does not compare below it. *)
Fixpoint sortInsert (A : Type) (compare : A -> A -> Z) (x : A) (l : list A)
  : list A :=
  match l with
  | [] => [x]
  | y :: l' =>
      if (compare x y <=? 0)%Z then x :: y :: l'
      else y :: sortInsert compare x l'
  end.

Definition jsSort (A : Type) (compare : A -> A -> Z) (l : list A) : list A :=
  fold_right (sortInsert compare) [] l.

(** The fields of a query [context] that the engine reads. *)
Record QueryContext := mkQuery {
  inSameClass : bool
}.

(** [PROPERTY_CONST] *)
Definition PROPERTY_CONST : nat := 2.

(** [propData.type]: the parser stores no [type] field on a property. *)
Definition pr_type (p : PropertyDef) : option nat := None.

(** [inferClassContext(context)] *)
Definition inferClassContext (st : Indexer) (context : QueryContext)
  : option ClassDef :=
  None.

Section Completions.

(** [String.prototype.localeCompare]: the collation of the host locale,
    known only as a comparison with a negative, zero or positive
    result. *)
Variable localeCompare : jsstring -> jsstring -> Z.

(** The comparison function of [sortCompletions]. *)
Definition compareCompletions (a b : Completion) : Z :=
  (* First sort by score (descending) *)
  if negb (score a =? score b)%Z then (score b - score a)%Z
  (* Then by caption length (ascending) *)
  else if negb (length (caption a) =? length (caption b)) then
    (Z.of_nat (length (caption a)) - Z.of_nat (length (caption b)))%Z
  (* Finally alphabetically *)
  else localeCompare (caption a) (caption b).

(** [sortCompletions(completions, prefix)] *)
Definition sortCompletions (completions : list Completion)
  (prefix : jsstring) : list Completion :=
  jsSort compareCompletions completions.

(** [getClassCompletions(prefix, context = {})]: the items and the state
    (the set [this.done]). *)
Definition getClassCompletions (st : Indexer) (prefix : jsstring)
  : list Completion * Indexer :=
  let st := set_done st [] in
  let lowerPrefix := toLowerCase prefix in
  let '(completions, done) :=
    fold_left
      (fun (acc : list Completion * JsSet) (entry : jsstring * ClassRef) =>
         let '(completions, done) := acc in
         match deref st (snd entry) with
         | None => acc
         | Some classData =>
             let className := cls_name classData in
             if includes (toLowerCase className) lowerPrefix then
               if set_has done className then acc
               else
                 let completion :=
                   mkCompletion className className (cls_type classData)
                     (calculateScore className prefix
                        (Some (cls_modifiers classData)))
                     (formatDocText (cls_docComment classData)
                        (cls_name classData))
                     None in
                 let completion :=
                   match map_get (cls_methods classData)
                           (lit "__construct") with
                   | Some constructor =>
                       let params :=
                         formatParameters (fn_parameters constructor) in
                       withDocText
                         (withSnippet completion
                            (className ++ lit "(" ++ fst params ++ lit ")"))
                         (docText completion ++ [NL; NL]
                          ++ lit "Constructor: " ++ snd params)
                   | None =>
                       withSnippet completion (className ++ lit "()")
                   end in
                 let completion :=
                   if nonEmpty (cls_namespace classData) then
                     withDocText completion
                       (docText completion ++ [NL; NL]
                        ++ lit "Namespace: " ++ cls_namespace classData)
                   else completion in
                 (completions ++ [completion], set_add done className)
             else acc
         end)
      (ix_classes st) ([], ix_done st) in
  (sortCompletions completions prefix, set_done st done).

(** The method loop shared by the branches of [getMethodCompletions] and
    [getStaticMethodCompletions]: [keep] is the filter and [finish] the
    adjustment of the item. *)
Definition methodItems (keep : jsstring -> FunctionDef -> bool)
  (finish : Completion -> Completion) (methods : JsMap FunctionDef)
  (acc : list Completion * JsSet) : list Completion * JsSet :=
  fold_left
    (fun (acc : list Completion * JsSet) (entry : jsstring * FunctionDef) =>
       let '(completions, done) := acc in
       let '(methodName, methodData) := entry in
       if keep methodName methodData then
         if set_has done methodName then acc
         else
           (completions
            ++ [finish (createMethodCompletion methodName methodData)],
            set_add done methodName)
       else acc)
    methods acc.

(** [getMethodCompletions(prefix, context = {})] *)
Definition getMethodCompletions (st : Indexer) (prefix : jsstring)
  (context : QueryContext) : list Completion * Indexer :=
  let st := set_done st [] in
  let lowerPrefix := toLowerCase prefix in
  let '(completions, done) :=
    match inferClassContext st context with
    | Some classContext =>
        (* Get methods from specific class *)
        let acc :=
          methodItems
            (fun methodName methodData =>
               startsWith (toLowerCase methodName) lowerPrefix
               && (set_has (fn_modifiers methodData) (lit "public")
                   || inSameClass context))
            (fun c => c) (cls_methods classContext) ([], ix_done st) in
        (* Get properties *)
        fold_left
          (fun (acc : list Completion * JsSet)
               (entry : jsstring * PropertyDef) =>
             let '(completions, done) := acc in
             let '(propName, propData) := entry in
             if startsWith (toLowerCase propName) lowerPrefix
                && (set_has (pr_modifiers propData) (lit "public")
                    || inSameClass context)
                && negb (set_has (pr_modifiers propData) (lit "static"))
             then
               if set_has done propName then acc
               else
                 (completions
                  ++ [mkCompletion propName propName (lit "property")
                        (calculateScore propName prefix
                           (Some (pr_modifiers propData)))
                        (formatDocText (pr_docComment propData)
                           (pr_name propData))
                        None],
                  set_add done propName)
             else acc)
          (cls_properties classContext) acc
    | None =>
        (* Fallback: get methods from all classes *)
        fold_left
          (fun (acc : list Completion * JsSet)
               (entry : jsstring * ClassRef) =>
             match deref st (snd entry) with
             | None => acc
             | Some classData =>
                 methodItems
                   (fun methodName methodData =>
                      startsWith (toLowerCase methodName) lowerPrefix
                      && set_has (fn_modifiers methodData) (lit "public"))
                   (fun c =>
                      withDocText c
                        (docText c ++ [NL; NL] ++ lit "Class: "
                         ++ fst entry))
                   (cls_methods classData) acc
             end)
          (ix_classes st) ([], ix_done st)
    end in
  (sortCompletions completions prefix, set_done st done).

(** [getStaticMethodCompletions(prefix, context = {})] *)
Definition getStaticMethodCompletions (st : Indexer) (prefix : jsstring)
  (context : QueryContext) : list Completion * Indexer :=
  let st := set_done st [] in
  let lowerPrefix := toLowerCase prefix in
  let '(completions, done) :=
    match inferClassContext st context with
    | Some classContext =>
        (* Get static methods from specific class *)
        let acc :=
          methodItems
            (fun methodName methodData =>
               startsWith (toLowerCase methodName) lowerPrefix
               && set_has (fn_modifiers methodData) (lit "static")
               && (set_has (fn_modifiers methodData) (lit "public")
                   || inSameClass context))
            (fun c => c) (cls_methods classContext) ([], ix_done st) in
        (* Get static properties and constants *)
        let isConst (propData : PropertyDef) :=
          match pr_type propData with
          | Some t => t =? PROPERTY_CONST
          | None => false
          end in
        let acc :=
          fold_left
            (fun (acc : list Completion * JsSet)
                 (entry : jsstring * PropertyDef) =>
               let '(completions, done) := acc in
               let '(propName, propData) := entry in
               if startsWith (toLowerCase propName) lowerPrefix
                  && (set_has (pr_modifiers propData) (lit "static")
                      || isConst propData)
                  && (set_has (pr_modifiers propData) (lit "public")
                      || inSameClass context)
               then
                 if set_has done propName then acc
                 else
                   (completions
                    ++ [mkCompletion propName
                          (if set_has (pr_modifiers propData) (lit "static")
                           then lit "$" ++ propName else propName)
                          (if isConst propData then lit "constant"
                           else lit "static property")
                          (calculateScore propName prefix
                             (Some (pr_modifiers propData)))
                          (formatDocText (pr_docComment propData)
                             (pr_name propData))
                          None],
                    set_add done propName)
               else acc)
            (cls_properties classContext) acc in
        (* Get constants *)
        fold_left
          (fun (acc : list Completion * JsSet)
               (entry : jsstring * ConstDef) =>
             let '(completions, done) := acc in
             let '(constName, constData) := entry in
             if startsWith (toLowerCase constName) lowerPrefix
                && (set_has (cn_modifiers constData) (lit "public")
                    || inSameClass context)
             then
               if set_has done constName then acc
               else
                 (completions
                  ++ [mkCompletion constName constName (lit "constant")
                        (calculateScore constName prefix
                           (Some (cn_modifiers constData)))
                        (formatDocText (cn_docComment constData)
                           (cn_name constData))
                        None],
                  set_add done constName)
             else acc)
          (cls_constants classContext) acc
    | None => ([], ix_done st)
    end in
  (sortCompletions completions prefix, set_done st done).

(** [getNamespaceCompletions(prefix)] *)
Definition getNamespaceCompletions (st : Indexer) (prefix : jsstring)
  : list Completion * Indexer :=
  let st := set_done st [] in
  let lowerPrefix := toLowerCase prefix in
  (* Get all namespaces *)
  let acc :=
    fold_left
      (fun (acc : list Completion * JsSet) (entry : jsstring * JsSet) =>
         let '(completions, done) := acc in
         let '(namespace, classes) := entry in
         if includes (toLowerCase namespace) lowerPrefix then
           if set_has done namespace then acc
           else
             (completions
              ++ [mkCompletion namespace namespace (lit "namespace")
                    (calculateScore namespace prefix None)
                    (lit "Namespace containing "
                     ++ natToString (length classes) ++ lit " classes")
                    None],
              set_add done namespace)
         else acc)
      (ix_namespaces st) ([], ix_done st) in
  (* Get individual classes for use statements *)
  let '(completions, done) :=
    fold_left
      (fun (acc : list Completion * JsSet) (entry : jsstring * ClassRef) =>
         let '(completions, done) := acc in
         let fullName := fst entry in
         match deref st (snd entry) with
         | None => acc
         | Some classData =>
             if includes (toLowerCase fullName) lowerPrefix then
               if set_has done fullName then acc
               else
                 (completions
                  ++ [mkCompletion fullName fullName
                        (lit "use " ++ cls_type classData)
                        (calculateScore fullName prefix
                           (Some (cls_modifiers classData)))
                        (formatDocText (cls_docComment classData)
                           (cls_name classData))
                        None],
                  set_add done fullName)
             else acc
         end)
      (ix_classes st) acc in
  (sortCompletions completions prefix, set_done st done).

(** [getFunctionCompletions(prefix, context = {})] *)
Definition getFunctionCompletions (st : Indexer) (prefix : jsstring)
  : list Completion * Indexer :=
  let st := set_done st [] in
  let lowerPrefix := toLowerCase prefix in
  let '(completions, done) :=
    fold_left
      (fun (acc : list Completion * JsSet)
           (entry : jsstring * FunctionDef) =>
         let '(completions, done) := acc in
         let functionData := snd entry in
         let functionName := fn_name functionData in
         if startsWith (toLowerCase functionName) lowerPrefix then
           if set_has done functionName then acc
           else
             (completions
              ++ [createFunctionCompletion functionName functionData],
              set_add done functionName)
         else acc)
      (ix_functions st) ([], ix_done st) in
  (sortCompletions completions prefix, set_done st done).

(** [getDefaultCompletions(prefix, context = {})] *)
Definition getDefaultCompletions (st : Indexer) (prefix : jsstring)
  : list Completion * Indexer :=
  let '(classCompletions, st) := getClassCompletions st prefix in
  let '(functionCompletions, st) := getFunctionCompletions st prefix in
  (classCompletions ++ functionCompletions, st).

End Completions.

(** The result of [getStatistics()]. *)
Record Statistics := mkStatistics {
  stat_classes : nat;
  stat_interfaces : nat;
  stat_traits : nat;
  stat_functions : nat;
  stat_namespaces : nat;
  stat_files : nat;
  stat_totalMethods : nat;
  stat_totalProperties : nat
}.

(** [getStatistics()] *)
Definition getStatistics (st : Indexer) : Statistics :=
  let classValues :=
    flat_map (fun e => match deref st (snd e) with
                       | Some c => [c]
                       | None => []
                       end) (ix_classes st) in
  mkStatistics
    (map_size (ix_classes st))
    (map_size (ix_interfaces st))
    (map_size (ix_traits st))
    (map_size (ix_functions st))
    (map_size (ix_namespaces st))
    (map_size (ix_fileIndex st))
    (fold_left (fun sum cls => sum + map_size (cls_methods cls)) classValues 0)
    (fold_left (fun sum cls => sum + map_size (cls_properties cls))
       classValues 0).

(* ================================================================== *)
(** ** Search, file discovery and the completion provider *)
(* ================================================================== *)

(** An entry of the result of [search]; the constructor is the field
    [type] (['class'], ['method'] or ['function']), the arguments are the
    other fields in the order of the object literal. *)
Inductive SearchResult :=
| ClassResult (name fullName namespace : jsstring) (file : option jsstring)
    (line : nat)
| MethodResult (name class : jsstring) (file : option jsstring) (line : nat)
| FunctionResult (name fullName : jsstring) (file : option jsstring)
    (line : nat).

(** [!type || type === kind]: [None] is [null], and the empty string is
    falsy as well. *)
Definition typeAllows (type : option jsstring) (kind : jsstring) : bool :=
  match type with
  | None => true
  | Some t => negb (nonEmpty t) || str_eqb t kind
  end.

(** The three loops of [search]. *)
Definition searchClasses (st : Indexer) (lowerQuery : jsstring)
  (results : list SearchResult) : list SearchResult :=
  fold_left
    (fun results (entry : jsstring * ClassRef) =>
       match deref st (snd entry) with
       | None => results
       | Some classData =>
           if includes (toLowerCase (cls_name classData)) lowerQuery then
             results ++ [ClassResult (cls_name classData) (fst entry)
                           (cls_namespace classData) (cls_file classData)
                           (cls_line classData)]
           else results
       end)
    (ix_classes st) results.

Definition searchMethods (st : Indexer) (lowerQuery : jsstring)
  (results : list SearchResult) : list SearchResult :=
  fold_left
    (fun results (entry : jsstring * ClassRef) =>
       match deref st (snd entry) with
       | None => results
       | Some classData =>
           fold_left
             (fun results (method : jsstring * FunctionDef) =>
                let '(methodName, methodData) := method in
                if includes (toLowerCase methodName) lowerQuery then
                  results ++ [MethodResult methodName (cls_name classData)
                                (fn_file methodData) (fn_line methodData)]
                else results)
             (cls_methods classData) results
       end)
    (ix_classes st) results.

Definition searchFunctions (st : Indexer) (lowerQuery : jsstring)
  (results : list SearchResult) : list SearchResult :=
  fold_left
    (fun results (entry : jsstring * FunctionDef) =>
       let '(fullName, functionData) := entry in
       if includes (toLowerCase (fn_name functionData)) lowerQuery then
         results ++ [FunctionResult (fn_name functionData) fullName
                       (fn_file functionData) (fn_line functionData)]
       else results)
    (ix_functions st) results.

(** [search(query, type = null)] *)
Definition search (st : Indexer) (query : jsstring) (type : option jsstring)
  : list SearchResult :=
  let results := [] in
  let lowerQuery := toLowerCase query in
  let results :=
    if typeAllows type (lit "class")
    then searchClasses st lowerQuery results else results in
  let results :=
    if typeAllows type (lit "method")
    then searchMethods st lowerQuery results else results in
  let results :=
    if typeAllows type (lit "function")
    then searchFunctions st lowerQuery results else results in
  results.

(** [skipDirs] of [shouldSkipDirectory]. *)
Definition skipDirs : list jsstring :=
  [lit "node_modules"; lit ".git"; lit ".svn"; lit ".hg";
   lit "vendor"; lit "cache"; lit "tmp"; lit "temp";
   lit "logs"; lit "log"; lit "build"; lit "dist";
   lit ".idea"; lit ".vscode"; lit "__pycache__"].

(** [shouldSkipDirectory(dirName)] *)
Definition shouldSkipDirectory (dirName : jsstring) : bool :=
  existsb (str_eqb dirName) skipDirs || startsWith dirName (lit ".").

(** An entry of a directory listing. *)
Record DirEntry := mkEntry {
  entry_name : jsstring;
  entry_isDirectory : bool
}.

(** [acode.fsOperation.lsDir]: the listing of a directory, [None] when the
    call rejects. *)
Definition FileSystem := jsstring -> option (list DirEntry).

(** The loop [for (const entry of entries)] of [scanDirectory]; [scan] is
    the recursive call.  The state is [(fileList, visited)]; [None] is a
    scan that has not returned within the calls it was given. *)
Fixpoint scanEntries
  (scan : jsstring -> list jsstring * JsSet -> option (list jsstring * JsSet))
  (dirPath : jsstring) (entries : list DirEntry)
  (acc : list jsstring * JsSet) : option (list jsstring * JsSet) :=
  match entries with
  | [] => Some acc
  | entry :: entries' =>
      let fullPath := dirPath ++ lit "/" ++ entry_name entry in
      if entry_isDirectory entry then
        (* Skip common directories that don't contain source code *)
        if negb (shouldSkipDirectory (entry_name entry)) then
          match scan fullPath acc with
          | Some acc => scanEntries scan dirPath entries' acc
          | None => None
          end
        else scanEntries scan dirPath entries' acc
      else if endsWith (entry_name entry) (lit ".php") then
        scanEntries scan dirPath entries' (fst acc ++ [fullPath], snd acc)
      else scanEntries scan dirPath entries' acc
  end.

(** [scanDirectory(dirPath)] of [findPhpFiles].  [depth] bounds the nesting
    of the calls; a listing that rejects is caught and the directory is
    skipped. *)
Fixpoint scanDirectory (depth : nat) (lsDir : FileSystem) (dirPath : jsstring)
  (acc : list jsstring * JsSet) : option (list jsstring * JsSet) :=
  match depth with
  | 0 => None
  | S depth' =>
      let '(fileList, visited) := acc in
      (* Prevent infinite recursion *)
      if set_has visited dirPath then Some acc
      else
        let visited := set_add visited dirPath in
        match lsDir dirPath with
        | Some entries =>
            scanEntries (scanDirectory depth' lsDir) dirPath entries
              (fileList, visited)
        | None => Some (fileList, visited)
        end
  end.

(** [findPhpFiles(startPath)] *)
Definition findPhpFiles (depth : nat) (lsDir : FileSystem)
  (startPath : jsstring) : option (list jsstring) :=
  option_map fst (scanDirectory depth lsDir startPath ([], [])).

(** [re.exec(line)] finds a match at some position: [p] holds of the text
    from there on. *)
Fixpoint matchesSomewhere (p : jsstring -> bool) (line : jsstring) : bool :=
  p line ||
  match line with
  | [] => false
  | _ :: line' => matchesSomewhere p line'
  end.

(** The regular expressions of [getCompletions] that start with a keyword,
    at the start of [s]: the keyword, one or more white-space characters
    and a word character.  The optional rest of the pattern does not change
    whether it matches. *)
Definition keywordThenWord (keyword s : jsstring) : bool :=
  startsWith s keyword &&
  match skipn (length keyword) s with
  | c :: rest =>
      isWhitespace c &&
      match dropWhile isWhitespace rest with
      | w :: _ => isVarChar w
      | [] => false
      end
  | [] => false
  end.

(** The regular expressions that start with an operator, at the start of
    [s]: the operator and a word character. *)
Definition operatorThenWord (operator s : jsstring) : bool :=
  startsWith s operator &&
  match skipn (length operator) s with
  | w :: _ => isVarChar w
  | [] => false
  end.

Section Provider.

Variable localeCompare : jsstring -> jsstring -> Z.

(** [getCompletions(line, prefix, pos)] of the plugin; [indexer] is
    [this.indexer], [None] before [init] has created it.  The indexer is
    called without a context. *)
Definition getCompletions (indexer : option Indexer) (line prefix : jsstring)
  : list Completion * option Indexer :=
  match indexer with
  | None => ([], None)
  | Some st =>
      let classMatch := matchesSomewhere (keywordThenWord (lit "new")) line in
      let useMatch := matchesSomewhere (keywordThenWord (lit "use")) line in
      let methodMatch :=
        matchesSomewhere (operatorThenWord (lit "->")) line in
      let staticMatch :=
        matchesSomewhere (operatorThenWord (lit "::")) line in
      let '(completions, st) :=
        if classMatch then getClassCompletions localeCompare st prefix
        else if useMatch then getNamespaceCompletions localeCompare st prefix
        else if methodMatch then
          getMethodCompletions localeCompare st prefix (mkQuery false)
        else if staticMatch then
          getStaticMethodCompletions localeCompare st prefix (mkQuery false)
        else getDefaultCompletions localeCompare st prefix in
      (completions, Some st)
  end.

(** [arr.slice(0, end)] for an integer [end]: a negative [end] counts from
    the end of the array. *)
Definition sliceTo (A : Type) (l : list A) (end_ : Z) : list A :=
  if (end_ <? 0)%Z
  then firstn (Z.to_nat (Z.of_nat (length l) + end_)) l
  else firstn (Z.to_nat end_) l.

(** The completer registered by [registerCompletionProvider]: what it
    passes to the callback.  [activeFile] is the name of the active file,
    [None] when there is none. *)
Definition provideCompletions (indexer : option Indexer)
  (activeFile : option jsstring) (maxCompletionItems : Z)
  (line prefix : jsstring) : list Completion * option Indexer :=
  match activeFile with
  | None => ([], indexer)
  | Some filename =>
      if negb (endsWith filename (lit ".php")) then ([], indexer)
      else
        let '(completions, indexer) := getCompletions indexer line prefix in
        (sliceTo completions maxCompletionItems, indexer)
  end.

End Provider.

(* ================================================================== *)
(** ** Statements of the specification, as definitions *)
(* ================================================================== *)

Definition IsPrefixOf (p s : jsstring) : Prop := exists r, s = p ++ r.

Definition IsInfixOf (p s : jsstring) : Prop := exists a b, s = a ++ p ++ b.

(** The match part of the score, on the lower-cased name and prefix: exact
    match, else prefix match, else substring match, else nothing. *)
Inductive MatchBonus (lowerItem lowerPrefix : jsstring) : Z -> Prop :=
| MatchExact :
    lowerItem = lowerPrefix -> MatchBonus lowerItem lowerPrefix 500
| MatchPrefix :
    lowerItem <> lowerPrefix -> IsPrefixOf lowerPrefix lowerItem ->
    MatchBonus lowerItem lowerPrefix 300
| MatchInfix :
    ~ IsPrefixOf lowerPrefix lowerItem -> IsInfixOf lowerPrefix lowerItem ->
    MatchBonus lowerItem lowerPrefix 100
| MatchNone :
    ~ IsInfixOf lowerPrefix lowerItem -> MatchBonus lowerItem lowerPrefix 0.

(** The score as the specification words it: the first two tests compare
    without regard to case, the third asks whether the name contains the
    prefix. *)
Definition specScore (name prefix : jsstring) (modifiers : option JsSet)
  : Z :=
  (1000
   + (if str_eqb (toLowerCase name) (toLowerCase prefix) then 500
      else if startsWith (toLowerCase name) (toLowerCase prefix) then 300
      else if includes name prefix then 100
      else 0)
   + (match modifiers with
      | Some m => if set_has m (lit "public") then 50 else 0
      | None => 0
      end)
   + (if existsb (str_eqb name) commonMethods then 25 else 0))%Z.

(** The store with which a call ends, normally or by an exception. *)
Definition outcomeState (o : Outcome) : Indexer :=
  match o with
  | Done st => st
  | StackOverflow st => st
  | Thrown st => st
  end.

(** The states a [PhpIndexer] can be in: the state after construction, and
    the state after any method of the class has run on a state it can be
    in, with any arguments. *)
Inductive reachable : Indexer -> Prop :=
| reach_new : reachable newIndexer
| reach_setProgressCallback : forall st callback,
    reachable st -> reachable (setProgressCallback st callback)
| reach_clearIndex : forall st,
    reachable st -> reachable (clearIndex st)
| reach_indexPhpFiles : forall depth st files,
    reachable st -> reachable (outcomeState (fst (indexPhpFiles depth st files)))
| reach_processPhpFile : forall st filePath content now,
    reachable st -> reachable (processPhpFile st filePath content now)
| reach_parseTokens : forall st tokens fileKey,
    reachable st -> reachable (parseTokens st tokens fileKey)
| reach_parseNamespace : forall st tokens start fileKey,
    reachable st -> reachable (fst (parseNamespace st tokens start fileKey))
| reach_parseUse : forall st tokens start fileKey,
    reachable st -> reachable (fst (parseUse st tokens start fileKey))
| reach_parseClass : forall st tokens start fileKey,
    reachable st -> reachable (fst (parseClass st tokens start fileKey))
| reach_parseProperty : forall st tokens start fileKey,
    reachable st -> reachable (fst (parseProperty st tokens start fileKey))
| reach_parseFunction : forall st tokens start fileKey,
    reachable st -> reachable (fst (parseFunction st tokens start fileKey))
| reach_postProcessIndex : forall depth st,
    reachable st -> reachable (outcomeState (postProcessIndex depth st))
| reach_resolveInheritance : forall depth st classData,
    reachable st ->
    reachable (outcomeState (resolveInheritance depth st classData))
| reach_getClassCompletions : forall localeCompare st prefix,
    reachable st ->
    reachable (snd (getClassCompletions localeCompare st prefix))
| reach_getMethodCompletions : forall localeCompare st prefix context,
    reachable st ->
    reachable (snd (getMethodCompletions localeCompare st prefix context))
| reach_getStaticMethodCompletions : forall localeCompare st prefix context,
    reachable st ->
    reachable
      (snd (getStaticMethodCompletions localeCompare st prefix context))
| reach_getNamespaceCompletions : forall localeCompare st prefix,
    reachable st ->
    reachable (snd (getNamespaceCompletions localeCompare st prefix))
| reach_getFunctionCompletions : forall localeCompare st prefix,
    reachable st ->
    reachable (snd (getFunctionCompletions localeCompare st prefix))
| reach_getDefaultCompletions : forall localeCompare st prefix,
    reachable st ->
    reachable (snd (getDefaultCompletions localeCompare st prefix)).

(** The maps [this.interfaces] and [this.traits]. *)
Definition reserved (st : Indexer) : JsMap ClassRef * JsMap ClassRef :=
  (ix_interfaces st, ix_traits st).

(** What [parseClass] registers and later parsing must keep: the global
    class map, the class map of a file record, and the identity of a class
    object. *)
Definition fileClasses (st : Indexer) (fileKey : jsstring)
  : option (JsMap ClassRef) :=
  option_map fd_classes (map_get (ix_fileIndex st) fileKey).

Definition classIdentity (st : Indexer) (r : ClassRef)
  : option (jsstring * jsstring * jsstring) :=
  option_map (fun c => (cls_name c, cls_fullName c, cls_type c)) (deref st r).

Definition registry (st : Indexer) (fileKey : jsstring) (r : ClassRef) :=
  (ix_classes st, fileClasses st fileKey, classIdentity st r).

(** The modifier that a token type stands for in [parseFunction]. *)
Definition modifierName (tokenType : TokenType) : option jsstring :=
  match tokenType with
  | T_PUBLIC => Some (lit "public")
  | T_PROTECTED => Some (lit "protected")
  | T_PRIVATE => Some (lit "private")
  | T_STATIC => Some (lit "static")
  | T_ABSTRACT => Some (lit "abstract")
  | T_FINAL => Some (lit "final")
  | _ => None
  end.

(** The modifier set as the specification words it: the modifier tokens
    that stand in one unbroken run right before the function keyword
    ([n] is the index of the keyword), and public by default when no
    visibility is among them. *)
Fixpoint contiguousModifiersFrom (tokens : list Token) (n : nat)
  (modifiers : JsSet) : JsSet :=
  match n with
  | 0 => modifiers
  | S j =>
      match nth_error tokens j with
      | Some t =>
          match modifierName (tok_type t) with
          | Some m => contiguousModifiersFrom tokens j (set_add modifiers m)
          | None => modifiers
          end
      | None => modifiers
      end
  end.

Definition specFunctionModifiers (tokens : list Token) (start : nat)
  : JsSet :=
  let modifiers := contiguousModifiersFrom tokens start [] in
  if negb (set_has modifiers (lit "public"))
     && negb (set_has modifiers (lit "protected"))
     && negb (set_has modifiers (lit "private"))
  then set_add modifiers (lit "public")
  else modifiers.

(** What the backward scan of [parseFunction] reaches: a token before the
    function keyword that stands for the modifier [m], with no
    single-character token between it and the keyword. *)
Definition ScannedModifier (tokens : list Token) (start : nat)
  (m : jsstring) : Prop :=
  exists j t,
    j < start /\ nth_error tokens j = Some t
    /\ modifierName (tok_type t) = Some m
    /\ forall k t', j < k < start -> nth_error tokens k = Some t' ->
                    tok_type t' <> CHAR.

(** Where [parseFunction] stores the definition of the function named
    [functionName]: in the methods of the class that was current when it
    was called, else in the global function map under the qualified name.
    [before] is the state at the call and [after] the state it leaves. *)
Definition storedFunction (before after : Indexer) (functionName : jsstring)
  : option FunctionDef :=
  match ix_currentClass before with
  | Some r =>
      match deref after r with
      | Some c => map_get (cls_methods c) functionName
      | None => None
      end
  | None =>
      map_get (ix_functions after)
        (if nonEmpty (ix_currentNamespace before)
         then ix_currentNamespace before ++ [BACKSLASH] ++ functionName
         else functionName)
  end.

(** A map of the model is a [Map] when no key occurs twice. *)
Fixpoint uniqueKeys (V : Type) (m : JsMap V) : bool :=
  match m with
  | [] => true
  | (k, _) :: m' => negb (map_has m' k) && uniqueKeys m'
  end.

Definition wellFormedClass (c : ClassDef) : bool :=
  uniqueKeys (cls_methods c) && uniqueKeys (cls_properties c).

Definition wellFormedStore (st : Indexer) : bool :=
  forallb wellFormedClass (ix_heap st).

(** The classes that the entries of an extends list resolve to, in order;
    an entry that resolves to nothing gives none. *)
Definition resolvedParents (st : Indexer) (context : Context)
  (parents : list jsstring) : list ClassRef :=
  flat_map
    (fun parentName =>
       match resolveClassName st parentName context with
       | Found p => [p]
       | _ => []
       end)
    parents.

Definition parentClasses (st : Indexer) (refs : list ClassRef)
  : list ClassDef :=
  flat_map (fun p => match deref st p with Some c => [c] | None => [] end)
    refs.

(** The extends chains are acyclic: [rank] decreases from every class that
    is still to be resolved to each class that an entry of its extends
    list resolves to (and that resolution raises no error). *)
Definition acyclicClass (st : Indexer) (rank : ClassRef -> nat)
  (x : ClassRef) (c : ClassDef) : bool :=
  cls_inheritanceResolved c
  || forallb
       (fun parentName =>
          match resolveClassName st parentName (classContext c) with
          | Found p => rank p <? rank x
          | NoMatch => true
          | TypeError => false
          end)
       (cls_extends c).

Definition acyclicStore (st : Indexer) (rank : ClassRef -> nat) : bool :=
  forallb (fun xc => acyclicClass st rank (fst xc) (snd xc))
    (combine (seq 0 (length (ix_heap st))) (ix_heap st)).


(** The copy that a child without a member [name] takes from one parent
    map: the parent's member of that name when its modifiers include public
    or protected, tagged as inherited. *)
Definition copyOf (V : Type) (modifiers : V -> JsSet) (inherited : V -> V)
  (parent : JsMap V) (name : jsstring) : option V :=
  match map_get parent name with
  | Some d => if isInheritable (modifiers d) then Some (inherited d) else None
  | None => None
  end.

(** The copy taken from a list of parents: the first parent that gives one
    wins, since after it the name is a key of the child's map. *)
Fixpoint inheritedFrom (V : Type) (modifiers : V -> JsSet)
  (inherited : V -> V) (parents : list (JsMap V)) (name : jsstring)
  : option V :=
  match parents with
  | [] => None
  | parent :: rest =>
      match copyOf modifiers inherited parent name with
      | Some v => Some v
      | None => inheritedFrom modifiers inherited rest name
      end
  end.

(** How the resolver may change a class object [cy] of rank at least
    [bound], or one that is already resolved: not at all; any other object
    keeps its extends list and context, and is resolved if it changed. *)
Definition ClassEvolves (rank : ClassRef -> nat) (bound : nat)
  (y : ClassRef) (cy cy' : ClassDef) : Prop :=
  cls_extends cy' = cls_extends cy
  /\ classContext cy' = classContext cy
  /\ (wellFormedClass cy = true -> wellFormedClass cy' = true)
  /\ (cls_inheritanceResolved cy = true -> cy' = cy)
  /\ (bound <= rank y -> cy' = cy)
  /\ (cy' = cy \/ cls_inheritanceResolved cy' = true).

(** The change of the store over a run of the resolver, for all class
    objects but [x]. *)
Definition EvolvesExcept (rank : ClassRef -> nat) (x : option ClassRef)
  (bound : nat) (st st' : Indexer) : Prop :=
  ix_classes st' = ix_classes st
  /\ ix_fileIndex st' = ix_fileIndex st
  /\ forall y, Some y <> x ->
       match deref st y with
       | None => deref st' y = None
       | Some cy =>
           exists cy', deref st' y = Some cy'
                       /\ ClassEvolves rank bound y cy cy'
       end.

(** The two store conditions above, as propositions on the class objects. *)
Definition WellFormed (st : Indexer) : Prop :=
  forall x c, deref st x = Some c -> wellFormedClass c = true.

Definition AcyclicOn (chain : ClassRef -> Prop) (rank : ClassRef -> nat)
  (st : Indexer) : Prop :=
  forall x c,
    chain x ->
    deref st x = Some c -> cls_inheritanceResolved c = false ->
    forall parentName, In parentName (cls_extends c) ->
      match resolveClassName st parentName (classContext c) with
      | Found p => chain p /\ rank p < rank x
      | NoMatch => True
      | TypeError => False
      end.

(** Every class object of [st'] comes from one of [st] with the same
    extends list and context, and was not resolved before if it is not
    resolved now. *)
Definition Refines (st st' : Indexer) : Prop :=
  ix_classes st' = ix_classes st
  /\ ix_fileIndex st' = ix_fileIndex st
  /\ forall y cy', deref st' y = Some cy' ->
       exists cy, deref st y = Some cy
                  /\ cls_extends cy' = cls_extends cy
                  /\ classContext cy' = classContext cy
                  /\ (wellFormedClass cy = true -> wellFormedClass cy' = true)
                  /\ (cls_inheritanceResolved cy' = false ->
                      cls_inheritanceResolved cy = false).

(** The documented order of completion items: higher score first, then the
    shorter caption, then the caption that [localeCompare] puts first. *)
Definition RanksBefore (localeCompare : jsstring -> jsstring -> Z)
  (a b : Completion) : Prop :=
  (score a > score b)%Z
  \/ (score a = score b
      /\ (length (caption a) < length (caption b)
          \/ (length (caption a) = length (caption b)
              /\ (localeCompare (caption a) (caption b) <= 0)%Z))).

(** A candidate with the given name, scored against [prefix] by
    [calculateScore]. *)
Definition scoredCandidate (prefix name : jsstring)
  (modifiers : option JsSet) : Completion :=
  mkCompletion name name (lit "method")
    (calculateScore name prefix modifiers) name None.

(** Comparison of strings by code units, a stand-in for a collation. *)
Fixpoint codeUnitCompare (a b : jsstring) : Z :=
  match a, b with
  | [], [] => 0%Z
  | [], _ :: _ => (-1)%Z
  | _ :: _, [] => 1%Z
  | x :: a', y :: b' =>
      match N.compare x y with
      | Lt => (-1)%Z
      | Gt => 1%Z
      | Eq => codeUnitCompare a' b'
      end
  end.

(** [Layout values starts text]: [text] consists of the strings [values] in
    order, the k-th of them non-empty and beginning at offset [starts[k]],
    with nothing but white space before, between and after them. *)
Inductive Layout : list jsstring -> list nat -> jsstring -> Prop :=
| Layout_nil : Layout [] [] []
| Layout_space : forall values starts text c,
    Layout values starts text -> isWhitespace c = true ->
    Layout values starts (text ++ [c])
| Layout_token : forall values starts text v,
    Layout values starts text -> v <> [] ->
    Layout (values ++ [v]) (starts ++ [length text]) (text ++ v).

(** The text made of the strings [values] with the strings [gaps] put
    before, between and after them. *)
Fixpoint weave (gaps values : list jsstring) : jsstring :=
  match gaps, values with
  | g :: gaps', v :: values' => g ++ v ++ weave gaps' values'
  | g :: _, [] => g
  | [], _ => []
  end.

(** No rule of the lexer but the last applies to the code unit [c] at
    offset [i]: it is no white space, opens no tag, comment, string or
    variable, and starts no identifier. *)
Definition noRuleAt (content : jsstring) (i : nat) (c : codeunit) : bool :=
  negb (isWhitespace c)
  && negb (str_eqb (substr content i 5) (lit "<?php"))
  && negb (str_eqb (substr content i 2) (lit "//"))
  && negb (str_eqb (substr content i 1) (lit "#"))
  && negb (str_eqb (substr content i 2) (lit "/*"))
  && negb (c =? DQUOTE)%N && negb (c =? SQUOTE)%N
  && negb (c =? DOLLAR)%N
  && negb (isIdentStart c).

(** The keywords of the identifier rule of [tokenize]. *)
Definition keywords : list jsstring :=
  [lit "namespace"; lit "use"; lit "class"; lit "interface"; lit "trait";
   lit "function"; lit "const"; lit "public"; lit "protected"; lit "private";
   lit "static"; lit "abstract"; lit "final"; lit "extends";
   lit "implements"].

(** The text that a token of each type holds, as far as the rule that emits
    it fixes it: the first code unit, and for names and variables the code
    units that may follow. *)
Definition tokenShape (t : Token) : bool :=
  match tok_value t with
  | [] => false
  | c :: rest =>
      match tok_type t with
      | T_OPEN_TAG => str_eqb (tok_value t) (lit "<?php")
      | T_COMMENT => ((c =? 47) || (c =? 35))%N
      | T_DOC_COMMENT => (c =? 47)%N
      | T_VARIABLE => (c =? DOLLAR)%N && forallb isVarChar rest
      | CHAR =>
          negb (isWhitespace c) && negb (isIdentStart c)
          && (length rest =? 0)
      | T_WHITESPACE => false
      | T_STRING =>
          (c =? DQUOTE)%N || (c =? SQUOTE)%N
          || (isIdentStart c && forallb isIdentChar rest
              && TokenType_eqb (keywordType (toLowerCase (tok_value t)))
                   T_STRING)
      | ty =>
          isIdentStart c && forallb isIdentChar rest
          && TokenType_eqb (keywordType (toLowerCase (tok_value t))) ty
      end
  end.

(** The number of line feeds of a text. *)
Definition countNL (s : jsstring) : nat :=
  length (filter (fun c => (c =? NL)%N) s).

(** The lines that the loop of [parseDocComment] reads: the comment
    without its markers, split at line feeds, each line cleaned of its
    leading star and trimmed, the empty ones dropped. *)
Definition docCommentLines (docComment : jsstring) : list jsstring :=
  filter nonEmpty
    (map cleanDocLine
       (splitOn NL
          (stripSuffix (lit "*/") (stripPrefix (lit "/**") docComment)))).

(** A text without white space. *)
Definition noSpace (s : jsstring) : bool :=
  forallb (fun c => negb (isWhitespace c)) s.

(** A text without an equals sign. *)
Definition noEquals (s : jsstring) : bool :=
  forallb (fun c => negb (c =? 61)%N) s.

(** The parameters that [formatParameter] writes so that [parseParameter]
    reads them back: the name holds no white space and no equals sign; a
    type is not empty, holds neither, does not start with an ampersand or
    with three dots, and comes without the reference and variadic marks; a
    default value is not empty, has no white space at its ends and holds no
    equals sign. *)
Definition readableParameter (p : ParameterDef) : bool :=
  noSpace (par_name p) && noEquals (par_name p)
  && match par_type p with
     | None => true
     | Some t =>
         nonEmpty t && noSpace t && noEquals t
         && negb (startsWith t (lit "&")) && negb (startsWith t (lit "..."))
         && negb (par_isReference p) && negb (par_isVariadic p)
     end
  && match par_defaultValue p with
     | None => true
     | Some d => nonEmpty d && str_eqb (trim d) d && noEquals d
     end.

(** What a use statement stores, and what it is good for: the alias maps
    to the name in the record of the file, and [resolveClassName] finds
    the class of that name under the alias from a context in that file,
    when neither the alias itself nor the alias in the namespace of the
    context is a class. *)
Definition usesAlias (st st' : Indexer) (fileKey : jsstring) (fd : FileData)
  (alias name : jsstring) : Prop :=
  ix_classes st' = ix_classes st
  /\ (exists fd',
        map_get (ix_fileIndex st') fileKey = Some fd'
        /\ fd_uses fd' = map_set (fd_uses fd) alias name)
  /\ forall namespace file r,
       normalizeFilePath file = fileKey ->
       map_get (ix_classes st) alias = None ->
       (nonEmpty namespace = true ->
        map_get (ix_classes st) (namespace ++ [BACKSLASH] ++ alias) = None) ->
       map_get (ix_classes st) name = Some r ->
       resolveClassName st' alias (mkContext namespace (Some file)) = Found r.

(** What the resolver leaves of a class object: every field but the
    methods, the properties and the resolved flag is as it was, and every
    method and property that was there is still there, unchanged. *)
Definition keepsClass (c c' : ClassDef) : Prop :=
  (cls_name c', cls_fullName c', cls_namespace c', cls_type c')
  = (cls_name c, cls_fullName c, cls_namespace c, cls_type c)
  /\ (cls_modifiers c', cls_extends c', cls_implements c', cls_constants c')
     = (cls_modifiers c, cls_extends c, cls_implements c, cls_constants c)
  /\ (cls_file c', cls_docComment c', cls_line c')
     = (cls_file c, cls_docComment c, cls_line c)
  /\ (forall name m,
        map_get (cls_methods c) name = Some m ->
        map_get (cls_methods c') name = Some m)
  /\ (forall name p,
        map_get (cls_properties c) name = Some p ->
        map_get (cls_properties c') name = Some p).

(** The same for a whole index: the maps are as they were, no class object
    is gone, and each is kept in the sense above. *)
Definition OnlyAdds (st st' : Indexer) : Prop :=
  (ix_classes st', ix_functions st', ix_namespaces st', ix_fileIndex st')
  = (ix_classes st, ix_functions st, ix_namespaces st, ix_fileIndex st)
  /\ length (ix_heap st') = length (ix_heap st)
  /\ forall r c, deref st r = Some c ->
       exists c', deref st' r = Some c' /\ keepsClass c c'.

(** The shape that the loops of the completion engine share: an entry that
    is selected gives a key and an item, and the item is pushed unless the
    key is in [this.done], to which the key is then added. *)
Definition collectItem (E : Type)
  (select : E -> option (jsstring * Completion))
  (acc : list Completion * JsSet) (entry : E) : list Completion * JsSet :=
  let '(completions, done) := acc in
  match select entry with
  | Some (key, item) =>
      if set_has done key then acc
      else (completions ++ [item], set_add done key)
  | None => acc
  end.

(** The path that [scanDirectory] builds for the entry reached from
    [startPath] through the entries [names], one below the other. *)
Definition pathUnder (startPath : jsstring) (names : list jsstring)
  : jsstring :=
  fold_left (fun dirPath name => dirPath ++ lit "/" ++ name) names startPath.

(** The directories [dirs], one below the other from [dirPath] on, are
    each listed as a directory by the one above and none is to be
    skipped. *)
Fixpoint scannedDirs (lsDir : FileSystem) (dirPath : jsstring)
  (dirs : list jsstring) : Prop :=
  match dirs with
  | [] => True
  | d :: dirs' =>
      (exists entries,
         lsDir dirPath = Some entries /\ In (mkEntry d true) entries)
      /\ shouldSkipDirectory d = false
      /\ scannedDirs lsDir (dirPath ++ lit "/" ++ d) dirs'
  end.

(** A path that the scan from [startPath] may list: a file whose name ends
    in [.php], listed by a directory that is reached from [startPath]
    through directories that are not to be skipped. *)
Definition scannedFile (lsDir : FileSystem) (startPath path : jsstring)
  : Prop :=
  exists dirs name entries,
    path = pathUnder startPath (dirs ++ [name])
    /\ scannedDirs lsDir startPath dirs
    /\ lsDir (pathUnder startPath dirs) = Some entries
    /\ In (mkEntry name false) entries
    /\ endsWith name (lit ".php") = true.

(** The name under which a declaration with the short name [name] is
    registered in the namespace [namespace]: the two joined by a
    backslash, or the short name alone outside of any namespace. *)
Definition qualifiedName (namespace name : jsstring) : jsstring :=
  if nonEmpty namespace then namespace ++ [BACKSLASH] ++ name else name.

(** The fields of a class object that name it. *)
Definition classHeader (c : ClassDef) : jsstring * jsstring * jsstring :=
  (cls_name c, cls_fullName c, cls_namespace c).

(** The registers of the index agree with what they hold: every key of the
    class map refers to a class object and is its full name, which is its
    short name qualified by its namespace; every key of the function map
    is the name of its function, qualified by some namespace, and the
    function is not a method; every member of an entry of the namespace
    map is a name qualified by the namespace of the entry. *)
Definition consistentRegisters (st : Indexer) : Prop :=
  (forall key r,
     In (key, r) (ix_classes st) ->
     exists classData,
       deref st r = Some classData
       /\ cls_fullName classData = key
       /\ key = qualifiedName (cls_namespace classData) (cls_name classData))
  /\ (forall key functionData,
        In (key, functionData) (ix_functions st) ->
        fn_isMethod functionData = false
        /\ fn_class functionData = None
        /\ exists namespace,
             key = qualifiedName namespace (fn_name functionData))
  /\ (forall namespace members fullName,
        In (namespace, members) (ix_namespaces st) ->
        In fullName members ->
        exists name, fullName = namespace ++ [BACKSLASH] ++ name).

(** The registers of the index and the headers of its class objects: what
    [consistentRegisters] is about. *)
Definition registersOf (st : Indexer) :=
  (ix_classes st, ix_functions st, ix_namespaces st,
   map classHeader (ix_heap st)).

(** The keys under which the files of a run are recorded: the normalized
    paths of the files whose read succeeds, in the order of the run. *)
Definition readablePaths (files : list FileInput) : list jsstring :=
  flat_map
    (fun f : FileInput =>
       let '(filePath, content, _) := f in
       match content with
       | Some _ => [normalizeFilePath filePath]
       | None => []
       end)
    files.

(** The keys of [this.fileIndex], in the order of the map. *)
Definition indexedFiles (st : Indexer) : list jsstring :=
  map fst (ix_fileIndex st).

(** ** The range on which [toLowerCase] is the host's *)

(** The strings of code units within U+0000..U+00FF.  On them
    [toLowerCase] is [String.prototype.toLowerCase], and the result stays
    within the range; the statements about the matching of names against
    a prefix or a query are made for such names, prefixes and queries. *)
Definition latin1 (s : jsstring) : bool :=
  forallb (fun c : codeunit => (c <=? 255)%N) s.

(** The short names of the classes of the class map are in the range. *)
Definition latin1ClassNames (st : Indexer) : bool :=
  forallb (fun e : jsstring * ClassRef =>
             match deref st (snd e) with
             | Some classData => latin1 (cls_name classData)
             | None => true
             end) (ix_classes st).

(** The names of the methods of the classes of the class map are. *)
Definition latin1MethodNames (st : Indexer) : bool :=
  forallb (fun e : jsstring * ClassRef =>
             match deref st (snd e) with
             | Some classData =>
                 forallb (fun m : jsstring * FunctionDef => latin1 (fst m))
                   (cls_methods classData)
             | None => true
             end) (ix_classes st).

(** The names of the functions of the function map are. *)
Definition latin1FunctionNames (st : Indexer) : bool :=
  forallb (fun e : jsstring * FunctionDef => latin1 (fn_name (snd e)))
    (ix_functions st).

(** The keys of the namespace map and of the class map are. *)
Definition latin1FullNames (st : Indexer) : bool :=
  forallb (fun e : jsstring * JsSet => latin1 (fst e)) (ix_namespaces st)
  && forallb (fun e : jsstring * ClassRef => latin1 (fst e)) (ix_classes st).

(** ** The first comma of a parameter list *)

(** A parameter list read from behind its opening parenthesis, [depth]
    parentheses being open: the number of tokens before the first comma
    that stands at depth one; [None] when the list is closed, or the
    tokens end, before such a comma. *)
Fixpoint topComma (tokens : list Token) (depth : nat) : option nat :=
  match tokens with
  | [] => None
  | t :: rest =>
      if valueIs t (lit "(") then option_map S (topComma rest (S depth))
      else if valueIs t (lit ")") then
        match depth with
        | S (S d) => option_map S (topComma rest (S d))
        | _ => None
        end
      else if valueIs t (lit ",") && (depth =? 1) then Some 0
      else option_map S (topComma rest depth)
  end.

(** A stored parameter that kept the opening parenthesis of the list: its
    type begins with it, or, when it has no type, its name. *)
Definition keepsParen (p : ParameterDef) : bool :=
  match par_type p with
  | Some type => startsWith type (lit "(")
  | None => startsWith (par_name p) (lit "(")
  end.

(** ** The free text of a doc comment *)

(** A tag line: a line that the tag pattern of [parseDocComment] matches. *)
Definition isTagLine (line : jsstring) : bool :=
  match matchTag line with
  | Some _ => true
  | None => false
  end.

(** The free text among the lines of a doc comment: the lines before the
    first tag line that do not start with an at sign. *)
Definition freeText (lines : list jsstring) : list jsstring :=
  filter (fun line => negb (startsWith line [AT]))
    (takeWhile (fun line => negb (isTagLine line)) lines).

(** ** The run of the lexer over a text *)

(** The token [t] stands at the offset [s] of [text]: its value is not
    empty and is the text from [s] on; the code unit at [s] is no white
    space; and the single-character rule is the one that emitted [t]
    exactly when no other rule applies at [s], the value being that one
    code unit then. *)
Definition tokenAt (text : jsstring) (s : nat) (t : Token) : Prop :=
  tok_value t <> []
  /\ s + length (tok_value t) <= length text
  /\ substr text s (length (tok_value t)) = tok_value t
  /\ exists c,
       nth_error text s = Some c
       /\ isWhitespace c = false
       /\ (noRuleAt text s c = true ->
           tok_type t = CHAR /\ tok_value t = [c])
       /\ (tok_type t = CHAR ->
           tok_value t = [c] /\ noRuleAt text s c = true).

(** [Scan text i tokens starts]: [text] is read up to the offset [i], one
    white-space code unit or one token after the other; [tokens] are the
    tokens in order and [starts] their offsets. *)
Inductive Scan (text : jsstring) : nat -> list Token -> list nat -> Prop :=
| Scan_start : Scan text 0 [] []
| Scan_space : forall i tokens starts c,
    Scan text i tokens starts ->
    nth_error text i = Some c -> isWhitespace c = true ->
    Scan text (S i) tokens starts
| Scan_token : forall i tokens starts t,
    Scan text i tokens starts -> tokenAt text i t ->
    Scan text (i + length (tok_value t)) (tokens ++ [t]) (starts ++ [i]).

(** The state of the lexer after [k] iterations of its loop. *)
Definition lexRun (text : jsstring) (k : nat) : LexState :=
  Nat.iter k (lexStep text) lexInit.

(* ================================================================== *)
(** * Properties *)
(* ================================================================== *)

(** ** Strings, sets and maps *)

Lemma str_eqb_eq : forall a b, str_eqb a b = true <-> a = b.
Proof.
  induction a as [|x a IH]; destruct b as [|y b]; simpl; split;
    try congruence; try reflexivity.
  - rewrite andb_true_iff, N.eqb_eq, IH. intros [-> ->]. reflexivity.
  - intros H. injection H as -> ->.
    rewrite N.eqb_refl. simpl. apply IH. reflexivity.
Qed.

Lemma str_eqb_refl : forall a, str_eqb a a = true.
Proof. intros a. apply str_eqb_eq. reflexivity. Qed.

Lemma str_eqb_neq : forall a b, str_eqb a b = false <-> a <> b.
Proof.
  intros a b. rewrite <- str_eqb_eq. destruct (str_eqb a b); split;
    congruence.
Qed.

Lemma str_eqb_sym : forall a b, str_eqb a b = str_eqb b a.
Proof.
  intros a b. destruct (str_eqb a b) eqn:E.
  - apply str_eqb_eq in E. subst. symmetry. apply str_eqb_refl.
  - destruct (str_eqb b a) eqn:E'; [|reflexivity].
    apply str_eqb_eq in E'. subst. rewrite str_eqb_refl in E. discriminate.
Qed.

Lemma startsWith_prefix : forall s p, startsWith s p = true <-> IsPrefixOf p s.
Proof.
  intros s p. revert s. induction p as [|y p IH]; intros s; simpl.
  - destruct s; split; intros _; try reflexivity; eexists; reflexivity.
  - destruct s as [|x s]; simpl.
    + split; [discriminate|]. intros [r H]. discriminate.
    + rewrite andb_true_iff, N.eqb_eq, IH. split.
      * intros [-> [r ->]]. exists r. reflexivity.
      * intros [r H]. injection H as -> ->. split; [reflexivity|].
        exists r. reflexivity.
Qed.

Lemma includes_infix : forall s p, includes s p = true <-> IsInfixOf p s.
Proof.
  induction s as [|x s IH]; intros p.
  - change (includes [] p) with (startsWith [] p || false).
    rewrite orb_false_r, startsWith_prefix. split.
    + intros [r H]. exists [], r. exact H.
    + intros [a [b H]]. destruct a; [exists b; exact H | discriminate].
  - change (includes (x :: s) p)
      with (startsWith (x :: s) p || includes s p).
    rewrite orb_true_iff, startsWith_prefix, IH. split.
    + intros [[r H] | [a [b H]]].
      * exists [], r. exact H.
      * exists (x :: a), b. rewrite H. reflexivity.
    + intros [a [b H]]. destruct a as [|a0 a].
      * left. exists b. exact H.
      * right. injection H as -> H. exists a, b. exact H.
Qed.

Lemma set_has_In : forall s x, set_has s x = true <-> In x s.
Proof.
  intros s x. unfold set_has. rewrite existsb_exists. split.
  - intros [y [Hin Heq]]. apply str_eqb_eq in Heq. subst. exact Hin.
  - intros Hin. exists x. split; [exact Hin | apply str_eqb_refl].
Qed.

Lemma set_add_In : forall s x y, In y (set_add s x) <-> y = x \/ In y s.
Proof.
  intros s x y. unfold set_add. destruct (set_has s x) eqn:E.
  - apply set_has_In in E. split; [tauto|]. intros [-> | H]; assumption.
  - rewrite in_app_iff. simpl. split; intros H; intuition (subst; auto).
Qed.

Lemma map_get_set_same : forall (V : Type) (m : JsMap V) k v,
  map_get (map_set m k v) k = Some v.
Proof.
  intros V m k v. induction m as [|[k' v'] m IH]; simpl.
  - rewrite str_eqb_refl. reflexivity.
  - destruct (str_eqb k' k) eqn:E; simpl; rewrite E; [reflexivity | exact IH].
Qed.

Lemma map_get_set_other : forall (V : Type) (m : JsMap V) k k' v,
  k <> k' -> map_get (map_set m k v) k' = map_get m k'.
Proof.
  intros V m k k' v Hne. induction m as [|[k0 v0] m IH]; simpl.
  - destruct (str_eqb k k') eqn:E; [|reflexivity].
    apply str_eqb_eq in E. contradiction.
  - destruct (str_eqb k0 k) eqn:E; simpl.
    + apply str_eqb_eq in E. subst k0.
      destruct (str_eqb k k') eqn:E'; [|reflexivity].
      apply str_eqb_eq in E'. contradiction.
    + destruct (str_eqb k0 k'); [reflexivity | exact IH].
Qed.

(** ** The score of a completion item *)

(** C7, as the specification words it, fails: the substring test of the
    code is made on the lower-cased strings, so a name that contains the
    prefix only up to case still earns the 100 points. *)
Lemma calculateScore_specScore_differ :
  calculateScore (lit "xGet") (lit "get") None = 1100%Z
  /\ specScore (lit "xGet") (lit "get") None = 1000%Z
  /\ calculateScore (lit "xGet") (lit "get") None
     <> specScore (lit "xGet") (lit "get") None.
Proof.
  split; [reflexivity|]. split; [reflexivity|]. vm_compute. discriminate.
Qed.

Lemma matchBonus_computed : forall lowerItem lowerPrefix,
  MatchBonus lowerItem lowerPrefix
    (if str_eqb lowerItem lowerPrefix then 500
     else if startsWith lowerItem lowerPrefix then 300
     else if includes lowerItem lowerPrefix then 100
     else 0)%Z.
Proof.
  intros a p. destruct (str_eqb a p) eqn:E1.
  - apply MatchExact. apply str_eqb_eq. exact E1.
  - destruct (startsWith a p) eqn:E2.
    + apply MatchPrefix.
      * apply str_eqb_neq. exact E1.
      * apply startsWith_prefix. exact E2.
    + assert (Hnp : ~ IsPrefixOf p a).
      { intros H. apply startsWith_prefix in H. congruence. }
      destruct (includes a p) eqn:E3.
      * apply MatchInfix; [exact Hnp | apply includes_infix; exact E3].
      * apply MatchNone. intros H. apply includes_infix in H. congruence.
Qed.

(** C7 (amended): whatever the host's [toLowerCase] is, the score is
    1000, plus 500 when the lower-cased name equals the lower-cased prefix,
    else 300 when it starts with it, else 100 when it contains it; plus 50
    when the item has a modifier set that includes public; plus 25 when the
    name is one of the five common method names.  [calculateScore] is the
    instance at the [toLowerCase] of this file. *)
Theorem calculateScore_amended :
  (forall itemName prefix modifiers,
     calculateScore itemName prefix modifiers
     = calculateScoreWith toLowerCase itemName prefix modifiers)
  /\ forall (lower : jsstring -> jsstring)
       (itemName prefix : jsstring) (modifiers : option JsSet),
     exists m p c : Z,
       calculateScoreWith lower itemName prefix modifiers
       = (1000 + m + p + c)%Z
       /\ MatchBonus (lower itemName) (lower prefix) m
       /\ ((p = 50%Z /\ exists s, modifiers = Some s /\ In (lit "public") s)
           \/ (p = 0%Z
               /\ forall s, modifiers = Some s -> ~ In (lit "public") s))
       /\ ((c = 25%Z /\ In itemName commonMethods)
           \/ (c = 0%Z /\ ~ In itemName commonMethods)).
Proof.
  split; [reflexivity|].
  intros lower itemName prefix modifiers.
  exists (if str_eqb (lower itemName) (lower prefix) then 500
          else if startsWith (lower itemName) (lower prefix) then 300
          else if includes (lower itemName) (lower prefix) then 100
          else 0)%Z.
  exists (match modifiers with
          | Some s => if set_has s (lit "public") then 50 else 0
          | None => 0
          end)%Z.
  exists (if existsb (str_eqb itemName) commonMethods then 25 else 0)%Z.
  split; [|split; [apply matchBonus_computed | split]].
  - unfold calculateScoreWith.
    destruct (str_eqb (lower itemName) (lower prefix));
      [|destruct (startsWith (lower itemName) (lower prefix));
        [|destruct (includes (lower itemName) (lower prefix))]];
      destruct modifiers as [s|]; try destruct (set_has s (lit "public"));
      destruct (existsb (str_eqb itemName) commonMethods); lia.
  - destruct modifiers as [s|].
    + destruct (set_has s (lit "public")) eqn:E.
      * left. split; [reflexivity|]. exists s. split; [reflexivity|].
        apply set_has_In. exact E.
      * right. split; [reflexivity|]. intros s' H. injection H as <-.
        intros Hin. apply set_has_In in Hin. congruence.
    + right. split; [reflexivity|]. intros s H. discriminate.
  - destruct (existsb (str_eqb itemName) commonMethods) eqn:E.
    + left. split; [reflexivity|]. apply existsb_exists in E.
      destruct E as [y [Hin Heq]]. apply str_eqb_eq in Heq. subst.
      exact Hin.
    + right. split; [reflexivity|]. intros Hin.
      assert (existsb (str_eqb itemName) commonMethods = true).
      { apply existsb_exists. exists itemName. split;
          [exact Hin | apply str_eqb_refl]. }
      congruence.
Qed.

(** ** Static member completions *)

(** C3: whatever the prefix, the query context and the indexed code base, a
    query after [::] yields no item, because [inferClassContext] gives
    [null] and the static path has no other branch; the method path, which
    has a fallback over all classes, does yield items. *)
Theorem getStaticMethodCompletions_empty :
  forall (localeCompare : jsstring -> jsstring -> Z) (st : Indexer)
         (prefix : jsstring) (context : QueryContext),
    inferClassContext st context = None
    /\ fst (getStaticMethodCompletions localeCompare st prefix context) = []
    /\ exists st0,
         map caption
           (fst (getMethodCompletions localeCompare st0 (lit "ren") context))
         = [lit "render"].
Proof.
  intros lc st prefix context. split; [reflexivity|]. split; [reflexivity|].
  exists (processPhpFile newIndexer (lit "a.php")
            (Some (lit "<?php class A { function render() {} }")) 0).
  vm_compute. reflexivity.
Qed.

(** ** Class name resolution *)

(** C6: the three lookups of [resolveClassName] are tried in order, the
    first that finds a class gives the result, and the result is [null]
    exactly when all three fail. *)
Theorem resolveClassName_steps :
  forall (st : Indexer) (name namespace file : jsstring),
    let context := mkContext namespace (Some file) in
    let exact := map_get (ix_classes st) name in
    let namespaced :=
      if nonEmpty namespace
      then map_get (ix_classes st) (namespace ++ [BACKSLASH] ++ name)
      else None in
    let aliased :=
      match map_get (ix_fileIndex st) (normalizeFilePath file) with
      | Some fileData =>
          match map_get (fd_uses fileData) name with
          | Some fullName => map_get (ix_classes st) fullName
          | None => None
          end
      | None => None
      end in
    (forall r, exact = Some r -> resolveClassName st name context = Found r)
    /\ (forall r, exact = None -> namespaced = Some r ->
          resolveClassName st name context = Found r)
    /\ (forall r, exact = None -> namespaced = None -> aliased = Some r ->
          resolveClassName st name context = Found r)
    /\ (resolveClassName st name context = NoMatch
        <-> exact = None /\ namespaced = None /\ aliased = None)
    /\ resolveClassName st name context <> TypeError.
Proof.
  intros st name namespace file context exact namespaced aliased.
  unfold resolveClassName. fold exact. simpl ctx_namespace. simpl ctx_file.
  fold namespaced.
  destruct exact as [r1|]; [|destruct namespaced as [r2|]].
  - repeat split; try congruence; try discriminate.
    intros [H _]. discriminate.
  - repeat split; try congruence; try discriminate.
    intros [_ [H _]]. discriminate.
  - subst aliased.
    destruct (map_get (ix_fileIndex st) (normalizeFilePath file)) as [fd|];
      [destruct (map_get (fd_uses fd) name) as [full|];
       [destruct (map_get (ix_classes st) full) as [r3|]|]|];
      repeat split; try congruence; try discriminate.
    intros [_ [_ H]]. discriminate.
Qed.

(** ** The interfaces and traits maps *)

Ltac break_match :=
  match goal with
  | |- context [match ?x with _ => _ end] => destruct x eqn:?
  end.

Lemma pair_fst : forall (A B : Type) (p : A * B) a b, p = (a, b) -> a = fst p.
Proof. intros A B p a b ->. reflexivity. Qed.

Lemma reserved_updFile : forall st k f, reserved (updFile st k f) = reserved st.
Proof. intros. unfold updFile. destruct (map_get _ _); reflexivity. Qed.

Lemma reserved_updClass : forall st r f,
  reserved (updClass st r f) = reserved st.
Proof. reflexivity. Qed.

Lemma reserved_set_lastDocComment : forall st v,
  reserved (set_lastDocComment st v) = reserved st.
Proof. reflexivity. Qed.

Lemma reserved_set_currentClass : forall st v,
  reserved (set_currentClass st v) = reserved st.
Proof. reflexivity. Qed.

Lemma reserved_set_functions : forall st v,
  reserved (set_functions st v) = reserved st.
Proof. reflexivity. Qed.

Lemma reserved_set_namespaces : forall st v,
  reserved (set_namespaces st v) = reserved st.
Proof. reflexivity. Qed.

Lemma reserved_set_classes : forall st v,
  reserved (set_classes st v) = reserved st.
Proof. reflexivity. Qed.

Lemma reserved_set_heap : forall st v, reserved (set_heap st v) = reserved st.
Proof. reflexivity. Qed.

Lemma reserved_set_currentNamespace : forall st v,
  reserved (set_currentNamespace st v) = reserved st.
Proof. reflexivity. Qed.

Lemma reserved_set_done : forall st v, reserved (set_done st v) = reserved st.
Proof. reflexivity. Qed.

Lemma reserved_set_processedFiles : forall st v,
  reserved (set_processedFiles st v) = reserved st.
Proof. reflexivity. Qed.

Create Rewrite HintDb frame.
#[local] Hint Rewrite reserved_updFile reserved_updClass
  reserved_set_lastDocComment reserved_set_currentClass
  reserved_set_functions reserved_set_namespaces reserved_set_classes
  reserved_set_heap reserved_set_currentNamespace reserved_set_done
  reserved_set_processedFiles : frame.

Ltac frame :=
  repeat (first [ progress (autorewrite with frame)
                | progress cbn [fst snd]
                | break_match ]);
  try reflexivity.

Lemma parseNamespace_reserved : forall st tokens start fileKey,
  reserved (fst (parseNamespace st tokens start fileKey)) = reserved st.
Proof. intros. unfold parseNamespace. frame. Qed.

Lemma parseUse_reserved : forall st tokens start fileKey,
  reserved (fst (parseUse st tokens start fileKey)) = reserved st.
Proof. intros. unfold parseUse. frame. Qed.

Lemma parseFunction_reserved : forall st tokens start fileKey,
  reserved (fst (parseFunction st tokens start fileKey)) = reserved st.
Proof. intros. unfold parseFunction. frame. Qed.

Lemma propertyVarsLoop_reserved : forall fuel st tokens i modifiers,
  reserved (fst (propertyVarsLoop fuel st tokens i modifiers)) = reserved st.
Proof.
  induction fuel as [|fuel IH]; intros; simpl; [reflexivity|].
  frame; rewrite IH; autorewrite with frame; reflexivity.
Qed.

Lemma parseProperty_reserved : forall st tokens start fileKey,
  reserved (fst (parseProperty st tokens start fileKey)) = reserved st.
Proof.
  intros. unfold parseProperty.
  repeat break_match; simpl; autorewrite with frame;
    try reflexivity.
  all: match goal with
    | H : propertyVarsLoop _ _ _ _ _ = (?s', _) |- _ =>
        rewrite (pair_fst H); apply propertyVarsLoop_reserved
    end.
Qed.

Lemma classBodyLoop_reserved : forall fuel st tokens i braceDepth fileKey,
  reserved (fst (classBodyLoop fuel st tokens i braceDepth fileKey))
  = reserved st.
Proof.
  induction fuel as [|fuel IH]; intros; simpl; [reflexivity|].
  repeat break_match; simpl; try reflexivity; rewrite IH;
    autorewrite with frame; try reflexivity.
  - rewrite (pair_fst Heqp). apply parseFunction_reserved.
  - rewrite (pair_fst Heqp). apply parseProperty_reserved.
Qed.

Lemma parseClass_reserved : forall st tokens start fileKey,
  reserved (fst (parseClass st tokens start fileKey)) = reserved st.
Proof.
  intros. unfold parseClass.
  repeat break_match; simpl; autorewrite with frame; try reflexivity.
  all: match goal with
    | H : classBodyLoop _ _ _ _ _ _ = (?s', _) |- _ =>
        rewrite (pair_fst H), classBodyLoop_reserved; clear H; frame
    end.
Qed.

Lemma parseTokensLoop_reserved : forall fuel st tokens i fileKey,
  reserved (parseTokensLoop fuel st tokens i fileKey) = reserved st.
Proof.
  induction fuel as [|fuel IH]; intros; simpl; [reflexivity|].
  repeat break_match; simpl; try reflexivity; rewrite IH;
    autorewrite with frame; try reflexivity;
    rewrite (pair_fst Heqp);
    auto using parseNamespace_reserved, parseUse_reserved,
      parseClass_reserved, parseFunction_reserved.
Qed.

Lemma processPhpFile_reserved : forall st filePath content now,
  reserved (processPhpFile st filePath content now) = reserved st.
Proof.
  intros. unfold processPhpFile, parseTokens. destruct content; [|reflexivity].
  rewrite parseTokensLoop_reserved. reflexivity.
Qed.

Lemma inheritLoop_reserved : forall resolve,
  (forall st r, reserved (outcomeState (resolve st r)) = reserved st) ->
  forall parents st classData context,
    reserved (outcomeState (inheritLoop resolve st classData context parents))
    = reserved st.
Proof.
  intros resolve Hres. induction parents as [|p parents IH]; intros; simpl;
    [reflexivity|].
  destruct (resolveClassName st p context) as [r| |]; simpl;
    [|apply IH|reflexivity].
  specialize (Hres st r).
  destruct (resolve st r) as [st1|st1|st1]; simpl in *; try exact Hres.
  rewrite IH. destruct (deref st1 r); autorewrite with frame; exact Hres.
Qed.

Lemma resolveInheritance_reserved : forall depth st classData,
  reserved (outcomeState (resolveInheritance depth st classData))
  = reserved st.
Proof.
  induction depth as [|depth IH]; intros; simpl; [reflexivity|].
  destruct (deref st classData) as [c|]; [|reflexivity].
  destruct (cls_inheritanceResolved c); [reflexivity|].
  pose proof (inheritLoop_reserved (resolveInheritance depth) IH
                (cls_extends c) st classData (classContext c)) as H.
  destruct (inheritLoop _ _ _ _ _); simpl in *; autorewrite with frame;
    exact H.
Qed.

Lemma postProcessLoop_reserved : forall depth entries st,
  reserved (outcomeState (postProcessLoop depth st entries)) = reserved st.
Proof.
  intros depth. induction entries as [|[k r] entries IH]; intros; simpl;
    [reflexivity|].
  pose proof (resolveInheritance_reserved depth st r) as H.
  destruct (resolveInheritance depth st r); simpl in *; try exact H.
  rewrite IH. exact H.
Qed.

Lemma processFiles_reserved : forall batch st,
  reserved (processFiles st batch) = reserved st.
Proof.
  unfold processFiles. induction batch as [|[[p c] n] batch IH]; intros;
    simpl; [reflexivity|].
  rewrite IH. apply processPhpFile_reserved.
Qed.

Lemma batchLoop_reserved : forall fuel st files i total reports,
  reserved (fst (batchLoop fuel st files i total reports)) = reserved st.
Proof.
  induction fuel as [|fuel IH]; intros; simpl; [reflexivity|].
  destruct files as [|f files]; [reflexivity|].
  rewrite IH. autorewrite with frame. apply processFiles_reserved.
Qed.

Lemma indexPhpFiles_reserved : forall depth st files,
  reserved (outcomeState (fst (indexPhpFiles depth st files))) = ([], []).
Proof.
  intros. unfold indexPhpFiles. destruct files as [files|]; [|reflexivity].
  destruct (batchLoop _ _ _ _ _ _) as [st1 reports] eqn:E. simpl.
  unfold postProcessIndex. rewrite postProcessLoop_reserved.
  rewrite (pair_fst E), batchLoop_reserved. reflexivity.
Qed.

Lemma nth_error_updNth : forall (A : Type) (f : A -> A) (l : list A) n m,
  nth_error (updNth l n f) m
  = if n =? m then option_map f (nth_error l m) else nth_error l m.
Proof.
  induction l as [|x l IH]; intros n m; simpl.
  - destruct m; destruct (n =? _); reflexivity.
  - destruct n, m; simpl; try reflexivity. apply IH.
Qed.

Lemma length_updNth : forall (A : Type) (f : A -> A) (l : list A) n,
  length (updNth l n f) = length l.
Proof.
  induction l as [|x l IH]; intros [|n]; simpl; try reflexivity.
  rewrite IH. reflexivity.
Qed.

Lemma registry_updFile : forall st k f fileKey r,
  (forall fd, fd_classes (f fd) = fd_classes fd) ->
  registry (updFile st k f) fileKey r = registry st fileKey r.
Proof.
  intros st k f fileKey r Hf. unfold registry, updFile.
  destruct (map_get (ix_fileIndex st) k) as [fd|] eqn:E; [|reflexivity].
  unfold fileClasses. simpl. f_equal. f_equal.
  destruct (str_eqb k fileKey) eqn:Ek.
  - apply str_eqb_eq in Ek. subst. rewrite map_get_set_same, E. simpl.
    rewrite Hf. reflexivity.
  - apply str_eqb_neq in Ek. rewrite map_get_set_other by exact Ek.
    reflexivity.
Qed.

Lemma registry_updClass : forall st r0 f fileKey r,
  (forall c, (cls_name (f c), cls_fullName (f c), cls_type (f c))
             = (cls_name c, cls_fullName c, cls_type c)) ->
  registry (updClass st r0 f) fileKey r = registry st fileKey r.
Proof.
  intros st r0 f fileKey r Hf. unfold registry. f_equal.
  unfold classIdentity, deref, updClass. simpl. rewrite nth_error_updNth.
  destruct (r0 =? r); [|reflexivity].
  destruct (nth_error (ix_heap st) r); simpl; [|reflexivity].
  rewrite Hf. reflexivity.
Qed.

Lemma registry_set_lastDocComment : forall st v fileKey r,
  registry (set_lastDocComment st v) fileKey r = registry st fileKey r.
Proof. reflexivity. Qed.

Lemma registry_set_functions : forall st v fileKey r,
  registry (set_functions st v) fileKey r = registry st fileKey r.
Proof. reflexivity. Qed.

Lemma registry_set_currentClass : forall st v fileKey r,
  registry (set_currentClass st v) fileKey r = registry st fileKey r.
Proof. reflexivity. Qed.

Lemma registry_set_namespaces : forall st v fileKey r,
  registry (set_namespaces st v) fileKey r = registry st fileKey r.
Proof. reflexivity. Qed.

Create Rewrite HintDb registry.
#[local] Hint Rewrite registry_set_lastDocComment registry_set_functions
  registry_set_currentClass registry_set_namespaces : registry.

Ltac registry :=
  repeat (first [ progress (autorewrite with registry)
                | rewrite registry_updFile by reflexivity
                | rewrite registry_updClass by reflexivity
                | progress cbn [fst snd]
                | break_match ]);
  try reflexivity.

Lemma parseFunction_registry : forall st tokens start fileKey fk r,
  registry (fst (parseFunction st tokens start fileKey)) fk r
  = registry st fk r.
Proof. intros. unfold parseFunction. registry. Qed.

Lemma propertyVarsLoop_registry : forall fuel st tokens i modifiers fk r,
  registry (fst (propertyVarsLoop fuel st tokens i modifiers)) fk r
  = registry st fk r.
Proof.
  induction fuel as [|fuel IH]; intros; simpl; [reflexivity|].
  registry; rewrite IH; registry.
Qed.

Lemma parseProperty_registry : forall st tokens start fileKey fk r,
  registry (fst (parseProperty st tokens start fileKey)) fk r
  = registry st fk r.
Proof.
  intros. unfold parseProperty. registry.
  all: match goal with
    | H : propertyVarsLoop _ _ _ _ _ = (?s', _) |- _ =>
        rewrite (pair_fst H); apply propertyVarsLoop_registry
    end.
Qed.

Lemma classBodyLoop_registry :
  forall fuel st tokens i braceDepth fileKey fk r,
    registry (fst (classBodyLoop fuel st tokens i braceDepth fileKey)) fk r
    = registry st fk r.
Proof.
  induction fuel as [|fuel IH]; intros; simpl; [reflexivity|].
  repeat break_match; simpl; try reflexivity; rewrite IH;
    try reflexivity.
  - rewrite (pair_fst Heqp). apply parseFunction_registry.
  - rewrite (pair_fst Heqp). apply parseProperty_registry.
Qed.

Lemma getClassCompletions_reserved : forall lc st prefix,
  reserved (snd (getClassCompletions lc st prefix)) = reserved st.
Proof. intros. unfold getClassCompletions. frame. Qed.

Lemma getMethodCompletions_reserved : forall lc st prefix context,
  reserved (snd (getMethodCompletions lc st prefix context)) = reserved st.
Proof. intros. unfold getMethodCompletions. frame. Qed.

Lemma getStaticMethodCompletions_reserved : forall lc st prefix context,
  reserved (snd (getStaticMethodCompletions lc st prefix context))
  = reserved st.
Proof. intros. unfold getStaticMethodCompletions. frame. Qed.

Lemma getNamespaceCompletions_reserved : forall lc st prefix,
  reserved (snd (getNamespaceCompletions lc st prefix)) = reserved st.
Proof. intros. unfold getNamespaceCompletions. frame. Qed.

Lemma getFunctionCompletions_reserved : forall lc st prefix,
  reserved (snd (getFunctionCompletions lc st prefix)) = reserved st.
Proof. intros. unfold getFunctionCompletions. frame. Qed.

Lemma getDefaultCompletions_reserved : forall lc st prefix,
  reserved (snd (getDefaultCompletions lc st prefix)) = reserved st.
Proof.
  intros. unfold getDefaultCompletions.
  destruct (getClassCompletions lc st prefix) as [c1 st1] eqn:E1.
  destruct (getFunctionCompletions lc st1 prefix) as [c2 st2] eqn:E2.
  simpl.
  replace st2 with (snd (getFunctionCompletions lc st1 prefix))
    by (rewrite E2; reflexivity).
  rewrite getFunctionCompletions_reserved.
  replace st1 with (snd (getClassCompletions lc st prefix))
    by (rewrite E1; reflexivity).
  apply getClassCompletions_reserved.
Qed.

Lemma reachable_reserved : forall st, reachable st -> reserved st = ([], []).
Proof.
  induction 1.
  - reflexivity.
  - exact IHreachable.
  - reflexivity.
  - apply indexPhpFiles_reserved.
  - rewrite processPhpFile_reserved. exact IHreachable.
  - unfold parseTokens. rewrite parseTokensLoop_reserved. exact IHreachable.
  - rewrite parseNamespace_reserved. exact IHreachable.
  - rewrite parseUse_reserved. exact IHreachable.
  - rewrite parseClass_reserved. exact IHreachable.
  - rewrite parseProperty_reserved. exact IHreachable.
  - rewrite parseFunction_reserved. exact IHreachable.
  - unfold postProcessIndex. rewrite postProcessLoop_reserved.
    exact IHreachable.
  - rewrite resolveInheritance_reserved. exact IHreachable.
  - rewrite getClassCompletions_reserved. exact IHreachable.
  - rewrite getMethodCompletions_reserved. exact IHreachable.
  - rewrite getStaticMethodCompletions_reserved. exact IHreachable.
  - rewrite getNamespaceCompletions_reserved. exact IHreachable.
  - rewrite getFunctionCompletions_reserved. exact IHreachable.
  - rewrite getDefaultCompletions_reserved. exact IHreachable.
Qed.

(** What [parseClass] does with a named declaration, whatever the keyword:
    the new object is stored under its full name in [this.classes] and
    under its short name in the class map of the file record, and it keeps
    the keyword as its type. *)
Lemma parseClass_registers :
  forall st tokens start fileKey keyword nameToken fd,
    nth_error tokens start = Some keyword ->
    nth_error tokens
      (scanWhile (fun t => typeIs t T_WHITESPACE || typeIs t T_COMMENT
                           || typeIs t T_DOC_COMMENT)
         (length tokens) tokens (S start)) = Some nameToken ->
    tok_type nameToken = T_STRING ->
    map_get (ix_fileIndex st) fileKey = Some fd ->
    let st' := fst (parseClass st tokens start fileKey) in
    let fullName :=
      if nonEmpty (ix_currentNamespace st)
      then ix_currentNamespace st ++ [BACKSLASH] ++ tok_value nameToken
      else tok_value nameToken in
    let r := length (ix_heap st) in
    map_get (ix_classes st') fullName = Some r
    /\ option_map (fun m => map_get m (tok_value nameToken))
         (fileClasses st' fileKey) = Some (Some r)
    /\ classIdentity st' r
       = Some (tok_value nameToken, fullName, toLowerCase (tok_value keyword)).
Proof.
  intros st tokens start fileKey keyword nameToken fd Hk Hn Hty Hfd st'
    fullName r.
  assert (Hreg : registry st' fileKey r
                 = (map_set (ix_classes st) fullName r,
                    Some (map_set (fd_classes fd) (tok_value nameToken) r),
                    Some (tok_value nameToken, fullName,
                          toLowerCase (tok_value keyword)))).
  { subst st'. unfold parseClass. rewrite Hk, Hn.
    unfold typeIs at 1. rewrite Hty. cbn [TokenType_eqb negb].
    destruct (classHeaderLoop _ _ _ _ _) as [[i ext] impl].
    match goal with
    | |- context [set_lastDocComment ?S None] =>
        set (stR := set_lastDocComment S None)
    end.
    assert (HR : registry stR fileKey r
                 = (map_set (ix_classes st) fullName r,
                    Some (map_set (fd_classes fd) (tok_value nameToken) r),
                    Some (tok_value nameToken, fullName,
                          toLowerCase (tok_value keyword)))).
    { subst stR. autorewrite with registry.
      repeat (break_match; autorewrite with registry).
      all: unfold registry, fileClasses, classIdentity, deref, updFile;
        simpl; rewrite Hfd; simpl; rewrite map_get_set_same; simpl;
        subst r; rewrite nth_error_app2 by lia; rewrite Nat.sub_diag;
        reflexivity. }
    clearbody stR.
    destruct (nth_error tokens i) as [t|]; [|exact HR].
    destruct (negb (valueIs t (lit "{"))); [exact HR|].
    match goal with
    | |- context [let '(_, _) := ?p in _] => destruct p as [bd i']
    end.
    destruct (classBodyLoop _ _ _ _ _ _) as [st2 i2] eqn:E.
    cbn [fst]. autorewrite with registry.
    rewrite (pair_fst E), classBodyLoop_registry. exact HR. }
  unfold registry in Hreg. injection Hreg as H1 H2 H3.
  rewrite H1, H2, H3. simpl. rewrite !map_get_set_same. auto.
Qed.

(** C10: no operation of the indexer writes [this.interfaces] or
    [this.traits].  In every state the indexer can be in both maps are
    empty, [getStatistics] reports [interfaces: 0] and [traits: 0], also
    after any further indexing run, and [parseClass] stores a named
    declaration, whatever its keyword, in the global class map and in the
    class map of the file record only. *)
Theorem interfaces_traits_never_written :
  forall st : Indexer,
    reachable st ->
    ix_interfaces st = [] /\ ix_traits st = []
    /\ stat_interfaces (getStatistics st) = 0
    /\ stat_traits (getStatistics st) = 0
    /\ (forall depth files,
          let st' := outcomeState (fst (indexPhpFiles depth st files)) in
          map_size (ix_interfaces st') = 0 /\ map_size (ix_traits st') = 0)
    /\ (forall tokens start fileKey keyword nameToken fd,
          nth_error tokens start = Some keyword ->
          nth_error tokens
            (scanWhile (fun t => typeIs t T_WHITESPACE || typeIs t T_COMMENT
                                 || typeIs t T_DOC_COMMENT)
               (length tokens) tokens (S start)) = Some nameToken ->
          tok_type nameToken = T_STRING ->
          map_get (ix_fileIndex st) fileKey = Some fd ->
          let st' := fst (parseClass st tokens start fileKey) in
          let fullName :=
            if nonEmpty (ix_currentNamespace st)
            then ix_currentNamespace st ++ [BACKSLASH] ++ tok_value nameToken
            else tok_value nameToken in
          let r := length (ix_heap st) in
          map_get (ix_classes st') fullName = Some r
          /\ option_map (fun m => map_get m (tok_value nameToken))
               (fileClasses st' fileKey) = Some (Some r)
          /\ classIdentity st' r
             = Some (tok_value nameToken, fullName,
                     toLowerCase (tok_value keyword))
          /\ ix_interfaces st' = [] /\ ix_traits st' = []).
Proof.
  intros st Hreach.
  pose proof (reachable_reserved Hreach) as H. unfold reserved in H.
  injection H as Hi Ht.
  split; [exact Hi|]. split; [exact Ht|].
  split; [unfold getStatistics; simpl; rewrite Hi; reflexivity|].
  split; [unfold getStatistics; simpl; rewrite Ht; reflexivity|].
  split.
  - intros depth files st'.
    pose proof (indexPhpFiles_reserved depth st files) as H.
    unfold reserved in H. fold st' in H. injection H as -> ->.
    split; reflexivity.
  - intros tokens start fileKey keyword nameToken fd Hk Hn Hty Hfd st'
      fullName r.
    destruct (parseClass_registers st tokens start fileKey Hk Hn Hty Hfd)
      as [H1 [H2 H3]].
    pose proof (parseClass_reserved st tokens start fileKey) as H.
    unfold reserved in H. fold st' in H. rewrite Hi, Ht in H.
    injection H as Hi' Ht'.
    repeat split; assumption.
Qed.

Lemma interfaces_traits_never_written_witness :
  let st :=
    outcomeState
      (fst (indexPhpFiles 8 newIndexer
              (Some [(lit "a.php",
                      Some (lit "<?php interface I {} trait T {} class C {}"),
                      0%Z)]))) in
  reachable st
  /\ map_size (ix_classes st) = 3
  /\ ix_interfaces st = [] /\ ix_traits st = []
  /\ stat_interfaces (getStatistics st) = 0
  /\ stat_traits (getStatistics st) = 0.
Proof.
  intros st.
  assert (Hreach : reachable st)
    by (apply reach_indexPhpFiles, reach_new).
  split; [exact Hreach|]. split; [reflexivity|].
  destruct (interfaces_traits_never_written Hreach)
    as [Hi [Ht [Hsi [Hst _]]]].
  repeat split; assumption.
Defined.

(** ** The modifiers of a parsed function *)

Lemma modifierName_not_CHAR : forall t m,
  modifierName (tok_type t) = Some m -> typeIs t CHAR = false.
Proof.
  intros t m H. unfold typeIs. destruct (tok_type t); try discriminate;
    reflexivity.
Qed.

Lemma typeIs_CHAR : forall t, typeIs t CHAR = true <-> tok_type t = CHAR.
Proof.
  intros t. unfold typeIs. destruct (tok_type t); simpl; split;
    congruence.
Qed.

Lemma addFunctionModifier_In : forall modifiers ty m,
  In m (addFunctionModifier modifiers ty)
  <-> In m modifiers \/ modifierName ty = Some m.
Proof.
  intros modifiers ty m.
  destruct ty; simpl; try rewrite set_add_In;
    split; intros H; try tauto;
    try (destruct H as [H|H]; [auto | try discriminate]);
    try (left; exact H);
    try (injection H as <-; auto);
    try (subst; auto).
Qed.

Lemma functionModifiersFrom_In : forall tokens n modifiers m,
  n <= length tokens ->
  (In m (functionModifiersFrom tokens n modifiers)
   <-> In m modifiers \/ ScannedModifier tokens n m).
Proof.
  intros tokens. induction n as [|j IH]; intros modifiers m Hlen; simpl.
  - split; [auto|]. intros [H | [j [t [Hj _]]]]; [exact H | lia].
  - destruct (nth_error tokens j) as [t|] eqn:Et.
    2:{ apply nth_error_None in Et. lia. }
    destruct (typeIs t CHAR) eqn:Ec.
    + split; [auto|]. intros [H | [k [t' [Hk [Hn [Hm Hall]]]]]]; [exact H|].
      exfalso. apply typeIs_CHAR in Ec.
      destruct (Nat.eq_dec k j) as [->|Hne].
      * rewrite Et in Hn. injection Hn as <-.
        apply modifierName_not_CHAR in Hm. apply typeIs_CHAR in Ec.
        congruence.
      * apply (Hall j t); [lia | exact Et | exact Ec].
    + rewrite IH by lia. rewrite addFunctionModifier_In. split.
      * intros [[H | H] | [k [t' [Hk [Hn [Hm Hall]]]]]].
        -- left. exact H.
        -- right. exists j, t. repeat split; try assumption; try lia.
        -- right. exists k, t'. repeat split; try assumption; try lia.
           intros k' t'' Hk' Hn'.
           destruct (Nat.eq_dec k' j) as [->|Hne].
           ++ rewrite Et in Hn'. injection Hn' as <-.
              intros Hc. apply typeIs_CHAR in Hc. congruence.
           ++ apply (Hall k' t''); [lia | exact Hn'].
      * intros [H | [k [t' [Hk [Hn [Hm Hall]]]]]].
        -- left. left. exact H.
        -- destruct (Nat.eq_dec k j) as [->|Hne].
           ++ rewrite Et in Hn. injection Hn as <-. left. right. exact Hm.
           ++ right. exists k, t'. repeat split; try assumption; try lia.
              intros k' t'' Hk' Hn'. apply (Hall k' t''); [lia | exact Hn'].
Qed.

Lemma functionModifiers_In : forall tokens start m,
  start <= length tokens ->
  (In m (functionModifiers tokens start)
   <-> ScannedModifier tokens start m
       \/ (m = lit "public"
           /\ ~ ScannedModifier tokens start (lit "public")
           /\ ~ ScannedModifier tokens start (lit "protected")
           /\ ~ ScannedModifier tokens start (lit "private"))).
Proof.
  intros tokens start m Hlen. unfold functionModifiers.
  pose proof (fun x => functionModifiersFrom_In tokens (n:=start) [] x Hlen)
    as HS.
  assert (HS' : forall x, In x (functionModifiersFrom tokens start [])
                          <-> ScannedModifier tokens start x).
  { intros x. rewrite HS. simpl. tauto. }
  destruct (set_has _ (lit "public")) eqn:E1; simpl.
  { apply set_has_In, HS' in E1. rewrite HS'. tauto. }
  destruct (set_has _ (lit "protected")) eqn:E2; simpl.
  { apply set_has_In, HS' in E2. rewrite HS'. tauto. }
  destruct (set_has _ (lit "private")) eqn:E3; simpl.
  { apply set_has_In, HS' in E3. rewrite HS'. tauto. }
  assert (N1 : ~ ScannedModifier tokens start (lit "public")).
  { intros H. apply HS', set_has_In in H. congruence. }
  assert (N2 : ~ ScannedModifier tokens start (lit "protected")).
  { intros H. apply HS', set_has_In in H. congruence. }
  assert (N3 : ~ ScannedModifier tokens start (lit "private")).
  { intros H. apply HS', set_has_In in H. congruence. }
  rewrite set_add_In, HS'. tauto.
Qed.

Lemma parseFunction_stores : forall st tokens start fileKey nameToken,
  nth_error tokens (scanWhile isIgnorable (length tokens) tokens (S start))
  = Some nameToken ->
  tok_type nameToken = T_STRING ->
  (forall r, ix_currentClass st = Some r -> r < length (ix_heap st)) ->
  exists f,
    storedFunction st (fst (parseFunction st tokens start fileKey))
      (tok_value nameToken) = Some f
    /\ fn_name f = tok_value nameToken
    /\ fn_modifiers f = functionModifiers tokens start.
Proof.
  intros st tokens start fileKey nameToken Hn Hty Hvalid.
  unfold parseFunction. rewrite Hn. unfold typeIs at 1. rewrite Hty.
  cbn [TokenType_eqb negb].
  destruct (paramLoop _ _ _ _ _ _ _) as [i parameters].
  match goal with
  | |- context [let '(_, _) := ?p in _] => destruct p as [i' returnType]
  end.
  unfold storedFunction.
  destruct (ix_currentClass st) as [r|] eqn:Ecur.
  - specialize (Hvalid r eq_refl).
    destruct (nth_error (ix_heap st) r) as [c|] eqn:Ec.
    2:{ apply nth_error_None in Ec. lia. }
    cbn [fst]. unfold deref, updClass. simpl.
    rewrite nth_error_updNth, Nat.eqb_refl, Ec. simpl.
    rewrite map_get_set_same. eexists. split; [reflexivity|].
    split; reflexivity.
  - cbn [fst]. unfold updFile.
    destruct (map_get _ fileKey); simpl; rewrite map_get_set_same;
      eexists; (split; [reflexivity|]); split; reflexivity.
Qed.

(** C9, as the specification words it, fails: the backward scan of
    [parseFunction] stops only at a single-character token, so a modifier
    keyword separated from the function keyword by other tokens is taken
    too.  Here the word static of the inline text ends up in the modifier
    set of the function foo. *)
Lemma functionModifiers_not_contiguous :
  let content := lit "<?php echo 1; ?> static text <?php function foo() {}" in
  let tokens := tokenize content in
  let st := processPhpFile newIndexer (lit "a.php") (Some content) 0 in
  option_map tok_type (nth_error tokens 9) = Some T_FUNCTION
  /\ option_map fn_modifiers (map_get (ix_functions st) (lit "foo"))
     = Some [lit "static"; lit "public"]
  /\ specFunctionModifiers tokens 9 = [lit "public"]
  /\ option_map fn_modifiers (map_get (ix_functions st) (lit "foo"))
     <> Some (specFunctionModifiers tokens 9).
Proof.
  repeat split; try reflexivity. vm_compute. discriminate.
Qed.

(** C9 (amended): when [parseFunction] parses a named function or method,
    the modifier set it stores holds every modifier (public, protected,
    private, static, abstract, final) whose token lies before the function
    keyword with no single-character token in between, whether or not
    other tokens separate it from the keyword, and it holds public in
    addition when none of public, protected, private is among them. *)
Theorem parseFunction_stored_modifiers :
  forall (st : Indexer) (tokens : list Token) (start : nat)
         (fileKey : jsstring) (keyword nameToken : Token),
    nth_error tokens start = Some keyword ->
    nth_error tokens (scanWhile isIgnorable (length tokens) tokens (S start))
    = Some nameToken ->
    tok_type nameToken = T_STRING ->
    (forall r, ix_currentClass st = Some r -> r < length (ix_heap st)) ->
    exists f,
      storedFunction st (fst (parseFunction st tokens start fileKey))
        (tok_value nameToken) = Some f
      /\ forall m,
           In m (fn_modifiers f)
           <-> ScannedModifier tokens start m
               \/ (m = lit "public"
                   /\ ~ ScannedModifier tokens start (lit "public")
                   /\ ~ ScannedModifier tokens start (lit "protected")
                   /\ ~ ScannedModifier tokens start (lit "private")).
Proof.
  intros st tokens start fileKey keyword nameToken Hk Hn Hty Hvalid.
  destruct (parseFunction_stores st tokens start fileKey Hn Hty Hvalid)
    as [f [Hf [_ Hmods]]].
  exists f. split; [exact Hf|]. intros m. rewrite Hmods.
  apply functionModifiers_In.
  assert (start < length tokens) by (apply nth_error_Some; congruence).
  lia.
Qed.

Lemma parseFunction_stored_modifiers_witness :
  let tokens :=
    tokenize (lit "<?php class A { final function foo() {} }") in
  let st :=
    set_currentClass
      (set_heap newIndexer
         [mkClass (lit "A") (lit "A") [] (lit "class") [] [] [] [] [] []
            None None 1 false])
      (Some 0) in
  exists f,
    storedFunction st (fst (parseFunction st tokens 5 (lit "a.php")))
      (lit "foo") = Some f
    /\ (In (lit "final") (fn_modifiers f)
        /\ In (lit "public") (fn_modifiers f)
        /\ ~ In (lit "static") (fn_modifiers f)).
Proof.
  intros tokens st.
  edestruct (@parseFunction_stored_modifiers st tokens 5 (lit "a.php"))
    as [f [Hf Hm]].
  - vm_compute. reflexivity.
  - vm_compute. reflexivity.
  - reflexivity.
  - intros r H. injection H as <-. simpl. lia.
  - exists f. split; [exact Hf|].
    vm_compute in Hf. injection Hf as <-. vm_compute.
    repeat split; try (right; left; reflexivity); try (left; reflexivity).
    intros [H|[H|[]]]; discriminate.
Defined.

(** ** Cyclic extends chains *)

(** Two unresolved classes whose first parents resolve to each other: the
    recursion of [resolveInheritance] never meets a resolved class, so it
    exceeds every call stack, and it does so before any member is copied
    or any class is marked. *)
Lemma resolveInheritance_two_cycle :
  forall st a b ca cb na nb ra rb,
    deref st a = Some ca -> deref st b = Some cb ->
    cls_inheritanceResolved ca = false ->
    cls_inheritanceResolved cb = false ->
    cls_extends ca = na :: ra -> cls_extends cb = nb :: rb ->
    resolveClassName st na (classContext ca) = Found b ->
    resolveClassName st nb (classContext cb) = Found a ->
    forall depth,
      resolveInheritance depth st a = StackOverflow st
      /\ resolveInheritance depth st b = StackOverflow st.
Proof.
  intros st a b ca cb na nb ra rb Ha Hb Ua Ub Ea Eb Rab Rba.
  induction depth as [|depth [IHa IHb]]; [split; reflexivity|].
  split; simpl.
  - rewrite Ha, Ua, Ea. simpl. rewrite Rab, IHb. reflexivity.
  - rewrite Hb, Ub, Eb. simpl. rewrite Rba, IHa. reflexivity.
Qed.

(** C1 fails on the code: for the two classes of the cycle example,
    declared in one namespace, the indexing run ends in the stack overflow
    of [resolveInheritance] whatever the depth the call stack admits; no
    class is resolved, and the error leaves [indexPhpFiles] rethrown. *)
Theorem resolveInheritance_cycle_overflows :
  let content :=
    lit "<?php namespace App; class A extends B {} class B extends A {}" in
  let parsed := processPhpFile (clearIndex newIndexer) (lit "a.php")
                  (Some content) 0 in
  map (fun c => (cls_fullName c, cls_extends c, cls_inheritanceResolved c))
    (ix_heap parsed)
  = [(lit "App\A", [lit "B"], false); (lit "App\B", [lit "A"], false)]
  /\ forall depth,
       exists st,
         fst (indexPhpFiles depth newIndexer
                (Some [(lit "a.php", Some content, 0%Z)]))
         = StackOverflow st
         /\ ix_heap st = ix_heap parsed.
Proof.
  intros content parsed. split; [reflexivity|].
  intros depth. unfold indexPhpFiles.
  match goal with
  | |- context [batchLoop ?f ?s ?l ?i ?t ?r] =>
      remember (batchLoop f s l i t r) as p eqn:E
  end.
  vm_compute in E. subst p.
  match goal with
  | |- exists st, fst (postProcessIndex depth ?s, _) = _ /\ _ =>
      set (st2 := s)
  end.
  exists st2. split; [|reflexivity].
  cbn [fst]. unfold postProcessIndex. simpl ix_classes.
  cbn [postProcessLoop].
  assert (H : resolveInheritance depth st2 0 = StackOverflow st2).
  { eapply (@resolveInheritance_two_cycle st2 0 1); reflexivity. }
  rewrite H. reflexivity.
Qed.

(** ** Inheritance over acyclic extends chains *)

Lemma map_has_get : forall (V : Type) (m : JsMap V) k,
  map_has m k = false <-> map_get m k = None.
Proof.
  intros V m k. unfold map_has. destruct (map_get m k); split; congruence.
Qed.

Lemma map_has_set : forall (V : Type) (m : JsMap V) k v k',
  map_has (map_set m k v) k' = str_eqb k k' || map_has m k'.
Proof.
  intros V m k v k'. unfold map_has.
  destruct (str_eqb k k') eqn:E.
  - apply str_eqb_eq in E. subst. rewrite map_get_set_same. reflexivity.
  - apply str_eqb_neq in E. rewrite map_get_set_other by exact E.
    reflexivity.
Qed.

Lemma uniqueKeys_set : forall (V : Type) (m : JsMap V) k v,
  uniqueKeys m = true -> uniqueKeys (map_set m k v) = true.
Proof.
  intros V m k v. induction m as [|[k0 v0] m IH]; simpl; intros H.
  - reflexivity.
  - apply andb_true_iff in H. destruct H as [H1 H2].
    destruct (str_eqb k0 k) eqn:E; simpl.
    + rewrite H1, H2. reflexivity.
    + rewrite map_has_set, IH by exact H2.
      rewrite str_eqb_sym, E. simpl. rewrite H1. reflexivity.
Qed.

Section Inherit.

Variable V : Type.
Variable modifiers : V -> JsSet.
Variable inherited : V -> V.

Let step (acc : JsMap V) (entry : jsstring * V) : JsMap V :=
  let '(k, d) := entry in
  if negb (map_has acc k) && isInheritable (modifiers d)
  then map_set acc k (inherited d)
  else acc.

Lemma fold_inherit_get : forall parent own name,
  uniqueKeys parent = true ->
  map_get (fold_left step parent own) name
  = match map_get own name with
    | Some v => Some v
    | None => copyOf modifiers inherited parent name
    end.
Proof.
  induction parent as [|[k d] parent IH]; intros own name Hu; simpl.
  - unfold copyOf. simpl. destruct (map_get own name); reflexivity.
  - simpl in Hu. apply andb_true_iff in Hu. destruct Hu as [Hk Hu].
    apply negb_true_iff, map_has_get in Hk.
    rewrite IH by exact Hu. unfold copyOf. simpl.
    destruct (str_eqb k name) eqn:E.
    + apply str_eqb_eq in E. subst name. rewrite Hk.
      unfold map_has. destruct (map_get own k) eqn:Eo; simpl.
      * rewrite Eo. reflexivity.
      * destruct (isInheritable (modifiers d)).
        -- rewrite map_get_set_same. reflexivity.
        -- rewrite Eo. reflexivity.
    + apply str_eqb_neq in E.
      destruct (negb (map_has own k) && isInheritable (modifiers d)).
      * rewrite map_get_set_other by exact E. reflexivity.
      * reflexivity.
Qed.

Lemma fold_inherit_unique : forall parent own,
  uniqueKeys own = true -> uniqueKeys (fold_left step parent own) = true.
Proof.
  induction parent as [|[k d] parent IH]; intros own Hu; simpl.
  - exact Hu.
  - apply IH.
    destruct (negb (map_has own k) && isInheritable (modifiers d)).
    + apply uniqueKeys_set. exact Hu.
    + exact Hu.
Qed.

End Inherit.

Lemma inheritMethods_get : forall own parent name,
  uniqueKeys parent = true ->
  map_get (inheritMethods own parent) name
  = match map_get own name with
    | Some v => Some v
    | None => copyOf fn_modifiers inheritedMethod parent name
    end.
Proof. intros. apply fold_inherit_get. assumption. Qed.

Lemma inheritProperties_get : forall own parent name,
  uniqueKeys parent = true ->
  map_get (inheritProperties own parent) name
  = match map_get own name with
    | Some v => Some v
    | None => copyOf pr_modifiers inheritedProperty parent name
    end.
Proof. intros. apply fold_inherit_get. assumption. Qed.

Lemma inheritMethods_unique : forall own parent,
  uniqueKeys own = true -> uniqueKeys (inheritMethods own parent) = true.
Proof. intros. apply fold_inherit_unique. assumption. Qed.

Lemma inheritProperties_unique : forall own parent,
  uniqueKeys own = true -> uniqueKeys (inheritProperties own parent) = true.
Proof. intros. apply fold_inherit_unique. assumption. Qed.

Lemma In_combine_seq : forall (A : Type) (l : list A) s x c,
  nth_error l x = Some c -> In (s + x, c) (combine (seq s (length l)) l).
Proof.
  induction l as [|a l IH]; intros s x c H.
  - destruct x; discriminate.
  - destruct x as [|x]; simpl in *.
    + injection H as ->. left. f_equal. lia.
    + right. replace (s + S x) with (S s + x) by lia. apply IH. exact H.
Qed.

Lemma wellFormedStore_WellFormed : forall st,
  wellFormedStore st = true -> WellFormed st.
Proof.
  intros st H x c Hx. unfold wellFormedStore in H.
  rewrite forallb_forall in H. apply H. eapply nth_error_In. exact Hx.
Qed.

Lemma acyclicStore_Acyclic : forall st rank,
  acyclicStore st rank = true -> AcyclicOn (fun _ => True) rank st.
Proof.
  intros st rank H x c _ Hx Hu pn Hin. unfold acyclicStore in H.
  rewrite forallb_forall in H.
  specialize (H (x, c) (In_combine_seq (ix_heap st) 0 x Hx)).
  unfold acyclicClass in H. simpl in H. rewrite Hu in H. simpl in H.
  rewrite forallb_forall in H. specialize (H pn Hin).
  destruct (resolveClassName st pn (classContext c)); try exact I.
  - split; [exact I | apply Nat.ltb_lt; exact H].
  - discriminate.
Qed.


Lemma resolveClassName_maps : forall st st' name context,
  ix_classes st' = ix_classes st -> ix_fileIndex st' = ix_fileIndex st ->
  resolveClassName st' name context = resolveClassName st name context.
Proof.
  intros st st' name context Hc Hf. unfold resolveClassName.
  rewrite Hc, Hf. reflexivity.
Qed.

Lemma resolvedParents_maps : forall st st' context parents,
  ix_classes st' = ix_classes st -> ix_fileIndex st' = ix_fileIndex st ->
  resolvedParents st' context parents = resolvedParents st context parents.
Proof.
  intros st st' context parents Hc Hf. unfold resolvedParents.
  induction parents as [|p parents IH]; simpl; [reflexivity|].
  rewrite IH, (@resolveClassName_maps st st' p context Hc Hf). reflexivity.
Qed.

Lemma Refines_preserves : forall chain rank st st',
  Refines st st' ->
  WellFormed st -> AcyclicOn chain rank st ->
  WellFormed st' /\ AcyclicOn chain rank st'.
Proof.
  intros chain rank st st' [Hc [Hf Hr]] Hwf Hac. split.
  - intros y cy' Hy. destruct (Hr y cy' Hy) as [cy [Hy0 [_ [_ [Hw _]]]]].
    apply Hw. eapply Hwf. exact Hy0.
  - intros y cy' Hs Hy Hu pn Hin.
    destruct (Hr y cy' Hy) as [cy [Hy0 [He [Hx [_ Hres]]]]].
    rewrite (@resolveClassName_maps st st' pn (classContext cy') Hc Hf), Hx.
    apply (Hac y cy Hs Hy0 (Hres Hu)). rewrite <- He. exact Hin.
Qed.

Lemma Refines_refl : forall st, Refines st st.
Proof.
  intros st. split; [reflexivity|]. split; [reflexivity|].
  intros y cy Hy. exists cy. repeat split; auto.
Qed.

Lemma Refines_trans : forall st1 st2 st3,
  Refines st1 st2 -> Refines st2 st3 -> Refines st1 st3.
Proof.
  intros st1 st2 st3 [Hc1 [Hf1 H1]] [Hc2 [Hf2 H2]].
  split; [congruence|]. split; [congruence|].
  intros y c3 Hy. destruct (H2 y c3 Hy) as [c2 [Hy2 [He2 [Hx2 [Hw2 Hr2]]]]].
  destruct (H1 y c2 Hy2) as [c1 [Hy1 [He1 [Hx1 [Hw1 Hr1]]]]].
  exists c1. repeat split; try congruence; auto.
Qed.

Lemma ClassEvolves_refl : forall rank bound y c, ClassEvolves rank bound y c c.
Proof. intros. repeat split; auto. Qed.

Lemma ClassEvolves_trans : forall rank b1 b2 y c1 c2 c3,
  b1 <= b2 ->
  ClassEvolves rank b1 y c1 c2 -> ClassEvolves rank b2 y c2 c3 ->
  ClassEvolves rank b2 y c1 c3.
Proof.
  intros rank b1 b2 y c1 c2 c3 Hb [E1 [X1 [W1 [R1 [B1 D1]]]]]
    [E2 [X2 [W2 [R2 [B2 D2]]]]].
  repeat split; try congruence; auto.
  - intros Hr. rewrite (R1 Hr) in *. auto.
  - intros Hrank. rewrite (B2 Hrank). apply B1. lia.
  - destruct D2 as [-> | D2]; [exact D1 | right; exact D2].
Qed.

Lemma EvolvesExcept_refl : forall rank x bound st,
  EvolvesExcept rank x bound st st.
Proof.
  intros. split; [reflexivity|]. split; [reflexivity|].
  intros y _. destruct (deref st y) as [cy|]; [|reflexivity].
  exists cy. split; [reflexivity | apply ClassEvolves_refl].
Qed.

Lemma EvolvesExcept_trans : forall rank x b1 b2 st1 st2 st3,
  b1 <= b2 ->
  EvolvesExcept rank x b1 st1 st2 -> EvolvesExcept rank x b2 st2 st3 ->
  EvolvesExcept rank x b2 st1 st3.
Proof.
  intros rank x b1 b2 st1 st2 st3 Hb [Hc1 [Hf1 H1]] [Hc2 [Hf2 H2]].
  split; [congruence|]. split; [congruence|].
  intros y Hy. specialize (H1 y Hy). specialize (H2 y Hy).
  destruct (deref st1 y) as [c1|].
  - destruct H1 as [c2 [Hy2 E12]]. rewrite Hy2 in H2.
    destruct H2 as [c3 [Hy3 E23]]. exists c3. split; [exact Hy3|].
    eapply ClassEvolves_trans; eassumption.
  - rewrite H1 in H2. exact H2.
Qed.

Lemma EvolvesExcept_weaken : forall rank x bound st st',
  EvolvesExcept rank None bound st st' -> EvolvesExcept rank x bound st st'.
Proof.
  intros rank x bound st st' [Hc [Hf H]].
  split; [exact Hc|]. split; [exact Hf|].
  intros y _. apply H. discriminate.
Qed.

Lemma Evolves_Refines : forall rank bound st st',
  EvolvesExcept rank None bound st st' -> Refines st st'.
Proof.
  intros rank bound st st' [Hc [Hf H]].
  split; [exact Hc|]. split; [exact Hf|].
  intros y cy' Hy. specialize (H y). 
  assert (Hne : Some y <> @None ClassRef) by discriminate.
  specialize (H Hne). destruct (deref st y) as [cy|].
  - destruct H as [c [Hy' [E [X [W [R [B D]]]]]]].
    rewrite Hy in Hy'. injection Hy' as <-.
    exists cy. repeat split; auto.
    intros Hu. destruct D as [-> | D]; [exact Hu | congruence].
  - congruence.
Qed.

Lemma deref_updClass : forall st x f y,
  deref (updClass st x f) y
  = if x =? y then option_map f (deref st y) else deref st y.
Proof. intros. unfold deref, updClass. simpl. apply nth_error_updNth. Qed.

Lemma deref_updClass_same : forall st x f c,
  deref st x = Some c -> deref (updClass st x f) x = Some (f c).
Proof.
  intros st x f c H. rewrite deref_updClass, Nat.eqb_refl, H. reflexivity.
Qed.

Lemma deref_updClass_other : forall st x f y,
  x <> y -> deref (updClass st x f) y = deref st y.
Proof.
  intros st x f y H. rewrite deref_updClass.
  destruct (x =? y) eqn:E; [apply Nat.eqb_eq in E; contradiction|].
  reflexivity.
Qed.

Lemma Refines_updClass : forall st x f,
  (forall c, deref st x = Some c ->
     cls_extends (f c) = cls_extends c
     /\ classContext (f c) = classContext c
     /\ (wellFormedClass c = true -> wellFormedClass (f c) = true)
     /\ (cls_inheritanceResolved (f c) = false ->
         cls_inheritanceResolved c = false)) ->
  Refines st (updClass st x f).
Proof.
  intros st x f Hf. split; [reflexivity|]. split; [reflexivity|].
  intros y cy' Hy. rewrite deref_updClass in Hy.
  destruct (x =? y) eqn:E.
  - apply Nat.eqb_eq in E. subst y.
    destruct (deref st x) as [c|] eqn:Ex; [|discriminate].
    simpl in Hy. injection Hy as <-. exists c.
    destruct (Hf c eq_refl) as [H1 [H2 [H3 H4]]]. auto.
  - exists cy'. repeat split; auto.
Qed.

Lemma EvolvesExcept_updClass : forall rank x bound st f,
  EvolvesExcept rank (Some x) bound st (updClass st x f).
Proof.
  intros. split; [reflexivity|]. split; [reflexivity|].
  intros y Hy. rewrite deref_updClass_other by congruence.
  destruct (deref st y) as [cy|]; [|reflexivity].
  exists cy. split; [reflexivity | apply ClassEvolves_refl].
Qed.

Lemma parentClasses_cons : forall st p refs,
  parentClasses st (p :: refs)
  = match deref st p with Some c => [c] | None => [] end
    ++ parentClasses st refs.
Proof. reflexivity. Qed.

Lemma wellFormedClass_inherit : forall c P,
  wellFormedClass c = true ->
  wellFormedClass
    (cls_set_properties
       (cls_set_methods c (inheritMethods (cls_methods c) (cls_methods P)))
       (inheritProperties (cls_properties c) (cls_properties P))) = true.
Proof.
  intros c P H. unfold wellFormedClass in *. simpl.
  apply andb_true_iff in H. destruct H as [H1 H2].
  rewrite inheritMethods_unique, inheritProperties_unique by assumption.
  reflexivity.
Qed.

Section Loop.

Variable chain : ClassRef -> Prop.
Variable rank : ClassRef -> nat.
Variable depth' : nat.

Hypothesis IHd :
  forall st p,
    WellFormed st -> AcyclicOn chain rank st -> chain p ->
    rank p < depth' ->
    exists st',
      resolveInheritance depth' st p = Done st'
      /\ EvolvesExcept rank None (S (rank p)) st st'
      /\ (forall c', deref st' p = Some c' ->
                     cls_inheritanceResolved c' = true).

Lemma inheritLoop_ok : forall x, chain x -> forall parents st c,
  WellFormed st -> AcyclicOn chain rank st ->
  deref st x = Some c -> cls_inheritanceResolved c = false ->
  rank x <= depth' ->
  incl parents (cls_extends c) ->
  exists st' c',
    inheritLoop (resolveInheritance depth') st x (classContext c) parents
    = Done st'
    /\ EvolvesExcept rank (Some x) (rank x) st st'
    /\ deref st' x = Some c'
    /\ cls_extends c' = cls_extends c
    /\ classContext c' = classContext c
    /\ cls_inheritanceResolved c' = false
    /\ wellFormedClass c' = true
    /\ (forall name,
          map_get (cls_methods c') name
          = match map_get (cls_methods c) name with
            | Some own => Some own
            | None =>
                inheritedFrom fn_modifiers inheritedMethod
                  (map cls_methods
                     (parentClasses st'
                        (resolvedParents st (classContext c) parents)))
                  name
            end)
    /\ (forall name,
          map_get (cls_properties c') name
          = match map_get (cls_properties c) name with
            | Some own => Some own
            | None =>
                inheritedFrom pr_modifiers inheritedProperty
                  (map cls_properties
                     (parentClasses st'
                        (resolvedParents st (classContext c) parents)))
                  name
            end).
Proof.
  intros x Hsx. induction parents as [|pn parents IH];
    intros st c Hwf Hac Hx Hu Hrank Hincl.
  - exists st, c. simpl. split; [reflexivity|].
    split; [apply EvolvesExcept_refl|]. split; [exact Hx|].
    split; [reflexivity|]. split; [reflexivity|]. split; [exact Hu|].
    split; [eapply Hwf; exact Hx|].
    split; intros name; [destruct (map_get (cls_methods c) name)
                        | destruct (map_get (cls_properties c) name)];
      reflexivity.
  - assert (Hincl' : incl parents (cls_extends c))
      by (intros z Hz; apply Hincl; right; exact Hz).
    pose proof (Hac x c Hsx Hx Hu pn (Hincl pn (or_introl eq_refl))) as Hpn.
    simpl. unfold resolvedParents. simpl.
    fold (resolvedParents st (classContext c) parents).
    destruct (resolveClassName st pn (classContext c)) as [p| |] eqn:Er;
      [| |contradiction].
    + (* the entry resolves to the class p *)
      destruct Hpn as [Hsp Hpn].
      destruct (IHd (st:=st) (p:=p) Hwf Hac Hsp)
        as [st1 [Hres [Hev Hpres]]]; [lia|].
      rewrite Hres.
      assert (Hpx : p <> x) by (intros ->; lia).
      assert (Hx1 : deref st1 x = Some c).
      { destruct Hev as [_ [_ Hev]].
        assert (Hne : Some x <> @None ClassRef) by discriminate.
        specialize (Hev x Hne). rewrite Hx in Hev.
        destruct Hev as [c1 [Hc1 [_ [_ [_ [_ [Hb _]]]]]]].
        rewrite Hc1, (Hb ltac:(lia)). reflexivity. }
      destruct (Refines_preserves (Evolves_Refines Hev) Hwf Hac)
        as [Hwf1 Hac1].
      destruct (deref st1 p) as [P|] eqn:EP.
      * (* copy from the resolved parent P *)
        set (c2 := cls_set_properties
                     (cls_set_methods c
                        (inheritMethods (cls_methods c) (cls_methods P)))
                     (inheritProperties (cls_properties c)
                        (cls_properties P))).
        match goal with
        | |- context [inheritLoop _ ?s _ _ _] => set (st2 := s)
        end.
        assert (Hx2 : deref st2 x = Some c2).
        { subst st2.
          rewrite deref_updClass, Nat.eqb_refl, deref_updClass, Nat.eqb_refl,
            Hx1.
          reflexivity. }
        assert (Hoth : forall y, y <> x -> deref st2 y = deref st1 y).
        { intros y Hy. subst st2.
          rewrite !deref_updClass_other by congruence. reflexivity. }
        assert (Href : Refines st1 st2).
        { split; [reflexivity|]. split; [reflexivity|].
          intros y cy' Hy. destruct (Nat.eq_dec y x) as [->|Hne].
          - rewrite Hx2 in Hy. injection Hy as <-. exists c.
            split; [exact Hx1|]. repeat split; auto.
            intros _. apply wellFormedClass_inherit. eapply Hwf1. exact Hx1.
          - rewrite Hoth in Hy by exact Hne. exists cy'. repeat split; auto. }
        destruct (Refines_preserves Href Hwf1 Hac1) as [Hwf2 Hac2].
        destruct (IH st2 c2 Hwf2 Hac2 Hx2 Hu Hrank Hincl')
          as [st' [c' [Hloop [Hev2 [Hx' [He' [Hc' [Hu' [Hw' [Hm Hp]]]]]]]]]].
        exists st', c'.
        change (classContext c2) with (classContext c) in Hloop, Hm, Hp.
        split; [exact Hloop|].
        assert (Hev12 : EvolvesExcept rank (Some x) (rank x) st1 st2).
        { split; [reflexivity|]. split; [reflexivity|].
          intros y Hy. rewrite Hoth by congruence.
          destruct (deref st1 y) as [cy|]; [|reflexivity].
          exists cy. split; [reflexivity | apply ClassEvolves_refl]. }
        split.
        { eapply EvolvesExcept_trans with (b1 := S (rank p));
            [lia | apply EvolvesExcept_weaken; exact Hev |].
          eapply EvolvesExcept_trans with (b1 := rank x);
            [lia | exact Hev12 | exact Hev2]. }
        split; [exact Hx'|]. split; [exact He'|]. split; [exact Hc'|].
        split; [exact Hu'|]. split; [exact Hw'|].
        assert (HP' : deref st' p = Some P).
        { destruct Hev2 as [_ [_ Hev2]].
          assert (Hne : Some p <> Some x) by congruence.
          specialize (Hev2 p Hne). rewrite Hoth, EP in Hev2 by exact Hpx.
          destruct Hev2 as [P' [HP' [_ [_ [_ [HR _]]]]]].
          rewrite HP', (HR (Hpres P eq_refl)). reflexivity. }
        assert (Hmaps : resolvedParents st2 (classContext c) parents
                        = resolvedParents st (classContext c) parents).
        { apply resolvedParents_maps.
          - destruct Hev as [Hc1 _]. exact Hc1.
          - destruct Hev as [_ [Hf1 _]]. exact Hf1. }
        rewrite Hmaps in Hm, Hp.
        assert (HwP : wellFormedClass P = true) by (eapply Hwf1; exact EP).
        unfold wellFormedClass in HwP. apply andb_true_iff in HwP.
        destruct HwP as [HuM HuP].
        split; intros name.
        -- rewrite Hm. simpl app. rewrite parentClasses_cons, HP'.
           simpl. subst c2. simpl.
           rewrite inheritMethods_get by exact HuM.
           destruct (map_get (cls_methods c) name); [reflexivity|].
           destruct (copyOf fn_modifiers inheritedMethod (cls_methods P) name);
             reflexivity.
        -- rewrite Hp. simpl app. rewrite parentClasses_cons, HP'.
           simpl. subst c2. simpl.
           rewrite inheritProperties_get by exact HuP.
           destruct (map_get (cls_properties c) name); [reflexivity|].
           destruct (copyOf pr_modifiers inheritedProperty
                       (cls_properties P) name);
             reflexivity.
      * (* a dangling reference: nothing to copy *)
        destruct (IH st1 c Hwf1 Hac1 Hx1 Hu Hrank Hincl')
          as [st' [c' [Hloop [Hev2 [Hx' [He' [Hc' [Hu' [Hw' [Hm Hp]]]]]]]]]].
        exists st', c'. split; [exact Hloop|].
        split.
        { eapply EvolvesExcept_trans with (b1 := S (rank p));
            [lia | apply EvolvesExcept_weaken; exact Hev | exact Hev2]. }
        split; [exact Hx'|]. split; [exact He'|]. split; [exact Hc'|].
        split; [exact Hu'|]. split; [exact Hw'|].
        assert (HP' : deref st' p = None).
        { destruct Hev2 as [_ [_ Hev2]].
          assert (Hne : Some p <> Some x) by congruence.
          specialize (Hev2 p Hne). rewrite EP in Hev2. exact Hev2. }
        assert (Hmaps : resolvedParents st1 (classContext c) parents
                        = resolvedParents st (classContext c) parents).
        { apply resolvedParents_maps.
          - destruct Hev as [Hc1 _]. exact Hc1.
          - destruct Hev as [_ [Hf1 _]]. exact Hf1. }
        rewrite Hmaps in Hm, Hp.
        split; intros name.
        -- rewrite Hm. simpl app. rewrite parentClasses_cons, HP'.
           reflexivity.
        -- rewrite Hp. simpl app. rewrite parentClasses_cons, HP'.
           reflexivity.
    + (* the entry resolves to nothing *)
      destruct (IH st c Hwf Hac Hx Hu Hrank Hincl')
        as [st' [c' H]].
      exists st', c'. exact H.
Qed.

End Loop.

Lemma ClassEvolves_mono : forall rank b1 b2 y c c',
  b1 <= b2 -> ClassEvolves rank b1 y c c' -> ClassEvolves rank b2 y c c'.
Proof.
  intros rank b1 b2 y c c' Hb [E [X [W [R [B D]]]]].
  repeat split; auto. intros H. apply B. lia.
Qed.

Lemma parentClasses_ext : forall st st' refs,
  (forall p, In p refs -> deref st' p = deref st p) ->
  parentClasses st' refs = parentClasses st refs.
Proof.
  intros st st'. induction refs as [|p refs IH]; intros H; [reflexivity|].
  rewrite !parentClasses_cons, H by (left; reflexivity).
  rewrite IH; [reflexivity|]. intros q Hq. apply H. right. exact Hq.
Qed.

Lemma In_resolvedParents : forall st context parents p,
  In p (resolvedParents st context parents) ->
  exists parentName,
    In parentName parents
    /\ resolveClassName st parentName context = Found p.
Proof.
  intros st context parents p H. unfold resolvedParents in H.
  apply in_flat_map in H. destruct H as [pn [Hin Hp]]. exists pn.
  split; [exact Hin|].
  destruct (resolveClassName st pn context); simpl in Hp; try contradiction.
  destruct Hp as [-> | []]. reflexivity.
Qed.

Lemma resolveInheritance_ok : forall chain rank depth st x,
  WellFormed st -> AcyclicOn chain rank st -> chain x -> rank x < depth ->
  exists st',
    resolveInheritance depth st x = Done st'
    /\ EvolvesExcept rank None (S (rank x)) st st'
    /\ (forall c', deref st' x = Some c' ->
                   cls_inheritanceResolved c' = true)
    /\ (forall c,
          deref st x = Some c -> cls_inheritanceResolved c = false ->
          exists c',
            deref st' x = Some c'
            /\ (forall name,
                  map_get (cls_methods c') name
                  = match map_get (cls_methods c) name with
                    | Some own => Some own
                    | None =>
                        inheritedFrom fn_modifiers inheritedMethod
                          (map cls_methods
                             (parentClasses st'
                                (resolvedParents st (classContext c)
                                   (cls_extends c))))
                          name
                    end)
            /\ (forall name,
                  map_get (cls_properties c') name
                  = match map_get (cls_properties c) name with
                    | Some own => Some own
                    | None =>
                        inheritedFrom pr_modifiers inheritedProperty
                          (map cls_properties
                             (parentClasses st'
                                (resolvedParents st (classContext c)
                                   (cls_extends c))))
                          name
                    end)).
Proof.
  intros chain rank.
  induction depth as [|depth IHdepth]; intros st x Hwf Hac Hsx Hr; [lia|].
  simpl. destruct (deref st x) as [c|] eqn:Hx.
  2:{ exists st. split; [reflexivity|].
      split; [apply EvolvesExcept_refl|].
      split; intros c; rewrite Hx; discriminate. }
  destruct (cls_inheritanceResolved c) eqn:Hu.
  { exists st. split; [reflexivity|].
    split; [apply EvolvesExcept_refl|]. split.
    - intros c' Hc'. rewrite Hx in Hc'. injection Hc' as <-. exact Hu.
    - intros c0 Hc0 Hu0. injection Hc0 as <-. congruence. }
  assert (IHd : forall st p,
             WellFormed st -> AcyclicOn chain rank st -> chain p ->
             rank p < depth ->
             exists st',
               resolveInheritance depth st p = Done st'
               /\ EvolvesExcept rank None (S (rank p)) st st'
               /\ (forall c', deref st' p = Some c' ->
                              cls_inheritanceResolved c' = true)).
  { intros st0 p H1 H2 H3 H4.
    destruct (IHdepth st0 p H1 H2 H3 H4) as [st1 [A [B [C _]]]].
    exists st1. auto. }
  destruct (@inheritLoop_ok chain rank depth IHd x Hsx (cls_extends c) st c
              Hwf Hac Hx Hu ltac:(lia) (incl_refl _))
    as [st' [c' [Hloop [Hev [Hx' [He' [Hc' [Hu' [Hw' [Hm Hp]]]]]]]]]].
  rewrite Hloop.
  set (st'' := updClass st' x (fun c => cls_set_inheritanceResolved c true)).
  assert (Hx'' : deref st'' x = Some (cls_set_inheritanceResolved c' true))
    by (subst st''; rewrite deref_updClass, Nat.eqb_refl, Hx'; reflexivity).
  exists st''. split; [reflexivity|]. split; [|split].
  - destruct Hev as [Hcl [Hfi Hev]].
    split; [exact Hcl|]. split; [exact Hfi|].
    intros y _. destruct (Nat.eq_dec y x) as [->|Hne].
    + rewrite Hx. eexists. split; [exact Hx''|].
      repeat split; simpl; auto; try congruence.
      intros H. lia.
    + assert (Hne' : Some y <> Some x) by congruence.
      specialize (Hev y Hne'). subst st''.
      rewrite deref_updClass_other by congruence.
      destruct (deref st y) as [cy|]; [|exact Hev].
      destruct Hev as [cy' [Hy' E]]. exists cy'. split; [exact Hy'|].
      eapply ClassEvolves_mono; [|exact E]. lia.
  - intros c0 Hc0. rewrite Hx'' in Hc0. injection Hc0 as <-. reflexivity.
  - intros c0 Hc0 _. injection Hc0 as <-.
    eexists. split; [exact Hx''|].
    assert (Hpar : parentClasses st''
                     (resolvedParents st (classContext c) (cls_extends c))
                   = parentClasses st'
                       (resolvedParents st (classContext c) (cls_extends c))).
    { apply parentClasses_ext. intros p Hp0.
      apply In_resolvedParents in Hp0. destruct Hp0 as [pn [Hin Hres]].
      pose proof (Hac x c Hsx Hx Hu pn Hin) as Hlt. rewrite Hres in Hlt.
      destruct Hlt as [_ Hlt].
      subst st''. apply deref_updClass_other. intros ->. lia. }
    rewrite Hpar. split; [exact Hm | exact Hp].
Qed.




(** ** The order of completion items *)

Section Sorting.

Variable A : Type.
Variable compare : A -> A -> Z.

Hypothesis compare_total :
  forall a b, (compare a b > 0)%Z -> (compare b a <= 0)%Z.
Hypothesis compare_trans :
  forall a b c,
    (compare a b <= 0)%Z -> (compare b c <= 0)%Z -> (compare a c <= 0)%Z.

Lemma sortInsert_perm : forall x l,
  Permutation (x :: l) (sortInsert compare x l).
Proof.
  intros x. induction l as [|y l IH]; simpl.
  - apply Permutation_refl.
  - destruct (compare x y <=? 0)%Z.
    + apply Permutation_refl.
    + eapply perm_trans; [apply perm_swap|]. apply perm_skip. exact IH.
Qed.

Lemma jsSort_perm : forall l, Permutation l (jsSort compare l).
Proof.
  induction l as [|x l IH]; simpl.
  - apply perm_nil.
  - eapply perm_trans; [apply perm_skip; exact IH|]. apply sortInsert_perm.
Qed.

Lemma sortInsert_sorted : forall x l,
  StronglySorted (fun a b => (compare a b <= 0)%Z) l ->
  StronglySorted (fun a b => (compare a b <= 0)%Z) (sortInsert compare x l).
Proof.
  intros x. induction l as [|y l IH]; intros Hs; simpl.
  - constructor; constructor.
  - inversion Hs as [|? ? Hl Hy]; subst.
    destruct (compare x y <=? 0)%Z eqn:E.
    + apply Z.leb_le in E. constructor; [exact Hs|].
      constructor; [exact E|].
      rewrite Forall_forall in *. intros z Hz.
      eapply compare_trans; [exact E | apply Hy; exact Hz].
    + apply Z.leb_gt in E. constructor; [apply IH; exact Hl|].
      rewrite Forall_forall in *. intros z Hz.
      apply (Permutation_in _ (Permutation_sym (sortInsert_perm x l))) in Hz.
      destruct Hz as [<- | Hz].
      * apply compare_total. lia.
      * apply Hy. exact Hz.
Qed.

Lemma jsSort_sorted : forall l,
  StronglySorted (fun a b => (compare a b <= 0)%Z) (jsSort compare l).
Proof.
  induction l as [|x l IH]; simpl.
  - constructor.
  - apply sortInsert_sorted. exact IH.
Qed.

End Sorting.

Lemma compareCompletions_RanksBefore : forall localeCompare a b,
  (compareCompletions localeCompare a b <= 0)%Z
  <-> RanksBefore localeCompare a b.
Proof.
  intros lc a b. unfold compareCompletions, RanksBefore.
  destruct (score a =? score b)%Z eqn:Es; simpl.
  - apply Z.eqb_eq in Es.
    destruct (length (caption a) =? length (caption b)) eqn:El; simpl.
    + apply Nat.eqb_eq in El. split.
      * intros H. right. split; [exact Es|]. right. split; assumption.
      * intros [H | [_ [H | [_ H]]]]; [lia | lia | exact H].
    + apply Nat.eqb_neq in El. split.
      * intros H. right. split; [exact Es|]. left. lia.
      * intros [H | [_ [H | [H _]]]]; lia.
  - apply Z.eqb_neq in Es. split.
    + intros H. left. lia.
    + intros [H | [H _]]; lia.
Qed.

Lemma StronglySorted_impl : forall (A : Type) (R S : A -> A -> Prop) l,
  (forall a b, R a b -> S a b) -> StronglySorted R l -> StronglySorted S l.
Proof.
  intros A R S l H. induction 1 as [|x l Hs IH Hf]; constructor.
  - exact IH.
  - rewrite Forall_forall in *. intros y Hy. apply H, Hf, Hy.
Qed.

Lemma codeUnitCompare_antisym : forall a b,
  codeUnitCompare b a = (- codeUnitCompare a b)%Z.
Proof.
  induction a as [|x a IH]; destruct b as [|y b]; simpl; try reflexivity.
  rewrite (N.compare_antisym x y).
  destruct (N.compare x y); simpl; try reflexivity. apply IH.
Qed.

Lemma codeUnitCompare_trans : forall a b c,
  (codeUnitCompare a b <= 0)%Z -> (codeUnitCompare b c <= 0)%Z ->
  (codeUnitCompare a c <= 0)%Z.
Proof.
  induction a as [|x a IH]; intros [|y b] [|z c]; simpl; try lia.
  destruct (N.compare_spec x y) as [Hxy|Hxy|Hxy];
    destruct (N.compare_spec y z) as [Hyz|Hyz|Hyz];
    destruct (N.compare_spec x z) as [Hxz|Hxz|Hxz];
    try lia; try apply IH.
Qed.

Lemma RanksBefore_score : forall localeCompare a b,
  RanksBefore localeCompare a b -> (score a >= score b)%Z.
Proof. intros lc a b [H | [H _]]; lia. Qed.

Lemma scores_of_candidates : forall m1 m2 m3,
  (score (scoredCandidate (lit "get") (lit "get") m1)
   > score (scoredCandidate (lit "get") (lit "getX") m2))%Z
  /\ (score (scoredCandidate (lit "get") (lit "getX") m2)
      > score (scoredCandidate (lit "get") (lit "xget") m3))%Z.
Proof.
  intros m1 m2 m3. unfold scoredCandidate, score, calculateScore.
  destruct m1 as [s1|]; [destruct (set_has s1 (lit "public"))|];
    destruct m2 as [s2|]; try destruct (set_has s2 (lit "public"));
    destruct m3 as [s3|]; try destruct (set_has s3 (lit "public"));
    vm_compute; split; reflexivity.
Qed.

Lemma sorted_three : forall localeCompare a b c out,
  (score a > score b)%Z -> (score b > score c)%Z ->
  Permutation [a; b; c] out ->
  StronglySorted (RanksBefore localeCompare) out ->
  out = [a; b; c].
Proof.
  intros lc a b c out Hab Hbc Hperm Hs.
  pose proof (Permutation_length Hperm) as Hlen.
  destruct out as [|x [|y [|z [|w out]]]]; try discriminate.
  assert (Ha : In a [x; y; z]) by (eapply Permutation_in; [exact Hperm|]; simpl; auto).
  assert (Hb : In b [x; y; z]) by (eapply Permutation_in; [exact Hperm|]; simpl; auto).
  assert (Hc : In c [x; y; z]) by (eapply Permutation_in; [exact Hperm|]; simpl; auto).
  inversion Hs as [|? ? Hs1 Hx]; subst.
  inversion Hs1 as [|? ? Hs2 Hy]; subst.
  inversion Hx as [|? ? Hxy Hx']; subst. inversion Hx' as [|? ? Hxz _]; subst.
  inversion Hy as [|? ? Hyz _]; subst.
  apply RanksBefore_score in Hxy, Hxz, Hyz.
  simpl in Ha, Hb, Hc.
  destruct Ha as [<- | [<- | [<- | []]]];
    destruct Hb as [<- | [<- | [<- | []]]];
    destruct Hc as [<- | [<- | [<- | []]]];
    try lia; reflexivity.
Qed.

(** C8: [sortCompletions] returns the items it was given, ordered by
    descending score, then by ascending caption length, then by the order
    of [localeCompare] on the caption; and the candidates get, getX, xget,
    scored against the prefix get, come out in exactly this order, from
    whatever order they went in. *)
Theorem sortCompletions_order :
  forall (localeCompare : jsstring -> jsstring -> Z),
    (forall a b, (localeCompare a b > 0)%Z -> (localeCompare b a <= 0)%Z) ->
    (forall a b c,
       (localeCompare a b <= 0)%Z -> (localeCompare b c <= 0)%Z ->
       (localeCompare a c <= 0)%Z) ->
    (forall completions prefix,
       Permutation completions
         (sortCompletions localeCompare completions prefix)
       /\ StronglySorted (RanksBefore localeCompare)
            (sortCompletions localeCompare completions prefix))
    /\ (forall m1 m2 m3 input,
          Permutation
            [scoredCandidate (lit "get") (lit "get") m1;
             scoredCandidate (lit "get") (lit "getX") m2;
             scoredCandidate (lit "get") (lit "xget") m3] input ->
          map caption (sortCompletions localeCompare input (lit "get"))
          = [lit "get"; lit "getX"; lit "xget"]).
Proof.
  intros lc Htotal Htrans.
  assert (Hsort : forall completions prefix,
             Permutation completions (sortCompletions lc completions prefix)
             /\ StronglySorted (RanksBefore lc)
                  (sortCompletions lc completions prefix)).
  { intros completions prefix. unfold sortCompletions. split.
    - apply jsSort_perm.
    - apply StronglySorted_impl
        with (R := fun a b => (compareCompletions lc a b <= 0)%Z).
      + intros a b. apply compareCompletions_RanksBefore.
      + apply jsSort_sorted.
        * intros a b Hgt.
          apply compareCompletions_RanksBefore.
          assert (Hn : ~ RanksBefore lc a b).
          { intros H. apply compareCompletions_RanksBefore in H. lia. }
          unfold RanksBefore in *.
          destruct (Z.lt_trichotomy (score a) (score b)) as [H|[H|H]];
            [left; lia | | exfalso; apply Hn; left; lia].
          right. split; [lia|].
          destruct (Nat.lt_trichotomy (length (caption a))
                      (length (caption b))) as [L|[L|L]];
            [exfalso; apply Hn; right; split; [exact H | left; exact L]
            | | left; exact L].
          right. split; [lia|]. apply Htotal.
          destruct (Z_le_gt_dec (lc (caption a) (caption b)) 0) as [Hle|Hg];
            [|exact Hg].
          exfalso. apply Hn. right. split; [exact H|]. right.
          split; assumption.
        * intros a b c Hab Hbc.
          apply compareCompletions_RanksBefore in Hab, Hbc.
          apply compareCompletions_RanksBefore.
          unfold RanksBefore in *.
          destruct Hab as [Hab | [Eab [Lab | [Lab Cab]]]];
            destruct Hbc as [Hbc | [Ebc [Lbc | [Lbc Cbc]]]];
            try (left; lia);
            try (right; split; [lia|]; left; lia).
          right. split; [lia|]. right. split; [lia|].
          eapply Htrans; eassumption. }
  split; [exact Hsort|].
  intros m1 m2 m3 input Hperm.
  destruct (Hsort input (lit "get")) as [Hp Hs].
  destruct (scores_of_candidates m1 m2 m3) as [H12 H23].
  rewrite (sorted_three H12 H23 (perm_trans Hperm Hp) Hs). reflexivity.
Qed.

Lemma sortCompletions_order_witness :
  let item name s := mkCompletion name name (lit "class") s name None in
  let input :=
    [item (lit "bb") 1000%Z; item (lit "ab") 1000%Z; item (lit "c") 1000%Z;
     item (lit "zz") 1300%Z] in
  (forall a b, (codeUnitCompare a b > 0)%Z -> (codeUnitCompare b a <= 0)%Z)
  /\ map caption (sortCompletions codeUnitCompare input (lit "z"))
     = [lit "zz"; lit "c"; lit "ab"; lit "bb"]
  /\ StronglySorted (RanksBefore codeUnitCompare)
       (sortCompletions codeUnitCompare input (lit "z")).
Proof.
  intros item input.
  assert (Htotal : forall a b,
             (codeUnitCompare a b > 0)%Z -> (codeUnitCompare b a <= 0)%Z).
  { intros a b H. rewrite codeUnitCompare_antisym. lia. }
  split; [exact Htotal|]. split; [reflexivity|].
  apply (@sortCompletions_order codeUnitCompare Htotal codeUnitCompare_trans).
Defined.

(** ** The lexer *)

Lemma substring_firstn_skipn : forall (s : jsstring) a b,
  a <= b -> b <= length s ->
  substring s a b = firstn (b - a) (skipn a s).
Proof.
  intros s a b Hab Hb. unfold substring.
  rewrite !Nat.min_l by lia. rewrite Nat.max_r by lia.
  reflexivity.
Qed.

Lemma firstn_plus : forall (A : Type) (s : list A) a n,
  firstn (a + n) s = firstn a s ++ firstn n (skipn a s).
Proof.
  intros A s a n. revert s. induction a as [|a IH]; intros s; simpl.
  - reflexivity.
  - destruct s as [|x s]; simpl.
    + destruct n; reflexivity.
    + rewrite IH. reflexivity.
Qed.

Lemma firstn_extend : forall (s : jsstring) a b,
  a <= b -> b <= length s ->
  firstn b s = firstn a s ++ substring s a b.
Proof.
  intros s a b Hab Hb. rewrite substring_firstn_skipn by assumption.
  replace b with (a + (b - a)) at 1 by lia.
  rewrite firstn_plus. reflexivity.
Qed.

Lemma substring_length : forall (s : jsstring) a b,
  a <= b -> b <= length s -> length (substring s a b) = b - a.
Proof.
  intros s a b Hab Hb. rewrite substring_firstn_skipn by assumption.
  rewrite length_firstn, length_skipn. lia.
Qed.

Lemma substring_nonempty : forall (s : jsstring) a b,
  a < b -> b <= length s -> substring s a b <> [].
Proof.
  intros s a b Hab Hb H. apply (f_equal (@length _)) in H.
  rewrite substring_length in H by lia. simpl in H. lia.
Qed.

Lemma substr_length_le : forall (s : jsstring) i n,
  0 < n -> length (substr s i n) = n -> i + n <= length s.
Proof.
  intros s i n Hn H. unfold substr in H.
  rewrite length_firstn, length_skipn in H. lia.
Qed.

Lemma substr_substring : forall (s : jsstring) i n,
  i + n <= length s -> substr s i n = substring s i (i + n).
Proof.
  intros s i n H. rewrite substring_firstn_skipn by lia. unfold substr.
  f_equal. lia.
Qed.

Lemma substr_lit : forall (s : jsstring) i n l,
  str_eqb (substr s i n) l = true -> length l = n -> 0 < n ->
  i + n <= length s /\ l = substring s i (i + n).
Proof.
  intros s i n l H Hl Hpos. apply str_eqb_eq in H.
  assert (Hn : i + n <= length s)
    by (apply substr_length_le; [exact Hpos | rewrite H; exact Hl]).
  split; [exact Hn|]. rewrite <- H. apply substr_substring. exact Hn.
Qed.

Lemma charAt_substring : forall (s : jsstring) i c,
  charAt s i = Some c -> [c] = substring s i (S i).
Proof.
  intros s i c H. unfold charAt in H.
  assert (Hi : i < length s) by (apply nth_error_Some; congruence).
  rewrite substring_firstn_skipn by lia.
  replace (S i - i) with 1 by lia.
  pose proof (nth_error_split s i H) as [l1 [l2 [Hs Hl]]].
  rewrite Hs. rewrite skipn_app, <- Hl, skipn_all, Nat.sub_diag. reflexivity.
Qed.

Lemma scanWhile_bounds : forall (A : Type) (p : A -> bool) fuel (l : list A) i,
  i <= length l ->
  i <= scanWhile p fuel l i <= length l.
Proof.
  intros A p. induction fuel as [|fuel IH]; intros l i Hi; simpl; [lia|].
  destruct (nth_error l i) as [c|] eqn:E; [|lia].
  destruct (p c); [|lia].
  assert (i < length l) by (apply nth_error_Some; congruence).
  specialize (IH l (S i) ltac:(lia)). lia.
Qed.

Lemma scanWhile_progress :
  forall (A : Type) (p : A -> bool) fuel (l : list A) i c,
    nth_error l i = Some c -> p c = true ->
    S i <= scanWhile p (S fuel) l i <= length l.
Proof.
  intros A p fuel l i c Hc Hp. simpl. rewrite Hc, Hp.
  assert (i < length l) by (apply nth_error_Some; congruence).
  apply scanWhile_bounds. lia.
Qed.

Lemma scanBlockComment_bounds : forall fuel content i line column,
  i <= length content ->
  i <= fst (fst (scanBlockComment fuel content i line column))
    <= length content.
Proof.
  induction fuel as [|fuel IH]; intros content i line column Hi; simpl;
    [lia|].
  destruct (i <? length content - 1) eqn:E; simpl; [|lia].
  apply Nat.ltb_lt in E.
  destruct (str_eqb (substr content i 2) (lit "*/")); simpl; [lia|].
  destruct (charIs content i NL).
  - specialize (IH content (S i) (S line) 1 ltac:(lia)). lia.
  - specialize (IH content (S i) line column ltac:(lia)). lia.
Qed.

Lemma scanString_bounds : forall fuel content quote i,
  i <= length content ->
  i <= scanString fuel content quote i <= length content.
Proof.
  induction fuel as [|fuel IH]; intros content quote i Hi; simpl; [lia|].
  destruct (i <? length content) eqn:E; [|lia].
  apply Nat.ltb_lt in E.
  destruct (charIs content i quote && negb (charIs content (i - 1) BACKSLASH));
    [lia|].
  specialize (IH content quote (S i) ltac:(lia)). lia.
Qed.

(** What one iteration of the main loop does: it skips one white-space code
    unit, or it pushes one token whose value is the text from the old
    offset to the new one, further on. *)
Lemma lexStep_shape : forall content st,
  lex_i st < length content ->
  (exists c, charAt content (lex_i st) = Some c /\ isWhitespace c = true
             /\ lex_tokens (lexStep content st) = lex_tokens st
             /\ lex_i (lexStep content st) = S (lex_i st))
  \/ (exists t,
        lex_tokens (lexStep content st) = lex_tokens st ++ [t]
        /\ lex_i st < lex_i (lexStep content st) <= length content
        /\ tok_value t
           = substring content (lex_i st) (lex_i (lexStep content st))).
Proof.
  intros content st Hi. unfold lexStep.
  destruct (charAt content (lex_i st)) as [char|] eqn:Ec.
  2:{ apply nth_error_None in Ec. lia. }
  set (i := lex_i st) in *.
  assert (Hrest : length content - i = S (length content - i - 1)) by lia.
  destruct (isWhitespace char) eqn:Ews.
  { left. exists char. auto. }
  right.
  destruct (str_eqb (substr content i 5) (lit "<?php")) eqn:Etag.
  { destruct (@substr_lit content i 5 (lit "<?php") Etag eq_refl ltac:(lia))
      as [Hn Hv].
    eexists. split; [reflexivity|]. cbn [lex_i tok_value].
    split; [lia | exact Hv]. }
  destruct (str_eqb (substr content i 2) (lit "//")
            || str_eqb (substr content i 1) (lit "#")) eqn:Eline.
  { assert (Hnl : negb (char =? NL)%N = true).
    { apply orb_true_iff in Eline. destruct Eline as [E | E].
      - apply str_eqb_eq in E. unfold substr in E.
        unfold charAt in Ec.
        destruct (skipn i content) as [|x r] eqn:Es;
          [discriminate|].
        assert (x = char).
        { pose proof (nth_error_split content i Ec) as [l1 [l2 [Hs Hl]]].
          rewrite Hs, skipn_app, <- Hl, skipn_all, Nat.sub_diag in Es.
          simpl in Es. congruence. }
        subst x. destruct r; vm_compute in E; [discriminate|].
        injection E as E _. subst char. reflexivity.
      - apply str_eqb_eq in E. unfold substr in E.
        unfold charAt in Ec.
        destruct (skipn i content) as [|x r] eqn:Es;
          [discriminate|].
        assert (x = char).
        { pose proof (nth_error_split content i Ec) as [l1 [l2 [Hs Hl]]].
          rewrite Hs, skipn_app, <- Hl, skipn_all, Nat.sub_diag in Es.
          simpl in Es. congruence. }
        subst x. vm_compute in E. injection E as E. subst char.
        reflexivity. }
    pose proof (@scanWhile_progress _ (fun c => negb (c =? NL)%N)
                  (length content - i - 1) content i char Ec Hnl) as Hb.
    rewrite <- Hrest in Hb.
    eexists. split; [reflexivity|]. cbn [lex_i tok_value].
    split; [first [exact Hb | lia] | reflexivity]. }
  destruct (str_eqb (substr content i 2) (lit "/*")) eqn:Eblock.
  { destruct (@substr_lit content i 2 (lit "/*") Eblock eq_refl ltac:(lia))
      as [Hn _].
    pose proof (@scanBlockComment_bounds (length content - i) content
                  (i + 2)
                  (if (char =? NL)%N then S (lex_line st) else lex_line st)
                  (if (char =? NL)%N then 1 else S (lex_column st)) Hn)
      as Hb.
    destruct (scanBlockComment _ _ _ _ _) as [[j line'] column'].
    cbn [fst] in Hb. eexists. split; [reflexivity|]. cbn [lex_i tok_value].
    split; [lia | reflexivity]. }
  destruct ((char =? DQUOTE)%N || (char =? SQUOTE)%N) eqn:Equote.
  { pose proof (@scanString_bounds (length content - i) content char (S i)
                  ltac:(lia)) as Hb.
    eexists. split; [reflexivity|]. cbn [lex_i tok_value].
    split; [first [exact Hb | lia] | reflexivity]. }
  destruct (char =? DOLLAR)%N eqn:Edollar.
  { pose proof (@scanWhile_bounds _ isVarChar (length content - i) content
                  (S i) ltac:(lia)) as Hb.
    eexists. split; [reflexivity|]. cbn [lex_i tok_value].
    split; [first [exact Hb | lia] | reflexivity]. }
  destruct (isIdentStart char) eqn:Eid.
  { assert (Hic : isIdentChar char = true).
    { unfold isIdentChar, isVarChar. unfold isIdentStart in Eid.
      apply orb_true_iff in Eid. destruct Eid as [E | E]; rewrite E;
        simpl; rewrite ?orb_true_r; reflexivity. }
    pose proof (@scanWhile_progress _ isIdentChar (length content - i - 1)
                  content i char Ec Hic) as Hb.
    rewrite <- Hrest in Hb.
    eexists. split; [reflexivity|]. cbn [lex_i tok_value].
    split; [first [exact Hb | lia] | reflexivity]. }
  eexists. split; [reflexivity|]. cbn [lex_i tok_value]. split; [lia|].
  apply charAt_substring. exact Ec.
Qed.

Lemma lexStep_progress : forall content st,
  lex_i st < length content ->
  lex_i st < lex_i (lexStep content st) <= length content.
Proof.
  intros content st Hi.
  destruct (lexStep_shape content st Hi)
    as [[c [_ [_ [_ Hs]]]] | [t [_ [Hb _]]]]; [rewrite Hs; lia | exact Hb].
Qed.

Lemma lexStep_layout : forall content st starts,
  lex_i st < length content ->
  Layout (map tok_value (lex_tokens st)) starts (firstn (lex_i st) content) ->
  exists starts',
    Layout (map tok_value (lex_tokens (lexStep content st))) starts'
      (firstn (lex_i (lexStep content st)) content).
Proof.
  intros content st starts Hi HL.
  destruct (lexStep_shape content st Hi)
    as [[c [Hc [Hws [Ht Hs]]]] | [t [Ht [Hb Hv]]]].
  - exists starts. rewrite Ht, Hs.
    rewrite (@firstn_extend content (lex_i st) (S (lex_i st)))
      by lia.
    rewrite <- (charAt_substring content (lex_i st) Hc).
    apply Layout_space; assumption.
  - exists (starts ++ [length (firstn (lex_i st) content)]).
    rewrite Ht, map_app. simpl map.
    rewrite (@firstn_extend content (lex_i st)
               (lex_i (lexStep content st))) by lia.
    rewrite Hv. apply Layout_token; [exact HL|].
    apply substring_nonempty; lia.
Qed.

Lemma lexLoop_runs : forall content fuel st starts,
  lex_i st <= length content ->
  length content - lex_i st <= fuel ->
  Layout (map tok_value (lex_tokens st)) starts (firstn (lex_i st) content) ->
  lex_i (lexLoop fuel content st) = length content
  /\ (exists starts',
        Layout (map tok_value (lex_tokens (lexLoop fuel content st))) starts'
          content)
  /\ forall fuel', fuel <= fuel' ->
       lexLoop fuel' content st = lexLoop fuel content st.
Proof.
  intros content. induction fuel as [|fuel IH]; intros st starts Hi Hf HL.
  - assert (Hlen : lex_i st = length content) by lia. simpl.
    split; [exact Hlen|]. split.
    + exists starts. rewrite Hlen, firstn_all in HL. exact HL.
    + intros fuel' _. destruct fuel'; simpl; [reflexivity|].
      rewrite Hlen, Nat.ltb_irrefl. reflexivity.
  - simpl. destruct (lex_i st <? length content) eqn:E.
    + apply Nat.ltb_lt in E.
      pose proof (lexStep_progress content st E) as Hp.
      destruct (lexStep_layout content st E HL) as [starts' HL'].
      destruct (IH (lexStep content st) starts' ltac:(lia) ltac:(lia) HL')
        as [H1 [H2 H3]].
      split; [exact H1|]. split; [exact H2|].
      intros fuel' Hf'. destruct fuel' as [|fuel']; [lia|]. simpl.
      apply Nat.ltb_lt in E. rewrite E. apply H3. lia.
    + apply Nat.ltb_ge in E.
      assert (Hlen : lex_i st = length content) by lia.
      split; [exact Hlen|]. split.
      * exists starts. rewrite Hlen, firstn_all in HL. exact HL.
      * intros fuel' _. destruct fuel'; simpl; [reflexivity|].
        rewrite Hlen, Nat.ltb_irrefl. reflexivity.
Qed.

Lemma tokenize_layout : forall content,
  exists starts,
    Layout (map tok_value (tokenize content)) starts (stripBOM content).
Proof.
  intros content. unfold tokenize.
  destruct (@lexLoop_runs (stripBOM content) (length (stripBOM content))
              lexInit [] ltac:(simpl; lia) ltac:(simpl; lia) Layout_nil)
    as [_ [H _]].
  exact H.
Qed.

(** Reading a layout by offsets. *)
Lemma Layout_spans : forall values starts text,
  Layout values starts text ->
  length starts = length values
  /\ (forall k v s,
        nth_error values k = Some v -> nth_error starts k = Some s ->
        v <> [] /\ s + length v <= length text
        /\ substr text s (length v) = v)
  /\ (forall p c,
        nth_error text p = Some c ->
        isWhitespace c = true
        \/ exists k v s,
             nth_error values k = Some v /\ nth_error starts k = Some s
             /\ s <= p < s + length v).
Proof.
  induction 1 as [|values starts text c HL [IHlen [IHspan IHcov]] Hws
                  |values starts text v HL [IHlen [IHspan IHcov]] Hv].
  - split; [reflexivity|]. split.
    + intros k v s Hk. destruct k; discriminate.
    + intros p c Hp. destruct p; discriminate.
  - split; [exact IHlen|]. split.
    + intros k v s Hk Hs. destruct (IHspan k v s Hk Hs) as [H1 [H2 H3]].
      split; [exact H1|]. split; [rewrite length_app; simpl; lia|].
      unfold substr in *. rewrite skipn_app, firstn_app, length_skipn.
      replace (length v - (length text - s)) with 0 by lia.
      rewrite H3. simpl. apply app_nil_r.
    + intros p c0 Hp. destruct (Nat.lt_ge_cases p (length text)) as [Hlt|Hge].
      * rewrite nth_error_app1 in Hp by exact Hlt. apply IHcov. exact Hp.
      * rewrite nth_error_app2 in Hp by exact Hge.
        destruct (p - length text) as [|n]; simpl in Hp.
        -- injection Hp as <-. left. exact Hws.
        -- destruct n; discriminate.
  - split; [rewrite !length_app; simpl; lia|]. split.
    + intros k w s Hk Hs.
      destruct (Nat.lt_ge_cases k (length values)) as [Hlt|Hge].
      * rewrite nth_error_app1 in Hk by exact Hlt.
        rewrite nth_error_app1 in Hs by (rewrite IHlen; exact Hlt).
        destruct (IHspan k w s Hk Hs) as [H1 [H2 H3]].
        split; [exact H1|]. split; [rewrite length_app; lia|].
        unfold substr in *. rewrite skipn_app, firstn_app, length_skipn.
        replace (length w - (length text - s)) with 0 by lia.
        rewrite H3. simpl. apply app_nil_r.
      * rewrite nth_error_app2 in Hk by exact Hge.
        rewrite nth_error_app2 in Hs by (rewrite IHlen; exact Hge).
        rewrite IHlen in Hs.
        destruct (k - length values) as [|n]; simpl in Hk, Hs.
        -- injection Hk as <-. injection Hs as <-.
           split; [exact Hv|]. split; [rewrite length_app; lia|].
           unfold substr. rewrite skipn_app, skipn_all, Nat.sub_diag.
           simpl. apply firstn_all.
        -- destruct n; discriminate.
    + intros p c Hp. destruct (Nat.lt_ge_cases p (length text)) as [Hlt|Hge].
      * rewrite nth_error_app1 in Hp by exact Hlt.
        destruct (IHcov p c Hp) as [Hw | [k [w [s [Hk [Hs Hb]]]]]];
          [left; exact Hw|].
        right. exists k, w, s.
        assert (k < length values) by (apply nth_error_Some; congruence).
        rewrite !nth_error_app1 by (rewrite ?IHlen; assumption).
        auto.
      * right. exists (length values), v, (length text).
        rewrite nth_error_app2, Nat.sub_diag by lia.
        rewrite nth_error_app2, IHlen, Nat.sub_diag by lia.
        split; [reflexivity|]. split; [reflexivity|].
        assert (p < length (text ++ v)) by (apply nth_error_Some; congruence).
        rewrite length_app in *. lia.
Qed.

Lemma weave_snoc_gap : forall gaps values g c,
  length gaps = length values ->
  weave (gaps ++ [g ++ [c]]) values = weave (gaps ++ [g]) values ++ [c].
Proof.
  induction gaps as [|g0 gaps IH]; intros [|v values] g c Hlen;
    try discriminate; simpl.
  - reflexivity.
  - rewrite IH by (simpl in Hlen; lia). rewrite !app_assoc. reflexivity.
Qed.

Lemma weave_snoc_value : forall gaps values v,
  length gaps = S (length values) ->
  weave (gaps ++ [[]]) (values ++ [v]) = weave gaps values ++ v.
Proof.
  induction gaps as [|g0 gaps IH]; intros values v Hlen; [discriminate|].
  destruct values as [|w values]; simpl in *.
  - destruct gaps; [|discriminate]. simpl. rewrite app_nil_r. reflexivity.
  - rewrite IH by lia. rewrite !app_assoc. reflexivity.
Qed.

(** Reading a layout as the values with gaps of white space. *)
Lemma Layout_weave : forall values starts text,
  Layout values starts text ->
  exists gaps,
    length gaps = S (length values)
    /\ Forall (fun g => forallb isWhitespace g = true) gaps
    /\ weave gaps values = text.
Proof.
  induction 1 as [|values starts text c HL [gaps [Hlen [Hws Hw]]] Hc
                  |values starts text v HL [gaps [Hlen [Hws Hw]]] Hv].
  - exists [[]]. repeat split. constructor; [reflexivity | constructor].
  - destruct (exists_last (l := gaps)) as [gs [g ->]];
      [intros ->; discriminate|].
    rewrite length_app in Hlen. simpl in Hlen.
    exists (gs ++ [g ++ [c]]). split; [rewrite length_app; simpl; lia|].
    split.
    + apply Forall_app in Hws. destruct Hws as [H1 H2].
      apply Forall_app. split; [exact H1|].
      inversion H2; subst. constructor; [|constructor].
      rewrite forallb_app. simpl. rewrite Hc.
      match goal with H : forallb _ g = true |- _ => rewrite H end.
      reflexivity.
    + rewrite weave_snoc_gap by lia. rewrite Hw. reflexivity.
  - exists (gaps ++ [[]]). split; [rewrite !length_app; simpl; lia|].
    split.
    + apply Forall_app. split; [exact Hws|].
      constructor; [reflexivity | constructor].
    + rewrite weave_snoc_value by exact Hlen. rewrite Hw. reflexivity.
Qed.

Lemma stripBOM_cases : forall content,
  content = stripBOM content \/ content = BOM :: stripBOM content.
Proof.
  intros [|c rest]; simpl; [left; reflexivity|].
  destruct (c =? BOM)%N eqn:E; [|left; reflexivity].
  apply N.eqb_eq in E. subst c. right. reflexivity.
Qed.

Lemma keywordType_not_char : forall x, keywordType x <> CHAR.
Proof.
  intros x. unfold keywordType.
  repeat match goal with
         | |- (if ?b then _ else _) <> _ => destruct b; [discriminate|]
         end.
  discriminate.
Qed.

(** Which rule emitted the token of an iteration. *)
Lemma lexStep_rule : forall content st c,
  charAt content (lex_i st) = Some c -> isWhitespace c = false ->
  exists t,
    lex_tokens (lexStep content st) = lex_tokens st ++ [t]
    /\ (noRuleAt content (lex_i st) c = true ->
        tok_type t = CHAR /\ tok_value t = [c])
    /\ (tok_type t = CHAR ->
        tok_value t = [c] /\ noRuleAt content (lex_i st) c = true).
Proof.
  intros content st c Hc Hws. unfold lexStep, noRuleAt. rewrite Hc, Hws.
  set (i := lex_i st) in *.
  destruct (str_eqb (substr content i 5) (lit "<?php")) eqn:Etag.
  { eexists. split; [reflexivity|]. split; [discriminate|].
    cbn [tok_type]. discriminate. }
  destruct (str_eqb (substr content i 2) (lit "//")) eqn:Eline1.
  { cbn [orb]. eexists. split; [reflexivity|]. split; [discriminate|].
    cbn [tok_type]. discriminate. }
  destruct (str_eqb (substr content i 1) (lit "#")) eqn:Eline2.
  { cbn [orb]. eexists. split; [reflexivity|]. split; [discriminate|].
    cbn [tok_type]. discriminate. }
  cbn [orb].
  destruct (str_eqb (substr content i 2) (lit "/*")) eqn:Eblock.
  { destruct (scanBlockComment _ _ _ _ _) as [[j line'] column'].
    eexists. split; [reflexivity|]. split; [discriminate|].
    cbn [tok_type]. intros H.
    destruct (str_eqb (substr content i 3) (lit "/**")); discriminate H. }
  destruct (c =? DQUOTE)%N eqn:Eq1.
  { cbn [orb]. eexists. split; [reflexivity|]. split; [discriminate|].
    cbn [tok_type]. discriminate. }
  destruct (c =? SQUOTE)%N eqn:Eq2.
  { cbn [orb]. eexists. split; [reflexivity|]. split; [discriminate|].
    cbn [tok_type]. discriminate. }
  cbn [orb].
  destruct (c =? DOLLAR)%N eqn:Ed.
  { eexists. split; [reflexivity|]. split; [discriminate|].
    cbn [tok_type]. discriminate. }
  destruct (isIdentStart c) eqn:Eid.
  { eexists. split; [reflexivity|]. split; [discriminate|].
    cbn [tok_type]. intros H. apply keywordType_not_char in H.
    contradiction. }
  eexists. split; [reflexivity|]. cbn [tok_type tok_value negb andb].
  split; intros _; split; reflexivity.
Qed.

Lemma lexStep_scan : forall content st starts,
  lex_i st < length content ->
  Scan content (lex_i st) (lex_tokens st) starts ->
  exists starts',
    Scan content (lex_i (lexStep content st))
      (lex_tokens (lexStep content st)) starts'.
Proof.
  intros content st starts Hi HS.
  destruct (lexStep_shape content st Hi)
    as [[c [Hc [Hws [Ht Hs]]]] | [t [Ht [Hb Hv]]]].
  - exists starts. rewrite Ht, Hs.
    apply Scan_space with (c := c); assumption.
  - destruct (charAt content (lex_i st)) as [c|] eqn:Hc.
    2:{ apply nth_error_None in Hc. lia. }
    destruct (isWhitespace c) eqn:Hws.
    { exfalso. unfold lexStep in Ht. rewrite Hc, Hws in Ht.
      cbn [lex_tokens] in Ht.
      apply (f_equal (@length _)) in Ht. rewrite length_app in Ht.
      simpl in Ht. lia. }
    destruct (lexStep_rule content st Hc Hws) as [t' [Ht' [Hno Hch]]].
    rewrite Ht in Ht'. apply app_inj_tail in Ht'. destruct Ht' as [_ <-].
    assert (Hlen : length (tok_value t)
                   = lex_i (lexStep content st) - lex_i st).
    { rewrite Hv. apply substring_length; lia. }
    exists (starts ++ [lex_i st]). rewrite Ht.
    assert (Hj : lex_i (lexStep content st)
                 = lex_i st + length (tok_value t)) by (rewrite Hlen; lia).
    rewrite Hj at 1.
    apply Scan_token; [exact HS|].
    split; [rewrite Hv; apply substring_nonempty; lia|].
    split; [rewrite <- Hj; lia|]. split.
    { rewrite substr_substring by (rewrite <- Hj; lia).
      rewrite <- Hj. symmetry. exact Hv. }
    exists c. split; [exact Hc|]. split; [exact Hws|].
    split; assumption.
Qed.

(** The loop is the iteration of its body, as long as the offset is
    inside the text. *)
Lemma lexLoop_scan : forall content fuel st starts,
  lex_i st <= length content ->
  length content - lex_i st <= fuel ->
  Scan content (lex_i st) (lex_tokens st) starts ->
  exists n starts',
    n <= length content - lex_i st
    /\ lexLoop fuel content st = Nat.iter n (lexStep content) st
    /\ (forall k, k < n ->
          lex_i (Nat.iter k (lexStep content) st)
          < lex_i (Nat.iter (S k) (lexStep content) st) <= length content)
    /\ lex_i (Nat.iter n (lexStep content) st) = length content
    /\ Scan content (length content)
         (lex_tokens (Nat.iter n (lexStep content) st)) starts'.
Proof.
  intros content. induction fuel as [|fuel IH]; intros st starts Hi Hf HS.
  - assert (Hlen : lex_i st = length content) by lia.
    exists 0, starts. simpl. split; [lia|]. split; [reflexivity|].
    split; [intros k Hk; lia|]. split; [exact Hlen|].
    rewrite <- Hlen. exact HS.
  - simpl. destruct (lex_i st <? length content) eqn:E.
    + apply Nat.ltb_lt in E.
      pose proof (lexStep_progress content st E) as Hp.
      destruct (lexStep_scan st E HS) as [starts1 HS1].
      destruct (IH (lexStep content st) starts1 ltac:(lia) ltac:(lia) HS1)
        as [n [starts' [Hn [Hrun [Hprog [Hend HS']]]]]].
      exists (S n), starts'.
      rewrite !Nat.iter_succ_r.
      split; [lia|]. split; [exact Hrun|].
      split; [|split; [exact Hend | exact HS']].
      intros k Hk. destruct k as [|k].
      * simpl. exact Hp.
      * rewrite !Nat.iter_succ_r. apply Hprog. lia.
    + apply Nat.ltb_ge in E.
      assert (Hlen : lex_i st = length content) by lia.
      exists 0, starts. simpl. split; [lia|]. split; [reflexivity|].
      split; [intros k Hk; lia|]. split; [exact Hlen|].
      rewrite <- Hlen. exact HS.
Qed.

Lemma tokenize_scan : forall content,
  let text := stripBOM content in
  exists n starts,
    n <= length text
    /\ (forall k, k < n ->
          lex_i (lexRun text k) < lex_i (lexRun text (S k)) <= length text)
    /\ lex_i (lexRun text n) = length text
    /\ lex_tokens (lexRun text n) = tokenize content
    /\ Scan text (length text) (tokenize content) starts.
Proof.
  intros content text.
  destruct (@lexLoop_scan text (length text) lexInit []
              ltac:(simpl; lia) ltac:(simpl; lia) (Scan_start text))
    as [n [starts [Hn [Hrun [Hprog [Hend HS]]]]]].
  exists n, starts. unfold tokenize, lexRun. fold text.
  rewrite Hrun. simpl in Hn.
  split; [lia|]. split; [exact Hprog|]. split; [exact Hend|].
  split; [reflexivity | exact HS].
Qed.

(** Reading a scan by offsets. *)
Lemma Scan_spans : forall text i tokens starts,
  Scan text i tokens starts ->
  i <= length text
  /\ length starts = length tokens
  /\ (forall k t s,
        nth_error tokens k = Some t -> nth_error starts k = Some s ->
        tokenAt text s t /\ s + length (tok_value t) <= i
        /\ forall s', nth_error starts (S k) = Some s' ->
                      s + length (tok_value t) <= s')
  /\ (forall p c,
        p < i -> nth_error text p = Some c ->
        (isWhitespace c = true
         /\ forall k t s,
              nth_error tokens k = Some t -> nth_error starts k = Some s ->
              ~ (s <= p < s + length (tok_value t)))
        \/ exists k t s,
             nth_error tokens k = Some t /\ nth_error starts k = Some s
             /\ s <= p < s + length (tok_value t)).
Proof.
  induction 1 as [|i tokens starts c HS [IHi [IHlen [IHtok IHcov]]] Hc Hws
                  |i tokens starts t HS [IHi [IHlen [IHtok IHcov]]] Ht].
  - split; [lia|]. split; [reflexivity|]. split.
    + intros k t s Hk. destruct k; discriminate.
    + intros p c Hp. lia.
  - assert (Hi : i < length text) by (apply nth_error_Some; congruence).
    split; [lia|]. split; [exact IHlen|]. split.
    + intros k t s Hk Hs. destruct (IHtok k t s Hk Hs) as [H1 [H2 H3]].
      split; [exact H1|]. split; [lia | exact H3].
    + intros p c0 Hp Hp0. destruct (Nat.eq_dec p i) as [->|Hne].
      * left. rewrite Hc in Hp0. injection Hp0 as <-.
        split; [exact Hws|]. intros k t s Hk Hs Hin.
        destruct (IHtok k t s Hk Hs) as [_ [H2 _]]. lia.
      * apply IHcov; [lia | exact Hp0].
  - pose proof Ht as [Hne [Hend _]].
    split; [lia|]. split; [rewrite !length_app; simpl; lia|]. split.
    + intros k w s Hk Hs.
      destruct (Nat.lt_ge_cases k (length tokens)) as [Hlt|Hge].
      * rewrite nth_error_app1 in Hk by exact Hlt.
        rewrite nth_error_app1 in Hs by (rewrite IHlen; exact Hlt).
        destruct (IHtok k w s Hk Hs) as [H1 [H2 H3]].
        split; [exact H1|]. split; [lia|].
        intros s' Hs'.
        destruct (Nat.lt_ge_cases (S k) (length tokens)) as [Hlt'|Hge'].
        -- rewrite nth_error_app1 in Hs' by (rewrite IHlen; exact Hlt').
           apply H3. exact Hs'.
        -- rewrite nth_error_app2 in Hs' by (rewrite IHlen; exact Hge').
           rewrite IHlen in Hs'.
           replace (S k - length tokens) with 0 in Hs' by lia.
           simpl in Hs'. injection Hs' as <-. exact H2.
      * rewrite nth_error_app2 in Hk by exact Hge.
        rewrite nth_error_app2 in Hs by (rewrite IHlen; exact Hge).
        rewrite IHlen in Hs.
        destruct (k - length tokens) as [|n] eqn:Ek; simpl in Hk, Hs.
        -- injection Hk as <-. injection Hs as <-.
           split; [exact Ht|]. split; [lia|].
           intros s' Hs'.
           rewrite nth_error_app2 in Hs' by (rewrite IHlen; lia).
           rewrite IHlen in Hs'.
           replace (S k - length tokens) with 1 in Hs' by lia.
           discriminate Hs'.
        -- destruct n; discriminate.
    + intros p c Hp Hp0.
      destruct (Nat.lt_ge_cases p i) as [Hlt|Hge].
      * destruct (IHcov p c Hlt Hp0)
          as [[Hw Hout] | [k [w [s [Hk [Hs Hb]]]]]].
        -- left. split; [exact Hw|]. intros k w s Hk Hs Hin.
           destruct (Nat.lt_ge_cases k (length tokens)) as [Hlt'|Hge'].
           ++ rewrite nth_error_app1 in Hk by exact Hlt'.
              rewrite nth_error_app1 in Hs by (rewrite IHlen; exact Hlt').
              apply (Hout k w s Hk Hs Hin).
           ++ rewrite nth_error_app2 in Hs by (rewrite IHlen; exact Hge').
              rewrite IHlen in Hs.
              destruct (k - length tokens) as [|n]; simpl in Hs.
              ** injection Hs as <-. lia.
              ** destruct n; discriminate.
        -- right. exists k, w, s.
           assert (k < length tokens) by (apply nth_error_Some; congruence).
           rewrite !nth_error_app1 by (rewrite ?IHlen; assumption).
           auto.
      * right. exists (length tokens), t, i.
        rewrite nth_error_app2, Nat.sub_diag by lia.
        rewrite nth_error_app2, IHlen, Nat.sub_diag by lia.
        split; [reflexivity|]. split; [reflexivity|]. lia.
Qed.

(** C4: [tokenize] is total.  Its tokens are those of a run of the loop
    body from the initial state: every iteration of the run moves the
    offset forward, by at least one code unit and not beyond the end, so
    the run ends at the end of the text within [content.length]
    iterations, and fuel beyond that changes nothing.  The tokens lie in
    the text (the content without a leading byte order mark) in order and
    without overlap, each value being the text at its own place and
    starting at a code unit that is no white space; every code unit is
    either skipped white space outside all tokens or inside a token; a
    token is of type CHAR exactly when no other rule applies where it
    starts, and it then holds just that code unit; and a code unit to which
    no other rule applies, unless it lies inside a token that starts
    before it, is emitted as such a token. *)
Theorem tokenize_total :
  forall content : jsstring,
    let text := stripBOM content in
    let tokens := tokenize content in
    (content = text \/ content = BOM :: text)
    /\ (exists n,
          n <= length text
          /\ (forall k,
                k < n ->
                lex_i (lexRun text k) < lex_i (lexRun text (S k))
                <= length text)
          /\ lex_i (lexRun text n) = length text
          /\ lex_tokens (lexRun text n) = tokens)
    /\ (forall fuel,
          length text <= fuel ->
          lex_tokens (lexLoop fuel text lexInit) = tokens)
    /\ (exists starts,
          length starts = length tokens
          /\ (forall k t s,
                nth_error tokens k = Some t ->
                nth_error starts k = Some s ->
                tok_value t <> []
                /\ s + length (tok_value t) <= length text
                /\ substr text s (length (tok_value t)) = tok_value t
                /\ (forall s',
                      nth_error starts (S k) = Some s' ->
                      s + length (tok_value t) <= s')
                /\ exists c,
                     nth_error text s = Some c
                     /\ isWhitespace c = false
                     /\ (noRuleAt text s c = true ->
                         tok_type t = CHAR /\ tok_value t = [c])
                     /\ (tok_type t = CHAR ->
                         tok_value t = [c] /\ noRuleAt text s c = true))
          /\ (forall p c,
                nth_error text p = Some c ->
                (isWhitespace c = true
                 /\ forall k t s,
                      nth_error tokens k = Some t ->
                      nth_error starts k = Some s ->
                      ~ (s <= p < s + length (tok_value t)))
                \/ exists k t s,
                     nth_error tokens k = Some t
                     /\ nth_error starts k = Some s
                     /\ s <= p < s + length (tok_value t))
          /\ (forall p c,
                nth_error text p = Some c ->
                noRuleAt text p c = true ->
                (forall k t s,
                   nth_error tokens k = Some t ->
                   nth_error starts k = Some s ->
                   ~ (s < p < s + length (tok_value t))) ->
                exists k t,
                  nth_error tokens k = Some t
                  /\ nth_error starts k = Some p
                  /\ tok_type t = CHAR /\ tok_value t = [c])).
Proof.
  intros content text tokens.
  split; [apply stripBOM_cases|].
  destruct (tokenize_scan content)
    as [n [starts [Hn [Hprog [Hend [Htok HS]]]]]].
  fold text in Hn, Hprog, Hend, Htok, HS. fold tokens in Htok, HS.
  split; [exists n; auto|].
  destruct (@lexLoop_runs text (length text) lexInit []
              ltac:(simpl; lia) ltac:(simpl; lia) Layout_nil)
    as [_ [_ Hfuel]].
  split; [intros fuel Hf; unfold tokens, tokenize; fold text;
          rewrite (Hfuel fuel Hf); reflexivity|].
  destruct (Scan_spans HS) as [_ [Hlen [Hspan Hcov]]].
  exists starts. split; [exact Hlen|].
  assert (Hat : forall k t s,
             nth_error tokens k = Some t -> nth_error starts k = Some s ->
             tokenAt text s t).
  { intros k t s Hk Hs. apply (Hspan k t s Hk Hs). }
  split; [|split].
  - intros k t s Hk Hs. destruct (Hspan k t s Hk Hs) as [Ht [_ Hord]].
    destruct Ht as [H1 [H2 [H3 H4]]].
    split; [exact H1|]. split; [exact H2|]. split; [exact H3|].
    split; [exact Hord | exact H4].
  - intros p c Hp. apply Hcov; [|exact Hp].
    apply nth_error_Some. congruence.
  - intros p c Hp Hno Hout.
    assert (Hws : isWhitespace c = false).
    { pose proof Hno as H. unfold noRuleAt in H.
      repeat (apply andb_true_iff in H; destruct H as [H ?]).
      apply negb_true_iff in H. exact H. }
    assert (Hlt : p < length text) by (apply nth_error_Some; congruence).
    destruct (Hcov p c Hlt Hp) as [[Hw _] | [k [t [s [Hk [Hs Hb]]]]]];
      [congruence|].
    assert (s = p).
    { destruct (Nat.eq_dec s p) as [E|E]; [exact E|].
      exfalso. apply (Hout k t s Hk Hs). lia. }
    subst s. destruct (Hat k t p Hk Hs) as [_ [_ [_ [c' [Hc' [_ [Hrule _]]]]]]].
    rewrite Hp in Hc'. injection Hc' as <-.
    destruct (Hrule Hno) as [Hty Hval].
    exists k, t. auto.
Qed.

(** C5: the values of the tokens that [tokenize] emits, taken in order with
    a run of white space before, between and after them, make up the
    source text exactly.  This holds for every input, well-formed or not;
    a leading byte order mark, which the lexer removes and which its own
    white-space test accepts, counts as white space before the first
    token. *)
Theorem tokenize_roundtrip :
  forall content : jsstring,
  exists gaps : list jsstring,
    length gaps = S (length (tokenize content))
    /\ Forall (fun g => forallb isWhitespace g = true) gaps
    /\ weave gaps (map tok_value (tokenize content)) = content.
Proof.
  intros content.
  destruct (tokenize_layout content) as [starts HL].
  destruct (Layout_weave HL) as [gaps [Hlen [Hws Hw]]].
  rewrite length_map in Hlen.
  remember (map tok_value (tokenize content)) as values eqn:Ev.
  remember (tokenize content) as tokens eqn:Et.
  clear Ev Et HL.
  destruct (stripBOM_cases content) as [Hc | Hc].
  - exists gaps. rewrite <- Hc in Hw. auto.
  - destruct gaps as [|g gaps]; [discriminate|].
    exists ((BOM :: g) :: gaps). split; [exact Hlen|]. split.
    + inversion Hws; subst. constructor; [|assumption].
      simpl. assumption.
    + rewrite Hc, <- Hw. destruct values; reflexivity.
Qed.

(** ** The loops end within their fuel

    Each loop of the model is given a fuel that bounds the number of its
    iterations.  The lemmas of this section show that the bound holds: from
    the bound on, more fuel changes nothing, so the loop has met its own
    exit condition. *)

Lemma scanWhile_fuel : forall (A : Type) (p : A -> bool) fuel (l : list A) i k,
  length l - i <= fuel ->
  scanWhile p (fuel + k) l i = scanWhile p fuel l i.
Proof.
  intros A p. induction fuel as [|fuel IH]; intros l i k Hb.
  - assert (Hn : nth_error l i = None) by (apply nth_error_None; lia).
    destruct k; simpl; [reflexivity|]. rewrite Hn. reflexivity.
  - simpl. destruct (nth_error l i) as [c|] eqn:E; [|reflexivity].
    destruct (p c); [|reflexivity]. apply IH. lia.
Qed.

Lemma scanString_fuel : forall fuel content quote i k,
  length content - i <= fuel ->
  scanString (fuel + k) content quote i = scanString fuel content quote i.
Proof.
  induction fuel as [|fuel IH]; intros content quote i k Hb.
  - destruct k; simpl; [reflexivity|].
    destruct (i <? length content) eqn:E; [|reflexivity].
    apply Nat.ltb_lt in E. lia.
  - simpl. destruct (i <? length content); [|reflexivity].
    destruct (charIs content i quote
              && negb (charIs content (i - 1) BACKSLASH)); [reflexivity|].
    apply IH. lia.
Qed.

Lemma scanBlockComment_fuel : forall fuel content i line column k,
  length content - i <= fuel ->
  scanBlockComment (fuel + k) content i line column
  = scanBlockComment fuel content i line column.
Proof.
  induction fuel as [|fuel IH]; intros content i line column k Hb.
  - destruct k; simpl; [reflexivity|].
    destruct (i <? length content - 1) eqn:E; [|reflexivity].
    apply Nat.ltb_lt in E. lia.
  - simpl. destruct (i <? length content - 1); [|reflexivity].
    destruct (str_eqb (substr content i 2) (lit "*/")); [reflexivity|].
    destruct (charIs content i NL); apply IH; lia.
Qed.

Lemma collectUntil_fuel : forall stop fuel tokens i acc k,
  length tokens - i <= fuel ->
  collectUntil stop (fuel + k) tokens i acc
  = collectUntil stop fuel tokens i acc.
Proof.
  intros stop. induction fuel as [|fuel IH]; intros tokens i acc k Hb.
  - assert (Hn : nth_error tokens i = None) by (apply nth_error_None; lia).
    destruct k; simpl; [reflexivity|]. rewrite Hn. reflexivity.
  - simpl. destruct (nth_error tokens i) as [t|]; [|reflexivity].
    destruct (stop t); [reflexivity|]. apply IH. lia.
Qed.

Lemma collectUntil_bounds : forall stop fuel tokens i acc,
  i <= fst (collectUntil stop fuel tokens i acc).
Proof.
  intros stop. induction fuel as [|fuel IH]; intros tokens i acc; simpl;
    [lia|].
  destruct (nth_error tokens i) as [t|]; simpl; [|lia].
  destruct (stop t); simpl; [lia|].
  specialize (IH tokens (S i) (acc ++ tok_value t)). lia.
Qed.

Lemma useLoop_fuel : forall fuel tokens i useName alias inAlias k,
  length tokens - i <= fuel ->
  useLoop (fuel + k) tokens i useName alias inAlias
  = useLoop fuel tokens i useName alias inAlias.
Proof.
  induction fuel as [|fuel IH]; intros tokens i useName alias inAlias k Hb.
  - assert (Hn : nth_error tokens i = None) by (apply nth_error_None; lia).
    destruct k; simpl; [reflexivity|]. rewrite Hn. reflexivity.
  - simpl. destruct (nth_error tokens i) as [t|]; [|reflexivity].
    repeat match goal with
           | |- context [if ?b then _ else _] => destruct b
           end; try reflexivity; apply IH; lia.
Qed.

Lemma closeParenLoop_fuel : forall fuel tokens i depth k,
  length tokens - i <= fuel ->
  closeParenLoop (fuel + k) tokens i depth
  = closeParenLoop fuel tokens i depth.
Proof.
  induction fuel as [|fuel IH]; intros tokens i depth k Hb.
  - assert (Hn : nth_error tokens i = None) by (apply nth_error_None; lia).
    destruct k; simpl; [reflexivity|]. rewrite Hn. reflexivity.
  - simpl. destruct (nth_error tokens i) as [t|]; [|reflexivity].
    repeat match goal with
           | |- context [if ?b then _ else _] => destruct b
           end; try reflexivity; apply IH; lia.
Qed.

Lemma paramLoop_fuel :
  forall fuel tokens i parameters inParams paramDepth currentParam k,
    length tokens - i <= fuel ->
    paramLoop (fuel + k) tokens i parameters inParams paramDepth currentParam
    = paramLoop fuel tokens i parameters inParams paramDepth currentParam.
Proof.
  induction fuel as [|fuel IH];
    intros tokens i parameters inParams paramDepth currentParam k Hb.
  - assert (Hn : nth_error tokens i = None) by (apply nth_error_None; lia).
    destruct k; simpl; [reflexivity|]. rewrite Hn. reflexivity.
  - simpl. destruct (nth_error tokens i) as [t|]; [|reflexivity].
    destruct (valueIs t (lit "(")); [apply IH; lia|].
    destruct (valueIs t (lit ")")).
    + destruct (paramDepth - 1 =? 0)%Z; [reflexivity | apply IH; lia].
    + destruct (inParams && valueIs t (lit ",") && (paramDepth =? 1)%Z);
        [apply IH; lia|].
      destruct inParams; apply IH; lia.
Qed.

Lemma propertyModifiersLoop_fuel : forall fuel tokens i modifiers k,
  length tokens - i <= fuel ->
  propertyModifiersLoop (fuel + k) tokens i modifiers
  = propertyModifiersLoop fuel tokens i modifiers.
Proof.
  induction fuel as [|fuel IH]; intros tokens i modifiers k Hb.
  - assert (Hn : nth_error tokens i = None) by (apply nth_error_None; lia).
    destruct k; simpl; [reflexivity|]. rewrite Hn. reflexivity.
  - simpl. destruct (nth_error tokens i) as [t|]; [|reflexivity].
    repeat match goal with
           | |- context [if ?b then _ else _] => destruct b
           end; try reflexivity; apply IH; lia.
Qed.

Lemma implementsLoop_fuel : forall fuel tokens i implementsInterfaces k,
  length tokens - i <= fuel ->
  implementsLoop (fuel + k) tokens i implementsInterfaces
  = implementsLoop fuel tokens i implementsInterfaces.
Proof.
  induction fuel as [|fuel IH]; intros tokens i implementsInterfaces k Hb.
  - assert (Hn : nth_error tokens i = None) by (apply nth_error_None; lia).
    destruct k; simpl; [reflexivity|]. rewrite Hn. reflexivity.
  - simpl. destruct (nth_error tokens i) as [t|]; [|reflexivity].
    destruct (valueIs t (lit "{")); [reflexivity|]. apply IH. lia.
Qed.

Lemma implementsLoop_bounds : forall fuel tokens i implementsInterfaces,
  i <= fst (implementsLoop fuel tokens i implementsInterfaces).
Proof.
  induction fuel as [|fuel IH]; intros tokens i impl; simpl; [lia|].
  destruct (nth_error tokens i) as [t|]; simpl; [|lia].
  destruct (valueIs t (lit "{")); simpl; [lia|].
  match goal with
  | |- _ <= fst (implementsLoop _ _ _ ?x) =>
      specialize (IH tokens (S i) x)
  end.
  lia.
Qed.

Lemma scanWhile_ge : forall (A : Type) (p : A -> bool) fuel (l : list A) i,
  i <= scanWhile p fuel l i.
Proof.
  intros A p. induction fuel as [|fuel IH]; intros l i; simpl; [lia|].
  destruct (nth_error l i) as [c|]; [|lia].
  destruct (p c); [|lia]. specialize (IH l (S i)). lia.
Qed.

Lemma classHeaderLoop_fuel :
  forall fuel tokens i extendsClass implementsInterfaces k,
    length tokens - i <= fuel ->
    classHeaderLoop (fuel + k) tokens i extendsClass implementsInterfaces
    = classHeaderLoop fuel tokens i extendsClass implementsInterfaces.
Proof.
  induction fuel as [|fuel IH]; intros tokens i ext impl k Hb.
  - assert (Hn : nth_error tokens i = None) by (apply nth_error_None; lia).
    destruct k; simpl; [reflexivity|]. rewrite Hn. reflexivity.
  - simpl. destruct (nth_error tokens i) as [t|] eqn:Et; [|reflexivity].
    assert (i < length tokens) by (apply nth_error_Some; congruence).
    destruct (valueIs t (lit "{")); [reflexivity|].
    destruct (typeIs t T_EXTENDS).
    + pose proof (scanWhile_ge (fun t => typeIs t T_WHITESPACE)
                    (length tokens) tokens (S i)) as Hge.
      destruct (nth_error tokens (scanWhile _ _ _ _)) as [t'|];
        [destruct (typeIs t' T_STRING)|]; apply IH; lia.
    + destruct (typeIs t T_IMPLEMENTS).
      * pose proof (implementsLoop_bounds (length tokens) tokens (S i) impl)
          as Hge.
        destruct (implementsLoop _ _ _ _) as [i' impl']. simpl in Hge.
        apply IH. lia.
      * apply IH. lia.
Qed.

Lemma closeParenLoop_ge : forall fuel tokens i depth,
  i <= closeParenLoop fuel tokens i depth.
Proof.
  induction fuel as [|fuel IH]; intros tokens i depth; simpl; [lia|].
  destruct (nth_error tokens i) as [t|]; [|lia].
  destruct (valueIs t (lit ")")).
  - destruct (_ =? 0)%Z; [lia|].
    match goal with
    | |- _ <= closeParenLoop _ _ _ ?d => specialize (IH tokens (S i) d)
    end. lia.
  - match goal with
    | |- _ <= closeParenLoop _ _ _ ?d => specialize (IH tokens (S i) d)
    end. lia.
Qed.

Lemma paramLoop_ge :
  forall fuel tokens i parameters inParams paramDepth currentParam,
    i <= fst (paramLoop fuel tokens i parameters inParams paramDepth
                currentParam).
Proof.
  induction fuel as [|fuel IH];
    intros tokens i parameters inParams paramDepth currentParam; simpl;
    [lia|].
  destruct (nth_error tokens i) as [t|]; simpl; [|lia].
  repeat match goal with
         | |- context [if ?b then _ else _] => destruct b
         end; simpl; try lia;
    match goal with
    | |- _ <= fst (paramLoop _ _ _ ?a ?b ?c ?d) =>
        specialize (IH tokens (S i) a b c d); lia
    end.
Qed.

Lemma parseFunction_advances : forall st tokens start fileKey,
  start < snd (parseFunction st tokens start fileKey).
Proof.
  intros st tokens start fileKey. unfold parseFunction.
  pose proof (scanWhile_ge isIgnorable (length tokens) tokens (S start))
    as H0.
  set (i0 := scanWhile isIgnorable (length tokens) tokens (S start)) in *.
  destruct (negb match nth_error tokens i0 with
                 | Some t => typeIs t T_STRING
                 | None => false
                 end).
  - pose proof (scanWhile_ge (fun t => negb (valueIs t (lit "(")))
                  (length tokens) tokens i0) as H1.
    set (i1 := scanWhile _ (length tokens) tokens i0) in *.
    destruct (length tokens <=? i1); simpl; [lia|].
    pose proof (closeParenLoop_ge (length tokens) tokens i1 0) as H2.
    set (i2 := closeParenLoop (length tokens) tokens i1 0) in *.
    pose proof (scanWhile_ge
                  (fun t => negb (valueIs t (lit "{"))
                            && negb (valueIs t (lit ";")))
                  (length tokens) tokens i2) as H3.
    lia.
  - pose proof (paramLoop_ge (length tokens) tokens (S i0) [] false 0 [])
      as H1.
    destruct (paramLoop _ _ _ _ _ _ _) as [i1 parameters]. simpl in H1.
    pose proof (scanWhile_ge isIgnorable (length tokens) tokens i1) as H2.
    set (i2 := scanWhile isIgnorable (length tokens) tokens i1) in *.
    destruct (nth_error tokens i2) as [t|]; [|simpl; lia].
    destruct (valueIs t (lit ":")); [|simpl; lia].
    match goal with
    | |- context [collectUntil ?s ?f ?tk ?i ?a] =>
        pose proof (collectUntil_bounds s f tk i a) as H3;
        destruct (collectUntil s f tk i a) as [i3 ty]
    end.
    simpl in *. lia.
Qed.

Lemma skipIf_ge : forall tokens i s, i <= skipIf tokens i s.
Proof.
  intros tokens i s. unfold skipIf.
  destruct (nth_error tokens i) as [t|]; [|lia].
  destruct (valueIs t s); lia.
Qed.

Lemma propertyVarsLoop_ge : forall fuel st tokens i modifiers,
  i <= snd (propertyVarsLoop fuel st tokens i modifiers).
Proof.
  induction fuel as [|fuel IH]; intros st tokens i modifiers; simpl; [lia|].
  destruct (i <? length tokens); simpl; [|lia].
  pose proof (scanWhile_ge isSpaceOrComment (length tokens) tokens i) as H0.
  set (i0 := scanWhile isSpaceOrComment (length tokens) tokens i) in *.
  assert (Helse : i <= snd (st, skipIf tokens
                                   (scanWhile
                                      (fun t => negb (valueIs t (lit ";")))
                                      (length tokens) tokens i0)
                                   (lit ";"))).
  { simpl.
    pose proof (scanWhile_ge (fun t => negb (valueIs t (lit ";")))
                  (length tokens) tokens i0).
    pose proof (skipIf_ge tokens
                  (scanWhile (fun t => negb (valueIs t (lit ";")))
                     (length tokens) tokens i0) (lit ";")).
    lia. }
  destruct (nth_error tokens i0) as [varToken|]; [|exact Helse].
  destruct (typeIs varToken T_VARIABLE); [|exact Helse].
  pose proof (scanWhile_ge isSpaceOrComment (length tokens) tokens (S i0))
    as H1.
  set (i1 := scanWhile isSpaceOrComment (length tokens) tokens (S i0)) in *.
  match goal with
  | |- context [let '(_, _) := ?p in _] =>
      assert (H2 : i1 <= fst p);
      [|destruct p as [i2 defaultValue]]
  end.
  { destruct (nth_error tokens i1) as [t|]; [|simpl; lia].
    destruct (valueIs t (lit "=")); [|simpl; lia].
    match goal with
    | |- context [collectUntil ?s ?f ?tk ?i ?a] =>
        pose proof (collectUntil_bounds s f tk i a) as H3;
        destruct (collectUntil s f tk i a) as [i3 v]
    end.
    simpl in *. lia. }
  simpl in H2.
  destruct (nth_error tokens i2) as [t|].
  - destruct (valueIs t (lit ",")).
    + match goal with
      | |- _ <= snd (propertyVarsLoop _ ?s _ _ _) =>
          specialize (IH s tokens (S i2) modifiers)
      end. lia.
    + destruct (valueIs t (lit ";")); [simpl; lia|].
      match goal with
      | |- _ <= snd (propertyVarsLoop _ ?s _ _ _) =>
          specialize (IH s tokens i2 modifiers)
      end. lia.
  - match goal with
    | |- _ <= snd (propertyVarsLoop _ ?s _ _ _) =>
        specialize (IH s tokens i2 modifiers)
    end. lia.
Qed.

Lemma propertyVarsLoop_fuel : forall fuel st tokens i modifiers k,
  length tokens - i <= fuel ->
  propertyVarsLoop (fuel + k) st tokens i modifiers
  = propertyVarsLoop fuel st tokens i modifiers.
Proof.
  induction fuel as [|fuel IH]; intros st tokens i modifiers k Hb.
  - destruct k; simpl; [reflexivity|].
    destruct (i <? length tokens) eqn:E; [|reflexivity].
    apply Nat.ltb_lt in E. lia.
  - simpl. destruct (i <? length tokens) eqn:E; [|reflexivity].
    apply Nat.ltb_lt in E.
    pose proof (scanWhile_ge isSpaceOrComment (length tokens) tokens i) as H0.
    set (i0 := scanWhile isSpaceOrComment (length tokens) tokens i) in *.
    destruct (nth_error tokens i0) as [varToken|]; [|reflexivity].
    destruct (typeIs varToken T_VARIABLE); [|reflexivity].
    pose proof (scanWhile_ge isSpaceOrComment (length tokens) tokens (S i0))
      as H1.
    set (i1 := scanWhile isSpaceOrComment (length tokens) tokens (S i0)) in *.
    match goal with
    | |- context [let '(_, _) := ?p in _] =>
        assert (H2 : i1 <= fst p);
        [|destruct p as [i2 defaultValue]]
    end.
    { destruct (nth_error tokens i1) as [t|]; [|simpl; lia].
      destruct (valueIs t (lit "=")); [|simpl; lia].
      match goal with
      | |- context [collectUntil ?s ?f ?tk ?i ?a] =>
          pose proof (collectUntil_bounds s f tk i a) as H3;
          destruct (collectUntil s f tk i a) as [i3 v]
      end.
      simpl in *. lia. }
    simpl in H2.
    destruct (nth_error tokens i2) as [t|].
    + destruct (valueIs t (lit ",")); [apply IH; lia|].
      destruct (valueIs t (lit ";")); [reflexivity | apply IH; lia].
    + apply IH; lia.
Qed.

Lemma propertyModifiersLoop_ge : forall fuel tokens i modifiers,
  i <= fst (propertyModifiersLoop fuel tokens i modifiers).
Proof.
  induction fuel as [|fuel IH]; intros tokens i modifiers; simpl; [lia|].
  destruct (nth_error tokens i) as [t|]; simpl; [|lia].
  repeat match goal with
         | |- context [if ?b then _ else _] => destruct b
         end; simpl; try lia;
    match goal with
    | |- _ <= fst (propertyModifiersLoop _ _ _ ?m) =>
        specialize (IH tokens (S i) m); lia
    end.
Qed.

Lemma propertyModifiersLoop_advances : forall fuel tokens i modifiers t,
  nth_error tokens i = Some t ->
  typeIs t T_PUBLIC || typeIs t T_PROTECTED || typeIs t T_PRIVATE
  || typeIs t T_STATIC || typeIs t T_CONST = true ->
  i < fst (propertyModifiersLoop (S fuel) tokens i modifiers).
Proof.
  intros fuel tokens i modifiers t Ht Hty. simpl. rewrite Ht.
  repeat match goal with
         | |- context [if typeIs t ?ty then _ else _] =>
             destruct (typeIs t ty) eqn:?
         end; simpl; try lia; try discriminate;
    match goal with
    | |- _ < fst (propertyModifiersLoop _ _ _ ?m) =>
        pose proof (propertyModifiersLoop_ge fuel tokens (S i) m); lia
    end.
Qed.

Lemma parseProperty_advances : forall st tokens start fileKey t,
  nth_error tokens start = Some t ->
  typeIs t T_PUBLIC || typeIs t T_PROTECTED || typeIs t T_PRIVATE
  || typeIs t T_STATIC || typeIs t T_CONST = true ->
  start < snd (parseProperty st tokens start fileKey).
Proof.
  intros st tokens start fileKey t Ht Hty. unfold parseProperty.
  assert (Hlen : length tokens = S (length tokens - 1)).
  { assert (start < length tokens) by (apply nth_error_Some; congruence).
    lia. }
  pose proof (@propertyModifiersLoop_advances (length tokens - 1) tokens
                start [] t Ht Hty) as H0.
  rewrite <- Hlen in H0.
  destruct (propertyModifiersLoop _ _ _ _) as [i0 modifiers]. simpl in H0.
  match goal with
  | |- context [set_has ?m (lit "const")] => set (mods := m)
  end.
  assert (Hvars : forall i, i0 <= i ->
            start < snd (let '(st', i') :=
                           propertyVarsLoop (S (length tokens)) st tokens i
                             mods in
                         (set_lastDocComment st' None, i'))).
  { intros i Hi.
    pose proof (propertyVarsLoop_ge (S (length tokens)) st tokens i mods).
    destruct (propertyVarsLoop _ _ _ _ _) as [st' i']. simpl in *. lia. }
  destruct (set_has mods (lit "const")); [|apply Hvars; lia].
  pose proof (scanWhile_ge isSpaceOrComment (length tokens) tokens i0) as H1.
  set (i1 := scanWhile isSpaceOrComment (length tokens) tokens i0) in *.
  destruct (nth_error tokens i1) as [t1|]; [|apply Hvars; lia].
  destruct (typeIs t1 T_STRING); [|apply Hvars; lia].
  pose proof (scanWhile_ge (fun tk => negb (valueIs tk (lit "=")))
                (length tokens) tokens (S i1)) as H2.
  set (i2 := scanWhile _ (length tokens) tokens (S i1)) in *.
  pose proof (skipIf_ge tokens i2 (lit "=")) as H3.
  set (i3 := skipIf tokens i2 (lit "=")) in *.
  match goal with
  | |- context [collectUntil ?s ?f ?tk ?i ?a] =>
      pose proof (collectUntil_bounds s f tk i a) as H4;
      destruct (collectUntil s f tk i a) as [i4 v]
  end.
  simpl in H4. pose proof (skipIf_ge tokens i4 (lit ";")) as H5.
  simpl. lia.
Qed.

Lemma classBodyLoop_ge : forall fuel st tokens i braceDepth fileKey,
  i <= snd (classBodyLoop fuel st tokens i braceDepth fileKey).
Proof.
  induction fuel as [|fuel IH]; intros st tokens i braceDepth fileKey; simpl;
    [lia|].
  destruct (nth_error tokens i) as [tk|] eqn:Et; simpl; [|lia].
  destruct (braceDepth =? 0); simpl; [lia|].
  destruct (valueIs tk (lit "{")).
  { specialize (IH st tokens (S i) (S braceDepth) fileKey). lia. }
  destruct (valueIs tk (lit "}")).
  { specialize (IH st tokens (S i) (braceDepth - 1) fileKey). lia. }
  destruct (typeIs tk T_DOC_COMMENT).
  { match goal with
    | |- _ <= snd (classBodyLoop _ ?s _ _ _ _) =>
        specialize (IH s tokens (S i) braceDepth fileKey)
    end. lia. }
  destruct (typeIs tk T_FUNCTION).
  { pose proof (parseFunction_advances st tokens i fileKey) as Hf.
    destruct (parseFunction st tokens i fileKey) as [st' i']. simpl in Hf.
    specialize (IH st' tokens i' braceDepth fileKey). lia. }
  match goal with
  | |- context [if ?b then _ else _] => destruct b eqn:Eprop
  end.
  - pose proof (parseProperty_advances st tokens i fileKey Et Eprop) as Hp.
    destruct (parseProperty st tokens i fileKey) as [st' i']. simpl in Hp.
    specialize (IH st' tokens i' braceDepth fileKey). lia.
  - specialize (IH st tokens (S i) braceDepth fileKey). lia.
Qed.

Lemma classBodyLoop_fuel : forall fuel st tokens i braceDepth fileKey k,
  length tokens - i <= fuel ->
  classBodyLoop (fuel + k) st tokens i braceDepth fileKey
  = classBodyLoop fuel st tokens i braceDepth fileKey.
Proof.
  induction fuel as [|fuel IH]; intros st tokens i braceDepth fileKey k Hb.
  - assert (Hn : nth_error tokens i = None) by (apply nth_error_None; lia).
    destruct k; simpl; [reflexivity|]. rewrite Hn. reflexivity.
  - simpl. destruct (nth_error tokens i) as [tk|] eqn:Et; [|reflexivity].
    destruct (braceDepth =? 0); [reflexivity|].
    destruct (valueIs tk (lit "{")); [apply IH; lia|].
    destruct (valueIs tk (lit "}")); [apply IH; lia|].
    destruct (typeIs tk T_DOC_COMMENT); [apply IH; lia|].
    destruct (typeIs tk T_FUNCTION).
    { pose proof (parseFunction_advances st tokens i fileKey) as Hf.
      destruct (parseFunction st tokens i fileKey) as [st' i']. simpl in Hf.
      apply IH. lia. }
    match goal with
    | |- context [if ?b then _ else _] => destruct b eqn:Eprop
    end.
    + pose proof (parseProperty_advances st tokens i fileKey Et Eprop) as Hp.
      destruct (parseProperty st tokens i fileKey) as [st' i']. simpl in Hp.
      apply IH. lia.
    + apply IH. lia.
Qed.

Lemma parseNamespace_advances : forall st tokens start fileKey,
  start < snd (parseNamespace st tokens start fileKey).
Proof.
  intros st tokens start fileKey. unfold parseNamespace.
  pose proof (scanWhile_ge (fun t => typeIs t T_WHITESPACE) (length tokens)
                tokens (S start)) as H0.
  set (i0 := scanWhile _ (length tokens) tokens (S start)) in *.
  match goal with
  | |- context [collectUntil ?s ?f ?tk ?i ?a] =>
      pose proof (collectUntil_bounds s f tk i a) as H1;
      destruct (collectUntil s f tk i a) as [i1 v]
  end.
  simpl in H1. destruct (nonEmpty v); simpl; lia.
Qed.

Lemma useLoop_ge : forall fuel tokens i useName alias inAlias,
  i <= fst (fst (useLoop fuel tokens i useName alias inAlias)).
Proof.
  induction fuel as [|fuel IH]; intros tokens i useName alias inAlias; simpl;
    [lia|].
  destruct (nth_error tokens i) as [t|]; simpl; [|lia].
  repeat match goal with
         | |- context [if ?b then _ else _] => destruct b
         end; simpl; try lia;
    match goal with
    | |- _ <= fst (fst (useLoop _ _ _ ?a ?b ?c)) =>
        specialize (IH tokens (S i) a b c); lia
    end.
Qed.

Lemma parseUse_advances : forall st tokens start fileKey,
  start < snd (parseUse st tokens start fileKey).
Proof.
  intros st tokens start fileKey. unfold parseUse.
  pose proof (scanWhile_ge (fun t => typeIs t T_WHITESPACE) (length tokens)
                tokens (S start)) as H0.
  set (i0 := scanWhile _ (length tokens) tokens (S start)) in *.
  pose proof (useLoop_ge (length tokens) tokens i0 [] [] false) as H1.
  destruct (useLoop _ _ _ _ _ _) as [[i1 useName] alias]. simpl in H1.
  destruct (nonEmpty useName); simpl; lia.
Qed.

Lemma classHeaderLoop_ge :
  forall fuel tokens i extendsClass implementsInterfaces,
    i <= fst (fst (classHeaderLoop fuel tokens i extendsClass
                     implementsInterfaces)).
Proof.
  induction fuel as [|fuel IH]; intros tokens i ext impl; simpl; [lia|].
  destruct (nth_error tokens i) as [t|]; simpl; [|lia].
  destruct (valueIs t (lit "{")); simpl; [lia|].
  destruct (typeIs t T_EXTENDS).
  - pose proof (scanWhile_ge (fun t => typeIs t T_WHITESPACE)
                  (length tokens) tokens (S i)) as Hge.
    set (i0 := scanWhile _ (length tokens) tokens (S i)) in *.
    destruct (nth_error tokens i0) as [t'|];
      [destruct (typeIs t' T_STRING)|];
      match goal with
      | |- _ <= fst (fst (classHeaderLoop _ _ ?j ?a ?b)) =>
          specialize (IH tokens j a b); lia
      end.
  - destruct (typeIs t T_IMPLEMENTS).
    + pose proof (implementsLoop_bounds (length tokens) tokens (S i) impl)
        as Hge.
      destruct (implementsLoop _ _ _ _) as [i' impl']. simpl in Hge.
      specialize (IH tokens i' ext impl'). lia.
    + specialize (IH tokens (S i) ext impl). lia.
Qed.

Lemma parseClass_advances : forall st tokens start fileKey,
  start < snd (parseClass st tokens start fileKey).
Proof.
  intros st tokens start fileKey. unfold parseClass.
  match goal with
  | |- context [scanWhile ?p (length tokens) tokens (S start)] =>
      pose proof (scanWhile_ge p (length tokens) tokens (S start)) as H0;
      set (i0 := scanWhile p (length tokens) tokens (S start)) in *
  end.
  destruct (nth_error tokens i0) as [nameToken|]; [|simpl; lia].
  destruct (negb (typeIs nameToken T_STRING)); [simpl; lia|].
  pose proof (classHeaderLoop_ge (length tokens) tokens (S i0) [] []) as H1.
  destruct (classHeaderLoop _ _ _ _ _) as [[i1 ext] impl]. simpl in H1.
  destruct (nth_error tokens i1) as [t|]; [|simpl; lia].
  destruct (negb (valueIs t (lit "{"))); [simpl; lia|].
  pose proof (scanWhile_ge (fun t => negb (valueIs t (lit "{")))
                (length tokens) tokens i1) as H2.
  set (i2 := scanWhile _ (length tokens) tokens i1) in *.
  match goal with
  | |- context [let '(_, _) := ?p in _] =>
      assert (H3 : i2 <= snd p); [|destruct p as [bd i3]]
  end.
  { destruct (nth_error tokens i2) as [t'|]; [|simpl; lia].
    destruct (valueIs t' (lit "{")); simpl; lia. }
  simpl in H3.
  match goal with
  | |- context [classBodyLoop ?f ?s ?tk ?i ?b ?k] =>
      pose proof (classBodyLoop_ge f s tk i b k) as H4;
      destruct (classBodyLoop f s tk i b k) as [st4 i4]
  end.
  simpl in *. lia.
Qed.

Lemma parseTokensLoop_fuel : forall fuel st tokens i fileKey k,
  length tokens - i <= fuel ->
  parseTokensLoop (fuel + k) st tokens i fileKey
  = parseTokensLoop fuel st tokens i fileKey.
Proof.
  induction fuel as [|fuel IH]; intros st tokens i fileKey k Hb.
  - assert (Hn : nth_error tokens i = None) by (apply nth_error_None; lia).
    destruct k; simpl; [reflexivity|]. rewrite Hn. reflexivity.
  - simpl. destruct (nth_error tokens i) as [token|] eqn:Et; [|reflexivity].
    pose proof (parseNamespace_advances st tokens i fileKey) as Hn.
    pose proof (parseUse_advances st tokens i fileKey) as Hu.
    pose proof (parseClass_advances st tokens i fileKey) as Hc.
    pose proof (parseFunction_advances st tokens i fileKey) as Hf.
    destruct (tok_type token); try (apply IH; lia).
    + destruct (parseNamespace st tokens i fileKey) as [st' i'].
      simpl in Hn. apply IH. lia.
    + destruct (parseUse st tokens i fileKey) as [st' i'].
      simpl in Hu. apply IH. lia.
    + destruct (parseClass st tokens i fileKey) as [st' i'].
      simpl in Hc. apply IH. lia.
    + destruct (parseClass st tokens i fileKey) as [st' i'].
      simpl in Hc. apply IH. lia.
    + destruct (parseClass st tokens i fileKey) as [st' i'].
      simpl in Hc. apply IH. lia.
    + destruct (parseFunction st tokens i fileKey) as [st' i'].
      simpl in Hf. apply IH. lia.
Qed.

Lemma batchLoop_fuel : forall fuel st files i total reports k,
  length files <= fuel ->
  batchLoop (fuel + k) st files i total reports
  = batchLoop fuel st files i total reports.
Proof.
  induction fuel as [|fuel IH]; intros st files i total reports k Hb.
  - destruct files; [|simpl in Hb; lia].
    destruct k; reflexivity.
  - destruct files as [|f files]; [reflexivity|].
    change (S fuel + k) with (S (fuel + k)). cbn [batchLoop].
    apply IH. rewrite length_skipn. cbn [length] in *. lia.
Qed.

(** ** The tokens of the lexer *)

Lemma skipn_nth_cons : forall (s : jsstring) i c,
  nth_error s i = Some c -> skipn i s = c :: skipn (S i) s.
Proof.
  intros s i c H. destruct (nth_error_split s i H) as [l1 [l2 [Hs Hl]]].
  subst s. rewrite <- Hl. clear.
  induction l1 as [|x l1 IH]; simpl; [reflexivity | exact IH].
Qed.

Lemma substring_cons : forall (s : jsstring) i j c,
  nth_error s i = Some c -> i < j -> j <= length s ->
  substring s i j = c :: substring s (S i) j.
Proof.
  intros s i j c H Hij Hj.
  rewrite !substring_firstn_skipn by lia.
  rewrite (skipn_nth_cons s i H).
  replace (j - i) with (S (j - S i)) by lia. reflexivity.
Qed.

Lemma substring_empty : forall (s : jsstring) i,
  i <= length s -> substring s i i = [].
Proof.
  intros s i Hi. rewrite substring_firstn_skipn by lia.
  rewrite Nat.sub_diag. reflexivity.
Qed.

Lemma substring_split : forall (s : jsstring) i k j,
  i <= k -> k <= j -> j <= length s ->
  substring s i j = substring s i k ++ substring s k j.
Proof.
  intros s i k j Hik Hkj Hj.
  rewrite !substring_firstn_skipn by lia.
  replace (j - i) with ((k - i) + (j - k)) by lia.
  rewrite firstn_plus, skipn_skipn.
  replace (k - i + i) with k by lia. reflexivity.
Qed.

Lemma substr_head : forall (s : jsstring) i n x p,
  str_eqb (substr s i n) (x :: p) = true -> charAt s i = Some x.
Proof.
  intros s i n x p H. apply str_eqb_eq in H. unfold substr in H.
  unfold charAt. rewrite <- (Nat.add_0_r i), <- nth_error_skipn.
  destruct (skipn i s) as [|y r]; [destruct n; discriminate|].
  destruct n; [discriminate|]. simpl in H. injection H as -> _.
  reflexivity.
Qed.

Lemma scanWhile_forallb : forall (p : codeunit -> bool) fuel (l : jsstring) i,
  i <= length l ->
  forallb p (substring l i (scanWhile p fuel l i)) = true.
Proof.
  intros p. induction fuel as [|fuel IH]; intros l i Hi; simpl.
  - rewrite substring_empty by exact Hi. reflexivity.
  - destruct (nth_error l i) as [c|] eqn:Ec.
    + destruct (p c) eqn:Ep.
      * assert (Hlt : i < length l) by (apply nth_error_Some; congruence).
        pose proof (@scanWhile_bounds _ p fuel l (S i) ltac:(lia)) as Hb.
        rewrite (@substring_cons l i _ c Ec) by lia.
        simpl. rewrite Ep. apply IH. lia.
      * rewrite substring_empty by exact Hi. reflexivity.
    + rewrite substring_empty by exact Hi. reflexivity.
Qed.

Lemma countNL_app : forall a b, countNL (a ++ b) = countNL a + countNL b.
Proof.
  intros a b. unfold countNL. rewrite filter_app, length_app. reflexivity.
Qed.

Lemma countNL_cons : forall c s,
  countNL (c :: s) = (if (c =? NL)%N then 1 else 0) + countNL s.
Proof.
  intros c s. unfold countNL. simpl. destruct (c =? NL)%N; reflexivity.
Qed.

Lemma scanBlockComment_lines : forall fuel content i line column,
  i <= length content ->
  line <= snd (fst (scanBlockComment fuel content i line column))
  /\ snd (fst (scanBlockComment fuel content i line column))
     <= line
        + countNL (substring content i
                     (fst (fst (scanBlockComment fuel content i line
                                  column)))).
Proof.
  induction fuel as [|fuel IH]; intros content i line column Hi; simpl;
    [lia|].
  destruct (i <? length content - 1) eqn:E; simpl; [|lia].
  apply Nat.ltb_lt in E.
  destruct (str_eqb (substr content i 2) (lit "*/")); simpl; [lia|].
  destruct (nth_error content i) as [c|] eqn:Ec;
    [|apply nth_error_None in Ec; lia].
  unfold charIs, charAt. rewrite Ec.
  destruct (c =? NL)%N eqn:Enl.
  - pose proof (@scanBlockComment_bounds fuel content (S i) (S line) 1
                  ltac:(lia)) as Hb.
    destruct (IH content (S i) (S line) 1 ltac:(lia)) as [H1 H2].
    rewrite (@substring_cons content i _ c Ec) by lia.
    rewrite countNL_cons, Enl. lia.
  - pose proof (@scanBlockComment_bounds fuel content (S i) line column
                  ltac:(lia)) as Hb.
    destruct (IH content (S i) line column ltac:(lia)) as [H1 H2].
    rewrite (@substring_cons content i _ c Ec) by lia.
    rewrite countNL_cons, Enl. lia.
Qed.

(** The result of the switch of the identifier rule: a keyword gets its
    own type, and no other text gets one. *)
Lemma keywordType_spec : forall x,
  (In x keywords /\ keywordType x <> T_STRING
   /\ keywordType x <> T_OPEN_TAG /\ keywordType x <> T_VARIABLE
   /\ keywordType x <> T_WHITESPACE /\ keywordType x <> T_COMMENT
   /\ keywordType x <> T_DOC_COMMENT /\ keywordType x <> CHAR)
  \/ (~ In x keywords /\ keywordType x = T_STRING).
Proof.
  intros x. unfold keywordType.
  repeat match goal with
         | |- context [if str_eqb x ?k then _ else _] =>
             let E := fresh "E" in
             destruct (str_eqb x k) eqn:E;
             [apply str_eqb_eq in E; subst x; left;
              split; [simpl; tauto | repeat split; discriminate]
             |apply str_eqb_neq in E]
         end.
  right. split; [|reflexivity].
  unfold keywords. simpl. intros H.
  repeat (destruct H as [H | H]; [symmetry in H; contradiction|]).
  exact H.
Qed.

Lemma keywordType_inj : forall x kw,
  In kw keywords -> keywordType x = keywordType kw -> x = kw.
Proof.
  intros x kw Hkw H.
  destruct (keywordType_spec x) as [[Hx _] | [_ Hx]].
  - unfold keywords in Hx, Hkw. simpl in Hx, Hkw.
    repeat (destruct Hx as [Hx | Hx]; [subst x|]); try contradiction;
      repeat (destruct Hkw as [Hkw | Hkw]; [subst kw|]); try contradiction;
      first [reflexivity | discriminate H].
  - rewrite Hx in H.
    unfold keywords in Hkw. simpl in Hkw.
    repeat (destruct Hkw as [Hkw | Hkw]; [subst kw; discriminate H|]).
    contradiction.
Qed.

Lemma isIdentStart_isIdentChar : forall c,
  isIdentStart c = true -> isIdentChar c = true.
Proof.
  intros c H. unfold isIdentChar, isVarChar. unfold isIdentStart in H.
  apply orb_true_iff in H. destruct H as [E | E]; rewrite E; simpl;
    rewrite ?orb_true_r; reflexivity.
Qed.

(** One iteration of the main loop, by its effect on the line counter and
    on the token list: the counter grows by at most the number of line
    feeds of the text that the iteration consumes, and a token that is
    pushed has the shape of its type and carries the line counter. *)
Lemma lexStep_token : forall content st,
  lex_i st < length content ->
  (lex_line st <= lex_line (lexStep content st)
   /\ lex_line (lexStep content st)
      <= lex_line st
         + countNL (substring content (lex_i st)
                      (lex_i (lexStep content st))))
  /\ (lex_tokens (lexStep content st) = lex_tokens st
      \/ exists t,
           lex_tokens (lexStep content st) = lex_tokens st ++ [t]
           /\ tokenShape t = true
           /\ tok_line t = lex_line (lexStep content st)).
Proof.
  intros content st Hi.
  pose proof (lexStep_progress content st Hi) as Hp.
  destruct (charAt content (lex_i st)) as [char|] eqn:Ec;
    [|apply nth_error_None in Ec; lia].
  assert (Hcons : forall j, lex_i st < j -> j <= length content ->
            substring content (lex_i st) j
            = char :: substring content (S (lex_i st)) j).
  { intros j H1 H2. apply substring_cons; assumption. }
  assert (Hgen : forall j, lex_i st < j -> j <= length content ->
            lex_line st
            <= (if (char =? NL)%N then S (lex_line st) else lex_line st)
            /\ (if (char =? NL)%N then S (lex_line st) else lex_line st)
               <= lex_line st + countNL (substring content (lex_i st) j)).
  { intros j H1 H2. rewrite (Hcons j H1 H2), countNL_cons.
    destruct (char =? NL)%N; lia. }
  unfold lexStep in *. rewrite Ec in *.
  set (i := lex_i st) in *.
  assert (Hrest : length content - i = S (length content - i - 1)) by lia.
  destruct (isWhitespace char) eqn:Ews.
  { cbn [lex_i lex_line lex_tokens] in *. split; [apply Hgen; lia|].
    left. reflexivity. }
  destruct (str_eqb (substr content i 5) (lit "<?php")) eqn:Etag.
  { cbn [lex_i lex_line lex_tokens] in *. split; [apply Hgen; lia|].
    right. eexists. split; [reflexivity|]. split; reflexivity. }
  destruct (str_eqb (substr content i 2) (lit "//")
            || str_eqb (substr content i 1) (lit "#")) eqn:Eline.
  { cbn [lex_i lex_line lex_tokens] in *. split; [apply Hgen; lia|].
    right. eexists. split; [reflexivity|]. split; [|reflexivity].
    unfold tokenShape. cbn [tok_value tok_type].
    rewrite Hcons by lia.
    apply orb_true_iff in Eline. destruct Eline as [E | E];
      apply substr_head in E; rewrite E in Ec; injection Ec as <-;
      reflexivity. }
  destruct (str_eqb (substr content i 2) (lit "/*")) eqn:Eblock.
  { pose proof (@substr_head _ _ _ _ _ Eblock) as Eh.
    rewrite Eh in Ec. injection Ec as <-.
    destruct (@substr_lit content i 2 (lit "/*") Eblock eq_refl ltac:(lia))
      as [Hn _].
    change ((47 =? NL)%N) with false in *. cbv iota in *.
    pose proof (@scanBlockComment_lines (length content - i) content (i + 2)
                  (lex_line st) (S (lex_column st)) Hn) as Hl.
    pose proof (@scanBlockComment_bounds (length content - i) content (i + 2)
                  (lex_line st) (S (lex_column st)) Hn) as Hb.
    destruct (scanBlockComment (length content - i) content (i + 2)
                (lex_line st) (S (lex_column st)))
      as [[j line'] column'] eqn:Esc.
    cbn [fst snd lex_i lex_line lex_tokens] in *.
    split.
    - split; [lia|].
      rewrite (@substring_split content i (i + 2) j) by lia.
      rewrite countNL_app. lia.
    - right. eexists. split; [reflexivity|]. split; [|reflexivity].
      unfold tokenShape. cbn [tok_value tok_type].
      rewrite Hcons by lia.
      destruct (str_eqb (substr content i 3) (lit "/**")); reflexivity. }
  destruct ((char =? DQUOTE)%N || (char =? SQUOTE)%N) eqn:Equote.
  { cbn [lex_i lex_line lex_tokens] in *. split; [apply Hgen; lia|].
    right. eexists. split; [reflexivity|]. split; [|reflexivity].
    unfold tokenShape. cbn [tok_value tok_type].
    rewrite Hcons by lia. rewrite Equote. reflexivity. }
  destruct (char =? DOLLAR)%N eqn:Edollar.
  { cbn [lex_i lex_line lex_tokens] in *. split; [apply Hgen; lia|].
    right. eexists. split; [reflexivity|]. split; [|reflexivity].
    unfold tokenShape. cbn [tok_value tok_type].
    rewrite Hcons by lia. rewrite Edollar. simpl.
    apply scanWhile_forallb. lia. }
  destruct (isIdentStart char) eqn:Eid.
  { cbn [lex_i lex_line lex_tokens] in *. split; [apply Hgen; lia|].
    right. eexists. split; [reflexivity|]. split; [|reflexivity].
    unfold tokenShape. cbn [tok_value tok_type].
    assert (Hall : forallb isIdentChar
                     (substring content (S i)
                        (scanWhile isIdentChar (length content - i) content
                           i)) = true).
    { rewrite Hrest. simpl. unfold charAt in Ec. rewrite Ec.
      rewrite (isIdentStart_isIdentChar _ Eid).
      apply scanWhile_forallb. lia. }
    set (v := substring content i
                (scanWhile isIdentChar (length content - i) content i)) in *.
    assert (Hv : v = char :: substring content (S i)
                           (scanWhile isIdentChar (length content - i)
                              content i))
      by (apply Hcons; lia).
    destruct (keywordType_spec (toLowerCase v)) as [[_ Hk] | [_ Hk]].
    - destruct Hk as [H1 [H2 [H3 [H4 [H5 [H6 H7]]]]]].
      destruct (keywordType (toLowerCase v)) eqn:Ek;
        try contradiction; rewrite Hv at 1; rewrite Eid, Hall; reflexivity.
    - rewrite Hk. rewrite Hv at 1. rewrite Eid, Hall.
      rewrite !orb_true_r. reflexivity. }
  cbn [lex_i lex_line lex_tokens] in *. split; [apply Hgen; lia|].
  right. eexists. split; [reflexivity|]. split; [|reflexivity].
  unfold tokenShape. cbn [tok_value tok_type]. rewrite Ews, Eid.
  reflexivity.
Qed.

Lemma StronglySorted_snoc : forall (A : Type) (R : A -> A -> Prop) l x,
  StronglySorted R l -> Forall (fun a => R a x) l ->
  StronglySorted R (l ++ [x]).
Proof.
  intros A R l x Hs Hall. induction Hs as [|a l Hs IH Ha]; simpl.
  - constructor; constructor.
  - inversion Hall; subst. constructor; [apply IH; assumption|].
    apply Forall_app. split; [exact Ha|]. constructor; [assumption|constructor].
Qed.

Lemma StronglySorted_nth : forall (A : Type) (R : A -> A -> Prop) l,
  (forall a, R a a) -> StronglySorted R l ->
  forall j k a b, j <= k -> nth_error l j = Some a -> nth_error l k = Some b ->
                  R a b.
Proof.
  intros A R l Hrefl Hs. induction Hs as [|x l Hs IH Hx]; intros j k a b Hjk Ha Hb.
  - destruct j; discriminate.
  - destruct j as [|j]; destruct k as [|k]; simpl in *.
    + injection Ha as <-. injection Hb as <-. apply Hrefl.
    + injection Ha as <-. rewrite Forall_forall in Hx. apply Hx.
      eapply nth_error_In. exact Hb.
    + lia.
    + apply (IH j k); [lia | assumption | assumption].
Qed.

Lemma countNL_firstn_le : forall n s, countNL (firstn n s) <= countNL s.
Proof.
  intros n s. rewrite <- (firstn_skipn n s) at 2. rewrite countNL_app. lia.
Qed.

(** The invariant of the main loop: the tokens pushed so far have the
    shape of their type, their lines are in order and none is above the
    line counter, which counts from one and is never ahead of the line
    feeds read so far. *)
Lemma lexLoop_tokens : forall content fuel st,
  lex_i st <= length content ->
  Forall (fun t => tokenShape t = true /\ 1 <= tok_line t <= lex_line st)
    (lex_tokens st) ->
  StronglySorted (fun a b => tok_line a <= tok_line b) (lex_tokens st) ->
  1 <= lex_line st <= 1 + countNL (firstn (lex_i st) content) ->
  Forall (fun t => tokenShape t = true
                   /\ 1 <= tok_line t <= 1 + countNL content)
    (lex_tokens (lexLoop fuel content st))
  /\ StronglySorted (fun a b => tok_line a <= tok_line b)
       (lex_tokens (lexLoop fuel content st)).
Proof.
  intros content. induction fuel as [|fuel IH]; intros st Hi Hall Hsorted Hline.
  - simpl. split; [|exact Hsorted].
    eapply Forall_impl; [|exact Hall]. intros t [H1 H2]. split; [exact H1|].
    pose proof (countNL_firstn_le (lex_i st) content). lia.
  - simpl. destruct (lex_i st <? length content) eqn:E.
    + apply Nat.ltb_lt in E.
      pose proof (lexStep_progress content st E) as Hp.
      destruct (lexStep_token content st E) as [[Hl1 Hl2] Htok].
      assert (Hline' : 1 <= lex_line (lexStep content st)
                       <= 1 + countNL (firstn (lex_i (lexStep content st))
                                         content)).
      { rewrite (@firstn_extend content (lex_i st)
                   (lex_i (lexStep content st))) by lia.
        rewrite countNL_app. lia. }
      apply IH; [lia | | | exact Hline'].
      * destruct Htok as [Ht | [t [Ht [Hshape Htl]]]]; rewrite Ht.
        -- eapply Forall_impl; [|exact Hall]. intros t [H1 H2].
           split; [exact H1 | lia].
        -- apply Forall_app. split.
           ++ eapply Forall_impl; [|exact Hall]. intros t' [H1 H2].
              split; [exact H1 | lia].
           ++ constructor; [|constructor]. split; [exact Hshape | lia].
      * destruct Htok as [Ht | [t [Ht [Hshape Htl]]]]; rewrite Ht;
          [exact Hsorted|].
        apply StronglySorted_snoc; [exact Hsorted|].
        eapply Forall_impl; [|exact Hall]. intros t' [H1 H2]. cbv beta. lia.
    + split; [|exact Hsorted].
      eapply Forall_impl; [|exact Hall]. intros t [H1 H2]. split; [exact H1|].
      pose proof (countNL_firstn_le (lex_i st) content). lia.
Qed.

Lemma countNL_stripBOM : forall content,
  countNL (stripBOM content) = countNL content.
Proof.
  intros content. destruct (stripBOM_cases content) as [H | H];
    rewrite H at 2; [reflexivity|].
  rewrite countNL_cons. reflexivity.
Qed.

Lemma tokenize_tokens : forall content,
  Forall (fun t => tokenShape t = true
                   /\ 1 <= tok_line t <= 1 + countNL content)
    (tokenize content)
  /\ StronglySorted (fun a b => tok_line a <= tok_line b) (tokenize content).
Proof.
  intros content. unfold tokenize.
  rewrite <- (countNL_stripBOM content).
  apply lexLoop_tokens; simpl; try lia; constructor.
Qed.

Lemma tokenize_shape : forall content t,
  In t (tokenize content) -> tokenShape t = true.
Proof.
  intros content t Hin. destruct (tokenize_tokens content) as [H _].
  rewrite Forall_forall in H. apply H. exact Hin.
Qed.

Ltac nbool :=
  repeat match goal with
         | H : _ && _ = true |- _ => apply andb_true_iff in H; destruct H
         | H : _ || _ = true |- _ => apply orb_true_iff in H; destruct H
         | H : _ && _ = false |- _ => apply andb_false_iff in H; destruct H
         | H : _ || _ = false |- _ => apply orb_false_iff in H; destruct H
         | H : negb _ = true |- _ => apply negb_true_iff in H
         | H : negb _ = false |- _ => apply negb_false_iff in H
         | H : (_ <=? _)%N = true |- _ => apply N.leb_le in H
         | H : (_ <=? _)%N = false |- _ => apply N.leb_gt in H
         | H : (_ =? _)%N = true |- _ => apply N.eqb_eq in H
         | H : (_ =? _)%N = false |- _ => apply N.eqb_neq in H
         | H : (_ =? _) = true |- _ => apply Nat.eqb_eq in H
         end.

(** X1: the lexer never emits a white-space token and never an empty one,
    and a single-character token is one code unit that is not white space.
    So on lexed tokens the white-space tests of the parser never hold: the
    ignorable tokens are the comments, and nothing else. *)
Theorem tokenize_never_whitespace : forall content : jsstring,
  Forall
    (fun t =>
       tok_type t <> T_WHITESPACE
       /\ tok_value t <> []
       /\ (tok_type t = CHAR ->
           exists c, tok_value t = [c] /\ isWhitespace c = false)
       /\ isIgnorable t = (typeIs t T_COMMENT || typeIs t T_DOC_COMMENT)
       /\ isSpaceOrComment t = typeIs t T_COMMENT)
    (tokenize content).
Proof.
  intros content. apply Forall_forall. intros t Hin.
  pose proof (tokenize_shape content t Hin) as Hs.
  destruct t as [ty v line column]. unfold tokenShape in Hs.
  unfold isIgnorable, isSpaceOrComment, typeIs, testClass.
  cbn [tok_type tok_value] in *.
  destruct v as [|c rest]; [discriminate|].
  split; [intros ->; discriminate|]. split; [discriminate|].
  destruct ty; try discriminate;
    (split; [try discriminate | split; reflexivity || idtac]).
  - intros _. nbool. destruct rest; [|discriminate]. eauto.
  - nbool. destruct rest; [|discriminate]. simpl.
    match goal with H : isWhitespace c = false |- _ => rewrite H end.
    split; reflexivity.
Qed.

Lemma lowerUnit_not_letter : forall c,
  isAsciiLetter c = false -> isAsciiLetter (lowerUnit c) = false.
Proof.
  intros c H. unfold lowerUnit.
  destruct ((65 <=? c) && (c <=? 90))%N eqn:E1.
  { unfold isAsciiLetter in H. rewrite E1, orb_true_r in H. discriminate. }
  destruct ((192 <=? c) && (c <=? 222) && negb (c =? 215))%N eqn:E2;
    [|exact H].
  unfold isAsciiLetter.
  destruct ((97 <=? c + 32) && (c + 32 <=? 122)
            || (65 <=? c + 32) && (c + 32 <=? 90))%N eqn:E3;
    [|reflexivity].
  exfalso. nbool; lia.
Qed.

Lemma keywords_head : forall kw,
  In kw keywords ->
  exists h r, kw = h :: r /\ isAsciiLetter h = true /\ 3 <= length kw.
Proof.
  intros kw H. unfold keywords in H. simpl in H.
  repeat (destruct H as [H | H];
          [subst kw; eexists; eexists; split; [reflexivity|];
           split; [reflexivity | simpl; lia]|]).
  contradiction.
Qed.

Lemma not_keyword_head : forall c rest kw,
  In kw keywords -> isAsciiLetter c = false -> toLowerCase (c :: rest) <> kw.
Proof.
  intros c rest kw Hkw Hc H.
  destruct (keywords_head Hkw) as [h [r [-> [Hh _]]]].
  simpl in H. injection H as H _.
  apply lowerUnit_not_letter in Hc. congruence.
Qed.

Lemma keywordType_not_string : forall kw,
  In kw keywords ->
  keywordType kw <> T_STRING /\ keywordType kw <> T_OPEN_TAG
  /\ keywordType kw <> T_VARIABLE /\ keywordType kw <> T_COMMENT
  /\ keywordType kw <> T_DOC_COMMENT /\ keywordType kw <> CHAR.
Proof.
  intros kw H. destruct (keywordType_spec kw) as [[_ Hk] | [Hk _]];
    [tauto | contradiction].
Qed.

Lemma TokenType_eqb_eq : forall a b, TokenType_eqb a b = true -> a = b.
Proof. intros a b H. destruct a; destruct b; try discriminate; reflexivity. Qed.

(** X2: keywords are told from names without regard to case, and by
    nothing else: a token has the type of a keyword exactly when its text,
    in lower case, is that keyword.  A quoted string, a comment or a
    variable that spells a keyword does not get its type. *)
Theorem tokenize_keyword_types : forall content : jsstring,
  Forall
    (fun t =>
       forall kw, In kw keywords ->
         (tok_type t = keywordType kw <-> toLowerCase (tok_value t) = kw))
    (tokenize content).
Proof.
  intros content. apply Forall_forall. intros t Hin kw Hkw.
  pose proof (tokenize_shape content t Hin) as Hs.
  destruct (keywordType_not_string Hkw) as [K1 [K2 [K3 [K4 [K5 K6]]]]].
  destruct t as [ty v line column]. unfold tokenShape in Hs.
  cbn [tok_type tok_value] in *.
  destruct v as [|c rest]; [discriminate|].
  assert (Hident :
            isIdentStart c && forallb isIdentChar rest
            && TokenType_eqb (keywordType (toLowerCase (c :: rest))) ty
            = true ->
            ty = keywordType kw <-> toLowerCase (c :: rest) = kw).
  { intros H. nbool.
    match goal with
    | H : TokenType_eqb _ _ = true |- _ => apply TokenType_eqb_eq in H;
                                           rename H into Hty
    end.
    split; intros E.
    - apply keywordType_inj; [exact Hkw | congruence].
    - rewrite <- Hty, E. reflexivity. }
  assert (Hother : isAsciiLetter c = false -> ty <> keywordType kw ->
                   ty = keywordType kw <-> toLowerCase (c :: rest) = kw).
  { intros Hc Hty. split; intros E; [contradiction|].
    exfalso. exact (@not_keyword_head c rest kw Hkw Hc E). }
  destruct ty; try discriminate; try (apply Hident; exact Hs).
  - apply Hother; [|congruence].
    apply str_eqb_eq in Hs. injection Hs as -> _. reflexivity.
  - apply Hother; [|congruence]. nbool. subst c. reflexivity.
  - apply orb_true_iff in Hs. destruct Hs as [Hs | Hs];
      [|apply Hident; exact Hs].
    apply Hother; [|congruence]. nbool; subst c; reflexivity.
  - apply Hother; [|congruence]. nbool; subst c; reflexivity.
  - apply Hother; [|congruence]. nbool; subst c; reflexivity.
  - apply Hother; [|congruence]. nbool.
    match goal with
    | H : isIdentStart c = false |- _ =>
        unfold isIdentStart in H; apply orb_false_iff in H; tauto
    end.
Qed.

(** X3: the line numbers of the tokens.  Lines count from one, no token is
    given a line beyond the last line of the text (one more than its
    number of line feeds), and along the token list the line numbers never
    decrease. *)
Theorem tokenize_lines : forall content : jsstring,
  Forall (fun t => 1 <= tok_line t <= 1 + countNL content) (tokenize content)
  /\ (forall j k tj tk,
        j <= k ->
        nth_error (tokenize content) j = Some tj ->
        nth_error (tokenize content) k = Some tk ->
        tok_line tj <= tok_line tk).
Proof.
  intros content. destruct (tokenize_tokens content) as [Hall Hsorted].
  split.
  - eapply Forall_impl; [|exact Hall]. intros t [_ H]. exact H.
  - intros j k tj tk Hjk Hj Hk.
    exact (@StronglySorted_nth _ (fun a b => tok_line a <= tok_line b)
             (tokenize content) (fun a => le_n _) Hsorted j k tj tk Hjk Hj Hk).
Qed.

Lemma tokenShape_head : forall t,
  tokenShape t = true ->
  exists c rest, tok_value t = c :: rest /\ isWhitespace c = false.
Proof.
  intros [ty v line column] Hs. unfold tokenShape in Hs.
  cbn [tok_type tok_value] in *.
  destruct v as [|c rest]; [discriminate|].
  exists c, rest. split; [reflexivity|].
  assert (Hid : isIdentStart c = true -> isWhitespace c = false).
  { intros H. unfold isIdentStart, isAsciiLetter in H.
    destruct (isWhitespace c) eqn:E; [|reflexivity].
    unfold isWhitespace in E. exfalso. nbool; lia. }
  destruct ty; try discriminate;
    try (nbool; first [apply Hid; assumption | subst c; reflexivity]).
  - apply str_eqb_eq in Hs. injection Hs as -> _. reflexivity.
  - nbool. assumption.
Qed.

Lemma forallb_stripBOM : forall content,
  forallb isWhitespace (stripBOM content) = forallb isWhitespace content.
Proof.
  intros content. destruct (stripBOM_cases content) as [H | H];
    rewrite H at 2; reflexivity.
Qed.

(** X4: the lexer returns no token at all exactly for a blank text, one
    that holds nothing but white space (a byte order mark is white
    space). *)
Theorem tokenize_blank : forall content : jsstring,
  tokenize content = [] <-> forallb isWhitespace content = true.
Proof.
  intros content. rewrite <- forallb_stripBOM.
  destruct (tokenize_layout content) as [starts HL]. split; intros H.
  - destruct (Layout_weave HL) as [gaps [Hlen [Hws Hw]]].
    rewrite H in *. simpl in *.
    destruct gaps as [|g [|g' gaps]]; try discriminate.
    simpl in Hw. subst g. inversion Hws; subst. assumption.
  - destruct (tokenize content) as [|t ts] eqn:Et; [reflexivity|]. exfalso.
    assert (Hin : In t (tokenize content)) by (rewrite Et; left; reflexivity).
    destruct (@tokenShape_head t (tokenize_shape content t Hin))
      as [c [rest [Hv Hc]]].
    destruct (Layout_spans HL) as [Hlen [Hspan _]].
    simpl in Hlen. destruct starts as [|s starts]; [discriminate|].
    destruct (Hspan 0 (tok_value t) s eq_refl eq_refl) as [_ [_ Hsub]].
    rewrite Hv in Hsub.
    assert (Hat : charAt (stripBOM content) s = Some c).
    { apply (@substr_head _ _ (length (c :: rest)) c rest).
      rewrite Hsub. apply str_eqb_refl. }
    rewrite forallb_forall in H.
    specialize (H c (nth_error_In _ _ Hat)). congruence.
Qed.

(** ** Doc comments *)

Lemma map_set_set : forall (V : Type) (m : JsMap V) k a b,
  map_set (map_set m k a) k b = map_set m k b.
Proof.
  intros V m k a b. induction m as [|[k' v'] m IH]; simpl.
  - rewrite str_eqb_refl. reflexivity.
  - destruct (str_eqb k' k) eqn:E; simpl; rewrite E; [reflexivity|].
    rewrite IH. reflexivity.
Qed.

Lemma Forall_map_set :
  forall (V : Type) (P : jsstring * V -> Prop) (m : JsMap V) k v,
    Forall P m -> P (k, v) -> Forall P (map_set m k v).
Proof.
  intros V P m k v Hall Hp. induction Hall as [|[k' v'] m Hx Hall IH]; simpl.
  - constructor; [exact Hp | constructor].
  - destruct (str_eqb k' k) eqn:E.
    + apply str_eqb_eq in E. subst k'. constructor; assumption.
    + constructor; assumption.
Qed.

Lemma map_get_In : forall (V : Type) (m : JsMap V) k v,
  map_get m k = Some v -> In (k, v) m.
Proof.
  intros V m k v. induction m as [|[k' v'] m IH]; simpl; [discriminate|].
  destruct (str_eqb k' k) eqn:E.
  - apply str_eqb_eq in E. subst k'. intros H. injection H as ->.
    left. reflexivity.
  - intros H. right. apply IH. exact H.
Qed.

Lemma forallb_takeWhile : forall (A : Type) (p : A -> bool) l,
  forallb p (takeWhile p l) = true.
Proof.
  intros A p l. induction l as [|x l IH]; simpl; [reflexivity|].
  destruct (p x) eqn:E; simpl; [rewrite E; exact IH | reflexivity].
Qed.

Lemma matchTag_name : forall line tagName tagValue,
  matchTag line = Some (tagName, tagValue) ->
  startsWith line [AT] = true
  /\ nonEmpty tagName = true /\ forallb isVarChar tagName = true.
Proof.
  intros line tagName tagValue H. unfold matchTag in H.
  destruct line as [|c rest]; [discriminate|].
  destruct (c =? AT)%N eqn:Ec; [|discriminate].
  destruct (nonEmpty (takeWhile isVarChar rest)) eqn:Ew; [|discriminate].
  assert (Hname : tagName = takeWhile isVarChar rest).
  { destruct (dropWhile isVarChar rest) as [|x after];
      [injection H as <- _; reflexivity|].
    destruct (isWhitespace x); [|discriminate].
    destruct (existsb isLineTerminator _); [discriminate|].
    injection H as <- _. reflexivity. }
  subst tagName. simpl. rewrite Ec. split; [destruct rest; reflexivity|].
  split; [exact Ew | apply forallb_takeWhile].
Qed.

Lemma appendToLast_nonempty : forall l s, l <> [] -> appendToLast l s <> [].
Proof.
  intros l s Hl. unfold appendToLast.
  destruct (rev l) as [|x r] eqn:E.
  - exact Hl.
  - intros H. apply app_eq_nil in H. destruct H as [_ H]. discriminate.
Qed.

(** The tags of the document under construction stay a map whose keys are
    tag names and whose value lists are not empty. *)
Lemma docLine_tags : forall acc line,
  let tagsOk (tags : JsMap (list jsstring)) :=
    uniqueKeys tags = true
    /\ Forall (fun entry : jsstring * list jsstring =>
                 snd entry <> [] /\ fst entry <> []
                 /\ forallb isVarChar (fst entry) = true) tags in
  tagsOk (doc_tags (fst (fst acc))) ->
  tagsOk (doc_tags (fst (fst (docLine acc line)))).
Proof.
  intros [[doc currentSection] currentTag] line tagsOk [Hu Hall].
  unfold tagsOk. unfold docLine. cbn [fst snd] in *.
  destruct (startsWith line [AT]).
  - destruct (matchTag line) as [[tagName tagValue]|] eqn:Em;
      [|split; assumption].
    destruct (matchTag_name _ Em) as [_ [Hne Hword]].
    cbn [fst doc_tags].
    set (tags1 := if map_has (doc_tags doc) tagName then doc_tags doc
                  else map_set (doc_tags doc) tagName []).
    assert (H1 : forall vs v, map_set tags1 tagName (vs ++ [v])
                              = map_set (doc_tags doc) tagName (vs ++ [v])).
    { intros vs v. unfold tags1. destruct (map_has (doc_tags doc) tagName);
        [reflexivity | apply map_set_set]. }
    destruct (map_get tags1 tagName) as [vs|] eqn:Eg.
    + rewrite H1. split; [apply uniqueKeys_set; exact Hu|].
      apply Forall_map_set; [exact Hall|]. cbn [fst snd].
      split; [intros H; apply app_eq_nil in H; destruct H; discriminate|].
      split; [destruct tagName; [discriminate | discriminate] | exact Hword].
    + unfold tags1 in *. destruct (map_has (doc_tags doc) tagName) eqn:Eh;
        [split; assumption|].
      rewrite map_get_set_same in Eg. discriminate.
  - destruct currentSection; cbn [fst doc_tags].
    + destruct (negb (nonEmpty (doc_summary doc))); split; assumption.
    + split; assumption.
    + destruct currentTag as [tag|]; [|split; assumption].
      destruct (nonEmpty tag); [|split; assumption].
      destruct (map_get (doc_tags doc) tag) as [tagValues|] eqn:Eg;
        [|split; assumption].
      destruct (0 <? length tagValues) eqn:El; [|split; assumption].
      cbn [fst doc_tags]. split; [apply uniqueKeys_set; exact Hu|].
      apply map_get_In in Eg.
      rewrite Forall_forall in Hall. destruct (Hall _ Eg) as [_ [H2 H3]].
      apply Forall_map_set; [apply Forall_forall; exact Hall|].
      cbn [fst snd] in *. split; [|split; assumption].
      apply appendToLast_nonempty. intros ->. discriminate.
Qed.

(** X5: in the result of [parseDocComment] the tags are a map (no tag name
    occurs twice), every tag name is a non-empty word, and every tag holds
    at least one value: what [formatDocText] reads as [returns[0]] is
    always there. *)
Theorem parseDocComment_tags : forall docComment : jsstring,
  let tags := doc_tags (parseDocComment docComment) in
  uniqueKeys tags = true
  /\ Forall (fun entry : jsstring * list jsstring =>
               snd entry <> [] /\ fst entry <> []
               /\ forallb isVarChar (fst entry) = true) tags
  /\ (forall tag values,
        map_get tags tag = Some values ->
        exists first rest, values = first :: rest).
Proof.
  intros docComment tags.
  assert (H : uniqueKeys tags = true
              /\ Forall (fun entry : jsstring * list jsstring =>
                           snd entry <> [] /\ fst entry <> []
                           /\ forallb isVarChar (fst entry) = true) tags).
  { unfold tags, parseDocComment.
    generalize (filter nonEmpty
                  (map cleanDocLine
                     (splitOn NL
                        (stripSuffix (lit "*/")
                           (stripPrefix (lit "/**") docComment))))).
    intros lines.
    assert (Hinit : uniqueKeys (doc_tags (fst (fst (mkDoc [] [] [],
                                                    SecSummary,
                                                    @None jsstring)))) = true
                    /\ Forall (fun entry : jsstring * list jsstring =>
                                 snd entry <> [] /\ fst entry <> []
                                 /\ forallb isVarChar (fst entry) = true)
                         (doc_tags (fst (fst (mkDoc [] [] [], SecSummary,
                                              @None jsstring)))))
      by (split; [reflexivity | constructor]).
    revert Hinit. generalize (mkDoc [] [] [], SecSummary, @None jsstring).
    induction lines as [|line lines IH]; intros acc Hacc; simpl;
      [exact Hacc|].
    apply IH. apply docLine_tags. exact Hacc. }
  destruct H as [Hu Hall]. split; [exact Hu|]. split; [exact Hall|].
  intros tag values Hg. apply map_get_In in Hg.
  rewrite Forall_forall in Hall. destruct (Hall _ Hg) as [Hne _].
  cbn [snd] in Hne. destruct values as [|v vs]; [contradiction|]. eauto.
Qed.

Lemma parseDocComment_lines : forall docComment,
  parseDocComment docComment
  = fst (fst (fold_left docLine (docCommentLines docComment)
                (mkDoc [] [] [], SecSummary, None))).
Proof. reflexivity. Qed.

Lemma docCommentLines_nonEmpty : forall docComment,
  Forall (fun l => nonEmpty l = true) (docCommentLines docComment).
Proof.
  intros docComment. apply Forall_forall. intros l H.
  apply filter_In in H. tauto.
Qed.

(** Once the loop is in the tags section it stays there, and neither the
    summary nor the description changes any more. *)
Lemma docLines_in_tags : forall lines doc currentTag,
  let r := fold_left docLine lines (doc, SecTags, currentTag) in
  doc_summary (fst (fst r)) = doc_summary doc
  /\ doc_description (fst (fst r)) = doc_description doc.
Proof.
  induction lines as [|line lines IH]; intros doc currentTag; cbn zeta;
    cbn [fold_left]; [split; reflexivity|].
  assert (H : exists doc' tag',
            docLine (doc, SecTags, currentTag) line = (doc', SecTags, tag')
            /\ doc_summary doc' = doc_summary doc
            /\ doc_description doc' = doc_description doc).
  { unfold docLine. destruct (startsWith line [AT]).
    - destruct (matchTag line) as [[tagName tagValue]|]; eauto.
    - destruct currentTag as [tag|]; eauto.
      destruct (nonEmpty tag); eauto.
      destruct (map_get (doc_tags doc) tag) as [tagValues|]; eauto.
      destruct (0 <? length tagValues); eauto. }
  destruct H as [doc' [tag' [-> [H1 H2]]]].
  destruct (IH doc' tag') as [H3 H4]. cbn zeta in H3, H4.
  rewrite H3, H4. split; assumption.
Qed.

Lemma matchTag_none_plain : forall line,
  startsWith line [AT] = false -> matchTag line = None.
Proof.
  intros line H. destruct line as [|c rest]; [reflexivity|].
  unfold matchTag. simpl in H.
  destruct (c =? AT)%N; [|reflexivity].
  destruct rest; discriminate H.
Qed.

Lemma freeText_cons : forall line lines,
  freeText (line :: lines)
  = if isTagLine line then []
    else if startsWith line [AT] then freeText lines
    else line :: freeText lines.
Proof.
  intros line lines. unfold freeText. cbn [takeWhile].
  destruct (isTagLine line); cbn [negb]; [reflexivity|].
  cbn [filter]. destruct (startsWith line [AT]); reflexivity.
Qed.

(** The description section up to the first tag line: the lines that do
    not start with an at sign are joined by line feeds, the others are
    passed over. *)
Lemma docLines_freeText : forall lines doc currentTag,
  Forall (fun l => nonEmpty l = true) lines ->
  let r := fold_left docLine lines (doc, SecDescription, currentTag) in
  doc_summary (fst (fst r)) = doc_summary doc
  /\ doc_description (fst (fst r))
     = match freeText lines with
       | [] => doc_description doc
       | _ :: _ =>
           doc_description doc
           ++ (if nonEmpty (doc_description doc) then [NL] else [])
           ++ joinWith [NL] (freeText lines)
       end.
Proof.
  induction lines as [|l lines IH]; intros doc currentTag Hne; cbn zeta.
  - split; reflexivity.
  - inversion Hne as [|? ? Hn Hne']; subst.
    cbn [fold_left]. rewrite freeText_cons. unfold isTagLine.
    unfold docLine at 2 4.
    destruct (startsWith l [AT]) eqn:Hat.
    + destruct (matchTag l) as [[tagName tagValue]|] eqn:Hm.
      * cbn [doc_tags doc_summary doc_description].
        match goal with
        | |- context [fold_left docLine lines (?d, SecTags, ?t)] =>
            destruct (docLines_in_tags lines d t) as [H1 H2]
        end.
        cbn zeta in H1, H2. rewrite H1, H2. split; reflexivity.
      * apply IH. exact Hne'.
    + rewrite (matchTag_none_plain _ Hat).
      match goal with
      | |- context [fold_left docLine lines (?d, SecDescription, ?t)] =>
          destruct (IH d t Hne') as [H1 H2]
      end.
      cbn zeta in H1, H2. rewrite H1, H2.
      cbn [doc_summary doc_description doc_tags].
      split; [reflexivity|].
      destruct (freeText lines) as [|l' ls] eqn:Ef.
      * destruct l; [discriminate Hn|]. reflexivity.
      * assert (Hnon : nonEmpty (doc_description doc
                                 ++ (if nonEmpty (doc_description doc)
                                     then [NL] else []) ++ l) = true).
        { destruct l; [discriminate|].
          destruct (doc_description doc); reflexivity. }
        rewrite Hnon.
        change (joinWith [NL] (l :: l' :: ls))
          with (l ++ [NL] ++ joinWith [NL] (l' :: ls)).
        rewrite <- !app_assoc. reflexivity.
Qed.

(** The summary section, no summary being set. *)
Lemma docLines_summary : forall lines tags currentTag,
  Forall (fun l => nonEmpty l = true) lines ->
  let r := fold_left docLine lines (mkDoc [] [] tags, SecSummary, currentTag) in
  doc_summary (fst (fst r)) = hd [] (freeText lines)
  /\ doc_description (fst (fst r)) = joinWith [NL] (tl (freeText lines)).
Proof.
  induction lines as [|l lines IH]; intros tags currentTag Hne; cbn zeta.
  - split; reflexivity.
  - inversion Hne as [|? ? Hn Hne']; subst.
    cbn [fold_left]. rewrite freeText_cons. unfold isTagLine.
    unfold docLine at 2 4.
    destruct (startsWith l [AT]) eqn:Hat.
    + destruct (matchTag l) as [[tagName tagValue]|] eqn:Hm.
      * cbn [doc_tags doc_summary doc_description].
        match goal with
        | |- context [fold_left docLine lines (?d, SecTags, ?t)] =>
            destruct (docLines_in_tags lines d t) as [H1 H2]
        end.
        cbn zeta in H1, H2. rewrite H1, H2. split; reflexivity.
      * apply IH. exact Hne'.
    + rewrite (matchTag_none_plain _ Hat).
      cbn [doc_summary doc_description doc_tags nonEmpty negb].
      match goal with
      | |- context [fold_left docLine lines (?d, SecDescription, ?t)] =>
          destruct (docLines_freeText d t Hne') as [H1 H2]
      end.
      cbn zeta in H1, H2. rewrite H1, H2.
      cbn [doc_summary doc_description doc_tags nonEmpty hd tl app].
      split; [reflexivity|].
      destruct (freeText lines); reflexivity.
Qed.

(** X6: how [parseDocComment] splits the free text of a doc comment, the
    free text being the lines before the first tag line (a line that the
    tag pattern matches) that do not start with an at sign.  The first
    line of the free text is the summary, and its other lines, joined by
    line feeds, are the description.  A line that starts with an at sign
    and is no tag line is dropped, and nothing that follows the first tag
    line is added to the summary or to the description. *)
Theorem parseDocComment_summary_description :
  forall docComment : jsstring,
    let text := freeText (docCommentLines docComment) in
    doc_summary (parseDocComment docComment) = hd [] text
    /\ doc_description (parseDocComment docComment)
       = joinWith [NL] (tl text).
Proof.
  intros docComment text. rewrite parseDocComment_lines.
  apply docLines_summary. apply docCommentLines_nonEmpty.
Qed.

(** A line that starts with an at sign without being a tag line: it is
    dropped, and the text after it still goes to the description. *)
Example parseDocComment_at_line_dropped :
  let docComment :=
    lit "/**" ++ [NL] ++ lit " * Sum" ++ [NL]
    ++ lit " * @phpstan-return X" ++ [NL] ++ lit " * Note" ++ [NL]
    ++ lit " * @return int" ++ [NL] ++ lit " * the sum" ++ [NL]
    ++ lit " */" in
  docCommentLines docComment
  = [lit "Sum"; lit "@phpstan-return X"; lit "Note"; lit "@return int";
     lit "the sum"]
  /\ doc_summary (parseDocComment docComment) = lit "Sum"
  /\ doc_description (parseDocComment docComment) = lit "Note".
Proof. vm_compute. repeat split; reflexivity. Qed.

(** ** Parameters *)

Lemma noSpace_app : forall a b, noSpace (a ++ b) = noSpace a && noSpace b.
Proof. intros a b. unfold noSpace. apply forallb_app. Qed.

Lemma noSpace_rev : forall s, noSpace (rev s) = noSpace s.
Proof.
  induction s as [|c s IH]; [reflexivity|].
  simpl rev. rewrite noSpace_app, IH. unfold noSpace. simpl.
  rewrite andb_true_r. apply andb_comm.
Qed.

Lemma noSpace_dropWhile : forall p s,
  noSpace s = true -> noSpace (dropWhile p s) = true.
Proof.
  intros p. induction s as [|c s IH]; intros H; simpl; [reflexivity|].
  destruct (p c); [|exact H].
  apply IH. unfold noSpace in *. simpl in H.
  apply andb_true_iff in H. tauto.
Qed.

Lemma noSpace_skipn : forall n s, noSpace s = true -> noSpace (skipn n s) = true.
Proof.
  induction n as [|n IH]; intros s H; [exact H|].
  destruct s as [|c s]; [reflexivity|]. simpl. apply IH.
  unfold noSpace in *. simpl in H. apply andb_true_iff in H. tauto.
Qed.

Lemma noSpace_trimStart : forall s, noSpace s = true -> trimStart s = s.
Proof.
  intros [|c s] H; [reflexivity|]. unfold trimStart. simpl.
  unfold noSpace in H. simpl in H. apply andb_true_iff in H.
  destruct H as [H _]. apply negb_true_iff in H. rewrite H. reflexivity.
Qed.

Lemma noSpace_trim : forall s, noSpace s = true -> trim s = s.
Proof.
  intros s H. unfold trim. rewrite noSpace_trimStart by exact H.
  unfold trimEnd.
  assert (Hr : dropWhile isWhitespace (rev s) = rev s).
  { apply (@noSpace_trimStart (rev s)). rewrite noSpace_rev. exact H. }
  rewrite Hr. apply rev_involutive.
Qed.

Lemma noSpace_stripParens : forall s,
  noSpace s = true -> noSpace (stripParens s) = true.
Proof.
  intros s H. unfold stripParens.
  assert (H1 : noSpace (rev (dropWhile (fun c => (c =? RPAREN)%N)
                               (rev (dropWhile (fun c => (c =? LPAREN)%N)
                                       s)))) = true).
  { rewrite noSpace_rev. apply noSpace_dropWhile. rewrite noSpace_rev.
    apply noSpace_dropWhile. exact H. }
  rewrite noSpace_trim by exact H1. exact H1.
Qed.

Lemma splitOnFrom_noSpace : forall c s cur,
  noSpace cur = true -> noSpace s = true ->
  Forall (fun part => noSpace part = true) (splitOnFrom c cur s).
Proof.
  intros c. induction s as [|x s IH]; intros cur Hc Hs; simpl.
  - constructor; [exact Hc | constructor].
  - unfold noSpace in Hs. simpl in Hs. apply andb_true_iff in Hs.
    destruct Hs as [Hx Hs]. destruct (x =? c)%N.
    + constructor; [exact Hc|]. apply IH; [reflexivity | exact Hs].
    + apply IH; [|exact Hs]. rewrite noSpace_app, Hc.
      unfold noSpace. simpl. rewrite Hx. reflexivity.
Qed.

Lemma splitWsFrom_noSpace : forall s cur,
  noSpace s = true -> splitWsFrom false cur s = [cur ++ s].
Proof.
  induction s as [|x s IH]; intros cur Hs; simpl.
  - rewrite app_nil_r. reflexivity.
  - unfold noSpace in Hs. simpl in Hs. apply andb_true_iff in Hs.
    destruct Hs as [Hx Hs]. apply negb_true_iff in Hx. rewrite Hx.
    rewrite IH by exact Hs. rewrite <- app_assoc. reflexivity.
Qed.

(** A parameter text without white space is read as a name alone: the type
    is taken from the text before the first white space, and there is
    none. *)
Lemma parseParameter_untyped : forall paramStr,
  noSpace paramStr = true -> par_type (parseParameter paramStr) = None.
Proof.
  intros s Hs. unfold parseParameter.
  rewrite (@noSpace_trim s Hs).
  set (s1 := if startsWith s (lit "&") then trim (substringFrom s 1) else s).
  assert (H1 : noSpace s1 = true).
  { unfold s1. destruct (startsWith s (lit "&")); [|exact Hs].
    unfold substringFrom.
    rewrite noSpace_trim by (apply noSpace_skipn; exact Hs).
    apply noSpace_skipn. exact Hs. }
  set (s2 := if startsWith s1 (lit "...") then trim (substringFrom s1 3)
             else s1).
  assert (H2 : noSpace s2 = true).
  { unfold s2. destruct (startsWith s1 (lit "...")); [|exact H1].
    unfold substringFrom.
    rewrite noSpace_trim by (apply noSpace_skipn; exact H1).
    apply noSpace_skipn. exact H1. }
  assert (H3 : noSpace (nth 0 (splitOn 61%N s2) []) = true).
  { pose proof (@splitOnFrom_noSpace 61%N s2 [] eq_refl H2) as Hall.
    unfold splitOn. destruct (splitOnFrom 61%N [] s2) as [|part parts];
      [reflexivity|].
    inversion Hall; subst. assumption. }
  rewrite (@noSpace_trim _ H3).
  unfold splitWs. rewrite (@splitWsFrom_noSpace _ [] H3). reflexivity.
Qed.

Lemma paramLoop_untyped :
  forall fuel tokens i parameters inParams paramDepth currentParam,
    Forall (fun p => par_type p = None) parameters ->
    noSpace currentParam = true ->
    (forall k t,
       i <= k < fst (paramLoop fuel tokens i parameters inParams paramDepth
                       currentParam) ->
       nth_error tokens k = Some t -> noSpace (tok_value t) = true) ->
    Forall (fun p => par_type p = None)
      (snd (paramLoop fuel tokens i parameters inParams paramDepth
              currentParam)).
Proof.
  induction fuel as [|fuel IH];
    intros tokens i parameters inParams paramDepth currentParam Hp Hc Htok;
    simpl in *; [exact Hp|].
  destruct (nth_error tokens i) as [token|] eqn:Et; [|exact Hp].
  assert (Hadd : forall s, noSpace s = true ->
            Forall (fun p => par_type p = None)
              (parameters ++ [parseParameter s])).
  { intros s Hs. apply Forall_app. split; [exact Hp|].
    constructor; [apply parseParameter_untyped; exact Hs | constructor]. }
  assert (Hrec : forall ps inP d cur,
            Forall (fun p => par_type p = None) ps ->
            (noSpace (tok_value token) = true -> noSpace cur = true) ->
            (forall k t,
               i <= k < fst (paramLoop fuel tokens (S i) ps inP d cur) ->
               nth_error tokens k = Some t -> noSpace (tok_value t) = true) ->
            Forall (fun p => par_type p = None)
              (snd (paramLoop fuel tokens (S i) ps inP d cur))).
  { intros ps inP d cur Hps Hcur Hk.
    pose proof (paramLoop_ge fuel tokens (S i) ps inP d cur) as Hge.
    apply IH; [exact Hps | | intros k t Hr; apply Hk; lia].
    apply Hcur. apply (Hk i token); [lia | exact Et]. }
  assert (Happ : noSpace (tok_value token) = true ->
                 noSpace (currentParam ++ tok_value token) = true).
  { intros H. rewrite noSpace_app, Hc, H. reflexivity. }
  destruct (valueIs token (lit "(")); [apply Hrec; assumption|].
  destruct (valueIs token (lit ")")).
  { destruct (paramDepth - 1 =? 0)%Z; [|apply Hrec; assumption].
    cbn [snd]. destruct (nonEmpty (trim currentParam)); [|exact Hp].
    destruct (nonEmpty (stripParens currentParam)); [|exact Hp].
    apply Hadd. apply noSpace_stripParens. exact Hc. }
  destruct (inParams && valueIs token (lit ",") && (paramDepth =? 1)%Z).
  { apply Hrec; [|reflexivity|assumption].
    destruct (nonEmpty (trim currentParam)); [|exact Hp].
    apply Hadd. rewrite noSpace_trim by exact Hc. exact Hc. }
  destruct inParams; apply Hrec; auto.
Qed.

(** What [parseFunction] stores for a named function, read by its
    parameter list, with the index at which the list ends. *)
Lemma parseFunction_stores_parameters :
  forall st tokens start fileKey nameToken,
    nth_error tokens (scanWhile isIgnorable (length tokens) tokens (S start))
    = Some nameToken ->
    tok_type nameToken = T_STRING ->
    (forall r, ix_currentClass st = Some r -> r < length (ix_heap st)) ->
    let list :=
      paramLoop (length tokens) tokens
        (S (scanWhile isIgnorable (length tokens) tokens (S start)))
        [] false 0 [] in
    fst list <= snd (parseFunction st tokens start fileKey)
    /\ exists f,
         storedFunction st (fst (parseFunction st tokens start fileKey))
           (tok_value nameToken) = Some f
         /\ fn_parameters f = snd list.
Proof.
  intros st tokens start fileKey nameToken Hn Hty Hvalid list.
  assert (Etype : typeIs nameToken T_STRING = true)
    by (unfold typeIs; rewrite Hty; reflexivity).
  unfold parseFunction. rewrite Hn, Etype.
  cbn [negb]. fold list.
  destruct list as [i parameters]. cbn [fst snd].
  pose proof (scanWhile_ge isIgnorable (length tokens) tokens i) as H0.
  set (i0 := scanWhile isIgnorable (length tokens) tokens i) in *.
  match goal with
  | |- context [let '(_, _) := ?p in _] =>
      assert (H1 : i0 <= fst p); [|destruct p as [i' returnType]]
  end.
  { destruct (nth_error tokens i0) as [t|]; [|simpl; lia].
    destruct (valueIs t (lit ":")); [|simpl; lia].
    match goal with
    | |- context [collectUntil ?s ?f ?tk ?j ?a] =>
        pose proof (collectUntil_bounds s f tk j a) as H2;
        destruct (collectUntil s f tk j a) as [i2 v]
    end.
    simpl in *. lia. }
  cbn [fst snd] in *. split; [lia|].
  unfold storedFunction.
  destruct (ix_currentClass st) as [r|] eqn:Ecur.
  - specialize (Hvalid r eq_refl).
    destruct (nth_error (ix_heap st) r) as [c|] eqn:Ec.
    2:{ apply nth_error_None in Ec. lia. }
    unfold deref, updClass. simpl.
    rewrite nth_error_updNth, Nat.eqb_refl, Ec. simpl.
    rewrite map_get_set_same. eexists. split; reflexivity.
  - unfold updFile.
    destruct (map_get _ fileKey); simpl; rewrite map_get_set_same;
      eexists; split; reflexivity.
Qed.

(** X7: the lexer drops white space and [parseFunction] joins the texts of
    the tokens of a parameter without any, so the type of a parameter is
    never told from its name.  Whenever no token between the function
    keyword and the place where parsing resumes holds white space (as any
    token but a comment or a quoted string does), every parameter of the
    stored function is without a type. *)
Theorem parseFunction_parameters_untyped :
  forall (st : Indexer) (tokens : list Token) (start : nat)
         (fileKey : jsstring) (nameToken : Token),
    nth_error tokens (scanWhile isIgnorable (length tokens) tokens (S start))
    = Some nameToken ->
    tok_type nameToken = T_STRING ->
    (forall r, ix_currentClass st = Some r -> r < length (ix_heap st)) ->
    (forall k t,
       start < k < snd (parseFunction st tokens start fileKey) ->
       nth_error tokens k = Some t -> noSpace (tok_value t) = true) ->
    exists f,
      storedFunction st (fst (parseFunction st tokens start fileKey))
        (tok_value nameToken) = Some f
      /\ Forall (fun p => par_type p = None) (fn_parameters f).
Proof.
  intros st tokens start fileKey nameToken Hn Hty Hvalid Htok.
  destruct (parseFunction_stores_parameters st tokens start fileKey Hn Hty
              Hvalid) as [Hle [f [Hf Hp]]].
  exists f. split; [exact Hf|]. rewrite Hp.
  pose proof (scanWhile_ge isIgnorable (length tokens) tokens (S start))
    as Hge.
  apply paramLoop_untyped; [constructor | reflexivity|].
  intros k t Hk Ht. apply (Htok k t); [lia | exact Ht].
Qed.

Lemma parseFunction_parameters_untyped_witness :
  let tokens := tokenize (lit "<?php function add(int $a, array $b) {}") in
  exists f,
    storedFunction newIndexer
      (fst (parseFunction newIndexer tokens 1 (lit "a.php"))) (lit "add")
    = Some f
    /\ Forall (fun p => par_type p = None) (fn_parameters f)
    /\ map par_name (fn_parameters f) = [lit "(int$a"; lit "array$b"].
Proof.
  intros tokens.
  destruct (@parseFunction_parameters_untyped newIndexer tokens 1
              (lit "a.php") (mkToken T_STRING (lit "add") 1 6))
    as [f [Hf Hall]].
  - vm_compute. reflexivity.
  - reflexivity.
  - intros r H. discriminate H.
  - intros k t Hk Ht.
    assert (Hns : forallb (fun t => noSpace (tok_value t)) tokens = true)
      by (vm_compute; reflexivity).
    rewrite forallb_forall in Hns. apply Hns.
    eapply nth_error_In. exact Ht.
  - exists f. split; [exact Hf|]. split; [exact Hall|].
    vm_compute in Hf. injection Hf as <-. reflexivity.
Defined.

Lemma paramLoop_prefix :
  forall fuel tokens i parameters inParams paramDepth currentParam,
  exists more,
    snd (paramLoop fuel tokens i parameters inParams paramDepth currentParam)
    = parameters ++ more.
Proof.
  induction fuel as [|fuel IH];
    intros tokens i parameters inParams paramDepth currentParam; simpl.
  - exists []. rewrite app_nil_r. reflexivity.
  - destruct (nth_error tokens i) as [token|];
      [|exists []; rewrite app_nil_r; reflexivity].
    destruct (valueIs token (lit "(")); [apply IH|].
    destruct (valueIs token (lit ")")).
    { destruct (paramDepth - 1 =? 0)%Z; [|apply IH]. cbn [snd].
      destruct (nonEmpty (trim currentParam));
        [|exists []; rewrite app_nil_r; reflexivity].
      destruct (nonEmpty (stripParens currentParam));
        [eexists; reflexivity | exists []; rewrite app_nil_r; reflexivity]. }
    destruct (inParams && valueIs token (lit ",") && (paramDepth =? 1)%Z).
    { destruct (nonEmpty (trim currentParam)); [|apply IH].
      match goal with
      | |- context [paramLoop fuel tokens ?j (parameters ++ [?p]) ?a ?b ?c] =>
          destruct (IH tokens j (parameters ++ [p]) a b c) as [more Hm]
      end.
      rewrite Hm. exists ((parseParameter (trim currentParam)) :: more).
      rewrite <- app_assoc. reflexivity. }
    destruct inParams; apply IH.
Qed.

Lemma splitOnFrom_head : forall c s cur,
  exists part parts,
    splitOnFrom c cur s = part :: parts
    /\ exists more, part = cur ++ more /\ (noSpace s = true ->
                                           noSpace more = true).
Proof.
  intros c. induction s as [|x s IH]; intros cur; simpl.
  - exists cur, []. split; [reflexivity|]. exists [].
    rewrite app_nil_r. split; reflexivity.
  - destruct (x =? c)%N.
    + exists cur, (splitOnFrom c [] s). split; [reflexivity|]. exists [].
      rewrite app_nil_r. split; reflexivity.
    + destruct (IH (cur ++ [x])) as [part [parts [E [more [Hp Hn]]]]].
      exists part, parts. split; [exact E|]. exists (x :: more).
      rewrite Hp, <- app_assoc. split; [reflexivity|].
      intros H. unfold noSpace in *. simpl in *.
      apply andb_true_iff in H. destruct H as [Hx Hs].
      rewrite Hx. apply Hn. exact Hs.
Qed.

Lemma dropWhile_snoc_solid : forall (A : Type) (p : A -> bool) l c,
  p c = false -> exists l', dropWhile p (l ++ [c]) = l' ++ [c].
Proof.
  intros A p l c Hc. induction l as [|x l IH]; simpl.
  - rewrite Hc. exists []. reflexivity.
  - destruct (p x).
    + exact IH.
    + exists (x :: l). reflexivity.
Qed.

Lemma trim_paren : forall x, exists y, trim (LPAREN :: x) = LPAREN :: y.
Proof.
  intros x. unfold trim, trimStart, trimEnd.
  change (dropWhile isWhitespace (LPAREN :: x)) with (LPAREN :: x).
  change (rev (LPAREN :: x)) with (rev x ++ [LPAREN]).
  destruct (@dropWhile_snoc_solid _ isWhitespace (rev x) LPAREN eq_refl)
    as [l' E].
  rewrite E, rev_app_distr. exists (rev l'). reflexivity.
Qed.

Lemma splitWsFrom_head : forall s cur,
  exists w rest, splitWsFrom false cur s = (cur ++ w) :: rest.
Proof.
  induction s as [|x s IH]; intros cur; simpl.
  - exists [], []. rewrite app_nil_r. reflexivity.
  - destruct (isWhitespace x).
    + exists [], (splitWsFrom true [] s). rewrite app_nil_r. reflexivity.
    + destruct (IH (cur ++ [x])) as [w [rest E]]. rewrite E.
      exists (x :: w), rest. rewrite <- app_assoc. reflexivity.
Qed.

Lemma startsWith_paren : forall w, startsWith (LPAREN :: w) (lit "(") = true.
Proof. intros w. destruct w; reflexivity. Qed.

(** The text of a parameter that begins with the opening parenthesis gives
    a parameter that keeps it. *)
Lemma parseParameter_keepsParen : forall x,
  keepsParen (parseParameter (LPAREN :: x)) = true.
Proof.
  intros x. unfold parseParameter.
  destruct (trim_paren x) as [y ->].
  change (startsWith (LPAREN :: y) (lit "&")) with false. cbv iota.
  change (startsWith (LPAREN :: y) (lit "...")) with false. cbv iota.
  unfold splitOn. cbn [splitOnFrom].
  change ((LPAREN =? 61)%N) with false. cbv iota.
  destruct (splitOnFrom_head 61%N y ([] ++ [LPAREN]))
    as [part [parts [E [more [Hp _]]]]].
  rewrite E. cbn [nth]. cbn [app] in Hp. subst part.
  destruct (trim_paren more) as [z ->].
  unfold splitWs. cbn [splitWsFrom].
  change (isWhitespace LPAREN) with false. cbv iota.
  destruct (splitWsFrom_head z ([] ++ [LPAREN])) as [w [rest Ew]].
  rewrite Ew. cbn [app].
  destruct rest as [|r rest]; unfold keepsParen; cbn.
  - destruct w; reflexivity.
  - destruct w; reflexivity.
Qed.

Lemma skipn_nth_error_cons : forall (A : Type) (l : list A) k t,
  nth_error l k = Some t -> skipn k l = t :: skipn (S k) l.
Proof.
  intros A. induction l as [|x l IH]; intros k t H.
  - destruct k; discriminate H.
  - destruct k as [|k]; simpl in *.
    + injection H as ->. reflexivity.
    + apply IH. exact H.
Qed.

Lemma skipn_nth_error_none : forall (A : Type) (l : list A) k,
  nth_error l k = None -> skipn k l = [].
Proof.
  intros A l k H. apply skipn_all2. apply nth_error_None. exact H.
Qed.

(** Inside the list, the loop reaches the first comma of depth one with
    the text read since the opening parenthesis, and stores it. *)
Lemma paramLoop_topComma : forall n fuel tokens k depth x,
  topComma (skipn k tokens) (S depth) = Some n ->
  n < fuel ->
  exists p ps,
    snd (paramLoop fuel tokens k [] true (Z.of_nat (S depth)) (LPAREN :: x))
    = p :: ps
    /\ keepsParen p = true.
Proof.
  induction n as [|n IH]; intros fuel tokens k depth x Ht Hf;
    (destruct fuel as [|fuel]; [lia|]); cbn [paramLoop];
    (destruct (nth_error tokens k) as [t|] eqn:Et;
     [rewrite (skipn_nth_error_cons _ _ Et) in Ht
     |rewrite (skipn_nth_error_none _ _ Et) in Ht; discriminate Ht]);
    cbn [topComma] in Ht;
    destruct (valueIs t (lit "(")) eqn:V1.
  - destruct (topComma _ _); discriminate Ht.
  - destruct (valueIs t (lit ")")) eqn:V2.
    { destruct depth; [discriminate Ht|].
      destruct (topComma _ _); discriminate Ht. }
    destruct (valueIs t (lit ",")) eqn:V3.
    2:{ cbn [andb] in Ht. destruct (topComma _ _); discriminate Ht. }
    destruct depth as [|depth].
    2:{ cbn in Ht. destruct (topComma _ _); discriminate Ht. }
    cbn [andb]. change ((Z.of_nat 1 =? 1)%Z) with true. cbv iota.
    destruct (trim_paren x) as [y Ey]. rewrite Ey. cbn [nonEmpty app].
    destruct (paramLoop_prefix fuel tokens (S k)
                [parseParameter (LPAREN :: y)] true (Z.of_nat 1) [])
      as [more Hm].
    rewrite Hm. eexists. eexists. split; [reflexivity|].
    apply parseParameter_keepsParen.
  - destruct (topComma (skipn (S k) tokens) (S (S depth))) as [m|] eqn:Em;
      [|discriminate Ht].
    injection Ht as ->.
    replace (Z.of_nat (S depth) + 1)%Z with (Z.of_nat (S (S depth))) by lia.
    apply (IH fuel tokens (S k) (S depth) (x ++ tok_value t) Em). lia.
  - destruct (valueIs t (lit ")")) eqn:V2.
    + destruct depth as [|depth]; [discriminate Ht|].
      destruct (topComma (skipn (S k) tokens) (S depth)) as [m|] eqn:Em;
        [|discriminate Ht].
      injection Ht as ->.
      replace (Z.of_nat (S (S depth)) - 1)%Z with (Z.of_nat (S depth))
        by lia.
      replace (Z.of_nat (S depth) =? 0)%Z with false
        by (symmetry; apply Z.eqb_neq; lia).
      apply (IH fuel tokens (S k) depth (x ++ tok_value t) Em). lia.
    + destruct (valueIs t (lit ",") && (S depth =? 1)) eqn:V3;
        [discriminate Ht|].
      destruct (topComma (skipn (S k) tokens) (S depth)) as [m|] eqn:Em;
        [|discriminate Ht].
      injection Ht as ->.
      replace (true && valueIs t (lit ",") && (Z.of_nat (S depth) =? 1)%Z)
        with false.
      2:{ cbn [andb]. symmetry.
          destruct (valueIs t (lit ",")); [|reflexivity].
          cbn [andb] in V3. apply Nat.eqb_neq in V3.
          apply Z.eqb_neq. lia. }
      apply (IH fuel tokens (S k) depth (x ++ tok_value t) Em). lia.
Qed.

(** Before the list, the loop passes over what is no parenthesis. *)
Lemma paramLoop_before : forall n fuel tokens k,
  (forall m t,
     k <= m < k + n -> nth_error tokens m = Some t ->
     tok_value t <> lit "(" /\ tok_value t <> lit ")") ->
  k + n < length tokens ->
  paramLoop (n + fuel) tokens k [] false 0 []
  = paramLoop fuel tokens (k + n) [] false 0 [].
Proof.
  induction n as [|n IH]; intros fuel tokens k Hplain Hlen.
  - rewrite Nat.add_0_r. reflexivity.
  - cbn [Nat.add paramLoop].
    destruct (nth_error tokens k) as [t|] eqn:Et.
    2:{ apply nth_error_None in Et. lia. }
    destruct (Hplain k t ltac:(lia) Et) as [P1 P2].
    unfold valueIs. apply str_eqb_neq in P1, P2. rewrite P1, P2.
    cbn [andb]. rewrite IH.
    + f_equal. lia.
    + intros m t' Hm Ht'. apply (Hplain m t'); [lia | exact Ht'].
    + lia.
Qed.

Lemma paramLoop_open : forall fuel tokens i open,
  nth_error tokens i = Some open -> tok_value open = lit "(" ->
  paramLoop (S fuel) tokens i [] false 0 []
  = paramLoop fuel tokens (S i) [] true 1 [LPAREN].
Proof.
  intros fuel tokens i open Ho Hv. simpl. rewrite Ho.
  unfold valueIs. rewrite Hv. reflexivity.
Qed.

Lemma topComma_length : forall tokens depth n,
  topComma tokens depth = Some n -> n < length tokens.
Proof.
  induction tokens as [|t tokens IH]; intros depth n H; cbn [topComma] in H.
  - discriminate H.
  - cbn [length].
    destruct (valueIs t (lit "(")).
    { destruct (topComma tokens (S depth)) as [m|] eqn:E; [|discriminate H].
      injection H as <-. apply IH in E. lia. }
    destruct (valueIs t (lit ")")).
    { destruct depth as [|[|d]]; try discriminate H.
      destruct (topComma tokens (S d)) as [m|] eqn:E; [|discriminate H].
      injection H as <-. apply IH in E. lia. }
    destruct (valueIs t (lit ",") && (depth =? 1)).
    { injection H as <-. lia. }
    destruct (topComma tokens depth) as [m|] eqn:E; [|discriminate H].
    injection H as <-. apply IH in E. lia.
Qed.

(** X8: in a parameter list with a comma at depth one, the text of the
    first parameter is taken from the opening parenthesis on, and the
    parenthesis is only removed at the closing one.  When the name of a
    function is followed, with no other parenthesis between, by an opening
    one, and a comma stands at depth one before the list closes, the first
    stored parameter keeps the opening parenthesis: its type begins with
    it when it has a type, and its name does when it has none.  The
    current class of the state, if any, is a class object of the store. *)
Theorem parseFunction_first_parameter_paren :
  forall (st : Indexer) (tokens : list Token) (start o n : nat)
         (fileKey : jsstring) (nameToken open : Token),
    let i0 := scanWhile isIgnorable (length tokens) tokens (S start) in
    nth_error tokens i0 = Some nameToken ->
    tok_type nameToken = T_STRING ->
    (forall r, ix_currentClass st = Some r -> r < length (ix_heap st)) ->
    i0 < o ->
    nth_error tokens o = Some open -> tok_value open = lit "(" ->
    (forall k t,
       i0 < k < o -> nth_error tokens k = Some t ->
       tok_value t <> lit "(" /\ tok_value t <> lit ")") ->
    topComma (skipn (S o) tokens) 1 = Some n ->
    exists f p ps,
      storedFunction st (fst (parseFunction st tokens start fileKey))
        (tok_value nameToken) = Some f
      /\ fn_parameters f = p :: ps
      /\ keepsParen p = true.
Proof.
  intros st tokens start o n fileKey nameToken open i0 Hn Hty Hvalid
    Hio Ho Hov Hplain Hc.
  destruct (parseFunction_stores_parameters st tokens start fileKey Hn Hty
              Hvalid) as [_ [f [Hf Hp]]].
  fold i0 in Hp.
  pose proof (topComma_length _ _ Hc) as Hlen. rewrite length_skipn in Hlen.
  replace (length tokens)
    with ((o - S i0) + S (length tokens - S (o - S i0))) in Hp at 1 by lia.
  rewrite paramLoop_before in Hp.
  2:{ intros m t Hm Ht. apply (Hplain m t); [lia | exact Ht]. }
  2:{ lia. }
  replace (S i0 + (o - S i0)) with o in Hp by lia.
  rewrite (paramLoop_open _ tokens o Ho Hov) in Hp.
  destruct (@paramLoop_topComma n (length tokens - S (o - S i0)) tokens (S o)
              0 [] Hc) as [p [ps [E Hparen]]].
  - lia.
  - exists f, p, ps. split; [exact Hf|]. split; [|exact Hparen].
    rewrite Hp. exact E.
Qed.

Lemma parseFunction_first_parameter_paren_witness :
  let tokens :=
    tokenize (lit "<?php function add(/* a b */ $a = array(), $b) {}") in
  exists f p ps,
    storedFunction newIndexer
      (fst (parseFunction newIndexer tokens 1 (lit "a.php"))) (lit "add")
    = Some f
    /\ fn_parameters f = p :: ps
    /\ keepsParen p = true.
Proof.
  intros tokens.
  apply (@parseFunction_first_parameter_paren newIndexer tokens 1 3 6
           (lit "a.php") (mkToken T_STRING (lit "add") 1 6)
           (mkToken CHAR (lit "(") 1 7)).
  - vm_compute. reflexivity.
  - reflexivity.
  - intros r H. discriminate H.
  - vm_compute. lia.
  - vm_compute. reflexivity.
  - reflexivity.
  - intros k t Hk Ht. vm_compute in Hk. lia.
  - vm_compute. reflexivity.
Defined.

(** ** Class members *)

Lemma scanWhile_stops :
  forall (A : Type) (p : A -> bool) fuel (l : list A) i,
    length l - i <= fuel ->
    (forall k c,
       i <= k < scanWhile p fuel l i -> nth_error l k = Some c -> p c = true)
    /\ match nth_error l (scanWhile p fuel l i) with
       | Some c => p c = false
       | None => True
       end.
Proof.
  intros A p. induction fuel as [|fuel IH]; intros l i Hf; simpl.
  - split; [intros k c Hk; lia|].
    assert (Hn : nth_error l i = None) by (apply nth_error_None; lia).
    rewrite Hn. exact I.
  - destruct (nth_error l i) as [c|] eqn:Ec.
    + destruct (p c) eqn:Ep.
      * destruct (IH l (S i) ltac:(lia)) as [H1 H2]. split; [|exact H2].
        intros k c' Hk Hc'.
        destruct (Nat.eq_dec k i) as [-> | Hne]; [congruence|].
        apply (H1 k c'); [lia | exact Hc'].
      * split; [intros k c' Hk; lia|]. rewrite Ec. exact Ep.
    + split; [intros k c' Hk; lia|]. rewrite Ec. exact I.
Qed.

Lemma set_add_has : forall s x y,
  set_has (set_add s x) y = set_has s y || str_eqb y x.
Proof.
  intros s x y. unfold set_add. destruct (set_has s x) eqn:E.
  - destruct (str_eqb y x) eqn:Eyx; [|rewrite orb_false_r; reflexivity].
    apply str_eqb_eq in Eyx. subst y. rewrite E. reflexivity.
  - unfold set_has. rewrite existsb_app. simpl. rewrite orb_false_r.
    reflexivity.
Qed.

(** The modifier loop of [parseProperty] over a run of visibility and
    static modifiers and comments that ends at a function keyword: it stops
    at the keyword, and [const] is not among the modifiers. *)
Lemma propertyModifiersLoop_to_function :
  forall n fuel tokens k modifiers keyword,
    (forall j t,
       k <= j < k + n -> nth_error tokens j = Some t ->
       In (tok_type t)
         [T_PUBLIC; T_PROTECTED; T_PRIVATE; T_STATIC; T_COMMENT;
          T_DOC_COMMENT]) ->
    nth_error tokens (k + n) = Some keyword ->
    tok_type keyword = T_FUNCTION ->
    n < fuel ->
    set_has modifiers (lit "const") = false ->
    fst (propertyModifiersLoop fuel tokens k modifiers) = k + n
    /\ set_has (snd (propertyModifiersLoop fuel tokens k modifiers))
         (lit "const") = false.
Proof.
  induction n as [|n IH]; intros fuel tokens k modifiers keyword Hrun Hk Hty
    Hf Hc; (destruct fuel as [|fuel]; [lia|]); simpl.
  - rewrite Nat.add_0_r in *. rewrite Hk.
    unfold typeIs, isIgnorable, typeIs. rewrite Hty. simpl.
    split; [reflexivity | exact Hc].
  - destruct (nth_error tokens k) as [t|] eqn:Et.
    2:{ apply nth_error_None in Et.
        assert (k + S n < length tokens)
          by (apply nth_error_Some; congruence). lia. }
    assert (Hrec : forall mods,
              set_has mods (lit "const") = false ->
              fst (propertyModifiersLoop fuel tokens (S k) mods) = k + S n
              /\ set_has (snd (propertyModifiersLoop fuel tokens (S k) mods))
                   (lit "const") = false).
    { intros mods Hm.
      replace (k + S n) with (S k + n) by lia.
      apply (IH fuel tokens (S k) mods keyword); try assumption; try lia.
      - intros j t' Hj Ht'. apply (Hrun j t'); [lia | exact Ht'].
      - rewrite <- Hk. f_equal. lia. }
    pose proof (Hrun k t ltac:(lia) Et) as Hin.
    unfold typeIs, isIgnorable, typeIs. simpl in Hin.
    destruct Hin as [E | [E | [E | [E | [E | [E | []]]]]]]; rewrite <- E;
      simpl; apply Hrec; rewrite ?set_add_has, ?Hc; reflexivity.
Qed.

(** X9: a class member that starts with a visibility or static modifier is
    handed to [parseProperty], also when it is a method.  On modifiers
    followed by the function keyword [parseProperty] stores nothing: it
    leaves the index as it was but for the pending doc comment, which it
    clears, and parsing resumes after the next semicolon, or at the end of
    the tokens when there is none.  The method is not indexed, and the
    braces up to that semicolon are not counted. *)
Theorem parseProperty_drops_method :
  forall (st : Indexer) (tokens : list Token) (start m : nat)
         (fileKey : jsstring) (keyword : Token),
    start <= m ->
    nth_error tokens m = Some keyword ->
    tok_type keyword = T_FUNCTION ->
    (forall k t,
       start <= k < m -> nth_error tokens k = Some t ->
       In (tok_type t)
         [T_PUBLIC; T_PROTECTED; T_PRIVATE; T_STATIC; T_COMMENT;
          T_DOC_COMMENT]) ->
    let next := snd (parseProperty st tokens start fileKey) in
    fst (parseProperty st tokens start fileKey) = set_lastDocComment st None
    /\ m < next <= length tokens
    /\ (forall k t,
          m <= k < next - 1 -> nth_error tokens k = Some t ->
          tok_value t <> lit ";")
    /\ (next = length tokens
        \/ exists t, nth_error tokens (next - 1) = Some t
                     /\ tok_value t = lit ";").
Proof.
  intros st tokens start m fileKey keyword Hsm Hk Hty Hrun next.
  assert (Hlen : m < length tokens) by (apply nth_error_Some; congruence).
  destruct (@propertyModifiersLoop_to_function (m - start) (length tokens)
              tokens start [] keyword) as [Hi Hconst].
  { intros j t Hj Ht. apply (Hrun j t); [lia | exact Ht]. }
  { rewrite <- Hk. f_equal. lia. }
  { exact Hty. }
  { lia. }
  { reflexivity. }
  replace (start + (m - start)) with m in Hi by lia.
  unfold next, parseProperty.
  destruct (propertyModifiersLoop (length tokens) tokens start [])
    as [i modifiers].
  cbn [fst snd] in Hi, Hconst. subst i.
  set (mods := if negb (set_has modifiers (lit "public"))
                  && negb (set_has modifiers (lit "protected"))
                  && negb (set_has modifiers (lit "private"))
                  && negb (set_has modifiers (lit "const"))
               then set_add modifiers (lit "public") else modifiers).
  assert (Hmods : set_has mods (lit "const") = false).
  { unfold mods. destruct (_ && _); [|exact Hconst].
    rewrite set_add_has, Hconst. reflexivity. }
  rewrite Hmods.
  assert (Hfun : isSpaceOrComment keyword = false
                 /\ typeIs keyword T_VARIABLE = false)
    by (unfold isSpaceOrComment, typeIs; rewrite Hty; split; reflexivity).
  destruct Hfun as [Hsc Hvar].
  assert (Hscan : scanWhile isSpaceOrComment (length tokens) tokens m = m).
  { destruct (length tokens); [lia|]. simpl. rewrite Hk, Hsc. reflexivity. }
  cbn [propertyVarsLoop].
  assert (Hlt : (m <? length tokens) = true) by (apply Nat.ltb_lt; exact Hlen).
  rewrite Hlt, Hscan, Hk, Hvar. cbn [fst snd].
  split; [reflexivity|].
  set (p := fun t : Token => negb (valueIs t (lit ";"))).
  destruct (@scanWhile_stops _ p (length tokens) tokens m ltac:(lia))
    as [Hbefore Hat].
  pose proof (@scanWhile_bounds _ p (length tokens) tokens m ltac:(lia))
    as Hb.
  set (s := scanWhile p (length tokens) tokens m) in *.
  unfold skipIf.
  destruct (nth_error tokens s) as [t|] eqn:Es.
  - unfold p in Hat. apply negb_false_iff in Hat. rewrite Hat.
    assert (s < length tokens) by (apply nth_error_Some; congruence).
    split; [lia|]. split.
    + intros k t' Hkr Ht'. replace (S s - 1) with s in Hkr by lia.
      specialize (Hbefore k t' ltac:(lia) Ht'). unfold p in Hbefore.
      apply negb_true_iff in Hbefore. apply str_eqb_neq in Hbefore.
      exact Hbefore.
    + right. exists t. replace (S s - 1) with s by lia.
      split; [exact Es|]. apply str_eqb_eq. exact Hat.
  - apply nth_error_None in Es. assert (s = length tokens) by lia.
    split; [lia|]. split; [|left; assumption].
    intros k t' Hkr Ht'.
    specialize (Hbefore k t' ltac:(lia) Ht'). unfold p in Hbefore.
    apply negb_true_iff in Hbefore. apply str_eqb_neq in Hbefore.
    exact Hbefore.
Qed.

Lemma parseProperty_drops_method_witness :
  let content :=
    lit "<?php class A { public static function f() { return 1; } function g() {} }" in
  let tokens := tokenize content in
  let st := processPhpFile newIndexer (lit "a.php") (Some content) 0 in
  (fst (parseProperty newIndexer tokens 4 (lit "a.php"))
   = set_lastDocComment newIndexer None
   /\ 6 < snd (parseProperty newIndexer tokens 4 (lit "a.php"))
      <= length tokens
   /\ (forall k t,
         6 <= k < snd (parseProperty newIndexer tokens 4 (lit "a.php")) - 1 ->
         nth_error tokens k = Some t -> tok_value t <> lit ";")
   /\ (snd (parseProperty newIndexer tokens 4 (lit "a.php")) = length tokens
       \/ exists t,
            nth_error tokens
              (snd (parseProperty newIndexer tokens 4 (lit "a.php")) - 1)
            = Some t
            /\ tok_value t = lit ";"))
  /\ map (fun c => (cls_name c, map fst (cls_methods c))) (ix_heap st)
     = [(lit "A", [])]
  /\ map fst (ix_functions st) = [lit "g"].
Proof.
  intros content tokens st. split; [|split; vm_compute; reflexivity].
  apply (@parseProperty_drops_method newIndexer tokens 4 6 (lit "a.php")
           (mkToken T_FUNCTION (lit "function") 1 14)).
  - lia.
  - vm_compute. reflexivity.
  - reflexivity.
  - intros k t Hk Ht.
    do 6 (destruct k as [|k];
          [lia || (vm_compute in Ht; injection Ht as <-; simpl; tauto)|]).
    lia.
Defined.

(** ** Use statements *)

Lemma scanWhile_false : forall (A : Type) (p : A -> bool) fuel (l : list A) i c,
  nth_error l i = Some c -> p c = false -> scanWhile p fuel l i = i.
Proof.
  intros A p fuel l i c Hc Hp. destruct fuel; simpl; [reflexivity|].
  rewrite Hc, Hp. reflexivity.
Qed.

Lemma splitOnFrom_nonempty : forall c s cur, splitOnFrom c cur s <> [].
Proof.
  intros c. induction s as [|x s IH]; intros cur; simpl; [discriminate|].
  destruct (x =? c)%N; [discriminate | apply IH].
Qed.

Lemma splitOnFrom_last : forall c s cur d,
  (forallb (fun x => negb (x =? c)%N) s = true
   /\ last (splitOnFrom c cur s) d = cur ++ s)
  \/ (exists pre seg,
        s = pre ++ [c] ++ seg
        /\ forallb (fun x => negb (x =? c)%N) seg = true
        /\ last (splitOnFrom c cur s) d = seg).
Proof.
  intros c. induction s as [|x s IH]; intros cur d.
  - left. simpl. rewrite app_nil_r. split; reflexivity.
  - cbn [splitOnFrom]. destruct (x =? c)%N eqn:E.
    + apply N.eqb_eq in E. subst x.
      assert (Hl : last (cur :: splitOnFrom c [] s) d
                   = last (splitOnFrom c [] s) d).
      { pose proof (splitOnFrom_nonempty c s []) as Hne.
        destruct (splitOnFrom c [] s); [contradiction | reflexivity]. }
      rewrite Hl. right.
      destruct (IH [] d) as [[Hs Hlast] | [pre [seg [Hs [Hseg Hlast]]]]].
      * exists [], s. split; [reflexivity|]. split; [exact Hs | exact Hlast].
      * exists (c :: pre), seg. split; [rewrite Hs; reflexivity|].
        split; [exact Hseg | exact Hlast].
    + destruct (IH (cur ++ [x]) d)
        as [[Hs Hlast] | [pre [seg [Hs [Hseg Hlast]]]]].
      * left. split; [cbn [forallb]; rewrite E, Hs; reflexivity|].
        rewrite <- app_assoc in Hlast. exact Hlast.
      * right. exists (x :: pre), seg. split; [rewrite Hs; reflexivity|].
        split; [exact Hseg | exact Hlast].
Qed.

(** The alias that [parseUse] gives a name that has none: the part after
    the last backslash, the whole name when it has no backslash. *)
Lemma lastSegment_spec : forall name,
  let alias := lastOr (splitOn BACKSLASH name) [] in
  forallb (fun x => negb (x =? BACKSLASH)%N) alias = true
  /\ (name = alias \/ exists pre, name = pre ++ [BACKSLASH] ++ alias).
Proof.
  intros name alias. unfold alias, lastOr, splitOn.
  destruct (splitOnFrom_last BACKSLASH name [] [])
    as [[Hs Hlast] | [pre [seg [Hs [Hseg Hlast]]]]]; rewrite Hlast.
  - split; [exact Hs | left; reflexivity].
  - split; [exact Hseg | right; exists pre; exact Hs].
Qed.

Lemma useLoop_S : forall fuel tokens i useName alias inAlias,
  useLoop (S fuel) tokens i useName alias inAlias
  = match nth_error tokens i with
    | None => (i, useName, alias)
    | Some t =>
        if valueIs t (lit ";") then (i, useName, alias)
        else if str_eqb (toLowerCase (tok_value t)) (lit "as") then
          useLoop fuel tokens (S i) useName alias true
        else if typeIs t T_STRING || valueIs t [BACKSLASH] then
          if inAlias
          then useLoop fuel tokens (S i) useName (alias ++ tok_value t)
                 inAlias
          else useLoop fuel tokens (S i) (useName ++ tok_value t) alias
                 inAlias
        else useLoop fuel tokens (S i) useName alias inAlias
    end.
Proof. reflexivity. Qed.


Lemma usesAlias_updFile : forall st fileKey fd alias name,
  map_get (ix_fileIndex st) fileKey = Some fd ->
  usesAlias st
    (updFile st fileKey
       (fun fd => fd_set_uses fd (map_set (fd_uses fd) alias name)))
    fileKey fd alias name.
Proof.
  intros st fileKey fd alias name Hfd. unfold usesAlias, updFile.
  rewrite Hfd. split; [reflexivity|]. split.
  - eexists. split; [apply map_get_set_same | reflexivity].
  - intros namespace file r Hfile Halias Hns Hname.
    unfold resolveClassName. cbn [ix_classes set_fileIndex ix_fileIndex
                                    ctx_namespace ctx_file].
    rewrite Halias.
    assert (Hn : (if nonEmpty namespace
                  then map_get (ix_classes st)
                         (namespace ++ [BACKSLASH] ++ alias)
                  else None) = None).
    { destruct (nonEmpty namespace) eqn:E; [apply Hns|]; reflexivity. }
    rewrite Hn, Hfile, map_get_set_same. cbn [fd_uses fd_set_uses].
    rewrite map_get_set_same, Hname. reflexivity.
Qed.

Lemma useLoop_name : forall fuel tokens i nameToken semi,
  nth_error tokens i = Some nameToken ->
  tok_type nameToken = T_STRING ->
  tok_value nameToken <> lit ";" ->
  toLowerCase (tok_value nameToken) <> lit "as" ->
  nth_error tokens (S i) = Some semi -> tok_value semi = lit ";" ->
  2 <= fuel ->
  useLoop fuel tokens i [] [] false = (S i, tok_value nameToken, []).
Proof.
  intros fuel tokens i nameToken semi Hn Hty Hv Has Hs Hsv Hf.
  destruct fuel as [|[|fuel]]; try lia.
  rewrite useLoop_S, Hn. unfold valueIs, typeIs.
  apply str_eqb_neq in Hv, Has. rewrite Hv, Has, Hty. cbn [TokenType_eqb orb].
  rewrite useLoop_S, Hs. unfold valueIs. rewrite Hsv. reflexivity.
Qed.

Lemma useLoop_name_as : forall fuel tokens i nameToken asToken aliasToken semi,
  nth_error tokens i = Some nameToken ->
  tok_type nameToken = T_STRING ->
  tok_value nameToken <> lit ";" ->
  toLowerCase (tok_value nameToken) <> lit "as" ->
  nth_error tokens (S i) = Some asToken ->
  toLowerCase (tok_value asToken) = lit "as" ->
  nth_error tokens (S (S i)) = Some aliasToken ->
  tok_type aliasToken = T_STRING ->
  tok_value aliasToken <> lit ";" ->
  toLowerCase (tok_value aliasToken) <> lit "as" ->
  nth_error tokens (S (S (S i))) = Some semi -> tok_value semi = lit ";" ->
  4 <= fuel ->
  useLoop fuel tokens i [] [] false
  = (S (S (S i)), tok_value nameToken, tok_value aliasToken).
Proof.
  intros fuel tokens i nameToken asToken aliasToken semi Hn Hty Hv Has
    Ha Hav Hal Halty Halv Halas Hs Hsv Hf.
  destruct fuel as [|[|[|[|fuel]]]]; try lia.
  rewrite useLoop_S, Hn. unfold valueIs, typeIs.
  apply str_eqb_neq in Hv, Has. rewrite Hv, Has, Hty. cbn [TokenType_eqb orb].
  rewrite useLoop_S, Ha. unfold valueIs.
  assert (Hasemi : str_eqb (tok_value asToken) (lit ";") = false).
  { apply str_eqb_neq. intros E. rewrite E in Hav. discriminate Hav. }
  rewrite Hasemi, Hav. cbn [str_eqb].
  change (str_eqb (lit "as") (lit "as")) with true. cbv iota.
  rewrite useLoop_S, Hal. unfold valueIs, typeIs.
  apply str_eqb_neq in Halv, Halas. rewrite Halv, Halas, Halty.
  cbn [TokenType_eqb orb].
  rewrite useLoop_S, Hs. unfold valueIs. rewrite Hsv. reflexivity.
Qed.

(** X10: what a use statement stores.  For [use Name;] the alias is the
    part of the name after its last backslash (the name itself when it has
    none); for [use Name as Alias;] it is the alias given.  The alias is
    mapped to the name in the record of the file, the class map is left
    alone, parsing resumes at the semicolon, and from then on
    [resolveClassName] finds the class of that name under the alias from
    a context in that file, when the alias is no class by itself or in the
    namespace of the context. *)
Theorem parseUse_alias :
  forall (st : Indexer) (tokens : list Token) (start : nat)
         (fileKey : jsstring) (fd : FileData) (nameToken : Token),
    map_get (ix_fileIndex st) fileKey = Some fd ->
    nth_error tokens (S start) = Some nameToken ->
    tok_type nameToken = T_STRING ->
    tok_value nameToken <> [] ->
    tok_value nameToken <> lit ";" ->
    toLowerCase (tok_value nameToken) <> lit "as" ->
    let name := tok_value nameToken in
    let st' := fst (parseUse st tokens start fileKey) in
    let next := snd (parseUse st tokens start fileKey) in
    (forall semi,
       nth_error tokens (S (S start)) = Some semi ->
       tok_value semi = lit ";" ->
       exists alias,
         next = S (S start)
         /\ usesAlias st st' fileKey fd alias name
         /\ forallb (fun x => negb (x =? BACKSLASH)%N) alias = true
         /\ (name = alias \/ exists pre, name = pre ++ [BACKSLASH] ++ alias))
    /\ (forall asToken aliasToken semi,
          nth_error tokens (S (S start)) = Some asToken ->
          toLowerCase (tok_value asToken) = lit "as" ->
          nth_error tokens (S (S (S start))) = Some aliasToken ->
          tok_type aliasToken = T_STRING ->
          tok_value aliasToken <> [] ->
          tok_value aliasToken <> lit ";" ->
          toLowerCase (tok_value aliasToken) <> lit "as" ->
          nth_error tokens (S (S (S (S start)))) = Some semi ->
          tok_value semi = lit ";" ->
          next = S (S (S (S start)))
          /\ usesAlias st st' fileKey fd (tok_value aliasToken) name).
Proof.
  intros st tokens start fileKey fd nameToken Hfd Hn Hty Hne Hv Has name st'
    next.
  assert (Hws : scanWhile (fun t => typeIs t T_WHITESPACE) (length tokens)
                  tokens (S start) = S start).
  { apply (@scanWhile_false _ _ _ _ _ nameToken Hn).
    unfold typeIs. rewrite Hty. reflexivity. }
  assert (Hnon : nonEmpty name = true)
    by (unfold name; destruct (tok_value nameToken);
        [contradiction | reflexivity]).
  split.
  - intros semi Hs Hsv.
    assert (Hlen : S (S start) < length tokens)
      by (apply nth_error_Some; congruence).
    pose proof (@useLoop_name (length tokens) tokens (S start) nameToken semi
                  Hn Hty Hv Has Hs Hsv ltac:(lia)) as Hloop.
    unfold st', next, parseUse. rewrite Hws, Hloop. fold name.
    rewrite Hnon. cbn [nonEmpty fst snd].
    exists (lastOr (splitOn BACKSLASH name) []).
    split; [reflexivity|]. split; [apply usesAlias_updFile; exact Hfd|].
    apply lastSegment_spec.
  - intros asToken aliasToken semi Ha Hav Hal Halty Halne Halv Halas Hs Hsv.
    assert (Hlen : S (S (S (S start))) < length tokens)
      by (apply nth_error_Some; congruence).
    pose proof (@useLoop_name_as (length tokens) tokens (S start) nameToken
                  asToken aliasToken semi Hn Hty Hv Has Ha Hav Hal Halty
                  Halv Halas Hs Hsv ltac:(lia)) as Hloop.
    unfold st', next, parseUse. rewrite Hws, Hloop. fold name.
    rewrite Hnon.
    assert (Hanon : nonEmpty (tok_value aliasToken) = true)
      by (destruct (tok_value aliasToken); [contradiction | reflexivity]).
    rewrite Hanon. cbn [fst snd].
    split; [reflexivity | apply usesAlias_updFile; exact Hfd].
Qed.

Lemma parseUse_alias_witness :
  let tokens := tokenize (lit "<?php use pocketmine\player\Player;") in
  let st := set_fileIndex newIndexer
              [(lit "a.php", mkFile (lit "a.php") [] [] [] [] 0)] in
  exists alias,
    snd (parseUse st tokens 1 (lit "a.php")) = 3
    /\ usesAlias st (fst (parseUse st tokens 1 (lit "a.php"))) (lit "a.php")
         (mkFile (lit "a.php") [] [] [] [] 0) alias
         (lit "pocketmine\player\Player")
    /\ alias = lit "Player".
Proof.
  intros tokens st.
  destruct (@parseUse_alias st tokens 1 (lit "a.php")
              (mkFile (lit "a.php") [] [] [] [] 0)
              (mkToken T_STRING (lit "pocketmine\player\Player") 1 6))
    as [Hplain _].
  - reflexivity.
  - vm_compute. reflexivity.
  - reflexivity.
  - discriminate.
  - discriminate.
  - discriminate.
  - destruct (Hplain (mkToken CHAR (lit ";") 1 7)) as [alias [H1 [H2 [H3 H4]]]].
    + vm_compute. reflexivity.
    + reflexivity.
    + exists alias. split; [exact H1|]. split; [exact H2|].
      destruct H2 as [_ [[fd' [Hg Hu]] _]].
      vm_compute in Hg. injection Hg as <-.
      vm_compute in Hu. injection Hu as Hu. symmetry. exact Hu.
Defined.

(** ** The resolver only adds *)

Lemma keepsClass_refl : forall c, keepsClass c c.
Proof. intros c. unfold keepsClass. repeat split; auto. Qed.

Lemma keepsClass_trans : forall a b c,
  keepsClass a b -> keepsClass b c -> keepsClass a c.
Proof.
  intros a b c [A1 [A2 [A3 [A4 A5]]]] [B1 [B2 [B3 [B4 B5]]]].
  unfold keepsClass. rewrite B1, B2, B3, A1, A2, A3.
  repeat split; auto.
Qed.

Lemma OnlyAdds_refl : forall st, OnlyAdds st st.
Proof.
  intros st. unfold OnlyAdds. repeat split.
  intros r c H. exists c. split; [exact H | apply keepsClass_refl].
Qed.

Lemma OnlyAdds_trans : forall a b c,
  OnlyAdds a b -> OnlyAdds b c -> OnlyAdds a c.
Proof.
  intros a b c [A1 [A2 A3]] [B1 [B2 B3]]. unfold OnlyAdds.
  rewrite B1, B2, A1, A2. repeat split.
  intros r x Hx. destruct (A3 r x Hx) as [y [Hy Hxy]].
  destruct (B3 r y Hy) as [z [Hz Hyz]].
  exists z. split; [exact Hz | exact (keepsClass_trans Hxy Hyz)].
Qed.

Lemma OnlyAdds_updClass : forall st x f,
  (forall c, keepsClass c (f c)) -> OnlyAdds st (updClass st x f).
Proof.
  intros st x f Hf. unfold OnlyAdds, updClass. simpl.
  split; [reflexivity|]. split; [apply length_updNth|].
  intros r c Hc. unfold deref in *. simpl.
  rewrite nth_error_updNth. destruct (x =? r); rewrite Hc; simpl.
  - exists (f c). split; [reflexivity | apply Hf].
  - exists c. split; [reflexivity | apply keepsClass_refl].
Qed.

Section Keeps.

Variable V : Type.
Variable modifiers : V -> JsSet.
Variable inherited : V -> V.

Lemma fold_inherit_keeps : forall (parent own : JsMap V) name v,
  map_get own name = Some v ->
  map_get
    (fold_left
       (fun acc (entry : jsstring * V) =>
          let '(k, d) := entry in
          if negb (map_has acc k) && isInheritable (modifiers d)
          then map_set acc k (inherited d) else acc)
       parent own) name = Some v.
Proof.
  induction parent as [|[k d] parent IH]; intros own name v H; simpl;
    [exact H|].
  apply IH.
  destruct (negb (map_has own k) && isInheritable (modifiers d)) eqn:E;
    [|exact H].
  apply andb_true_iff in E. destruct E as [E _].
  apply negb_true_iff in E. apply map_has_get in E.
  rewrite map_get_set_other; [exact H|].
  intros ->. congruence.
Qed.

End Keeps.

Lemma inheritMethods_keeps : forall own parent name m,
  map_get own name = Some m ->
  map_get (inheritMethods own parent) name = Some m.
Proof.
  intros own parent name m H. unfold inheritMethods.
  apply (@fold_inherit_keeps _ fn_modifiers inheritedMethod parent own name m H).
Qed.

Lemma inheritProperties_keeps : forall own parent name p,
  map_get own name = Some p ->
  map_get (inheritProperties own parent) name = Some p.
Proof.
  intros own parent name p H. unfold inheritProperties.
  apply (@fold_inherit_keeps _ pr_modifiers inheritedProperty parent own name p H).
Qed.

Lemma inheritLoop_only_adds : forall resolve,
  (forall st r, OnlyAdds st (outcomeState (resolve st r))) ->
  forall parents st classData context,
    OnlyAdds st
      (outcomeState (inheritLoop resolve st classData context parents)).
Proof.
  intros resolve Hres. induction parents as [|parentName parents IH];
    intros st classData context; simpl; [apply OnlyAdds_refl|].
  destruct (resolveClassName st parentName context) as [p| |];
    [|apply IH|apply OnlyAdds_refl].
  pose proof (Hres st p) as Hp.
  destruct (resolve st p) as [st1|st1|st1]; simpl in Hp; [|exact Hp|exact Hp].
  eapply OnlyAdds_trans; [exact Hp|].
  eapply OnlyAdds_trans; [|apply IH].
  destruct (deref st1 p) as [parent|]; [|apply OnlyAdds_refl].
  eapply OnlyAdds_trans; apply OnlyAdds_updClass; intros c;
    unfold keepsClass; simpl; repeat split; auto.
  - intros name m. apply inheritMethods_keeps.
  - intros name q. apply inheritProperties_keeps.
Qed.

Lemma resolveInheritance_OnlyAdds : forall depth st classData,
  OnlyAdds st (outcomeState (resolveInheritance depth st classData)).
Proof.
  induction depth as [|depth IH]; intros st classData; simpl;
    [apply OnlyAdds_refl|].
  destruct (deref st classData) as [c|]; [|apply OnlyAdds_refl].
  destruct (cls_inheritanceResolved c); [apply OnlyAdds_refl|].
  pose proof (inheritLoop_only_adds (resolveInheritance depth) IH
                (cls_extends c) st classData (classContext c)) as H.
  destruct (inheritLoop _ _ _ _ _) as [st1|st1|st1]; simpl in *;
    [|exact H|exact H].
  eapply OnlyAdds_trans; [exact H|].
  apply OnlyAdds_updClass. intros c0. unfold keepsClass. simpl.
  repeat split; auto.
Qed.

Lemma postProcessLoop_OnlyAdds : forall depth entries st,
  OnlyAdds st (outcomeState (postProcessLoop depth st entries)).
Proof.
  intros depth. induction entries as [|[k r] entries IH]; intros st; simpl;
    [apply OnlyAdds_refl|].
  pose proof (resolveInheritance_OnlyAdds depth st r) as H.
  destruct (resolveInheritance depth st r) as [st1|st1|st1]; simpl in *;
    [|exact H|exact H].
  eapply OnlyAdds_trans; [exact H | apply IH].
Qed.

(** X11: whatever its outcome (done, stack overflow or a thrown error), the
    resolver only adds: after [resolveInheritance], and after
    [postProcessIndex], the maps of the index are as they were, no class
    object is gone, and every class keeps each of its fields but the
    methods, the properties and the resolved flag, and keeps every method
    and property it had, unchanged.  Nothing is removed or replaced. *)
Theorem resolver_only_adds :
  forall (depth : nat) (st : Indexer) (classData : ClassRef),
    OnlyAdds st (outcomeState (resolveInheritance depth st classData))
    /\ OnlyAdds st (outcomeState (postProcessIndex depth st)).
Proof.
  intros depth st classData. split.
  - apply resolveInheritance_OnlyAdds.
  - unfold postProcessIndex. apply postProcessLoop_OnlyAdds.
Qed.

(** ** Post-processing on acyclic extends chains *)

Lemma postProcessLoop_ok : forall rank depth entries st,
  WellFormed st -> AcyclicOn (fun _ => True) rank st ->
  (forall k r, In (k, r) entries -> rank r < depth) ->
  exists st',
    postProcessLoop depth st entries = Done st'
    /\ Refines st st'
    /\ forall k r c',
         In (k, r) entries -> deref st' r = Some c' ->
         cls_inheritanceResolved c' = true.
Proof.
  intros rank depth. induction entries as [|[k0 r0] entries IH];
    intros st Hwf Hac Hrank; simpl.
  - exists st. split; [reflexivity|]. split; [apply Refines_refl|].
    intros k r c' [].
  - destruct (@resolveInheritance_ok (fun _ => True) rank depth st r0 Hwf Hac
                I (Hrank k0 r0 (or_introl eq_refl)))
      as [st1 [Hdone [Hev [Hres _]]]].
    rewrite Hdone.
    pose proof (Evolves_Refines Hev) as Href1.
    destruct (Refines_preserves Href1 Hwf Hac) as [Hwf1 Hac1].
    destruct (IH st1 Hwf1 Hac1) as [st' [Hloop [Href Hall]]].
    { intros k r Hin. apply (Hrank k r). right. exact Hin. }
    exists st'. split; [exact Hloop|].
    split; [exact (Refines_trans Href1 Href)|].
    intros k r c' [E | Hin] Hc'.
    + injection E as _ <-.
      destruct Href as [_ [_ Hr]].
      destruct (Hr r0 c' Hc') as [c1 [Hc1 [_ [_ [_ Hflag]]]]].
      destruct (cls_inheritanceResolved c') eqn:Ef; [reflexivity|].
      specialize (Hflag eq_refl). rewrite (Hres c1 Hc1) in Hflag.
      discriminate.
    + apply (Hall k r c' Hin Hc').
Qed.

(** X12: when the store is well formed and the extends chains are acyclic
    (a rank decreases from each class to its parents), and the call stack
    admits as many nested calls as the ranks require, [postProcessIndex]
    returns normally, leaves the class map and the file records as they
    were, and every class of the class map is then marked as resolved. *)
Theorem postProcessIndex_resolves_all :
  forall (st : Indexer) (rank : ClassRef -> nat) (depth : nat),
    wellFormedStore st = true ->
    acyclicStore st rank = true ->
    (forall k r, In (k, r) (ix_classes st) -> rank r < depth) ->
    exists st',
      postProcessIndex depth st = Done st'
      /\ ix_classes st' = ix_classes st
      /\ ix_fileIndex st' = ix_fileIndex st
      /\ forall k r c',
           In (k, r) (ix_classes st) -> deref st' r = Some c' ->
           cls_inheritanceResolved c' = true.
Proof.
  intros st rank depth Hwf Hac Hrank.
  destruct (@postProcessLoop_ok rank depth (ix_classes st) st
              (wellFormedStore_WellFormed st Hwf)
              (acyclicStore_Acyclic st rank Hac) Hrank)
    as [st' [Hdone [[Hc [Hf _]] Hall]]].
  exists st'. split; [exact Hdone|]. split; [exact Hc|].
  split; [exact Hf | exact Hall].
Qed.

Lemma postProcessIndex_resolves_all_witness :
  let st :=
    processFiles newIndexer
      [(lit "Child.php",
        Some (lit "<?php namespace App; class Child extends Base { function own(){} }"),
        0%Z);
       (lit "Base.php",
        Some (lit "<?php namespace App; class Base extends Root { function foo(){} }"),
        0%Z);
       (lit "Root.php",
        Some (lit "<?php namespace App; class Root { function bar(){} }"),
        0%Z)] in
  exists st',
    postProcessIndex 3 st = Done st'
    /\ ix_classes st' = ix_classes st
    /\ ix_fileIndex st' = ix_fileIndex st
    /\ (forall k r c',
          In (k, r) (ix_classes st) -> deref st' r = Some c' ->
          cls_inheritanceResolved c' = true)
    /\ map (fun c => (cls_name c, map fst (cls_methods c))) (ix_heap st')
       = [(lit "Child", [lit "own"; lit "foo"; lit "bar"]);
          (lit "Base", [lit "foo"; lit "bar"]);
          (lit "Root", [lit "bar"])].
Proof.
  intros st.
  assert (Hwf : wellFormedStore st = true) by (vm_compute; reflexivity).
  assert (Hac : acyclicStore st (fun r => 2 - r) = true)
    by (vm_compute; reflexivity).
  destruct (@postProcessIndex_resolves_all st (fun r => 2 - r) 3 Hwf Hac)
    as [st' [H1 [H2 [H3 H4]]]].
  - intros k r _. lia.
  - exists st'. split; [exact H1|]. split; [exact H2|]. split; [exact H3|].
    split; [exact H4|].
    vm_compute in H1. injection H1 as <-. vm_compute. reflexivity.
Defined.

(** ** What the parser leaves alone

    A view of the index that no assignment of the parser changes is the
    same after any run of the parser. *)

Create Rewrite HintDb pframe.

Section ParserFrame.

Variable T : Type.
Variable view : Indexer -> T.

Hypothesis view_updFile : forall st k f, view (updFile st k f) = view st.
Hypothesis view_updClass : forall st r f, view (updClass st r f) = view st.
Hypothesis view_set_lastDocComment : forall st v,
  view (set_lastDocComment st v) = view st.
Hypothesis view_set_currentClass : forall st v,
  view (set_currentClass st v) = view st.
Hypothesis view_set_currentNamespace : forall st v,
  view (set_currentNamespace st v) = view st.
Hypothesis view_set_currentFile : forall st v,
  view (set_currentFile st v) = view st.
Hypothesis view_set_currentFunction : forall st v,
  view (set_currentFunction st v) = view st.
Hypothesis view_set_functions : forall st v,
  view (set_functions st v) = view st.
Hypothesis view_set_namespaces : forall st v,
  view (set_namespaces st v) = view st.
Hypothesis view_set_classes : forall st v, view (set_classes st v) = view st.
Hypothesis view_set_heap : forall st v, view (set_heap st v) = view st.
Hypothesis view_set_fileIndex : forall st v,
  view (set_fileIndex st v) = view st.

#[local] Hint Rewrite view_updFile view_updClass view_set_lastDocComment
  view_set_currentClass view_set_currentNamespace view_set_currentFile
  view_set_currentFunction view_set_functions view_set_namespaces
  view_set_classes view_set_heap view_set_fileIndex : pframe.

Ltac pframe :=
  repeat (first [ progress (autorewrite with pframe)
                | progress cbn [fst snd]
                | break_match ]);
  try reflexivity.

Lemma parseNamespace_view : forall st tokens start fileKey,
  view (fst (parseNamespace st tokens start fileKey)) = view st.
Proof. intros. unfold parseNamespace. pframe. Qed.

Lemma parseUse_view : forall st tokens start fileKey,
  view (fst (parseUse st tokens start fileKey)) = view st.
Proof. intros. unfold parseUse. pframe. Qed.

Lemma parseFunction_view : forall st tokens start fileKey,
  view (fst (parseFunction st tokens start fileKey)) = view st.
Proof. intros. unfold parseFunction. pframe. Qed.

Lemma propertyVarsLoop_view : forall fuel st tokens i modifiers,
  view (fst (propertyVarsLoop fuel st tokens i modifiers)) = view st.
Proof.
  induction fuel as [|fuel IH]; intros; simpl; [reflexivity|].
  pframe; rewrite IH; autorewrite with pframe; reflexivity.
Qed.

Lemma parseProperty_view : forall st tokens start fileKey,
  view (fst (parseProperty st tokens start fileKey)) = view st.
Proof.
  intros. unfold parseProperty.
  repeat break_match; simpl; autorewrite with pframe; try reflexivity.
  all: match goal with
    | H : propertyVarsLoop _ _ _ _ _ = (?s', _) |- _ =>
        rewrite (pair_fst H); apply propertyVarsLoop_view
    end.
Qed.

Lemma classBodyLoop_view : forall fuel st tokens i braceDepth fileKey,
  view (fst (classBodyLoop fuel st tokens i braceDepth fileKey)) = view st.
Proof.
  induction fuel as [|fuel IH]; intros; simpl; [reflexivity|].
  repeat break_match; simpl; try reflexivity; rewrite IH;
    autorewrite with pframe; try reflexivity.
  - rewrite (pair_fst Heqp). apply parseFunction_view.
  - rewrite (pair_fst Heqp). apply parseProperty_view.
Qed.

Lemma parseClass_view : forall st tokens start fileKey,
  view (fst (parseClass st tokens start fileKey)) = view st.
Proof.
  intros. unfold parseClass.
  repeat break_match; simpl; autorewrite with pframe; try reflexivity.
  all: match goal with
    | H : classBodyLoop _ _ _ _ _ _ = (?s', _) |- _ =>
        rewrite (pair_fst H), classBodyLoop_view; clear H; pframe
    end.
Qed.

Lemma parseTokensLoop_view : forall fuel st tokens i fileKey,
  view (parseTokensLoop fuel st tokens i fileKey) = view st.
Proof.
  induction fuel as [|fuel IH]; intros; simpl; [reflexivity|].
  repeat break_match; simpl; try reflexivity; rewrite IH;
    autorewrite with pframe; try reflexivity;
    rewrite (pair_fst Heqp);
    auto using parseNamespace_view, parseUse_view, parseClass_view,
      parseFunction_view.
Qed.

Lemma processPhpFile_view : forall st filePath content now,
  view (processPhpFile st filePath content now) = view st.
Proof.
  intros. unfold processPhpFile, parseTokens. destruct content; [|reflexivity].
  rewrite parseTokensLoop_view. autorewrite with pframe. reflexivity.
Qed.

Lemma processFiles_view : forall batch st,
  view (processFiles st batch) = view st.
Proof.
  unfold processFiles. induction batch as [|[[p c] now] batch IH]; intros st;
    simpl; [reflexivity|].
  rewrite IH. apply processPhpFile_view.
Qed.

End ParserFrame.

(** ** Progress reports *)

Lemma processFiles_progress : forall batch st,
  (ix_onProgress (processFiles st batch), ix_totalFiles (processFiles st batch))
  = (ix_onProgress st, ix_totalFiles st).
Proof.
  intros batch st.
  apply (@processFiles_view _ (fun st => (ix_onProgress st, ix_totalFiles st)));
    intros; try reflexivity.
  - unfold updFile. destruct (map_get _ _); reflexivity.
Qed.

Lemma batches_succ : forall n,
  0 < n -> (n + 9) / 10 = S ((n - 10 + 9) / 10).
Proof.
  intros n Hn. destruct (Nat.le_gt_cases n 10) as [Hle | Hgt].
  - replace (n - 10) with 0 by lia.
    do 11 (destruct n as [|n]; [try lia; reflexivity|]). lia.
  - replace (n + 9) with ((n - 10 + 9) + 1 * 10) by lia.
    rewrite Nat.div_add by lia. lia.
Qed.

Lemma batchLoop_reports : forall fuel st files i total reports,
  length files <= fuel ->
  snd (batchLoop fuel st files i total reports)
  = reports
    ++ (if ix_onProgress st
        then map (fun k => (Nat.min (i + 10 * S k) total, ix_totalFiles st))
               (seq 0 ((length files + 9) / 10))
        else []).
Proof.
  induction fuel as [|fuel IH]; intros st files i total reports Hf.
  - destruct files; [|simpl in Hf; lia]. simpl.
    destruct (ix_onProgress st); rewrite app_nil_r; reflexivity.
  - destruct files as [|f files].
    { simpl. destruct (ix_onProgress st); rewrite app_nil_r; reflexivity. }
    cbn [batchLoop].
    remember (f :: files) as fs eqn:Efs.
    assert (Hlen : 0 < length fs <= S fuel) by (subst fs; simpl in *; lia).
    clear Efs Hf.
    pose proof (processFiles_progress (firstn 10 fs) st) as Hp.
    set (st1 := processFiles st (firstn 10 fs)) in *.
    assert (Hon : ix_onProgress st1 = ix_onProgress st)
      by exact (f_equal fst Hp).
    assert (Htot : ix_totalFiles st1 = ix_totalFiles st)
      by exact (f_equal snd Hp).
    rewrite IH by (rewrite length_skipn; lia).
    cbn [ix_onProgress ix_totalFiles ix_processedFiles set_processedFiles].
    rewrite Hon, Htot. rewrite length_skipn.
    rewrite (@batches_succ (length fs)) by lia.
    destruct (ix_onProgress st); [|rewrite app_nil_r; reflexivity].
    rewrite <- app_assoc. f_equal.
    change (seq 0 (S ((length fs - 10 + 9) / 10)))
      with (0 :: seq 1 ((length fs - 10 + 9) / 10)).
    cbn [map app]. rewrite <- seq_shift, map_map.
    replace (i + 10 * 1) with (i + 10) by lia. f_equal.
    apply map_ext. intros k.
    replace (i + 10 + 10 * S k) with (i + 10 * S (S k)) by lia.
    reflexivity.
Qed.

(** X13: the progress callback of [indexPhpFiles].  With a callback set,
    it is called once per batch of ten files, in order, with the number of
    files processed so far (ten more each time, capped at the total) and
    the total; for [n] files that is one call for every started ten, the
    last one with [(n, n)].  Without a callback nothing is reported. *)
Theorem indexPhpFiles_progress :
  forall (depth : nat) (st : Indexer) (files : list FileInput),
    let n := length files in
    snd (indexPhpFiles depth st (Some files))
    = if ix_onProgress st
      then map (fun k => (Nat.min (10 * S k) n, n)) (seq 0 ((n + 9) / 10))
      else [].
Proof.
  intros depth st files n. unfold indexPhpFiles.
  destruct (batchLoop _ _ _ _ _ _) as [st' reports] eqn:E.
  cbn [snd]. apply (f_equal snd) in E. cbn [snd] in E. subst reports.
  rewrite batchLoop_reports by lia. reflexivity.
Qed.

(** ** The loops of the completion engine *)

Section Collect.

Variable E : Type.
Variable select : E -> option (jsstring * Completion).
Hypothesis select_caption : forall e key item,
  select e = Some (key, item) -> caption item = key.

(** What a loop of that shape collects: the captions of the items are the
    keys in [this.done], no key twice, and a key is there exactly when it
    was there before or some entry gives it. *)
Lemma collect_spec : forall entries completions done,
  map caption completions = done -> NoDup done ->
  let r := fold_left (collectItem select) entries (completions, done) in
  map caption (fst r) = snd r
  /\ NoDup (snd r)
  /\ (forall k,
        In k (snd r)
        <-> In k done
            \/ exists e item, In e entries /\ select e = Some (k, item))
  /\ (forall c,
        In c (fst r)
        -> In c completions
           \/ exists e, In e entries /\ select e = Some (caption c, c))
  /\ incl completions (fst r).
Proof.
  induction entries as [|e entries IH]; intros completions done Hcap Hnd r.
  - simpl in r. subst r. simpl. split; [exact Hcap|]. split; [exact Hnd|].
    split; [|split; [auto | apply incl_refl]].
    intros k. split; [auto|]. intros [H | [e [item [[] _]]]]. exact H.
  - unfold r. clear r. cbn [fold_left].
    assert (Hstep : collectItem select (completions, done) e
                    = match select e with
                      | Some (key, item) =>
                          if set_has done key then (completions, done)
                          else (completions ++ [item], set_add done key)
                      | None => (completions, done)
                      end) by reflexivity.
    rewrite Hstep. clear Hstep.
    destruct (select e) as [[key item]|] eqn:Es.
    2:{ destruct (IH completions done Hcap Hnd) as [H1 [H2 [H3 [H4 H5]]]].
        split; [exact H1|]. split; [exact H2|]. split; [|split; [|exact H5]].
        - intros k. rewrite H3. split.
          + intros [H | [e' [item' [Hin Hs]]]]; [left; exact H|].
            right. exists e', item'. split; [right; exact Hin | exact Hs].
          + intros [H | [e' [item' [[<- | Hin] Hs]]]]; [left; exact H| |].
            * congruence.
            * right. exists e', item'. auto.
        - intros c Hc. destruct (H4 c Hc) as [H | [e' [Hin Hs]]];
            [left; exact H|].
          right. exists e'. split; [right; exact Hin | exact Hs]. }
    destruct (set_has done key) eqn:Eh.
    + destruct (IH completions done Hcap Hnd) as [H1 [H2 [H3 [H4 H5]]]].
      split; [exact H1|]. split; [exact H2|]. split; [|split; [|exact H5]].
      * intros k. rewrite H3. split.
        -- intros [H | [e' [item' [Hin Hs]]]]; [left; exact H|].
           right. exists e', item'. split; [right; exact Hin | exact Hs].
        -- intros [H | [e' [item' [[<- | Hin] Hs]]]]; [left; exact H| |].
           ++ left. rewrite Es in Hs. injection Hs as <- _.
              apply set_has_In. exact Eh.
           ++ right. exists e', item'. auto.
      * intros c Hc. destruct (H4 c Hc) as [H | [e' [Hin Hs]]];
          [left; exact H|].
        right. exists e'. split; [right; exact Hin | exact Hs].
    + assert (Hnot : ~ In key done).
      { intros H. apply set_has_In in H. congruence. }
      assert (Hadd : set_add done key = done ++ [key])
        by (unfold set_add; rewrite Eh; reflexivity).
      rewrite Hadd.
      destruct (IH (completions ++ [item]) (done ++ [key]))
        as [H1 [H2 [H3 [H4 H5]]]].
      { rewrite map_app, Hcap. simpl.
        rewrite (@select_caption e key item Es). reflexivity. }
      { apply NoDup_app; [exact Hnd | repeat constructor; auto|].
        intros x Hx [<- | []]. contradiction. }
      split; [exact H1|]. split; [exact H2|].
      split; [|split;
               [|intros c Hc; apply H5; apply in_app_iff; left; exact Hc]].
      * intros k. rewrite H3. rewrite in_app_iff. simpl. split.
        -- intros [[H | [<- | []]] | [e' [item' [Hin Hs]]]].
           ++ left. exact H.
           ++ right. exists e, item. split; [left; reflexivity | exact Es].
           ++ right. exists e', item'. split; [right; exact Hin | exact Hs].
        -- intros [H | [e' [item' [[<- | Hin] Hs]]]].
           ++ left. left. exact H.
           ++ left. right. left. rewrite Es in Hs. injection Hs as <- _.
              reflexivity.
           ++ right. exists e', item'. auto.
      * intros c Hc. destruct (H4 c Hc) as [H | [e' [Hin Hs]]].
        -- apply in_app_iff in H. destruct H as [H | [<- | []]];
             [left; exact H|].
           right. exists e. split; [left; reflexivity|].
           rewrite (@select_caption e key item Es). exact Es.
        -- right. exists e'. split; [right; exact Hin | exact Hs].
Qed.

End Collect.

Lemma NoDup_map_inj : forall (A B : Type) (f : A -> B) l a b,
  NoDup (map f l) -> In a l -> In b l -> f a = f b -> a = b.
Proof.
  intros A B f. induction l as [|x l IH]; intros a b Hnd Ha Hb Hf;
    [contradiction|].
  simpl in Hnd. inversion Hnd as [|? ? Hx Hnd']; subst.
  destruct Ha as [-> | Ha]; destruct Hb as [-> | Hb].
  - reflexivity.
  - exfalso. apply Hx. rewrite Hf. apply in_map. exact Hb.
  - exfalso. apply Hx. rewrite <- Hf. apply in_map. exact Ha.
  - apply IH; assumption.
Qed.

Lemma fold_left_ext : forall (A B : Type) (f g : A -> B -> A) l a,
  (forall a b, f a b = g a b) -> fold_left f l a = fold_left g l a.
Proof.
  intros A B f g. induction l as [|x l IH]; intros a H; simpl;
    [reflexivity|].
  rewrite H. apply IH. exact H.
Qed.

Lemma sortCompletions_captions : forall lc completions prefix,
  (NoDup (map caption completions) ->
   NoDup (map caption (sortCompletions lc completions prefix)))
  /\ (forall c, In c (sortCompletions lc completions prefix)
                <-> In c completions).
Proof.
  intros lc completions prefix. unfold sortCompletions.
  pose proof (jsSort_perm (compareCompletions lc) completions) as Hp.
  split.
  - intros H. eapply Permutation_NoDup; [|exact H].
    apply Permutation_map. exact Hp.
  - intros c. split; intros H.
    + eapply Permutation_in; [apply Permutation_sym; exact Hp | exact H].
    + eapply Permutation_in; [exact Hp | exact H].
Qed.

(** X14: the items of [getClassCompletions], for a prefix and short
    names of classes within U+0000..U+00FF.  No caption occurs twice, and
    a name is offered exactly when some class of the class map has it as
    its short name and the name contains the prefix, without regard to
    case; the value of an item is its caption, and its snippet is the
    caption followed by an argument list in parentheses.  Classes of
    different namespaces that share a short name give one item. *)
Theorem getClassCompletions_items :
  forall (localeCompare : jsstring -> jsstring -> Z) (st : Indexer)
         (prefix : jsstring),
    latin1 prefix = true ->
    latin1ClassNames st = true ->
    let items := fst (getClassCompletions localeCompare st prefix) in
    NoDup (map caption items)
    /\ (forall name,
          In name (map caption items)
          <-> exists key r classData,
                In (key, r) (ix_classes st)
                /\ deref st r = Some classData
                /\ cls_name classData = name
                /\ includes (toLowerCase name) (toLowerCase prefix) = true)
    /\ (forall item,
          In item items ->
          value item = caption item
          /\ exists arguments,
               snippet item
               = Some (caption item ++ lit "(" ++ arguments ++ lit ")")).
Proof.
  intros lc st prefix _ _ items. unfold items, getClassCompletions.
  match goal with
  | |- context [fold_left ?F (ix_classes _) _] => set (F0 := F)
  end.
  assert (Hsel : exists mk : ClassDef -> Completion,
            (forall acc e,
               F0 acc e
               = collectItem
                   (fun e : jsstring * ClassRef =>
                      match deref st (snd e) with
                      | Some cd =>
                          if includes (toLowerCase (cls_name cd))
                               (toLowerCase prefix)
                          then Some (cls_name cd, mk cd) else None
                      | None => None
                      end) acc e)
            /\ forall cd,
                 caption (mk cd) = cls_name cd
                 /\ value (mk cd) = cls_name cd
                 /\ exists arguments,
                      snippet (mk cd)
                      = Some (cls_name cd ++ lit "(" ++ arguments
                              ++ lit ")")).
  { eexists. split.
    - intros [cs d] e. unfold F0, collectItem.
      change (deref (set_done st []) (snd e)) with (deref st (snd e)).
      destruct (deref st (snd e)) as [cd|]; [|reflexivity].
      destruct (includes (toLowerCase (cls_name cd)) (toLowerCase prefix));
        [|reflexivity].
      destruct (set_has d (cls_name cd)); [reflexivity|].
      instantiate (1 := fun cd => _). cbv beta. reflexivity.
    - intros cd. cbv beta.
      destruct (map_get (cls_methods cd) (lit "__construct"));
        destruct (nonEmpty (cls_namespace cd)); cbn;
        (split; [reflexivity|]); (split; [reflexivity|]);
        first [exists (@nil codeunit); reflexivity | eexists; reflexivity]. }
  destruct Hsel as [mk [HF Hmk]].
  set (sel := fun e : jsstring * ClassRef =>
                match deref st (snd e) with
                | Some cd =>
                    if includes (toLowerCase (cls_name cd))
                         (toLowerCase prefix)
                    then Some (cls_name cd, mk cd) else None
                | None => None
                end).
  assert (Hcap : forall e key item,
            sel e = Some (key, item) -> caption item = key).
  { intros e key item H. unfold sel in H.
    destruct (deref st (snd e)) as [cd|]; [|discriminate].
    destruct (includes _ _); [|discriminate].
    injection H as <- <-. apply Hmk. }
  destruct (@collect_spec _ sel Hcap (ix_classes st) [] [] eq_refl
              (NoDup_nil _)) as [H1 [H2 [H3 [H4 _]]]].
  change (ix_classes (set_done st [])) with (ix_classes st).
  change (ix_done (set_done st [])) with (@nil jsstring).
  rewrite (@fold_left_ext _ _ F0 (collectItem sel) _ _ HF).
  match goal with
  | |- context [fold_left (collectItem sel) ?l ?a] =>
      change (fold_left (collectItem sel) l a)
        with (fold_left (collectItem sel) (ix_classes st)
                (@nil Completion, @nil jsstring))
  end.
  destruct (fold_left (collectItem sel) (ix_classes st) ([], []))
    as [completions done] eqn:Ef.
  cbn [fst snd] in *.
  destruct (sortCompletions_captions lc completions prefix) as [Hnd Hin].
  split; [apply Hnd; rewrite H1; exact H2|]. split.
  - intros name. rewrite in_map_iff. split.
    + intros [c [Hc Hin']]. apply Hin in Hin'.
      assert (Hk : In name done)
        by (rewrite <- H1, <- Hc; apply in_map; exact Hin').
      apply H3 in Hk. destruct Hk as [[] | [[key r] [item [He Hs]]]].
      unfold sel in Hs. cbn [snd] in Hs.
      destruct (deref st r) as [cd|] eqn:Ed; [|discriminate].
      destruct (includes _ _) eqn:Ei; [|discriminate].
      injection Hs as <- _. exists key, r, cd. auto.
    + intros [key [r [cd [He [Hd [Hn Hi]]]]]].
      assert (Hk : In name done).
      { apply H3. right. exists (key, r), (mk cd). split; [exact He|].
        unfold sel. cbn [snd]. rewrite Hd, Hn, Hi. reflexivity. }
      rewrite <- H1 in Hk. apply in_map_iff in Hk.
      destruct Hk as [c [Hc Hin']]. exists c. split; [exact Hc|].
      apply Hin. exact Hin'.
  - intros item Hitem. apply Hin in Hitem.
    destruct (H4 item Hitem) as [[] | [e [_ Hs]]].
    unfold sel in Hs. destruct (deref st (snd e)) as [cd|]; [|discriminate].
    destruct (includes _ _); [|discriminate].
    injection Hs as Hc Hi. destruct (Hmk cd) as [M1 [M2 [arguments M3]]].
    rewrite <- Hi. rewrite M1, M2. split; [reflexivity|].
    exists arguments. exact M3.
Qed.

Lemma getClassCompletions_items_witness :
  let st :=
    processFiles newIndexer
      [(lit "src/A.php",
        Some (lit "<?php namespace App; class A { function run(){} } function help(){}"),
        0%Z)] in
  let items := fst (getClassCompletions (fun _ _ => 0%Z) st (lit "a")) in
  latin1 (lit "a") = true
  /\ latin1ClassNames st = true
  /\ NoDup (map caption items)
  /\ map caption items = [lit "A"].
Proof.
  intros st items.
  assert (Hp : latin1 (lit "a") = true) by reflexivity.
  assert (Hn : latin1ClassNames st = true) by (vm_compute; reflexivity).
  split; [exact Hp|]. split; [exact Hn|].
  split; [|vm_compute; reflexivity].
  pose proof (@getClassCompletions_items (fun _ _ => 0%Z) st (lit "a")
                Hp Hn) as H.
  apply proj1 in H. exact H.
Defined.

(** X15: the items of [getFunctionCompletions], for a prefix and names
    of functions within U+0000..U+00FF.  No caption occurs twice,
    and a name is offered exactly when some function of the function map
    has it as its name and the name starts with the prefix, without regard
    to case.  Every item has the score 900 and the meta text [function]:
    the ranking among functions is by the length of the name and then by
    the collation, never by the quality of the match. *)
Theorem getFunctionCompletions_items :
  forall (localeCompare : jsstring -> jsstring -> Z) (st : Indexer)
         (prefix : jsstring),
    latin1 prefix = true ->
    latin1FunctionNames st = true ->
    let items := fst (getFunctionCompletions localeCompare st prefix) in
    NoDup (map caption items)
    /\ (forall name,
          In name (map caption items)
          <-> exists key functionData,
                In (key, functionData) (ix_functions st)
                /\ fn_name functionData = name
                /\ startsWith (toLowerCase name) (toLowerCase prefix) = true)
    /\ (forall item,
          In item items ->
          score item = 900%Z /\ meta item = lit "function").
Proof.
  intros lc st prefix _ _ items. unfold items, getFunctionCompletions.
  match goal with
  | |- context [fold_left ?F (ix_functions _) _] => set (F0 := F)
  end.
  set (sel := fun e : jsstring * FunctionDef =>
                if startsWith (toLowerCase (fn_name (snd e)))
                     (toLowerCase prefix)
                then Some (fn_name (snd e),
                           createFunctionCompletion (fn_name (snd e)) (snd e))
                else None).
  assert (HF : forall acc e, F0 acc e = collectItem sel acc e).
  { intros [cs d] e. unfold F0, collectItem, sel.
    destruct (startsWith _ _); [|reflexivity].
    destruct (set_has d (fn_name (snd e))); reflexivity. }
  assert (Hcap : forall e key item,
            sel e = Some (key, item) -> caption item = key).
  { intros e key item H. unfold sel in H.
    destruct (startsWith _ _); [|discriminate].
    injection H as <- <-. reflexivity. }
  destruct (@collect_spec _ sel Hcap (ix_functions st) [] [] eq_refl
              (NoDup_nil _)) as [H1 [H2 [H3 [H4 _]]]].
  rewrite (@fold_left_ext _ _ F0 (collectItem sel) _ _ HF).
  match goal with
  | |- context [fold_left (collectItem sel) ?l ?a] =>
      change (fold_left (collectItem sel) l a)
        with (fold_left (collectItem sel) (ix_functions st)
                (@nil Completion, @nil jsstring))
  end.
  destruct (fold_left (collectItem sel) (ix_functions st) ([], []))
    as [completions done] eqn:Ef.
  cbn [fst snd] in *.
  destruct (sortCompletions_captions lc completions prefix) as [Hnd Hin].
  split; [apply Hnd; rewrite H1; exact H2|]. split.
  - intros name. rewrite in_map_iff. split.
    + intros [c [Hc Hin']]. apply Hin in Hin'.
      assert (Hk : In name done)
        by (rewrite <- H1, <- Hc; apply in_map; exact Hin').
      apply H3 in Hk. destruct Hk as [[] | [[key f] [item [He Hs]]]].
      unfold sel in Hs. cbn [snd] in Hs.
      destruct (startsWith _ _) eqn:Ei; [|discriminate].
      injection Hs as <- _. exists key, f. auto.
    + intros [key [f [He [Hn Hi]]]].
      assert (Hk : In name done).
      { apply H3. right.
        exists (key, f), (createFunctionCompletion (fn_name f) f).
        split; [exact He|]. unfold sel. cbn [snd]. rewrite Hn, Hi.
        reflexivity. }
      rewrite <- H1 in Hk. apply in_map_iff in Hk.
      destruct Hk as [c [Hc Hin']]. exists c. split; [exact Hc|].
      apply Hin. exact Hin'.
  - intros item Hitem. apply Hin in Hitem.
    destruct (H4 item Hitem) as [[] | [e [_ Hs]]].
    unfold sel in Hs. destruct (startsWith _ _); [|discriminate].
    injection Hs as _ <-. split; reflexivity.
Qed.

Lemma getFunctionCompletions_items_witness :
  let st :=
    processFiles newIndexer
      [(lit "src/A.php",
        Some (lit "<?php namespace App; class A { function run(){} } function help(){}"),
        0%Z)] in
  let items := fst (getFunctionCompletions (fun _ _ => 0%Z) st (lit "HE")) in
  latin1 (lit "HE") = true
  /\ latin1FunctionNames st = true
  /\ NoDup (map caption items)
  /\ map caption items = [lit "help"].
Proof.
  intros st items.
  assert (Hp : latin1 (lit "HE") = true) by reflexivity.
  assert (Hn : latin1FunctionNames st = true) by (vm_compute; reflexivity).
  split; [exact Hp|]. split; [exact Hn|].
  split; [|vm_compute; reflexivity].
  pose proof (@getFunctionCompletions_items (fun _ _ => 0%Z) st (lit "HE")
                Hp Hn) as H.
  apply proj1 in H. exact H.
Defined.

Lemma collectItem_map : forall (E E' : Type) (g : E -> E')
    (select : E' -> option (jsstring * Completion)) l acc,
  fold_left (collectItem select) (map g l) acc
  = fold_left (collectItem (fun e => select (g e))) l acc.
Proof.
  intros E E' g select. induction l as [|x l IH]; intros acc; simpl;
    [reflexivity|].
  rewrite IH. reflexivity.
Qed.

(** X16: the items of [getMethodCompletions], for a prefix and names of
    methods within U+0000..U+00FF.  [inferClassContext] gives
    no class, so the items are taken from all classes, whatever the
    context says: no caption occurs twice, and a name is offered exactly
    when some class of the class map has a method entry of that name whose
    modifiers include public and the name starts with the prefix, without
    regard to case.  Every item has the score 1000. *)
Theorem getMethodCompletions_items :
  forall (localeCompare : jsstring -> jsstring -> Z) (st : Indexer)
         (prefix : jsstring) (context : QueryContext),
    latin1 prefix = true ->
    latin1MethodNames st = true ->
    let items := fst (getMethodCompletions localeCompare st prefix context) in
    items = fst (getMethodCompletions localeCompare st prefix (mkQuery false))
    /\ NoDup (map caption items)
    /\ (forall name,
          In name (map caption items)
          <-> exists key r classData methodData,
                In (key, r) (ix_classes st)
                /\ deref st r = Some classData
                /\ In (name, methodData) (cls_methods classData)
                /\ set_has (fn_modifiers methodData) (lit "public") = true
                /\ startsWith (toLowerCase name) (toLowerCase prefix) = true)
    /\ (forall item, In item items -> score item = 1000%Z).
Proof.
  intros lc st prefix context _ _ items. split; [reflexivity|].
  unfold items, getMethodCompletions, inferClassContext.
  match goal with
  | |- context [fold_left ?F (ix_classes _) _] => set (F0 := F)
  end.
  set (sel := fun e : jsstring * (jsstring * FunctionDef) =>
                let '(className, (methodName, methodData)) := e in
                if startsWith (toLowerCase methodName) (toLowerCase prefix)
                   && set_has (fn_modifiers methodData) (lit "public")
                then Some (methodName,
                           withDocText
                             (createMethodCompletion methodName methodData)
                             (docText (createMethodCompletion methodName
                                         methodData)
                              ++ [NL; NL] ++ lit "Class: " ++ className))
                else None).
  set (flat := fun classes : JsMap ClassRef =>
                 flat_map
                   (fun e : jsstring * ClassRef =>
                      match deref st (snd e) with
                      | Some cd => map (pair (fst e)) (cls_methods cd)
                      | None => []
                      end) classes).
  assert (HF : forall classes acc,
            fold_left F0 classes acc
            = fold_left (collectItem sel) (flat classes) acc).
  { induction classes as [|e classes IH]; intros acc; [reflexivity|].
    cbn [fold_left]. unfold flat. cbn [flat_map]. fold (flat classes).
    rewrite fold_left_app, <- IH. f_equal.
    unfold F0 at 1.
    change (deref (set_done st []) (snd e)) with (deref st (snd e)).
    destruct (deref st (snd e)) as [cd|]; [|reflexivity].
    rewrite collectItem_map. unfold methodItems.
    apply fold_left_ext. intros [cs d] [mn md]. unfold collectItem, sel.
    destruct (startsWith _ _ && set_has _ _); [|reflexivity].
    destruct (set_has d mn); reflexivity. }
  assert (Hcap : forall e key item,
            sel e = Some (key, item) -> caption item = key).
  { intros [cn [mn md]] key item H. unfold sel in H.
    destruct (_ && _); [|discriminate].
    injection H as <- <-. reflexivity. }
  destruct (@collect_spec _ sel Hcap (flat (ix_classes st)) [] [] eq_refl
              (NoDup_nil _)) as [H1 [H2 [H3 [H4 _]]]].
  rewrite HF.
  match goal with
  | |- context [fold_left (collectItem sel) ?l ?a] =>
      change (fold_left (collectItem sel) l a)
        with (fold_left (collectItem sel) (flat (ix_classes st))
                (@nil Completion, @nil jsstring))
  end.
  destruct (fold_left (collectItem sel) (flat (ix_classes st)) ([], []))
    as [completions done] eqn:Ef.
  cbn [fst snd] in *.
  destruct (sortCompletions_captions lc completions prefix) as [Hnd Hin].
  assert (Hflat : forall cn mn md,
            In (cn, (mn, md)) (flat (ix_classes st))
            <-> exists r cd, In (cn, r) (ix_classes st)
                             /\ deref st r = Some cd
                             /\ In (mn, md) (cls_methods cd)).
  { intros cn mn md. unfold flat. rewrite in_flat_map. split.
    - intros [[k r] [He Hm]]. cbn [fst snd] in Hm.
      destruct (deref st r) as [cd|] eqn:Ed; [|contradiction].
      apply in_map_iff in Hm. destruct Hm as [[mn' md'] [E Hm]].
      injection E as -> -> ->. exists r, cd. auto.
    - intros [r [cd [He [Hd Hm]]]]. exists (cn, r). split; [exact He|].
      cbn [fst snd]. rewrite Hd. apply in_map. exact Hm. }
  split; [apply Hnd; rewrite H1; exact H2|]. split.
  - intros name. rewrite in_map_iff. split.
    + intros [c [Hc Hin']]. apply Hin in Hin'.
      assert (Hk : In name done)
        by (rewrite <- H1, <- Hc; apply in_map; exact Hin').
      apply H3 in Hk. destruct Hk as [[] | [[cn [mn md]] [item [He Hs]]]].
      unfold sel in Hs.
      destruct (_ && _) eqn:Ei; [|discriminate].
      injection Hs as <- _. apply andb_true_iff in Ei.
      destruct Ei as [E1 E2].
      apply Hflat in He. destruct He as [r [cd [He [Hd Hm]]]].
      exists cn, r, cd, md. auto.
    + intros [key [r [cd [md [He [Hd [Hm [Hp Hi]]]]]]]].
      assert (Hk : In name done).
      { apply H3. right. eexists (key, (name, md)), _.
        split; [apply Hflat; exists r, cd; auto|].
        unfold sel. rewrite Hi, Hp. reflexivity. }
      rewrite <- H1 in Hk. apply in_map_iff in Hk.
      destruct Hk as [c [Hc Hin']]. exists c. split; [exact Hc|].
      apply Hin. exact Hin'.
  - intros item Hitem. apply Hin in Hitem.
    destruct (H4 item Hitem) as [[] | [[cn [mn md]] [_ Hs]]].
    unfold sel in Hs. destruct (_ && _); [|discriminate].
    injection Hs as _ <-. reflexivity.
Qed.

Lemma getMethodCompletions_items_witness :
  let st :=
    processFiles newIndexer
      [(lit "src/A.php",
        Some (lit "<?php namespace App; class A { function run(){} } function help(){}"),
        0%Z)] in
  let items := fst (getMethodCompletions (fun _ _ => 0%Z) st (lit "Ru") (mkQuery true)) in
  latin1 (lit "Ru") = true
  /\ latin1MethodNames st = true
  /\ NoDup (map caption items)
  /\ map caption items = [lit "run"].
Proof.
  intros st items.
  assert (Hp : latin1 (lit "Ru") = true) by reflexivity.
  assert (Hn : latin1MethodNames st = true) by (vm_compute; reflexivity).
  split; [exact Hp|]. split; [exact Hn|].
  split; [|vm_compute; reflexivity].
  pose proof (@getMethodCompletions_items (fun _ _ => 0%Z) st (lit "Ru") (mkQuery true)
                Hp Hn) as H.
  apply proj2 in H. apply proj1 in H. exact H.
Defined.

(** X17: the items of [getNamespaceCompletions], for a prefix and keys of
    the namespace map and of the class map within U+0000..U+00FF.  No
    caption occurs twice, and a name is offered exactly when it contains the prefix, without
    regard to case, and is a namespace of the namespace map or the full
    name under which a class object is registered.  A name that is both is
    offered once, as a namespace: the namespaces are collected first. *)
Theorem getNamespaceCompletions_items :
  forall (localeCompare : jsstring -> jsstring -> Z) (st : Indexer)
         (prefix : jsstring),
    latin1 prefix = true ->
    latin1FullNames st = true ->
    let items := fst (getNamespaceCompletions localeCompare st prefix) in
    NoDup (map caption items)
    /\ (forall name,
          In name (map caption items)
          <-> includes (toLowerCase name) (toLowerCase prefix) = true
              /\ ((exists members, In (name, members) (ix_namespaces st))
                  \/ (exists r classData,
                        In (name, r) (ix_classes st)
                        /\ deref st r = Some classData)))
    /\ (forall item name members,
          In item items -> caption item = name ->
          In (name, members) (ix_namespaces st) ->
          meta item = lit "namespace").
Proof.
  intros lc st prefix _ _ items. unfold items, getNamespaceCompletions.
  match goal with
  | |- context [fold_left ?F (ix_classes _)
                  (fold_left ?G (ix_namespaces _) _)] =>
      set (F0 := F); set (G0 := G)
  end.
  set (selN := fun e : jsstring * JsSet =>
                 if includes (toLowerCase (fst e)) (toLowerCase prefix)
                 then Some (fst e,
                            mkCompletion (fst e) (fst e) (lit "namespace")
                              (calculateScore (fst e) prefix None)
                              (lit "Namespace containing "
                               ++ natToString (length (snd e))
                               ++ lit " classes")
                              None)
                 else None).
  set (selC := fun e : jsstring * ClassRef =>
                 match deref st (snd e) with
                 | Some cd =>
                     if includes (toLowerCase (fst e)) (toLowerCase prefix)
                     then Some (fst e,
                                mkCompletion (fst e) (fst e)
                                  (lit "use " ++ cls_type cd)
                                  (calculateScore (fst e) prefix
                                     (Some (cls_modifiers cd)))
                                  (formatDocText (cls_docComment cd)
                                     (cls_name cd))
                                  None)
                     else None
                 | None => None
                 end).
  assert (HG : forall acc e, G0 acc e = collectItem selN acc e).
  { intros [cs d] [ns members]. unfold G0, collectItem, selN. cbn [fst snd].
    destruct (includes _ _); [|reflexivity].
    destruct (set_has d ns); reflexivity. }
  assert (HF : forall acc e, F0 acc e = collectItem selC acc e).
  { intros [cs d] [k r]. unfold F0, collectItem, selC. cbn [fst snd].
    change (deref (set_done st []) r) with (deref st r).
    destruct (deref st r) as [cd|]; [|reflexivity].
    destruct (includes _ _); [|reflexivity].
    destruct (set_has d k); reflexivity. }
  assert (HcapN : forall e key item,
            selN e = Some (key, item) -> caption item = key).
  { intros e key item H. unfold selN in H.
    destruct (includes _ _); [|discriminate].
    injection H as <- <-. reflexivity. }
  assert (HcapC : forall e key item,
            selC e = Some (key, item) -> caption item = key).
  { intros e key item H. unfold selC in H.
    destruct (deref st (snd e)); [|discriminate].
    destruct (includes _ _); [|discriminate].
    injection H as <- <-. reflexivity. }
  rewrite (@fold_left_ext _ _ G0 (collectItem selN) _ _ HG).
  rewrite (@fold_left_ext _ _ F0 (collectItem selC) _ _ HF).
  match goal with
  | |- context [fold_left (collectItem selN) ?l ?a] =>
      change (fold_left (collectItem selN) l a)
        with (fold_left (collectItem selN) (ix_namespaces st)
                (@nil Completion, @nil jsstring))
  end.
  destruct (@collect_spec _ selN HcapN (ix_namespaces st) [] [] eq_refl
              (NoDup_nil _)) as [N1 [N2 [N3 [N4 _]]]].
  destruct (fold_left (collectItem selN) (ix_namespaces st) ([], []))
    as [cs1 done1] eqn:E1.
  cbn [fst snd] in N1, N2, N3, N4.
  destruct (@collect_spec _ selC HcapC (ix_classes st) cs1 done1 N1 N2)
    as [H1 [H2 [H3 [H4 H5]]]].
  match type of H5 with
  | incl _ (fst ?t) =>
      match goal with
      | |- context [fold_left (collectItem selC) ?l ?a] =>
          change (fold_left (collectItem selC) l a) with t
      end;
      destruct t as [completions done] eqn:E2
  end.
  cbn [fst snd] in *.
  destruct (sortCompletions_captions lc completions prefix) as [Hnd Hin].
  split; [apply Hnd; rewrite H1; exact H2|]. split.
  - intros name. rewrite in_map_iff. split.
    + intros [c [Hc Hin']]. apply Hin in Hin'.
      assert (Hk : In name done)
        by (rewrite <- H1, <- Hc; apply in_map; exact Hin').
      apply H3 in Hk. destruct Hk as [Hk | [[k r] [item [He Hs]]]].
      * apply N3 in Hk. destruct Hk as [[] | [[ns members] [item [He Hs]]]].
        unfold selN in Hs. cbn [fst snd] in Hs.
        destruct (includes _ _) eqn:Ei; [|discriminate].
        injection Hs as <- _. split; [exact Ei|]. left. eauto.
      * unfold selC in Hs. cbn [fst snd] in Hs.
        destruct (deref st r) as [cd|] eqn:Ed; [|discriminate].
        destruct (includes _ _) eqn:Ei; [|discriminate].
        injection Hs as <- _. split; [exact Ei|]. right. eauto.
    + intros [Hi [[members He] | [r [cd [He Hd]]]]].
      * assert (Hk : In name done).
        { apply H3. left. apply N3. right. eexists (name, members), _.
          split; [exact He|]. unfold selN. cbn [fst snd]. rewrite Hi.
          reflexivity. }
        rewrite <- H1 in Hk. apply in_map_iff in Hk.
        destruct Hk as [c [Hc Hin']]. exists c. split; [exact Hc|].
        apply Hin. exact Hin'.
      * assert (Hk : In name done).
        { apply H3. right. eexists (name, r), _. split; [exact He|].
          unfold selC. cbn [fst snd]. rewrite Hd, Hi. reflexivity. }
        rewrite <- H1 in Hk. apply in_map_iff in Hk.
        destruct Hk as [c [Hc Hin']]. exists c. split; [exact Hc|].
        apply Hin. exact Hin'.
  - intros item name members Hitem Hname Hns. apply Hin in Hitem.
    destruct (H4 item Hitem) as [Hold | [[k r] [_ Hs]]].
    + destruct (N4 item Hold) as [[] | [e [_ Hs]]].
      unfold selN in Hs. destruct (includes _ _); [|discriminate].
      injection Hs as _ <-. reflexivity.
    + assert (Hinc : includes (toLowerCase name) (toLowerCase prefix)
                     = true).
      { unfold selC in Hs. cbn [fst snd] in Hs.
        destruct (deref st r); [|discriminate].
        destruct (includes _ _) eqn:Ei; [|discriminate].
        injection Hs as Hk _. rewrite <- Hname, <- Hk. exact Ei. }
      assert (Hdone1 : In name done1).
      { apply N3. right. eexists (name, members), _. split; [exact Hns|].
        unfold selN. cbn [fst snd]. rewrite Hinc. reflexivity. }
      rewrite <- N1 in Hdone1.
      apply in_map_iff in Hdone1. destruct Hdone1 as [c0 [Hc0 Hin0]].
      assert (Heq : item = c0).
      { apply (@NoDup_map_inj _ _ caption completions);
          [rewrite H1; exact H2 | exact Hitem | apply H5; exact Hin0
          | congruence]. }
      subst item.
      destruct (N4 c0 Hin0) as [[] | [e [_ Hs0]]].
      unfold selN in Hs0.
      destruct (includes (toLowerCase (fst e)) (toLowerCase prefix));
        [|discriminate].
      injection Hs0 as _ <-. reflexivity.
Qed.

Lemma getNamespaceCompletions_items_witness :
  let st :=
    processFiles newIndexer
      [(lit "src/A.php",
        Some (lit "<?php namespace App; class A { function run(){} } function help(){}"),
        0%Z)] in
  let items := fst (getNamespaceCompletions (fun _ _ => 0%Z) st (lit "app")) in
  latin1 (lit "app") = true
  /\ latin1FullNames st = true
  /\ NoDup (map caption items)
  /\ map caption items = [lit "App"; lit "App\A"].
Proof.
  intros st items.
  assert (Hp : latin1 (lit "app") = true) by reflexivity.
  assert (Hn : latin1FullNames st = true) by (vm_compute; reflexivity).
  split; [exact Hp|]. split; [exact Hn|].
  split; [|vm_compute; reflexivity].
  pose proof (@getNamespaceCompletions_items (fun _ _ => 0%Z) st (lit "app")
                Hp Hn) as H.
  apply proj1 in H. exact H.
Defined.

(* ------------------------------------------------------------------ *)
(** ** The search *)
(* ------------------------------------------------------------------ *)

Lemma fold_left_push : forall (E R : Type) (f : E -> list R) l acc,
  fold_left (fun a e => a ++ f e) l acc = acc ++ flat_map f l.
Proof.
  intros E R f. induction l as [|e l IH]; intros acc; simpl.
  - rewrite app_nil_r. reflexivity.
  - rewrite IH, app_assoc. reflexivity.
Qed.

(** The results that one entry of the class map adds to a search for
    classes, for methods, and one entry of the function map to a search
    for functions. *)
Lemma searchClasses_flat : forall st q results,
  searchClasses st q results
  = results
    ++ flat_map
         (fun entry : jsstring * ClassRef =>
            match deref st (snd entry) with
            | Some classData =>
                if includes (toLowerCase (cls_name classData)) q
                then [ClassResult (cls_name classData) (fst entry)
                        (cls_namespace classData) (cls_file classData)
                        (cls_line classData)]
                else []
            | None => []
            end)
         (ix_classes st).
Proof.
  intros st q results. unfold searchClasses.
  rewrite <- fold_left_push. apply fold_left_ext.
  intros a e. destruct (deref st (snd e)) as [cd|];
    [|rewrite app_nil_r; reflexivity].
  destruct (includes _ _); [reflexivity | rewrite app_nil_r; reflexivity].
Qed.

Lemma searchMethods_flat : forall st q results,
  searchMethods st q results
  = results
    ++ flat_map
         (fun entry : jsstring * ClassRef =>
            match deref st (snd entry) with
            | Some classData =>
                flat_map
                  (fun method : jsstring * FunctionDef =>
                     if includes (toLowerCase (fst method)) q
                     then [MethodResult (fst method) (cls_name classData)
                             (fn_file (snd method)) (fn_line (snd method))]
                     else [])
                  (cls_methods classData)
            | None => []
            end)
         (ix_classes st).
Proof.
  intros st q results. unfold searchMethods.
  rewrite <- fold_left_push. apply fold_left_ext.
  intros a e. destruct (deref st (snd e)) as [cd|];
    [|rewrite app_nil_r; reflexivity].
  rewrite <- fold_left_push. apply fold_left_ext.
  intros a' [methodName methodData]. cbn [fst snd].
  destruct (includes _ _); [reflexivity | rewrite app_nil_r; reflexivity].
Qed.

Lemma searchFunctions_flat : forall st q results,
  searchFunctions st q results
  = results
    ++ flat_map
         (fun entry : jsstring * FunctionDef =>
            if includes (toLowerCase (fn_name (snd entry))) q
            then [FunctionResult (fn_name (snd entry)) (fst entry)
                    (fn_file (snd entry)) (fn_line (snd entry))]
            else [])
         (ix_functions st).
Proof.
  intros st q results. unfold searchFunctions.
  rewrite <- fold_left_push. apply fold_left_ext.
  intros a [fullName functionData]. cbn [fst snd].
  destruct (includes _ _); [reflexivity | rewrite app_nil_r; reflexivity].
Qed.

Lemma typeAllows_other : forall t kind,
  t <> kind -> typeAllows (Some t) kind = negb (nonEmpty t).
Proof.
  intros t kind H. unfold typeAllows.
  apply str_eqb_neq in H. rewrite H. apply orb_false_r.
Qed.

Lemma typeAllows_same : forall kind, typeAllows (Some kind) kind = true.
Proof.
  intros kind. unfold typeAllows. rewrite str_eqb_refl. apply orb_true_r.
Qed.

(** X18: the type filter of [search].  Without a type, or with the empty
    string as type, the result is the classes, then the methods, then the
    functions: the three searches by type, one after the other.  A type
    that is none of [class], [method] and [function] (such as [property]
    or [interface]) finds nothing, whatever the index holds. *)
Theorem search_type_filter :
  forall (st : Indexer) (query : jsstring),
    search st query None
    = search st query (Some (lit "class"))
      ++ search st query (Some (lit "method"))
      ++ search st query (Some (lit "function"))
    /\ search st query (Some []) = search st query None
    /\ (forall type,
          type <> [] -> type <> lit "class" -> type <> lit "method" ->
          type <> lit "function" ->
          search st query (Some type) = []).
Proof.
  intros st query. split; [|split].
  - unfold search.
    rewrite !typeAllows_same.
    rewrite (@typeAllows_other (lit "class") (lit "method")) by discriminate.
    rewrite (@typeAllows_other (lit "class") (lit "function"))
      by discriminate.
    rewrite (@typeAllows_other (lit "method") (lit "class")) by discriminate.
    rewrite (@typeAllows_other (lit "method") (lit "function"))
      by discriminate.
    rewrite (@typeAllows_other (lit "function") (lit "class"))
      by discriminate.
    rewrite (@typeAllows_other (lit "function") (lit "method"))
      by discriminate.
    cbn [typeAllows nonEmpty negb lit].
    rewrite !searchFunctions_flat, !searchMethods_flat, !searchClasses_flat.
    cbn [app]. rewrite app_assoc. reflexivity.
  - reflexivity.
  - intros type H0 H1 H2 H3. unfold search.
    rewrite !typeAllows_other by assumption.
    destruct type; [contradiction | reflexivity].
Qed.

(** X19: what [search] finds, for a query and names of classes, methods
    and functions within U+0000..U+00FF.  A class is found under each key of the
    class map whose class has a short name that contains the query, a
    method for each method entry of a class of the class map whose name
    contains the query (private and inherited ones as well), a function
    for each entry of the function map whose name contains the query; the
    comparison is without regard to case, and nothing else is found. *)
Theorem search_results :
  forall (st : Indexer) (query : jsstring) (result : SearchResult),
    latin1 query = true ->
    latin1ClassNames st = true ->
    latin1MethodNames st = true ->
    latin1FunctionNames st = true ->
    In result (search st query None)
    <-> match result with
        | ClassResult name fullName namespace file line =>
            exists r classData,
              In (fullName, r) (ix_classes st)
              /\ deref st r = Some classData
              /\ includes (toLowerCase name) (toLowerCase query) = true
              /\ (name, namespace, file, line)
                 = (cls_name classData, cls_namespace classData,
                    cls_file classData, cls_line classData)
        | MethodResult name class file line =>
            exists key r classData methodData,
              In (key, r) (ix_classes st)
              /\ deref st r = Some classData
              /\ In (name, methodData) (cls_methods classData)
              /\ includes (toLowerCase name) (toLowerCase query) = true
              /\ (class, file, line)
                 = (cls_name classData, fn_file methodData,
                    fn_line methodData)
        | FunctionResult name fullName file line =>
            exists functionData,
              In (fullName, functionData) (ix_functions st)
              /\ includes (toLowerCase name) (toLowerCase query) = true
              /\ (name, file, line)
                 = (fn_name functionData, fn_file functionData,
                    fn_line functionData)
        end.
Proof.
  intros st query result _ _ _ _. unfold search. cbn [typeAllows].
  rewrite searchFunctions_flat, searchMethods_flat, searchClasses_flat.
  cbn [app]. rewrite !in_app_iff, !in_flat_map. split.
  - intros [[[[key r] [He H]] | [[key r] [He H]]] | [[key fd] [He H]]];
      cbn [fst snd] in H.
    + destruct (deref st r) as [cd|] eqn:Ed; [|contradiction].
      destruct (includes _ _) eqn:Ei; [|contradiction].
      destruct H as [<- | []]. exists r, cd. auto.
    + destruct (deref st r) as [cd|] eqn:Ed; [|contradiction].
      apply in_flat_map in H. destruct H as [[name md] [Hm H]].
      cbn [fst snd] in H.
      destruct (includes _ _) eqn:Ei; [|contradiction].
      destruct H as [<- | []]. exists key, r, cd, md. auto.
    + destruct (includes _ _) eqn:Ei; [|contradiction].
      destruct H as [<- | []]. exists fd. auto.
  - destruct result as [name fullName namespace file line
                       | name class file line
                       | name fullName file line].
    + intros [r [cd [He [Ed [Ei Heq]]]]]. injection Heq as -> -> -> ->.
      left. left. exists (fullName, r). split; [exact He|].
      cbn [fst snd]. rewrite Ed, Ei. left. reflexivity.
    + intros [key [r [cd [md [He [Ed [Hm [Ei Heq]]]]]]]].
      injection Heq as -> -> ->.
      left. right. exists (key, r). split; [exact He|].
      cbn [fst snd]. rewrite Ed. apply in_flat_map.
      exists (name, md). split; [exact Hm|].
      cbn [fst snd]. rewrite Ei. left. reflexivity.
    + intros [fd [He [Ei Heq]]]. injection Heq as -> -> ->.
      right. exists (fullName, fd). split; [exact He|].
      cbn [fst snd]. rewrite Ei. left. reflexivity.
Qed.

Lemma search_results_witness :
  let st :=
    processFiles newIndexer
      [(lit "src/A.php",
        Some (lit "<?php namespace App; class A { function run(){} } function help(){}"),
        0%Z)] in
  latin1 (lit "RU") = true
  /\ latin1ClassNames st = true
  /\ latin1MethodNames st = true
  /\ latin1FunctionNames st = true
  /\ ~ In (FunctionResult (lit "help") (lit "App\help")
             (Some (lit "src/A.php")) 1)
         (search st (lit "RU") None).
Proof.
  intros st.
  assert (Hq : latin1 (lit "RU") = true) by reflexivity.
  assert (Hc : latin1ClassNames st = true) by (vm_compute; reflexivity).
  assert (Hm : latin1MethodNames st = true) by (vm_compute; reflexivity).
  assert (Hf : latin1FunctionNames st = true) by (vm_compute; reflexivity).
  split; [exact Hq|]. split; [exact Hc|]. split; [exact Hm|].
  split; [exact Hf|].
  intros Hin.
  pose proof (proj1 (@search_results st (lit "RU") _ Hq Hc Hm Hf) Hin) as H.
  cbv beta iota in H. destruct H as [functionData [_ [Hi _]]].
  vm_compute in Hi. discriminate Hi.
Defined.

Lemma includes_nil : forall s, includes s [] = true.
Proof. destruct s; reflexivity. Qed.

Lemma fold_left_sum : forall (A : Type) (f : A -> nat) l n,
  fold_left (fun sum x => sum + f x) l n
  = n + length (flat_map (fun x => repeat tt (f x)) l).
Proof.
  intros A f. induction l as [|x l IH]; intros n; simpl; [lia|].
  rewrite IH, length_app, repeat_length. lia.
Qed.

Lemma length_flat_map_eq : forall (A B C : Type) (f : A -> list B)
  (g : A -> list C) l,
  (forall x, In x l -> length (f x) = length (g x)) ->
  length (flat_map f l) = length (flat_map g l).
Proof.
  intros A B C f g. induction l as [|x l IH]; intros H; simpl;
    [reflexivity|].
  rewrite !length_app. rewrite (H x) by (left; reflexivity).
  rewrite IH by (intros y Hy; apply H; right; exact Hy). reflexivity.
Qed.

Lemma length_flat_map_flat_map : forall (A B C : Type) (f : A -> list B)
  (g : B -> list C) l,
  length (flat_map g (flat_map f l))
  = length (flat_map (fun x => flat_map g (f x)) l).
Proof.
  intros A B C f g. induction l as [|x l IH]; simpl; [reflexivity|].
  rewrite flat_map_app, !length_app, IH. reflexivity.
Qed.

Lemma length_flat_map_single : forall (A B : Type) (f : A -> list B) l,
  (forall x, In x l -> length (f x) = 1) ->
  length (flat_map f l) = length l.
Proof.
  intros A B f. induction l as [|x l IH]; intros H; simpl; [reflexivity|].
  rewrite length_app, (H x) by (left; reflexivity).
  rewrite IH by (intros y Hy; apply H; right; exact Hy). reflexivity.
Qed.

(** X20: the search and the statistics agree.  When every entry of the
    class map refers to a class object, the search for the empty query
    lists everything: it has as many results as [getStatistics] counts
    classes, methods and functions together. *)
Theorem search_everything :
  forall st : Indexer,
    (forall key r, In (key, r) (ix_classes st) -> r < length (ix_heap st)) ->
    length (search st [] None)
    = stat_classes (getStatistics st)
      + stat_totalMethods (getStatistics st)
      + stat_functions (getStatistics st).
Proof.
  intros st Hlive. unfold search. cbn [typeAllows toLowerCase map].
  rewrite searchFunctions_flat, searchMethods_flat, searchClasses_flat.
  cbn [app]. rewrite !length_app.
  unfold getStatistics.
  cbn [stat_classes stat_totalMethods stat_functions]. unfold map_size.
  assert (Hderef : forall e, In e (ix_classes st) ->
            exists cd, deref st (snd e) = Some cd).
  { intros [k r] He. cbn [snd]. unfold deref.
    destruct (nth_error (ix_heap st) r) as [cd|] eqn:E; [eauto|].
    apply nth_error_None in E. apply Hlive in He. lia. }
  f_equal; [f_equal|].
  - apply length_flat_map_single. intros e He.
    destruct (Hderef e He) as [cd ->]. rewrite includes_nil. reflexivity.
  - rewrite fold_left_sum. cbn [Nat.add].
    rewrite length_flat_map_flat_map.
    apply length_flat_map_eq. intros e He.
    destruct (Hderef e He) as [cd ->]. cbn [flat_map].
    rewrite app_nil_r, repeat_length.
    apply length_flat_map_single. intros m _.
    rewrite includes_nil. reflexivity.
  - apply length_flat_map_single. intros e _.
    rewrite includes_nil. reflexivity.
Qed.

Lemma search_everything_witness :
  let st :=
    processFiles newIndexer
      [(lit "src/A.php",
        Some (lit "<?php namespace App; class A { function run(){} } function help(){}"),
        0%Z)] in
  length (search st [] None)
  = stat_classes (getStatistics st) + stat_totalMethods (getStatistics st)
    + stat_functions (getStatistics st)
  /\ search st [] None
     = [ClassResult (lit "A") (lit "App\A") (lit "App")
          (Some (lit "src/A.php")) 1;
        MethodResult (lit "run") (lit "A") (Some (lit "src/A.php")) 1;
        FunctionResult (lit "help") (lit "App\help")
          (Some (lit "src/A.php")) 1].
Proof.
  intros st. split; [|vm_compute; reflexivity].
  apply (@search_everything st).
  assert (Hlive : forallb (fun e : jsstring * ClassRef =>
                             snd e <? length (ix_heap st)) (ix_classes st)
                  = true) by (vm_compute; reflexivity).
  rewrite forallb_forall in Hlive.
  intros key r H. apply Nat.ltb_lt. exact (Hlive (key, r) H).
Defined.

(* ------------------------------------------------------------------ *)
(** ** The scan of the directories *)
(* ------------------------------------------------------------------ *)

Lemma pathUnder_snoc : forall startPath names name,
  pathUnder startPath (names ++ [name])
  = pathUnder startPath names ++ lit "/" ++ name.
Proof.
  intros startPath names name. unfold pathUnder.
  rewrite fold_left_app. reflexivity.
Qed.

Lemma scannedDirs_snoc : forall lsDir dirs startPath d entries,
  scannedDirs lsDir startPath dirs ->
  lsDir (pathUnder startPath dirs) = Some entries ->
  In (mkEntry d true) entries ->
  shouldSkipDirectory d = false ->
  scannedDirs lsDir startPath (dirs ++ [d]).
Proof.
  intros lsDir. induction dirs as [|x dirs IH];
    intros startPath d entries Hs Hls Hin Hskip.
  - simpl. split; [exists entries; split; assumption|]. split; [assumption|].
    exact I.
  - simpl in *. destruct Hs as [H1 [H2 H3]].
    split; [exact H1|]. split; [exact H2|].
    apply (IH _ d entries H3 Hls Hin Hskip).
Qed.

Lemma length_pathUnder_snoc : forall startPath names name,
  length (pathUnder startPath names)
  < length (pathUnder startPath (names ++ [name])).
Proof.
  intros startPath names name. rewrite pathUnder_snoc, !length_app.
  simpl. lia.
Qed.

Section Scan.

Variable lsDir : FileSystem.
Variable startPath : jsstring.

(** The loop over the entries of a directory that is reached from the
    start, when the nested scans return and list scanned files only. *)
Lemma scanEntries_scanned :
  forall (scan : jsstring -> list jsstring * JsSet
                 -> option (list jsstring * JsSet))
         dirs entries0,
    scannedDirs lsDir startPath dirs ->
    lsDir (pathUnder startPath dirs) = Some entries0 ->
    (forall d acc,
       In (mkEntry d true) entries0 -> shouldSkipDirectory d = false ->
       Forall (scannedFile lsDir startPath) (fst acc) ->
       exists acc',
         scan (pathUnder startPath (dirs ++ [d])) acc = Some acc'
         /\ Forall (scannedFile lsDir startPath) (fst acc')) ->
    forall entries acc,
      incl entries entries0 ->
      Forall (scannedFile lsDir startPath) (fst acc) ->
      exists acc',
        scanEntries scan (pathUnder startPath dirs) entries acc = Some acc'
        /\ Forall (scannedFile lsDir startPath) (fst acc').
Proof.
  intros scan dirs entries0 Hdirs Hls Hscan.
  induction entries as [|[name isDir] entries IH]; intros acc Hincl Hacc.
  - exists acc. split; [reflexivity | exact Hacc].
  - assert (Hin : In (mkEntry name isDir) entries0)
      by (apply Hincl; left; reflexivity).
    assert (Hincl' : incl entries entries0)
      by (intros x Hx; apply Hincl; right; exact Hx).
    cbn [scanEntries entry_isDirectory entry_name].
    destruct isDir.
    + destruct (shouldSkipDirectory name) eqn:Eskip; cbn [negb].
      * apply IH; assumption.
      * rewrite <- pathUnder_snoc.
        destruct (Hscan name acc Hin Eskip Hacc) as [acc1 [-> Hacc1]].
        apply IH; assumption.
    + destruct (endsWith name (lit ".php")) eqn:Ephp.
      * apply IH; [exact Hincl'|]. cbn [fst].
        apply Forall_app. split; [exact Hacc|].
        constructor; [|constructor].
        exists dirs, name, entries0.
        rewrite pathUnder_snoc. auto.
      * apply IH; assumption.
Qed.

(** The scan of a directory that is reached from the start: with calls
    enough for the longest path that can be listed, it returns, and lists
    scanned files only. *)
Lemma scanDirectory_scanned :
  forall bound,
    (forall p, bound < length p -> lsDir p = None) ->
    forall depth dirs acc,
      0 < depth ->
      bound + 2 <= depth + length (pathUnder startPath dirs) ->
      scannedDirs lsDir startPath dirs ->
      Forall (scannedFile lsDir startPath) (fst acc) ->
      exists acc',
        scanDirectory depth lsDir (pathUnder startPath dirs) acc = Some acc'
        /\ Forall (scannedFile lsDir startPath) (fst acc').
Proof.
  intros bound Hbound.
  induction depth as [|depth IH]; intros dirs [fileList visited] Hpos Hdepth
    Hdirs Hacc; [lia|].
  cbn [scanDirectory].
  destruct (set_has visited (pathUnder startPath dirs)).
  { eexists. split; [reflexivity | exact Hacc]. }
  destruct (lsDir (pathUnder startPath dirs)) as [entries|] eqn:Els.
  2:{ eexists. split; [reflexivity | exact Hacc]. }
  assert (Hlen : length (pathUnder startPath dirs) <= bound).
  { destruct (Nat.le_gt_cases (length (pathUnder startPath dirs)) bound)
      as [H | H]; [exact H|].
    rewrite (Hbound _ H) in Els. discriminate. }
  apply (@scanEntries_scanned (scanDirectory depth lsDir) dirs entries Hdirs
           Els).
  - intros d acc Hin Hskip Hacc'.
    pose proof (length_pathUnder_snoc startPath dirs d) as Hgrow.
    apply IH; [lia | lia | | exact Hacc'].
    apply (@scannedDirs_snoc lsDir dirs startPath d entries); assumption.
  - apply incl_refl.
  - exact Hacc.
Qed.

(** A file below the directory [d] of [dirPath] is a file below
    [dirPath]. *)
Lemma scannedFile_below : forall dirPath d entries path,
  lsDir dirPath = Some entries ->
  In (mkEntry d true) entries ->
  shouldSkipDirectory d = false ->
  scannedFile lsDir (dirPath ++ lit "/" ++ d) path ->
  scannedFile lsDir dirPath path.
Proof.
  intros dirPath d entries path Hls Hin Hskip
    [dirs [name [entries' [Hp [Hd [Hls' [Hin' Hphp]]]]]]].
  exists (d :: dirs), name, entries'.
  split; [exact Hp|]. split; [|auto].
  simpl. split; [exists entries; auto|]. split; [exact Hskip | exact Hd].
Qed.

(** The loop over the entries, when the nested scans keep what is listed
    and visited, visit their directory, and leave every visited directory
    that is not in [E] with all its files listed. *)
Lemma scanEntries_complete :
  forall (scan : jsstring -> list jsstring * JsSet
                 -> option (list jsstring * JsSet))
         (E : jsstring -> Prop) dirPath,
    (forall d acc acc',
       scan (dirPath ++ lit "/" ++ d) acc = Some acc' ->
       (forall P, In P (snd acc) -> ~ E P ->
          forall path, scannedFile lsDir P path -> In path (fst acc)) ->
       incl (fst acc) (fst acc') /\ incl (snd acc) (snd acc')
       /\ In (dirPath ++ lit "/" ++ d) (snd acc')
       /\ (forall P, In P (snd acc') -> ~ E P ->
             forall path, scannedFile lsDir P path -> In path (fst acc'))) ->
    forall entries acc acc',
      scanEntries scan dirPath entries acc = Some acc' ->
      (forall P, In P (snd acc) -> ~ E P ->
         forall path, scannedFile lsDir P path -> In path (fst acc)) ->
      incl (fst acc) (fst acc') /\ incl (snd acc) (snd acc')
      /\ (forall P, In P (snd acc') -> ~ E P ->
            forall path, scannedFile lsDir P path -> In path (fst acc'))
      /\ (forall d,
            In (mkEntry d true) entries -> shouldSkipDirectory d = false ->
            In (dirPath ++ lit "/" ++ d) (snd acc'))
      /\ (forall name,
            In (mkEntry name false) entries ->
            endsWith name (lit ".php") = true ->
            In (dirPath ++ lit "/" ++ name) (fst acc')).
Proof.
  intros scan E dirPath Hscan.
  induction entries as [|[name isDir] entries IH]; intros acc acc' Hrun Hinv.
  - simpl in Hrun. injection Hrun as <-.
    split; [apply incl_refl|]. split; [apply incl_refl|].
    split; [exact Hinv|]. split; intros ? [].
  - cbn [scanEntries entry_isDirectory entry_name] in Hrun.
    destruct isDir.
    + destruct (shouldSkipDirectory name) eqn:Eskip; cbn [negb] in Hrun.
      * destruct (IH acc acc' Hrun Hinv) as [H1 [H2 [H3 [H4 H5]]]].
        split; [exact H1|]. split; [exact H2|]. split; [exact H3|]. split.
        -- intros d [Hd | Hd] Hs; [|apply H4; assumption].
           injection Hd as <-. congruence.
        -- intros n [Hn | Hn] Hp; [discriminate | apply H5; assumption].
      * destruct (scan (dirPath ++ lit "/" ++ name) acc) as [acc1|] eqn:E1;
          [|discriminate].
        destruct (Hscan name acc acc1 E1 Hinv) as [G1 [G2 [G3 G4]]].
        destruct (IH acc1 acc' Hrun G4) as [H1 [H2 [H3 [H4 H5]]]].
        split; [exact (incl_tran G1 H1)|].
        split; [exact (incl_tran G2 H2)|]. split; [exact H3|]. split.
        -- intros d [Hd | Hd] Hs; [|apply H4; assumption].
           injection Hd as <-. apply H2. exact G3.
        -- intros n [Hn | Hn] Hp; [discriminate | apply H5; assumption].
    + destruct (endsWith name (lit ".php")) eqn:Ephp.
      * destruct (IH _ acc' Hrun) as [H1 [H2 [H3 [H4 H5]]]].
        { cbn [fst snd]. intros P HP HE path Hpath. apply in_app_iff.
          left. apply (Hinv P HP HE path Hpath). }
        cbn [fst snd] in H1, H2.
        split; [intros x Hx; apply H1; apply in_app_iff; left; exact Hx|].
        split; [exact H2|]. split; [exact H3|]. split.
        -- intros d [Hd | Hd] Hs; [discriminate | apply H4; assumption].
        -- intros n [Hn | Hn] Hp; [|apply H5; assumption].
           injection Hn as <-. apply H1. apply in_app_iff. right. left.
           reflexivity.
      * destruct (IH acc acc' Hrun Hinv) as [H1 [H2 [H3 [H4 H5]]]].
        split; [exact H1|]. split; [exact H2|]. split; [exact H3|]. split.
        -- intros d [Hd | Hd] Hs; [discriminate | apply H4; assumption].
        -- intros n [Hn | Hn] Hp; [|apply H5; assumption].
           injection Hn as <-. congruence.
Qed.

(** The scan of a directory, when it returns: what was listed and visited
    is kept, the directory is visited, and every visited directory is left
    with all its files listed, but for those of [E], the directories whose
    scan is under way; these have shorter paths. *)
Lemma scanDirectory_complete :
  forall depth (E : jsstring -> Prop) dirPath acc acc',
    scanDirectory depth lsDir dirPath acc = Some acc' ->
    (forall P, E P -> length P < length dirPath) ->
    (forall P, In P (snd acc) -> ~ E P ->
       forall path, scannedFile lsDir P path -> In path (fst acc)) ->
    incl (fst acc) (fst acc') /\ incl (snd acc) (snd acc')
    /\ In dirPath (snd acc')
    /\ (forall P, In P (snd acc') -> ~ E P ->
          forall path, scannedFile lsDir P path -> In path (fst acc')).
Proof.
  induction depth as [|depth IH];
    intros E dirPath [fileList visited] acc' Hrun HE Hinv; [discriminate|].
  cbn [scanDirectory] in Hrun. cbn [fst snd] in Hinv.
  destruct (set_has visited dirPath) eqn:Ev.
  { injection Hrun as <-. cbn [fst snd].
    split; [apply incl_refl|]. split; [apply incl_refl|].
    split; [apply set_has_In; exact Ev | exact Hinv]. }
  assert (Hadd : forall P, In P (set_add visited dirPath)
                           <-> P = dirPath \/ In P visited)
    by (intros P; apply set_add_In).
  destruct (lsDir dirPath) as [entries|] eqn:Els.
  2:{ injection Hrun as <-. cbn [fst snd].
      split; [apply incl_refl|].
      split; [intros x Hx; apply Hadd; right; exact Hx|].
      split; [apply Hadd; left; reflexivity|].
      intros P HP HnE path Hpath. apply Hadd in HP.
      destruct HP as [-> | HP]; [|apply (Hinv P HP HnE path Hpath)].
      exfalso.
      destruct Hpath as [[|d dirs] [name [entries [_ [Hd [Hls _]]]]]].
      - change (pathUnder dirPath []) with dirPath in Hls. congruence.
      - simpl in Hd. destruct Hd as [[entries' [Hls' _]] _]. congruence. }
  set (E' := fun P => E P \/ P = dirPath).
  destruct (@scanEntries_complete (scanDirectory depth lsDir) E' dirPath)
    with (entries := entries) (acc := (fileList, set_add visited dirPath))
         (acc' := acc')
    as [H1 [H2 [H3 [H4 H5]]]].
  - intros d acc acc1 Hrun1 Hinv1.
    apply (IH E' _ acc acc1 Hrun1); [|exact Hinv1].
    intros P [HP | ->]; [apply HE in HP|]; rewrite !length_app; simpl; lia.
  - exact Hrun.
  - cbn [fst snd]. intros P HP HnE path Hpath. apply Hadd in HP.
    destruct HP as [-> | HP]; [exfalso; apply HnE; right; reflexivity|].
    apply (Hinv P HP); [|exact Hpath].
    intros HEP. apply HnE. left. exact HEP.
  - cbn [fst snd] in H1, H2.
    split; [exact H1|].
    split; [intros x Hx; apply H2; apply Hadd; right; exact Hx|].
    split; [apply H2; apply Hadd; left; reflexivity|].
    intros P HP HnE path Hpath.
    destruct (list_eq_dec N.eq_dec P dirPath) as [-> | Hne].
    2:{ apply (H3 P HP); [|exact Hpath]. intros [HEP | HEP]; auto. }
    assert (Hchild : forall d, ~ E' (dirPath ++ lit "/" ++ d)).
    { intros d [HEd | HEd].
      - apply HE in HEd. rewrite !length_app in HEd. simpl in HEd. lia.
      - apply (f_equal (@length _)) in HEd.
        rewrite !length_app in HEd. simpl in HEd. lia. }
    destruct Hpath as [[|d dirs] [name [entries' [Hp [Hd [Hls [Hin Hphp]]]]]]].
    + change (pathUnder dirPath []) with dirPath in Hls.
      rewrite Els in Hls. injection Hls as <-.
      rewrite Hp. apply H5; assumption.
    + simpl in Hd. destruct Hd as [[entries1 [Hls1 Hin1]] [Hskip Hd]].
      rewrite Els in Hls1. injection Hls1 as <-.
      apply (H3 (dirPath ++ lit "/" ++ d)
               (H4 d Hin1 Hskip) (Hchild d)).
      exists dirs, name, entries'. auto.
Qed.

End Scan.

(** X21: the files that [findPhpFiles] lists.  When no path longer than a
    bound can be listed, and the call stack admits the nested calls that
    the bound requires, the scan returns, and a path is in its result
    exactly when it is that of a file whose name ends in [.php] and that
    lies below the start directory under directories of which none is to
    be skipped: every such file is listed, and nothing below a directory
    such as [vendor] or [.git] is. *)
Theorem findPhpFiles_scanned :
  forall (depth : nat) (lsDir : FileSystem) (startPath : jsstring)
         (bound : nat),
    (forall p, bound < length p -> lsDir p = None) ->
    0 < depth ->
    bound + 2 <= depth + length startPath ->
    exists files,
      findPhpFiles depth lsDir startPath = Some files
      /\ forall path, In path files <-> scannedFile lsDir startPath path.
Proof.
  intros depth lsDir startPath bound Hbound Hpos Hdepth.
  destruct (@scanDirectory_scanned lsDir startPath bound Hbound depth []
              ([], []) Hpos Hdepth I (Forall_nil _))
    as [[files visited] [Hscan Hfiles]].
  exists files. unfold findPhpFiles.
  change (pathUnder startPath []) with startPath in Hscan.
  rewrite Hscan. split; [reflexivity|].
  intros path. split.
  - intros Hin. cbn [fst] in Hfiles. rewrite Forall_forall in Hfiles.
    apply Hfiles. exact Hin.
  - destruct (@scanDirectory_complete lsDir depth (fun _ => False) startPath
                ([], []) (files, visited) Hscan)
      as [_ [_ [Hv Hall]]].
    + intros P [].
    + intros P [].
    + cbn [fst snd] in Hv, Hall. apply (Hall startPath Hv). intros [].
Qed.

Lemma findPhpFiles_scanned_witness :
  let lsDir : FileSystem :=
    fun p =>
      if str_eqb p (lit "/p") then
        Some [mkEntry (lit "src") true; mkEntry (lit "vendor") true;
              mkEntry (lit "a.php") false; mkEntry (lit "notes.txt") false]
      else if str_eqb p (lit "/p/src") then
        Some [mkEntry (lit "B.php") false]
      else if str_eqb p (lit "/p/vendor") then
        Some [mkEntry (lit "lib.php") false]
      else None in
  exists files,
    findPhpFiles 12 lsDir (lit "/p") = Some files
    /\ (forall path, In path files <-> scannedFile lsDir (lit "/p") path)
    /\ files = [lit "/p/src/B.php"; lit "/p/a.php"].
Proof.
  intros lsDir.
  destruct (@findPhpFiles_scanned 12 lsDir (lit "/p") 10)
    as [files [Hf Hall]].
  - intros p Hp. unfold lsDir.
    destruct (str_eqb p (lit "/p")) eqn:E1;
      [apply str_eqb_eq in E1; subst p; simpl in Hp; lia|].
    destruct (str_eqb p (lit "/p/src")) eqn:E2;
      [apply str_eqb_eq in E2; subst p; simpl in Hp; lia|].
    destruct (str_eqb p (lit "/p/vendor")) eqn:E3;
      [apply str_eqb_eq in E3; subst p; simpl in Hp; lia|].
    reflexivity.
  - lia.
  - simpl. lia.
  - exists files. split; [exact Hf|]. split; [exact Hall|].
    vm_compute in Hf. injection Hf as <-. reflexivity.
Defined.

(* ------------------------------------------------------------------ *)
(** ** The completion provider of the plugin *)
(* ------------------------------------------------------------------ *)

Lemma sliceTo_prefix : forall (A : Type) (l : list A) end_,
  exists rest, l = sliceTo l end_ ++ rest.
Proof.
  intros A l end_. unfold sliceTo.
  destruct (end_ <? 0)%Z; eexists; symmetry; apply firstn_skipn.
Qed.

Lemma sliceTo_length : forall (A : Type) (l : list A) end_,
  (0 <= end_)%Z -> (Z.of_nat (length (sliceTo l end_)) <= end_)%Z.
Proof.
  intros A l end_ H. unfold sliceTo.
  destruct (end_ <? 0)%Z eqn:E; [apply Z.ltb_lt in E; lia|].
  rewrite length_firstn. lia.
Qed.

(** X22: what the completer of the plugin passes to the editor.  The items
    are always the first ones of what [getCompletions] gives for the line,
    in the same order, and never more than [maxCompletionItems] when that
    is not negative; there are none unless the active file has a name that
    ends in [.php] and the indexer exists; and there are none on a line
    where [::] is followed by a word character while neither [new] nor
    [use] is followed by white space and a word character nor [->] by a
    word character: after [::] nothing is ever offered. *)
Theorem provideCompletions_offers :
  forall (localeCompare : jsstring -> jsstring -> Z)
         (indexer : option Indexer) (activeFile : option jsstring)
         (maxCompletionItems : Z) (line prefix : jsstring),
    let items :=
      fst (provideCompletions localeCompare indexer activeFile
             maxCompletionItems line prefix) in
    (exists rest,
       fst (getCompletions localeCompare indexer line prefix)
       = items ++ rest)
    /\ ((0 <= maxCompletionItems)%Z ->
        (Z.of_nat (length items) <= maxCompletionItems)%Z)
    /\ (items <> [] ->
        exists filename st,
          activeFile = Some filename
          /\ endsWith filename (lit ".php") = true
          /\ indexer = Some st)
    /\ (matchesSomewhere (keywordThenWord (lit "new")) line = false ->
        matchesSomewhere (keywordThenWord (lit "use")) line = false ->
        matchesSomewhere (operatorThenWord (lit "->")) line = false ->
        matchesSomewhere (operatorThenWord (lit "::")) line = true ->
        items = []).
Proof.
  intros lc indexer activeFile maxItems line prefix items.
  assert (Hslice : items = []
                   \/ (exists filename,
                         activeFile = Some filename
                         /\ endsWith filename (lit ".php") = true)
                      /\ items
                         = sliceTo
                             (fst (getCompletions lc indexer line prefix))
                             maxItems).
  { subst items. unfold provideCompletions.
    destruct activeFile as [filename|]; [|left; reflexivity].
    destruct (endsWith filename (lit ".php")) eqn:E; cbn [negb];
      [|left; reflexivity].
    right. split; [exists filename; auto|].
    destruct (getCompletions lc indexer line prefix) as [completions ix].
    reflexivity. }
  clearbody items.
  split; [|split; [|split]].
  - destruct Hslice as [-> | [_ ->]]; [eexists; reflexivity|].
    apply sliceTo_prefix.
  - intros Hmax. destruct Hslice as [-> | [_ ->]]; [simpl; lia|].
    apply sliceTo_length. exact Hmax.
  - intros Hne. destruct Hslice as [-> | [[filename [Hf Hphp]] ->]];
      [contradiction|].
    destruct indexer as [st|].
    + exists filename, st. auto.
    + exfalso. apply Hne. unfold getCompletions, sliceTo. cbn [fst].
      destruct (maxItems <? 0)%Z; apply firstn_nil.
  - intros Hnew Huse Hmethod Hstatic.
    destruct Hslice as [-> | [_ ->]]; [reflexivity|].
    unfold getCompletions. destruct indexer as [st|].
    + rewrite Hnew, Huse, Hmethod, Hstatic.
      unfold getStaticMethodCompletions, inferClassContext.
      cbn [fst]. unfold sliceTo.
      destruct (maxItems <? 0)%Z; apply firstn_nil.
    + cbn [fst]. unfold sliceTo.
      destruct (maxItems <? 0)%Z; apply firstn_nil.
Qed.

(* ------------------------------------------------------------------ *)
(** ** The registers of the index *)
(* ------------------------------------------------------------------ *)

Lemma map_header_updNth : forall (f : ClassDef -> ClassDef) l n,
  (forall c, classHeader (f c) = classHeader c) ->
  map classHeader (updNth l n f) = map classHeader l.
Proof.
  intros f. induction l as [|x l IH]; intros [|n] Hf; simpl;
    try reflexivity.
  - rewrite Hf. reflexivity.
  - rewrite IH by exact Hf. reflexivity.
Qed.

Lemma registersOf_updClass : forall st r f,
  (forall c, classHeader (f c) = classHeader c) ->
  registersOf (updClass st r f) = registersOf st.
Proof.
  intros st r f Hf. unfold registersOf, updClass. simpl.
  rewrite map_header_updNth by exact Hf. reflexivity.
Qed.

Lemma registersOf_updFile : forall st k f,
  registersOf (updFile st k f) = registersOf st.
Proof.
  intros st k f. unfold updFile.
  destruct (map_get (ix_fileIndex st) k); reflexivity.
Qed.

Lemma registersOf_set_lastDocComment : forall st v,
  registersOf (set_lastDocComment st v) = registersOf st.
Proof. reflexivity. Qed.

Lemma registersOf_set_currentClass : forall st v,
  registersOf (set_currentClass st v) = registersOf st.
Proof. reflexivity. Qed.

Lemma registersOf_set_currentNamespace : forall st v,
  registersOf (set_currentNamespace st v) = registersOf st.
Proof. reflexivity. Qed.

Lemma registersOf_set_currentFile : forall st v,
  registersOf (set_currentFile st v) = registersOf st.
Proof. reflexivity. Qed.

Lemma registersOf_set_currentFunction : forall st v,
  registersOf (set_currentFunction st v) = registersOf st.
Proof. reflexivity. Qed.

Lemma registersOf_set_fileIndex : forall st v,
  registersOf (set_fileIndex st v) = registersOf st.
Proof. reflexivity. Qed.

Lemma registersOf_set_done : forall st v,
  registersOf (set_done st v) = registersOf st.
Proof. reflexivity. Qed.

Create Rewrite HintDb registers.
#[local] Hint Rewrite registersOf_updFile registersOf_set_lastDocComment
  registersOf_set_currentClass registersOf_set_currentNamespace
  registersOf_set_currentFile registersOf_set_currentFunction
  registersOf_set_fileIndex registersOf_set_done : registers.

Ltac registers :=
  repeat (first [ progress (autorewrite with registers)
                | rewrite registersOf_updClass by reflexivity
                | progress cbn [fst snd]
                | break_match ]);
  try reflexivity.

Lemma parseUse_registers : forall st tokens start fileKey,
  registersOf (fst (parseUse st tokens start fileKey)) = registersOf st.
Proof. intros. unfold parseUse. registers. Qed.

Lemma propertyVarsLoop_registers : forall fuel st tokens i modifiers,
  registersOf (fst (propertyVarsLoop fuel st tokens i modifiers))
  = registersOf st.
Proof.
  induction fuel as [|fuel IH]; intros; simpl; [reflexivity|].
  registers; rewrite IH; registers.
Qed.

Lemma parseProperty_registers : forall st tokens start fileKey,
  registersOf (fst (parseProperty st tokens start fileKey)) = registersOf st.
Proof.
  intros. unfold parseProperty. registers.
  all: match goal with
    | H : propertyVarsLoop _ _ _ _ _ = (?s', _) |- _ =>
        rewrite (pair_fst H); apply propertyVarsLoop_registers
    end.
Qed.

(** A state with the same registers and headers is consistent as well. *)
Lemma consistent_same : forall st st',
  registersOf st' = registersOf st ->
  consistentRegisters st -> consistentRegisters st'.
Proof.
  intros st st' Hv [H1 [H2 H3]]. unfold registersOf in Hv.
  injection Hv as Hc Hf Hn Hh.
  split; [|split].
  - intros key r Hin. rewrite Hc in Hin.
    destruct (H1 key r Hin) as [cd [Hd [Hfull Hq]]].
    assert (Hr : option_map classHeader (deref st' r)
                 = option_map classHeader (deref st r)).
    { unfold deref. rewrite <- !nth_error_map, Hh. reflexivity. }
    rewrite Hd in Hr. destruct (deref st' r) as [cd'|]; [|discriminate].
    simpl in Hr. unfold classHeader in Hr. injection Hr as E1 E2 E3.
    exists cd'. rewrite E1, E2, E3. auto.
  - intros key fd Hin. rewrite Hf in Hin. apply (H2 key fd Hin).
  - intros ns members full Hin. rewrite Hn in Hin. apply (H3 ns members full Hin).
Qed.

Lemma In_map_set : forall (V : Type) (m : JsMap V) key val k v,
  In (k, v) (map_set m key val) -> (k, v) = (key, val) \/ In (k, v) m.
Proof.
  intros V m key val k v. induction m as [|[k' v'] m IH]; simpl.
  - intros [H | []]. left. symmetry. exact H.
  - destruct (str_eqb k' key) eqn:E.
    + apply str_eqb_eq in E. subst k'.
      intros [H | H]; [left; symmetry; exact H | right; right; exact H].
    + intros [H | H]; [right; left; exact H|].
      destruct (IH H) as [H' | H']; [left; exact H' | right; right; exact H'].
Qed.

Lemma parseNamespace_consistent : forall st tokens start fileKey,
  consistentRegisters st ->
  consistentRegisters (fst (parseNamespace st tokens start fileKey)).
Proof.
  intros st tokens start fileKey H. unfold parseNamespace.
  destruct (collectUntil _ _ _ _ _) as [i namespaceName].
  destruct (nonEmpty namespaceName); [|exact H]. cbn [fst].
  match goal with
  | |- context [map_has ?m ?k] => destruct (map_has m k)
  end.
  - apply (consistent_same (st := st)); [|exact H]. registers.
  - match goal with
    | |- consistentRegisters (set_namespaces ?s ?v) =>
        assert (Hs : consistentRegisters s)
          by (apply (consistent_same (st := st)); [registers | exact H]);
        set (s0 := s) in *
    end.
    destruct Hs as [H1 [H2 H3]]. split; [exact H1|]. split; [exact H2|].
    intros ns members full Hin Hfull.
    cbn [ix_namespaces set_namespaces] in Hin.
    apply In_map_set in Hin. destruct Hin as [Hin | Hin].
    + injection Hin as _ ->. contradiction.
    + apply (H3 ns members full Hin Hfull).
Qed.

Lemma parseFunction_consistent : forall st tokens start fileKey,
  consistentRegisters st ->
  consistentRegisters (fst (parseFunction st tokens start fileKey)).
Proof.
  intros st tokens start fileKey H. unfold parseFunction.
  destruct (negb _).
  { destruct (_ <=? _); exact H. }
  destruct (paramLoop _ _ _ _ _ _ _) as [i1 parameters].
  match goal with
  | |- context [let '(_, _) := ?p in _] => destruct p as [i2 returnType]
  end.
  cbn [fst].
  destruct (ix_currentClass st) as [r|] eqn:Ec.
  - apply (consistent_same (st := st)); [|exact H]. registers.
  - match goal with
    | |- consistentRegisters
           (set_lastDocComment
              (updFile (set_functions _ (map_set _ ?k ?d)) _ _) _) =>
        set (key := k); set (def := d)
    end.
    apply (consistent_same
             (st := set_functions st (map_set (ix_functions st) key def)));
      [registers|].
    destruct H as [H1 [H2 H3]]. split; [exact H1|]. split; [|exact H3].
    intros k fd Hin. cbn [ix_functions set_functions] in Hin.
    apply In_map_set in Hin. destruct Hin as [Hin | Hin];
      [|apply (H2 k fd Hin)].
    injection Hin as -> ->. subst def. cbn [fn_isMethod fn_class fn_name].
    split; [reflexivity|]. split; [reflexivity|].
    exists (ix_currentNamespace st). reflexivity.
Qed.

Lemma classBodyLoop_consistent :
  forall fuel st tokens i braceDepth fileKey,
    consistentRegisters st ->
    consistentRegisters
      (fst (classBodyLoop fuel st tokens i braceDepth fileKey)).
Proof.
  induction fuel as [|fuel IH]; intros st tokens i braceDepth fileKey H;
    simpl; [exact H|].
  destruct (nth_error tokens i) as [tk|]; [|exact H].
  destruct (braceDepth =? 0); [exact H|].
  destruct (valueIs tk (lit "{")); [apply IH; exact H|].
  destruct (valueIs tk (lit "}")); [apply IH; exact H|].
  destruct (typeIs tk T_DOC_COMMENT); [apply IH; exact H|].
  destruct (typeIs tk T_FUNCTION).
  { pose proof (@parseFunction_consistent st tokens i fileKey H) as Hf.
    destruct (parseFunction st tokens i fileKey) as [st1 i1].
    apply IH. exact Hf. }
  destruct (_ || _).
  { pose proof (@consistent_same st
                  (fst (parseProperty st tokens i fileKey))
                  (parseProperty_registers st tokens i fileKey) H) as Hp.
    destruct (parseProperty st tokens i fileKey) as [st1 i1].
    apply IH. exact Hp. }
  apply IH. exact H.
Qed.

Lemma register_consistent : forall st classData,
  cls_fullName classData
  = qualifiedName (cls_namespace classData) (cls_name classData) ->
  consistentRegisters st ->
  consistentRegisters
    (set_classes (set_heap st (ix_heap st ++ [classData]))
       (map_set (ix_classes st) (cls_fullName classData)
          (length (ix_heap st)))).
Proof.
  intros st cd Hq [H1 [H2 H3]]. split; [|split; [exact H2 | exact H3]].
  intros key r Hin. cbn [ix_classes set_classes] in Hin.
  unfold deref. cbn [ix_heap set_classes set_heap].
  apply In_map_set in Hin. destruct Hin as [Hin | Hin].
  - injection Hin as -> ->. exists cd.
    rewrite nth_error_app2 by lia. rewrite Nat.sub_diag.
    split; [reflexivity|]. split; [reflexivity | exact Hq].
  - destruct (H1 key r Hin) as [cd0 [Hd Hrest]]. exists cd0.
    split; [|exact Hrest]. unfold deref in Hd.
    rewrite nth_error_app1; [exact Hd|].
    apply nth_error_Some. congruence.
Qed.

Lemma namespace_add_consistent : forall st namespace members name,
  map_get (ix_namespaces st) namespace = Some members ->
  consistentRegisters st ->
  consistentRegisters
    (set_namespaces st
       (map_set (ix_namespaces st) namespace
          (set_add members (namespace ++ [BACKSLASH] ++ name)))).
Proof.
  intros st ns members name Hget [H1 [H2 H3]].
  split; [exact H1|]. split; [exact H2|].
  intros ns' members' full Hin Hfull.
  cbn [ix_namespaces set_namespaces] in Hin.
  apply In_map_set in Hin. destruct Hin as [Hin | Hin];
    [|apply (H3 ns' members' full Hin Hfull)].
  injection Hin as -> ->. apply set_add_In in Hfull.
  destruct Hfull as [-> | Hfull]; [exists name; reflexivity|].
  apply (H3 ns members full (map_get_In _ _ Hget) Hfull).
Qed.

Lemma parseClass_consistent : forall st tokens start fileKey,
  consistentRegisters st ->
  consistentRegisters (fst (parseClass st tokens start fileKey)).
Proof.
  intros st tokens start fileKey H. unfold parseClass.
  destruct (nth_error tokens (scanWhile _ _ _ _)) as [nameToken|];
    [|exact H].
  destruct (negb (typeIs nameToken T_STRING)); [exact H|].
  destruct (classHeaderLoop _ _ _ _ _) as [[i ext] impl].
  match goal with
  | |- context [set_lastDocComment ?S None] =>
      set (stR := set_lastDocComment S None)
  end.
  assert (HR : consistentRegisters stR).
  { subst stR.
    match goal with
    | |- context [mkClass ?a ?b ?c ?d ?e ?f ?g ?h ?i ?j ?k ?l ?m ?n] =>
        set (cd := mkClass a b c d e f g h i j k l m n) in *
    end.
    assert (Hq : cls_fullName cd
                 = qualifiedName (cls_namespace cd) (cls_name cd))
      by reflexivity.
    pose proof (register_consistent cd Hq H) as Hreg.
    change (cls_fullName cd)
      with (if nonEmpty (ix_currentNamespace st)
            then ix_currentNamespace st ++ [BACKSLASH] ++ tok_value nameToken
            else tok_value nameToken) in Hreg.
    match type of Hreg with
    | consistentRegisters ?s => set (s1 := s) in *
    end.
    apply (consistent_same (st := match
               (if nonEmpty (ix_currentNamespace st)
                then map_get (ix_namespaces st) (ix_currentNamespace st)
                else None) with
             | Some members =>
                 set_namespaces s1
                   (map_set (ix_namespaces s1) (ix_currentNamespace st)
                      (set_add members
                         (ix_currentNamespace st ++ [BACKSLASH]
                          ++ tok_value nameToken)))
             | None => s1
             end)).
    - cbn [ix_currentNamespace set_currentClass].
      unfold updFile. subst s1.
      cbn [ix_fileIndex set_classes set_heap ix_currentNamespace
           ix_namespaces set_currentClass set_fileIndex].
      destruct (map_get (ix_fileIndex st) fileKey);
        cbn [ix_currentNamespace ix_namespaces set_currentClass
             set_fileIndex set_classes set_heap];
        destruct (nonEmpty (ix_currentNamespace st));
        try reflexivity;
        destruct (map_get (ix_namespaces st) (ix_currentNamespace st));
        reflexivity.
    - destruct (nonEmpty (ix_currentNamespace st)); [|exact Hreg].
      destruct (map_get (ix_namespaces st) (ix_currentNamespace st))
        as [members|] eqn:Eg; [|exact Hreg].
      apply (@namespace_add_consistent s1); [exact Eg | exact Hreg]. }
  clearbody stR.
  destruct (nth_error tokens i) as [t|]; [|exact HR].
  destruct (negb (valueIs t (lit "{"))); [exact HR|].
  match goal with
  | |- context [let '(_, _) := ?p in _] => destruct p as [bd i']
  end.
  pose proof (@classBodyLoop_consistent (length tokens) stR tokens i' bd
                fileKey HR) as Hb.
  destruct (classBodyLoop _ _ _ _ _ _) as [st2 i2].
  cbn [fst] in *. apply (consistent_same (st := st2)); [reflexivity|].
  exact Hb.
Qed.

Lemma parseTokensLoop_consistent : forall fuel st tokens i fileKey,
  consistentRegisters st ->
  consistentRegisters (parseTokensLoop fuel st tokens i fileKey).
Proof.
  induction fuel as [|fuel IH]; intros st tokens i fileKey H; simpl;
    [exact H|].
  destruct (nth_error tokens i) as [token|]; [|exact H].
  pose proof (@parseNamespace_consistent st tokens i fileKey H) as Hn.
  pose proof (@consistent_same st (fst (parseUse st tokens i fileKey))
                (parseUse_registers st tokens i fileKey) H) as Hu.
  pose proof (@parseClass_consistent st tokens i fileKey H) as Hc.
  pose proof (@parseFunction_consistent st tokens i fileKey H) as Hf.
  destruct (parseNamespace st tokens i fileKey) as [st1 i1].
  destruct (parseUse st tokens i fileKey) as [st2 i2].
  destruct (parseClass st tokens i fileKey) as [st3 i3].
  destruct (parseFunction st tokens i fileKey) as [st4 i4].
  destruct (tok_type token); apply IH; assumption.
Qed.

Lemma processPhpFile_consistent : forall st filePath content now,
  consistentRegisters st ->
  consistentRegisters (processPhpFile st filePath content now).
Proof.
  intros st filePath content now H. unfold processPhpFile, parseTokens.
  destruct content as [content|]; [|exact H].
  apply parseTokensLoop_consistent.
  apply (consistent_same (st := st)); [reflexivity | exact H].
Qed.

Lemma processFiles_consistent : forall batch st,
  consistentRegisters st -> consistentRegisters (processFiles st batch).
Proof.
  unfold processFiles.
  induction batch as [|[[p c] now] batch IH]; intros st H; simpl;
    [exact H|].
  apply IH. apply processPhpFile_consistent. exact H.
Qed.

Lemma batchLoop_consistent : forall fuel st files i total reports,
  consistentRegisters st ->
  consistentRegisters (fst (batchLoop fuel st files i total reports)).
Proof.
  induction fuel as [|fuel IH]; intros st files i total reports H; simpl;
    [exact H|].
  destruct files as [|f files]; [exact H|].
  apply IH.
  match goal with
  | |- consistentRegisters (set_processedFiles ?s _) =>
      apply (consistent_same (st := s)); [reflexivity|]
  end.
  apply processFiles_consistent. exact H.
Qed.

Lemma clearIndex_consistent : forall st, consistentRegisters (clearIndex st).
Proof.
  intros st. unfold consistentRegisters, clearIndex. simpl.
  split; [|split]; intros; contradiction.
Qed.

Lemma OnlyAdds_consistent : forall st st',
  OnlyAdds st st' -> consistentRegisters st -> consistentRegisters st'.
Proof.
  intros st st' [Hmaps [_ Hkeep]] [H1 [H2 H3]].
  injection Hmaps as Hc Hf Hn _.
  split; [|split].
  - intros key r Hin. rewrite Hc in Hin.
    destruct (H1 key r Hin) as [cd [Hd [Hfull Hq]]].
    destruct (Hkeep r cd Hd) as [cd' [Hd' [Hsame _]]].
    injection Hsame as E1 E2 E3 _.
    exists cd'. rewrite E1, E2, E3. auto.
  - intros key fd Hin. rewrite Hf in Hin. apply (H2 key fd Hin).
  - intros ns members full Hin. rewrite Hn in Hin.
    apply (H3 ns members full Hin).
Qed.

Lemma indexPhpFiles_consistent : forall depth st files,
  consistentRegisters (outcomeState (fst (indexPhpFiles depth st files))).
Proof.
  intros depth st files. unfold indexPhpFiles.
  destruct files as [files|]; [|apply clearIndex_consistent].
  match goal with
  | |- context [batchLoop ?f ?s ?fs ?i ?t ?r] =>
      assert (Hb : consistentRegisters (fst (batchLoop f s fs i t r)))
  end.
  { apply batchLoop_consistent.
    apply (consistent_same (st := clearIndex st));
      [reflexivity | apply clearIndex_consistent]. }
  destruct (batchLoop _ _ _ _ _ _) as [st1 reports]. cbn [fst] in *.
  apply (OnlyAdds_consistent (st := st1)); [|exact Hb].
  apply postProcessLoop_OnlyAdds.
Qed.

Lemma getClassCompletions_registers : forall lc st prefix,
  registersOf (snd (getClassCompletions lc st prefix)) = registersOf st.
Proof. intros. unfold getClassCompletions. registers. Qed.

Lemma getMethodCompletions_registers : forall lc st prefix context,
  registersOf (snd (getMethodCompletions lc st prefix context))
  = registersOf st.
Proof. intros. unfold getMethodCompletions. registers. Qed.

Lemma getStaticMethodCompletions_registers : forall lc st prefix context,
  registersOf (snd (getStaticMethodCompletions lc st prefix context))
  = registersOf st.
Proof. intros. unfold getStaticMethodCompletions. registers. Qed.

Lemma getNamespaceCompletions_registers : forall lc st prefix,
  registersOf (snd (getNamespaceCompletions lc st prefix)) = registersOf st.
Proof. intros. unfold getNamespaceCompletions. registers. Qed.

Lemma getFunctionCompletions_registers : forall lc st prefix,
  registersOf (snd (getFunctionCompletions lc st prefix)) = registersOf st.
Proof. intros. unfold getFunctionCompletions. registers. Qed.

Lemma getDefaultCompletions_registers : forall lc st prefix,
  registersOf (snd (getDefaultCompletions lc st prefix)) = registersOf st.
Proof.
  intros. unfold getDefaultCompletions.
  pose proof (getClassCompletions_registers lc st prefix) as H1.
  destruct (getClassCompletions lc st prefix) as [c1 st1].
  pose proof (getFunctionCompletions_registers lc st1 prefix) as H2.
  destruct (getFunctionCompletions lc st1 prefix) as [c2 st2].
  cbn [snd] in *. congruence.
Qed.

(** X23: the registers of the index are consistent in every state the
    indexer can be in, whatever was indexed and whichever calls ended by
    an error.  Every key of the class map refers to a class object and is
    the full name of that class, its short name qualified by its
    namespace; every key of the function map is the name of its function
    qualified by a namespace, and that function is not a method; and
    every member of a namespace of the namespace map is a name qualified
    by that namespace. *)
Theorem registers_consistent :
  forall st : Indexer, reachable st -> consistentRegisters st.
Proof.
  induction 1.
  - split; [|split]; intros; contradiction.
  - exact IHreachable.
  - apply clearIndex_consistent.
  - apply indexPhpFiles_consistent.
  - apply processPhpFile_consistent. exact IHreachable.
  - apply parseTokensLoop_consistent. exact IHreachable.
  - apply parseNamespace_consistent. exact IHreachable.
  - apply (consistent_same (parseUse_registers _ _ _ _) IHreachable).
  - apply parseClass_consistent. exact IHreachable.
  - apply (consistent_same (parseProperty_registers _ _ _ _) IHreachable).
  - apply parseFunction_consistent. exact IHreachable.
  - apply (OnlyAdds_consistent (postProcessLoop_OnlyAdds _ _ _) IHreachable).
  - apply (OnlyAdds_consistent (resolveInheritance_OnlyAdds _ _ _)
             IHreachable).
  - apply (consistent_same (getClassCompletions_registers _ _ _)
             IHreachable).
  - apply (consistent_same (getMethodCompletions_registers _ _ _ _)
             IHreachable).
  - apply (consistent_same (getStaticMethodCompletions_registers _ _ _ _)
             IHreachable).
  - apply (consistent_same (getNamespaceCompletions_registers _ _ _)
             IHreachable).
  - apply (consistent_same (getFunctionCompletions_registers _ _ _)
             IHreachable).
  - apply (consistent_same (getDefaultCompletions_registers _ _ _)
             IHreachable).
Qed.

Lemma registers_consistent_witness :
  let st :=
    processPhpFile newIndexer (lit "src/A.php")
      (Some (lit "<?php namespace App; class A { function run(){} } function help(){}"))
      0%Z in
  consistentRegisters st
  /\ map fst (ix_classes st) = [lit "App\A"]
  /\ map fst (ix_functions st) = [lit "App\help"]
  /\ ix_namespaces st = [(lit "App", [lit "App\A"])].
Proof.
  intros st. split; [|vm_compute; auto].
  apply (@registers_consistent st).
  apply reach_processPhpFile. apply reach_new.
Defined.

(* ------------------------------------------------------------------ *)
(** ** Parameters: written and read back *)
(* ------------------------------------------------------------------ *)

Lemma dropWhile_length : forall (A : Type) (p : A -> bool) l,
  length (dropWhile p l) <= length l.
Proof.
  intros A p. induction l as [|x l IH]; simpl; [lia|].
  destruct (p x); simpl; lia.
Qed.

Lemma dropWhile_fixed : forall (A : Type) (p : A -> bool) l,
  length l <= length (dropWhile p l) -> dropWhile p l = l.
Proof.
  intros A p [|x l] H; [reflexivity|]. simpl in *.
  destruct (p x); [|reflexivity].
  pose proof (dropWhile_length p l). lia.
Qed.

Lemma trim_fixed : forall d, trim d = d -> trimStart d = d /\ trimEnd d = d.
Proof.
  intros d H.
  assert (Hs : trimStart d = d).
  { unfold trimStart. apply dropWhile_fixed.
    apply (f_equal (@length _)) in H. unfold trim, trimEnd in H.
    rewrite length_rev in H.
    pose proof (dropWhile_length isWhitespace (rev (trimStart d))) as H1.
    rewrite length_rev in H1. unfold trimStart in *. lia. }
  split; [exact Hs|]. unfold trim in H. rewrite Hs in H. exact H.
Qed.

Lemma dropWhile_app_solid : forall (A : Type) (p : A -> bool) a b,
  dropWhile p a <> [] -> dropWhile p (a ++ b) = dropWhile p a ++ b.
Proof.
  intros A p. induction a as [|x a IH]; intros b H; simpl in *;
    [contradiction|].
  destruct (p x); [apply IH; exact H | reflexivity].
Qed.

Lemma trimEnd_app : forall s t,
  trimEnd t <> [] -> trimEnd (s ++ t) = s ++ trimEnd t.
Proof.
  intros s t H. unfold trimEnd in *. rewrite rev_app_distr.
  rewrite dropWhile_app_solid.
  - rewrite rev_app_distr, rev_involutive. reflexivity.
  - intros E. apply H. rewrite E. reflexivity.
Qed.

Lemma trimEnd_space : forall s, trimEnd (s ++ lit " ") = trimEnd s.
Proof.
  intros s. unfold trimEnd. rewrite rev_app_distr. reflexivity.
Qed.

Lemma noSpace_trimEnd : forall s, noSpace s = true -> trimEnd s = s.
Proof.
  intros s H. pose proof (@noSpace_trim s H) as Ht.
  apply trim_fixed in Ht. tauto.
Qed.

Lemma splitOnFrom_clean : forall c s cur,
  forallb (fun x => negb (x =? c)%N) s = true ->
  splitOnFrom c cur s = [cur ++ s].
Proof.
  intros c. induction s as [|x s IH]; intros cur H; simpl.
  - rewrite app_nil_r. reflexivity.
  - simpl in H. apply andb_true_iff in H. destruct H as [Hx Hs].
    apply negb_true_iff in Hx. rewrite Hx, IH by exact Hs.
    rewrite <- app_assoc. reflexivity.
Qed.

Lemma splitOnFrom_app : forall c a b cur,
  forallb (fun x => negb (x =? c)%N) a = true ->
  splitOnFrom c cur (a ++ c :: b) = (cur ++ a) :: splitOnFrom c [] b.
Proof.
  intros c. induction a as [|x a IH]; intros b cur H; simpl.
  - rewrite N.eqb_refl, app_nil_r. reflexivity.
  - simpl in H. apply andb_true_iff in H. destruct H as [Hx Hs].
    apply negb_true_iff in Hx. rewrite Hx, IH by exact Hs.
    rewrite <- app_assoc. reflexivity.
Qed.

Lemma splitWsFrom_sep : forall s cur,
  noSpace s = true -> splitWsFrom true cur s = [cur ++ s].
Proof.
  intros [|x s] cur H; simpl.
  - rewrite app_nil_r. reflexivity.
  - unfold noSpace in H. simpl in H. apply andb_true_iff in H.
    destruct H as [Hx Hs]. apply negb_true_iff in Hx. rewrite Hx.
    rewrite splitWsFrom_noSpace by exact Hs.
    rewrite <- app_assoc. reflexivity.
Qed.

Lemma splitWsFrom_two : forall a b cur,
  noSpace a = true -> noSpace b = true ->
  splitWsFrom false cur (a ++ lit " " ++ b) = [cur ++ a; b].
Proof.
  induction a as [|x a IH]; intros b cur Ha Hb.
  - simpl. rewrite splitWsFrom_sep by exact Hb. rewrite app_nil_r.
    reflexivity.
  - unfold noSpace in Ha. simpl in Ha. apply andb_true_iff in Ha.
    destruct Ha as [Hx Ha]. apply negb_true_iff in Hx.
    pose proof (IH b (cur ++ [x]) Ha Hb) as E.
    simpl in *. rewrite Hx, E, <- app_assoc. reflexivity.
Qed.

(** The text of a parameter from its name on, as [formatParameter] writes
    it, read by the second half of [parseParameter]: the split at the
    equals sign. *)
Lemma splitOn_default : forall main defaultValue,
  noEquals main = true ->
  match defaultValue with
  | Some d => noEquals d = true
  | None => True
  end ->
  splitOn 61%N
    (main ++ match defaultValue with
             | Some d => lit " = " ++ d
             | None => []
             end)
  = match defaultValue with
    | Some d => [main ++ lit " "; lit " " ++ d]
    | None => [main]
    end.
Proof.
  intros main [d|] Hm Hd; unfold splitOn.
  - change (main ++ lit " = " ++ d)
      with (main ++ lit " " ++ 61%N :: lit " " ++ d).
    rewrite app_assoc, splitOnFrom_app.
    + rewrite splitOnFrom_clean; [reflexivity|].
      unfold noEquals in Hd. simpl. exact Hd.
    + rewrite forallb_app. apply andb_true_iff.
      split; [exact Hm | reflexivity].
  - rewrite app_nil_r. apply splitOnFrom_clean. exact Hm.
Qed.

Lemma trimEnd_cons : forall c s,
  trimEnd s = s -> s <> [] -> trimEnd (c :: s) = c :: s.
Proof.
  intros c s H Hne. change (c :: s) with ([c] ++ s).
  rewrite trimEnd_app; rewrite H; [reflexivity | exact Hne].
Qed.

Lemma trim_head : forall c s,
  isWhitespace c = false -> trimEnd (c :: s) = c :: s ->
  trim (c :: s) = c :: s.
Proof.
  intros c s Hc H. unfold trim, trimStart. simpl. rewrite Hc. exact H.
Qed.

(** A text that holds no mark, read by [parseParameter]: [main] is the
    text before the default value, [tokens] are its words. *)
Lemma parseParameter_plain :
  forall (main : jsstring) (defaultValue : option jsstring)
         (tokens : list jsstring),
    let text :=
      main ++ match defaultValue with
              | Some d => lit " = " ++ d
              | None => []
              end in
    trim text = text ->
    startsWith text (lit "&") = false ->
    startsWith text (lit "...") = false ->
    noEquals main = true ->
    match defaultValue with
    | Some d => noEquals d = true /\ trim d = d
    | None => True
    end ->
    trim main = main ->
    splitWs main = tokens ->
    parseParameter text
    = mkParam
        (let name :=
           if 2 <=? length tokens then nth (length tokens - 1) tokens []
           else if length tokens =? 1 then nth 0 tokens []
           else [] in
         if startsWith name [DOLLAR] then substringFrom name 1 else name)
        (if 2 <=? length tokens then Some (nth 0 tokens []) else None)
        defaultValue false false.
Proof.
  intros main dflt tokens text Htrim Hamp Hdots Hmain Hd Hm Htok.
  unfold parseParameter. rewrite Htrim, Hamp. cbv iota. rewrite Hdots.
  cbv iota. cbv zeta. unfold text.
  rewrite (@splitOn_default main dflt Hmain)
    by (destruct dflt; tauto).
  destruct dflt as [d|].
  - destruct Hd as [_ Hd].
    cbn [nth length Nat.ltb Nat.leb].
    assert (E1 : trim (main ++ lit " ") = main).
    { apply trim_fixed in Hm. destruct Hm as [Hs He].
      destruct main as [|c main']; [reflexivity|].
      unfold trim.
      assert (Hs' : trimStart ((c :: main') ++ lit " ")
                    = (c :: main') ++ lit " ").
      { unfold trimStart in *. simpl in *.
        destruct (isWhitespace c); [|reflexivity].
        exfalso. pose proof (dropWhile_length isWhitespace main') as Hl.
        apply (f_equal (@length _)) in Hs. simpl in Hs. lia. }
      rewrite Hs', trimEnd_space. exact He. }
    assert (E2 : trim (lit " " ++ d) = d) by exact Hd.
    rewrite E1, E2, Htok. reflexivity.
  - cbn [nth length Nat.ltb Nat.leb]. rewrite Hm, Htok. reflexivity.
Qed.

(** The marks: a text after an ampersand, and after three dots. *)
Lemma parseParameter_reference : forall s,
  trim (38%N :: s) = 38%N :: s -> trim s = s ->
  startsWith s (lit "&") = false ->
  parseParameter (38%N :: s)
  = mkParam (par_name (parseParameter s)) (par_type (parseParameter s))
      (par_defaultValue (parseParameter s)) true
      (par_isVariadic (parseParameter s)).
Proof.
  intros s H1 H2 H3.
  assert (E0 : startsWith (38%N :: s) (lit "&") = true)
    by (destruct s; reflexivity).
  unfold parseParameter. rewrite H1, H2, E0, H3. cbv iota.
  change (substringFrom (38%N :: s) 1) with s. rewrite H2.
  reflexivity.
Qed.

Lemma parseParameter_variadic : forall s,
  trim (46%N :: 46%N :: 46%N :: s) = 46%N :: 46%N :: 46%N :: s ->
  trim s = s ->
  startsWith s (lit "&") = false ->
  startsWith s (lit "...") = false ->
  parseParameter (46%N :: 46%N :: 46%N :: s)
  = mkParam (par_name (parseParameter s)) (par_type (parseParameter s))
      (par_defaultValue (parseParameter s))
      (par_isReference (parseParameter s)) true.
Proof.
  intros s H1 H2 H3 H4.
  assert (E0 : startsWith (46%N :: 46%N :: 46%N :: s) (lit "...") = true)
    by (destruct s; reflexivity).
  unfold parseParameter. rewrite H1, H2, H3.
  change (startsWith (46%N :: 46%N :: 46%N :: s) (lit "&")) with false.
  cbv iota. rewrite E0, H4. cbv iota.
  change (substringFrom (46%N :: 46%N :: 46%N :: s) 3) with s. rewrite H2.
  reflexivity.
Qed.


Lemma startsWith_nil : forall s, startsWith s [] = true.
Proof. destruct s; reflexivity. Qed.

Lemma startsWith_dots_space : forall t rest,
  startsWith t (lit "...") = false ->
  startsWith (t ++ lit " " ++ rest) (lit "...") = false.
Proof.
  intros [|a [|b [|c t]]] rest H; simpl in *.
  - reflexivity.
  - apply andb_false_r.
  - rewrite !andb_false_r. reflexivity.
  - rewrite startsWith_nil in *. exact H.
Qed.

(** X24: [parseParameter] reads back what [formatParameter] writes.  For
    a parameter whose name holds no white space and no equals sign, whose
    type (if any) is not empty, holds neither, does not begin with an
    ampersand or with three dots and comes without the reference and
    variadic marks, and whose default value (if any) is not empty, has no
    white space at its ends and holds no equals sign, parsing the
    signature text of the parameter gives the parameter itself. *)
Theorem parseParameter_formatParameter :
  forall (param : ParameterDef) (index : nat),
    readableParameter param = true ->
    parseParameter (fst (formatParameter param index)) = param.
Proof.
  intros [name type dflt ref var] index H.
  unfold readableParameter in H. cbn [par_name par_type par_defaultValue
    par_isReference par_isVariadic] in H.
  apply andb_true_iff in H. destruct H as [H Hdflt].
  apply andb_true_iff in H. destruct H as [H Htype].
  apply andb_true_iff in H. destruct H as [Hname Hnameq].
  set (D := match dflt with
            | Some d => lit " = " ++ d
            | None => []
            end).
  assert (Hd : match dflt with
               | Some d => noEquals d = true /\ trim d = d
               | None => True
               end).
  { destruct dflt as [d|]; [|exact I].
    apply andb_true_iff in Hdflt. destruct Hdflt as [Hdflt Hdq].
    apply andb_true_iff in Hdflt. destruct Hdflt as [_ Hdt].
    apply str_eqb_eq in Hdt. split; assumption. }
  assert (Hbody : trimEnd (36%N :: name) = 36%N :: name /\ noSpace (36%N :: name) = true).
  { assert (Hn : noSpace (36%N :: name) = true)
      by (unfold noSpace in *; simpl; exact Hname).
    split; [apply noSpace_trimEnd; exact Hn | exact Hn]. }
  assert (Htail : trimEnd (36%N :: name ++ D) = 36%N :: name ++ D).
  { subst D. destruct dflt as [d|].
    - destruct Hd as [_ Hd]. apply trim_fixed in Hd.
      apply andb_true_iff in Hdflt. destruct Hdflt as [Hdflt _].
      apply andb_true_iff in Hdflt. destruct Hdflt as [Hne _].
      change (36%N :: name ++ lit " = " ++ d)
        with ((36%N :: name) ++ lit " = " ++ d).
      rewrite app_assoc, trimEnd_app; destruct Hd as [_ ->];
        [reflexivity|].
      destruct d; [discriminate Hne | discriminate].
    - rewrite app_nil_r. apply Hbody. }
  assert (Hplain : parseParameter (36%N :: name ++ D)
                   = mkParam name None dflt false false).
  { change (36%N :: name ++ D) with ((36%N :: name) ++ D). subst D.
    pose proof (@parseParameter_plain (36%N :: name) dflt [36%N :: name])
      as P.
    cbv zeta in P.
    match type of P with
    | _ -> _ -> _ -> _ -> _ -> _ -> _ -> parseParameter ?x = _ =>
        match goal with
        | |- _ = ?r => change (parseParameter x = r)
        end
    end.
    rewrite P; clear P.
    - cbn [length Nat.leb Nat.eqb nth]. unfold substringFrom.
      cbn [startsWith N.eqb Pos.eqb DOLLAR andb skipn].
      rewrite startsWith_nil. reflexivity.
    - apply trim_head; [reflexivity | exact Htail].
    - reflexivity.
    - reflexivity.
    - unfold noEquals in *. simpl. exact Hnameq.
    - exact Hd.
    - apply noSpace_trim. apply Hbody.
    - unfold splitWs. apply (@splitWsFrom_noSpace (36%N :: name) []).
      apply Hbody. }
  unfold formatParameter.
  cbn [fst par_name par_type par_defaultValue par_isReference
       par_isVariadic].
  fold D.
  destruct type as [t|].
  - apply andb_true_iff in Htype. destruct Htype as [Htype Hvar].
    apply andb_true_iff in Htype. destruct Htype as [Htype Href].
    apply andb_true_iff in Htype. destruct Htype as [Htype Hdots].
    apply andb_true_iff in Htype. destruct Htype as [Htype Hamp].
    apply andb_true_iff in Htype. destruct Htype as [Htype Hteq].
    apply andb_true_iff in Htype. destruct Htype as [Hne Hts].
    apply negb_true_iff in Hvar, Href, Hdots, Hamp. subst ref var.
    rewrite Hne. cbn [app].
    destruct t as [|c t']; [discriminate Hne|].
    assert (Hc : isWhitespace c = false).
    { unfold noSpace in Hts. simpl in Hts. apply andb_true_iff in Hts.
      destruct Hts as [Hc _]. apply negb_true_iff in Hc. exact Hc. }
    assert (Etext : ((c :: t') ++ lit " ") ++ lit "$" ++ name ++ D
                    = ((c :: t') ++ lit " " ++ 36%N :: name) ++ D).
    { rewrite <- !app_assoc. reflexivity. }
    rewrite Etext. subst D.
    pose proof (@parseParameter_plain
                  ((c :: t') ++ lit " " ++ 36%N :: name) dflt
                  [c :: t'; 36%N :: name]) as P.
    cbv zeta in P.
    match type of P with
    | _ -> _ -> _ -> _ -> _ -> _ -> _ -> parseParameter ?x = _ =>
        match goal with
        | |- _ = ?r => change (parseParameter x = r)
        end
    end.
    rewrite P; clear P.
    + cbn [length Nat.leb Nat.eqb nth Nat.sub]. unfold substringFrom.
      cbn [startsWith N.eqb Pos.eqb DOLLAR andb skipn].
      rewrite startsWith_nil. reflexivity.
    + replace (((c :: t') ++ lit " " ++ 36%N :: name)
               ++ match dflt with
                  | Some d => lit " = " ++ d
                  | None => []
                  end)
        with (c :: (t' ++ lit " ")
                   ++ 36%N :: name
                   ++ match dflt with
                      | Some d => lit " = " ++ d
                      | None => []
                      end)
        by (cbn [app]; rewrite <- !app_assoc; reflexivity).
      apply trim_head; [exact Hc|].
      change (c :: (t' ++ lit " ")
                   ++ 36%N :: name
                   ++ match dflt with
                      | Some d => lit " = " ++ d
                      | None => []
                      end)
        with ((c :: t' ++ lit " ")
              ++ 36%N :: name
              ++ match dflt with
                 | Some d => lit " = " ++ d
                 | None => []
                 end).
      rewrite trimEnd_app; rewrite Htail; [reflexivity | discriminate].
    + cbn [app]. cbn [app] in Hamp.
      destruct (c =? 38)%N eqn:E38.
      * simpl in Hamp. rewrite E38, startsWith_nil in Hamp. discriminate.
      * simpl. rewrite E38. reflexivity.
    + rewrite <- !app_assoc. apply startsWith_dots_space. exact Hdots.
    + unfold noEquals in *. rewrite forallb_app. apply andb_true_iff.
      split; [exact Hteq|]. simpl. exact Hnameq.
    + exact Hd.
    + cbn [app]. apply trim_head; [exact Hc|].
      replace (c :: t' ++ lit " " ++ 36%N :: name)
        with ((c :: t' ++ lit " ") ++ 36%N :: name)
        by (cbn [app]; rewrite <- app_assoc; reflexivity).
      destruct Hbody as [Hb _].
      rewrite trimEnd_app; rewrite Hb; [reflexivity | discriminate].
    + unfold splitWs.
      apply (@splitWsFrom_two (c :: t') (36%N :: name) []);
        [exact Hts | apply Hbody].
  - clear Htype. cbn [app].
    assert (Hs : trim (36%N :: name ++ D) = 36%N :: name ++ D)
      by (apply trim_head; [reflexivity | exact Htail]).
    assert (Hv : parseParameter (46%N :: 46%N :: 46%N :: 36%N :: name ++ D)
                 = mkParam name None dflt false true).
    { rewrite parseParameter_variadic; try reflexivity.
      - rewrite Hplain. reflexivity.
      - apply trim_head; [reflexivity|].
        repeat (apply trimEnd_cons; [|discriminate]). exact Htail.
      - exact Hs. }
    destruct ref, var.
    + match goal with
      | |- parseParameter ?x = _ =>
          change x with (38%N :: 46%N :: 46%N :: 46%N :: 36%N :: name ++ D)
      end.
      rewrite parseParameter_reference; try reflexivity.
      * rewrite Hv. reflexivity.
      * apply trim_head; [reflexivity|].
        repeat (apply trimEnd_cons; [|discriminate]). exact Htail.
      * apply trim_head; [reflexivity|].
        repeat (apply trimEnd_cons; [|discriminate]). exact Htail.
    + match goal with
      | |- parseParameter ?x = _ =>
          change x with (38%N :: 36%N :: name ++ D)
      end.
      rewrite parseParameter_reference; try reflexivity.
      * rewrite Hplain. reflexivity.
      * apply trim_head; [reflexivity|].
        repeat (apply trimEnd_cons; [|discriminate]). exact Htail.
      * exact Hs.
    + exact Hv.
    + exact Hplain.
Qed.

Lemma parseParameter_formatParameter_witness :
  let typed :=
    mkParam (lit "count") (Some (lit "int")) (Some (lit "0")) false false in
  let marked := mkParam (lit "rest") None None true true in
  (fst (formatParameter typed 0) = lit "int $count = 0"
   /\ parseParameter (lit "int $count = 0") = typed)
  /\ (fst (formatParameter marked 1) = lit "&...$rest"
      /\ parseParameter (lit "&...$rest") = marked).
Proof.
  intros typed marked. split; (split; [reflexivity|]).
  - apply (@parseParameter_formatParameter typed 0). reflexivity.
  - apply (@parseParameter_formatParameter marked 1). reflexivity.
Defined.

(* ------------------------------------------------------------------ *)
(** ** The file records *)
(* ------------------------------------------------------------------ *)

Lemma keys_map_set : forall (V : Type) (m : JsMap V) k v,
  map fst (map_set m k v) = set_add (map fst m) k.
Proof.
  intros V m k v. induction m as [|[k' v'] m IH]; [reflexivity|].
  simpl. unfold set_add, set_has. simpl.
  rewrite (str_eqb_sym k k'). destruct (str_eqb k' k) eqn:E; simpl.
  - reflexivity.
  - rewrite IH. unfold set_add, set_has.
    destruct (existsb (str_eqb k) (map fst m)); reflexivity.
Qed.

Lemma indexedFiles_updFile : forall st k f,
  indexedFiles (updFile st k f) = indexedFiles st.
Proof.
  intros st k f. unfold updFile, indexedFiles.
  destruct (map_get (ix_fileIndex st) k) as [fd|] eqn:E; [|reflexivity].
  cbn [ix_fileIndex set_fileIndex]. rewrite keys_map_set.
  unfold set_add.
  assert (H : set_has (map fst (ix_fileIndex st)) k = true).
  { apply set_has_In. apply map_get_In in E.
    apply (in_map fst) in E. exact E. }
  rewrite H. reflexivity.
Qed.

Lemma processPhpFile_indexedFiles : forall st filePath content now,
  indexedFiles (processPhpFile st filePath content now)
  = match content with
    | Some _ => set_add (indexedFiles st) (normalizeFilePath filePath)
    | None => indexedFiles st
    end.
Proof.
  intros st filePath [content|] now; [|reflexivity].
  unfold processPhpFile, parseTokens.
  rewrite (@parseTokensLoop_view _ indexedFiles); try reflexivity.
  - unfold indexedFiles. cbn [ix_fileIndex set_fileIndex set_currentFunction
      set_currentClass set_currentNamespace set_currentFile].
    apply keys_map_set.
  - apply indexedFiles_updFile.
Qed.

Lemma processFiles_indexedFiles : forall batch st,
  indexedFiles (processFiles st batch)
  = fold_left set_add (readablePaths batch) (indexedFiles st).
Proof.
  unfold processFiles.
  induction batch as [|[[p c] now] batch IH]; intros st; [reflexivity|].
  cbn [fold_left readablePaths flat_map]. rewrite fold_left_app, IH.
  rewrite processPhpFile_indexedFiles. destruct c; reflexivity.
Qed.

Lemma readablePaths_app : forall a b,
  readablePaths (a ++ b) = readablePaths a ++ readablePaths b.
Proof. intros a b. unfold readablePaths. apply flat_map_app. Qed.

Lemma batchLoop_indexedFiles : forall fuel st files i total reports,
  length files <= fuel ->
  indexedFiles (fst (batchLoop fuel st files i total reports))
  = fold_left set_add (readablePaths files) (indexedFiles st).
Proof.
  induction fuel as [|fuel IH]; intros st files i total reports Hlen.
  - destruct files; [reflexivity | simpl in Hlen; lia].
  - destruct files as [|f files]; [reflexivity|].
    cbn [batchLoop].
    remember (f :: files) as fs eqn:Efs.
    assert (Hpos : 0 < length fs <= S fuel) by (subst fs; simpl in *; lia).
    clear Efs Hlen.
    rewrite IH.
    + change (indexedFiles (set_processedFiles ?s ?v)) with (indexedFiles s).
      rewrite processFiles_indexedFiles, <- fold_left_app,
        <- readablePaths_app, firstn_skipn.
      reflexivity.
    + rewrite length_skipn. lia.
Qed.

Lemma fold_set_add_In : forall l acc x,
  In x (fold_left set_add l acc) <-> In x acc \/ In x l.
Proof.
  induction l as [|y l IH]; intros acc x; simpl; [tauto|].
  rewrite IH, set_add_In. intuition (subst; auto).
Qed.

Lemma set_add_NoDup : forall s x, NoDup s -> NoDup (set_add s x).
Proof.
  intros s x H. unfold set_add. destruct (set_has s x) eqn:E; [exact H|].
  apply NoDup_app; [exact H | constructor; [intros [] | constructor] |].
  intros y Hy [<- | []].
  apply set_has_In in Hy. congruence.
Qed.

Lemma fold_set_add_NoDup : forall l acc,
  NoDup acc -> NoDup (fold_left set_add l acc).
Proof.
  induction l as [|y l IH]; intros acc H; simpl; [exact H|].
  apply IH. apply set_add_NoDup. exact H.
Qed.

(** X25: the files that an indexing run records.  Whatever was indexed
    before and whatever the outcome of the post-processing, after
    [indexPhpFiles] the file index holds one record for each file whose
    read succeeded, under its normalized path, in the order of the first
    read; a file whose read failed has none, two paths with the same
    normalized form share one, and the [files] figure of [getStatistics]
    counts these records. *)
Theorem indexPhpFiles_file_records :
  forall (depth : nat) (st : Indexer) (files : list FileInput),
    let st' := outcomeState (fst (indexPhpFiles depth st (Some files))) in
    indexedFiles st' = fold_left set_add (readablePaths files) []
    /\ NoDup (indexedFiles st')
    /\ (forall key, In key (indexedFiles st') <-> In key (readablePaths files))
    /\ stat_files (getStatistics st') = length (indexedFiles st').
Proof.
  intros depth st files st'.
  assert (H : indexedFiles st' = fold_left set_add (readablePaths files) []).
  { subst st'. unfold indexPhpFiles.
    match goal with
    | |- context [batchLoop ?f ?s ?fs ?i ?t ?r] =>
        pose proof (@batchLoop_indexedFiles f s fs i t r (le_n _)) as Hb;
        destruct (batchLoop f s fs i t r) as [st1 reports]
    end.
    cbn [fst] in *.
    destruct (postProcessLoop_OnlyAdds depth (ix_classes st1) st1)
      as [Hmaps _].
    injection Hmaps as _ _ _ Hfiles.
    transitivity (indexedFiles st1);
      [unfold postProcessIndex, indexedFiles; rewrite Hfiles; reflexivity|].
    rewrite Hb. reflexivity. }
  split; [exact H|]. split; [|split].
  - rewrite H. apply fold_set_add_NoDup. constructor.
  - intros key. rewrite H, fold_set_add_In. simpl. tauto.
  - unfold getStatistics, indexedFiles, map_size. cbn [stat_files].
    rewrite length_map. reflexivity.
Qed.

(* ------------------------------------------------------------------ *)
(** ** The modifiers of the class objects, and the scores *)
(* ------------------------------------------------------------------ *)

Local Abbreviation modifiersOf st := (map cls_modifiers (ix_heap st)).

Lemma modifiersOf_updClass : forall st r f,
  (forall c, cls_modifiers (f c) = cls_modifiers c) ->
  modifiersOf (updClass st r f) = modifiersOf st.
Proof.
  intros st r f Hf. unfold updClass. cbn [ix_heap set_heap].
  generalize (ix_heap st) r. induction l as [|x l IH]; intros [|n]; simpl;
    try reflexivity.
  - rewrite Hf. reflexivity.
  - rewrite IH. reflexivity.
Qed.

Lemma modifiersOf_updFile : forall st k f,
  modifiersOf (updFile st k f) = modifiersOf st.
Proof.
  intros st k f. unfold updFile.
  destruct (map_get (ix_fileIndex st) k); reflexivity.
Qed.

Lemma modifiersOf_set_lastDocComment : forall st v,
  modifiersOf (set_lastDocComment st v) = modifiersOf st.
Proof. reflexivity. Qed.

Lemma modifiersOf_set_functions : forall st v,
  modifiersOf (set_functions st v) = modifiersOf st.
Proof. reflexivity. Qed.

Lemma modifiersOf_set_currentClass : forall st v,
  modifiersOf (set_currentClass st v) = modifiersOf st.
Proof. reflexivity. Qed.

Lemma modifiersOf_set_namespaces : forall st v,
  modifiersOf (set_namespaces st v) = modifiersOf st.
Proof. reflexivity. Qed.

Lemma modifiersOf_set_classes : forall st v,
  modifiersOf (set_classes st v) = modifiersOf st.
Proof. reflexivity. Qed.

Create Rewrite HintDb modifiers.
#[local] Hint Rewrite modifiersOf_updFile modifiersOf_set_lastDocComment
  modifiersOf_set_functions modifiersOf_set_currentClass
  modifiersOf_set_namespaces modifiersOf_set_classes : modifiers.

Ltac modifiers :=
  repeat (first [ progress (autorewrite with modifiers)
                | rewrite modifiersOf_updClass by reflexivity
                | progress cbn [fst snd]
                | break_match ]);
  try reflexivity.

Lemma parseFunction_modifiers : forall st tokens start fileKey,
  modifiersOf (fst (parseFunction st tokens start fileKey)) = modifiersOf st.
Proof. intros. unfold parseFunction. modifiers. Qed.

Lemma propertyVarsLoop_modifiers : forall fuel st tokens i modifiers,
  modifiersOf (fst (propertyVarsLoop fuel st tokens i modifiers))
  = modifiersOf st.
Proof.
  induction fuel as [|fuel IH]; intros; simpl; [reflexivity|].
  modifiers; rewrite IH; modifiers.
Qed.

Lemma parseProperty_modifiers : forall st tokens start fileKey,
  modifiersOf (fst (parseProperty st tokens start fileKey)) = modifiersOf st.
Proof.
  intros. unfold parseProperty. modifiers.
  all: match goal with
    | H : propertyVarsLoop _ _ _ _ _ = (?s', _) |- _ =>
        rewrite (pair_fst H); apply propertyVarsLoop_modifiers
    end.
Qed.

Lemma classBodyLoop_modifiers :
  forall fuel st tokens i braceDepth fileKey,
    modifiersOf (fst (classBodyLoop fuel st tokens i braceDepth fileKey))
    = modifiersOf st.
Proof.
  induction fuel as [|fuel IH]; intros; simpl; [reflexivity|].
  repeat break_match; simpl; try reflexivity; rewrite IH;
    try reflexivity.
  - rewrite (pair_fst Heqp). apply parseFunction_modifiers.
  - rewrite (pair_fst Heqp). apply parseProperty_modifiers.
Qed.

(** The modifiers of a class are [abstract] and [final] at most. *)
Lemma classModifiersFrom_public : forall tokens n modifiers,
  incl modifiers [lit "abstract"; lit "final"] ->
  incl (classModifiersFrom tokens n modifiers) [lit "abstract"; lit "final"].
Proof.
  intros tokens. induction n as [|j IH]; intros modifiers H; simpl;
    [exact H|].
  destruct (nth_error tokens j) as [t|]; [|exact H].
  destruct (typeIs t CHAR); [exact H|].
  apply IH.
  assert (Ha : incl (set_add modifiers (lit "abstract"))
                 [lit "abstract"; lit "final"]).
  { intros x Hx. apply set_add_In in Hx.
    destruct Hx as [-> | Hx]; [left; reflexivity | apply H; exact Hx]. }
  destruct (typeIs t T_ABSTRACT), (typeIs t T_FINAL); try assumption;
    intros x Hx; apply set_add_In in Hx;
    (destruct Hx as [-> | Hx]; [right; left; reflexivity|]);
    first [apply Ha; exact Hx | apply H; exact Hx].
Qed.

(** [parseClass] leaves the modifiers of the class objects as they are,
    and the object that it adds has those of [classModifiersFrom]. *)
Lemma parseClass_modifiers : forall st tokens start fileKey,
  modifiersOf (fst (parseClass st tokens start fileKey)) = modifiersOf st
  \/ modifiersOf (fst (parseClass st tokens start fileKey))
     = modifiersOf st ++ [classModifiersFrom tokens start []].
Proof.
  intros st tokens start fileKey. unfold parseClass.
  destruct (nth_error tokens (scanWhile _ _ _ _)) as [nameToken|];
    [|left; reflexivity].
  destruct (negb (typeIs nameToken T_STRING)); [left; reflexivity|].
  destruct (classHeaderLoop _ _ _ _ _) as [[i ext] impl].
  right.
  match goal with
  | |- context [set_lastDocComment ?S None] =>
      set (stR := set_lastDocComment S None)
  end.
  assert (HR : modifiersOf stR
               = modifiersOf st ++ [classModifiersFrom tokens start []]).
  { subst stR. autorewrite with modifiers.
    repeat (break_match; autorewrite with modifiers).
    all: cbn [ix_heap set_heap]; rewrite map_app; reflexivity. }
  clearbody stR.
  destruct (nth_error tokens i) as [t|]; [|exact HR].
  destruct (negb (valueIs t (lit "{"))); [exact HR|].
  match goal with
  | |- context [let '(_, _) := ?p in _] => destruct p as [bd i']
  end.
  destruct (classBodyLoop _ _ _ _ _ _) as [st2 i2] eqn:E.
  cbn [fst]. autorewrite with modifiers.
  rewrite (pair_fst E), classBodyLoop_modifiers. exact HR.
Qed.

Local Abbreviation noPublic st :=
  (Forall (fun modifiers : JsSet =>
             incl modifiers [lit "abstract"; lit "final"])
     (modifiersOf st)).

Lemma parseTokensLoop_noPublic : forall fuel st tokens i fileKey,
  noPublic st -> noPublic (parseTokensLoop fuel st tokens i fileKey).
Proof.
  induction fuel as [|fuel IH]; intros st tokens i fileKey H; simpl;
    [exact H|].
  destruct (nth_error tokens i) as [token|]; [|exact H].
  assert (Hn : noPublic (fst (parseNamespace st tokens i fileKey))).
  { rewrite (@parseNamespace_view _ (fun st => modifiersOf st));
      try reflexivity; [exact H|].
    intros. apply modifiersOf_updFile. }
  assert (Hu : noPublic (fst (parseUse st tokens i fileKey))).
  { rewrite (@parseUse_view _ (fun st => modifiersOf st)); [exact H|].
    intros. apply modifiersOf_updFile. }
  assert (Hc : noPublic (fst (parseClass st tokens i fileKey))).
  { destruct (parseClass_modifiers st tokens i fileKey) as [-> | ->];
      [exact H|].
    apply Forall_app. split; [exact H|].
    constructor; [|constructor].
    apply classModifiersFrom_public. intros x []. }
  assert (Hf : noPublic (fst (parseFunction st tokens i fileKey)))
    by (rewrite parseFunction_modifiers; exact H).
  destruct (parseNamespace st tokens i fileKey) as [st1 i1].
  destruct (parseUse st tokens i fileKey) as [st2 i2].
  destruct (parseClass st tokens i fileKey) as [st3 i3].
  destruct (parseFunction st tokens i fileKey) as [st4 i4].
  destruct (tok_type token); apply IH; assumption.
Qed.

Lemma processFiles_noPublic : forall batch st,
  noPublic st -> noPublic (processFiles st batch).
Proof.
  unfold processFiles.
  induction batch as [|[[p c] now] batch IH]; intros st H; simpl;
    [exact H|].
  apply IH. unfold processPhpFile, parseTokens.
  destruct c as [content|]; [|exact H].
  apply parseTokensLoop_noPublic. exact H.
Qed.

Lemma batchLoop_noPublic : forall fuel st files i total reports,
  noPublic st -> noPublic (fst (batchLoop fuel st files i total reports)).
Proof.
  induction fuel as [|fuel IH]; intros st files i total reports H; simpl;
    [exact H|].
  destruct files as [|f files]; [exact H|].
  apply IH. cbn [ix_heap set_processedFiles].
  apply processFiles_noPublic. exact H.
Qed.

Lemma OnlyAdds_noPublic : forall st st',
  OnlyAdds st st' -> noPublic st -> noPublic st'.
Proof.
  intros st st' [_ [Hlen Hkeep]] H.
  rewrite Forall_forall in *. intros m Hm.
  apply in_map_iff in Hm. destruct Hm as [c' [<- Hc']].
  apply In_nth_error in Hc'. destruct Hc' as [r Hr].
  assert (Hlt : r < length (ix_heap st)).
  { rewrite <- Hlen. apply nth_error_Some. congruence. }
  destruct (nth_error (ix_heap st) r) as [c|] eqn:Ec;
    [|apply nth_error_None in Ec; lia].
  destruct (Hkeep r c Ec) as [c2 [Hc2 [_ [Hmods _]]]].
  unfold deref in Hc2. rewrite Hr in Hc2. injection Hc2 as <-.
  injection Hmods as -> _ _ _.
  apply H. apply in_map. apply (nth_error_In _ _ Ec).
Qed.

Lemma getClassCompletions_heap : forall lc st prefix,
  ix_heap (snd (getClassCompletions lc st prefix)) = ix_heap st.
Proof. intros. unfold getClassCompletions. repeat break_match. reflexivity. Qed.

Lemma getFunctionCompletions_heap : forall lc st prefix,
  ix_heap (snd (getFunctionCompletions lc st prefix)) = ix_heap st.
Proof.
  intros. unfold getFunctionCompletions. repeat break_match. reflexivity.
Qed.

Lemma reachable_noPublic : forall st, reachable st -> noPublic st.
Proof.
  induction 1.
  - constructor.
  - exact IHreachable.
  - exact IHreachable.
  - unfold indexPhpFiles. destruct files as [files|]; [|exact IHreachable].
    match goal with
    | |- context [batchLoop ?f ?s ?fs ?i ?t ?r] =>
        assert (Hb : noPublic (fst (batchLoop f s fs i t r)))
          by (apply batchLoop_noPublic; exact IHreachable);
        destruct (batchLoop f s fs i t r) as [st1 reports]
    end.
    cbn [fst] in *.
    apply (OnlyAdds_noPublic (postProcessLoop_OnlyAdds _ _ _) Hb).
  - unfold processPhpFile, parseTokens.
    destruct content as [content|]; [|exact IHreachable].
    apply parseTokensLoop_noPublic. exact IHreachable.
  - apply parseTokensLoop_noPublic. exact IHreachable.
  - rewrite (@parseNamespace_view _ (fun st => modifiersOf st));
      try reflexivity; [exact IHreachable|].
    intros. apply modifiersOf_updFile.
  - rewrite (@parseUse_view _ (fun st => modifiersOf st));
      [exact IHreachable|].
    intros. apply modifiersOf_updFile.
  - destruct (parseClass_modifiers st tokens start fileKey) as [-> | ->];
      [exact IHreachable|].
    apply Forall_app. split; [exact IHreachable|].
    constructor; [|constructor].
    apply classModifiersFrom_public. intros x [].
  - rewrite parseProperty_modifiers. exact IHreachable.
  - rewrite parseFunction_modifiers. exact IHreachable.
  - apply (OnlyAdds_noPublic (postProcessLoop_OnlyAdds _ _ _) IHreachable).
  - apply (OnlyAdds_noPublic (resolveInheritance_OnlyAdds _ _ _)
             IHreachable).
  - unfold getClassCompletions. repeat break_match. exact IHreachable.
  - unfold getMethodCompletions. repeat break_match; exact IHreachable.
  - unfold getStaticMethodCompletions. repeat break_match; exact IHreachable.
  - unfold getNamespaceCompletions. repeat break_match. exact IHreachable.
  - unfold getFunctionCompletions. repeat break_match. exact IHreachable.
  - unfold getDefaultCompletions.
    pose proof (getClassCompletions_heap localeCompare st prefix) as H1.
    destruct (getClassCompletions localeCompare st prefix) as [c1 st1].
    pose proof (getFunctionCompletions_heap localeCompare st1 prefix) as H2.
    destruct (getFunctionCompletions localeCompare st1 prefix) as [c2 st2].
    cbn [snd] in *. rewrite H2, H1. exact IHreachable.
Qed.

Lemma fold_left_Forall_fst :
  forall (E A B : Type) (P : A -> Prop) (F : list A * B -> E -> list A * B)
         l acc,
    (forall acc e, Forall P (fst acc) -> Forall P (fst (F acc e))) ->
    Forall P (fst acc) -> Forall P (fst (fold_left F l acc)).
Proof.
  intros E A B P F. induction l as [|e l IH]; intros acc HF H; simpl;
    [exact H|].
  apply IH; [exact HF | apply HF; exact H].
Qed.

Lemma sortCompletions_Forall : forall (P : Completion -> Prop) lc l prefix,
  Forall P l -> Forall P (sortCompletions lc l prefix).
Proof.
  intros P lc l prefix H.
  destruct (sortCompletions_captions lc l prefix) as [_ Hin].
  rewrite Forall_forall in *. intros x Hx. apply H. apply Hin. exact Hx.
Qed.

Lemma calculateScore_no_public : forall name prefix modifiers,
  incl modifiers [lit "abstract"; lit "final"] ->
  calculateScore name prefix (Some modifiers)
  = calculateScore name prefix None.
Proof.
  intros name prefix modifiers H. unfold calculateScore.
  destruct (set_has modifiers (lit "public")) eqn:E; [|reflexivity].
  apply set_has_In in E. apply H in E.
  destruct E as [E | [E | []]]; discriminate E.
Qed.

(** X26: the bonus for public items is never given to a class.  In every
    state the indexer can be in, the modifiers of a class object are
    [abstract] and [final] at most, and the class and namespace
    completions pass [calculateScore] a class or nothing; so each of
    their items has the score that [calculateScore] gives for its caption
    without any modifiers. *)
Theorem public_bonus_never_given :
  forall (st : Indexer) (localeCompare : jsstring -> jsstring -> Z)
         (prefix : jsstring),
    reachable st ->
    (forall r classData,
       deref st r = Some classData ->
       incl (cls_modifiers classData) [lit "abstract"; lit "final"])
    /\ Forall (fun item =>
                 score item = calculateScore (caption item) prefix None)
         (fst (getClassCompletions localeCompare st prefix))
    /\ Forall (fun item =>
                 score item = calculateScore (caption item) prefix None)
         (fst (getNamespaceCompletions localeCompare st prefix)).
Proof.
  intros st lc prefix Hreach.
  pose proof (reachable_noPublic Hreach) as Hinv.
  assert (Hmods : forall r classData,
            deref st r = Some classData ->
            incl (cls_modifiers classData) [lit "abstract"; lit "final"]).
  { intros r cd Hd. rewrite Forall_forall in Hinv. apply Hinv.
    apply in_map. apply (nth_error_In _ _ Hd). }
  split; [exact Hmods|]. split.
  - unfold getClassCompletions.
    match goal with
    | |- context [fold_left ?F ?l ?a] =>
        pose proof (@fold_left_Forall_fst _ _ _
                      (fun item => score item
                                   = calculateScore (caption item) prefix None)
                      F l a) as Hfold;
        destruct (fold_left F l a) as [completions done]
    end.
    cbn [fst] in *. apply sortCompletions_Forall. apply Hfold;
      [|constructor].
    intros [cs d] [key r] Hcs. cbn [fst snd] in *.
    change (deref (set_done st []) r) with (deref st r).
    destruct (deref st r) as [cd|] eqn:Ed; [|exact Hcs].
    destruct (includes _ _); [|exact Hcs].
    destruct (set_has d (cls_name cd)); [exact Hcs|].
    cbn [fst]. apply Forall_app. split; [exact Hcs|].
    constructor; [|constructor].
    destruct (map_get (cls_methods cd) (lit "__construct"));
      destruct (nonEmpty (cls_namespace cd));
      cbn [score caption withDocText withSnippet];
      apply calculateScore_no_public; apply (Hmods r cd Ed).
  - unfold getNamespaceCompletions.
    match goal with
    | |- context [fold_left ?F ?l (fold_left ?G ?m ?a)] =>
        pose proof (@fold_left_Forall_fst _ _ _
                      (fun item => score item
                                   = calculateScore (caption item) prefix None)
                      G m a) as Hns;
        pose proof (@fold_left_Forall_fst _ _ _
                      (fun item => score item
                                   = calculateScore (caption item) prefix None)
                      F l (fold_left G m a)) as Hcl;
        destruct (fold_left F l (fold_left G m a)) as [completions done]
    end.
    cbn [fst] in *. apply sortCompletions_Forall. apply Hcl.
    + intros [cs d] [key r] Hcs. cbn [fst snd] in *.
      change (deref (set_done st []) r) with (deref st r).
      destruct (deref st r) as [cd|] eqn:Ed; [|exact Hcs].
      destruct (includes _ _); [|exact Hcs].
      destruct (set_has d key); [exact Hcs|].
      cbn [fst]. apply Forall_app. split; [exact Hcs|].
      constructor; [|constructor]. cbn [score caption].
      apply calculateScore_no_public; apply (Hmods r cd Ed).
    + apply Hns; [|constructor].
      intros [cs d] [ns members] Hcs. cbn [fst snd] in *.
      destruct (includes _ _); [|exact Hcs].
      destruct (set_has d ns); [exact Hcs|].
      cbn [fst]. apply Forall_app. split; [exact Hcs|].
      constructor; [|constructor]. reflexivity.
Qed.

Lemma public_bonus_never_given_witness :
  let st :=
    processPhpFile newIndexer (lit "src/A.php")
      (Some (lit "<?php namespace App; final class Getter { public function run(){} }"))
      0%Z in
  (forall r classData,
     deref st r = Some classData ->
     incl (cls_modifiers classData) [lit "abstract"; lit "final"])
  /\ map (fun c => (cls_name c, cls_modifiers c)) (ix_heap st)
     = [(lit "Getter", [lit "final"])]
  /\ map (fun item => (caption item, score item))
       (fst (getClassCompletions (fun _ _ => 0%Z) st (lit "get")))
     = [(lit "Getter", 1300%Z)].
Proof.
  intros st.
  destruct (@public_bonus_never_given st (fun _ _ => 0%Z) (lit "get"))
    as [H _].
  - apply reach_processPhpFile. apply reach_new.
  - split; [exact H|]. split; vm_compute; reflexivity.
Defined.

(* ------------------------------------------------------------------ *)
(** ** The pending doc comment *)
(* ------------------------------------------------------------------ *)

Lemma lastDocComment_updFile : forall st k f,
  ix_lastDocComment (updFile st k f) = ix_lastDocComment st.
Proof.
  intros st k f. unfold updFile.
  destruct (map_get (ix_fileIndex st) k); reflexivity.
Qed.

Lemma parseTokensLoop_pending : forall fuel st tokens i fileKey,
  (forall t, In t tokens ->
     ~ In (tok_type t)
         [T_CLASS; T_INTERFACE; T_TRAIT; T_FUNCTION; T_DOC_COMMENT]) ->
  ix_lastDocComment (parseTokensLoop fuel st tokens i fileKey)
  = ix_lastDocComment st.
Proof.
  induction fuel as [|fuel IH]; intros st tokens i fileKey H; simpl;
    [reflexivity|].
  destruct (nth_error tokens i) as [token|] eqn:Et; [|reflexivity].
  pose proof (H token (nth_error_In _ _ Et)) as Hty.
  pose proof (@parseNamespace_view _ ix_lastDocComment lastDocComment_updFile
                (fun _ _ => eq_refl) (fun _ _ => eq_refl) st tokens i
                fileKey) as Hn.
  pose proof (@parseUse_view _ ix_lastDocComment lastDocComment_updFile
                st tokens i fileKey) as Hu.
  destruct (parseNamespace st tokens i fileKey) as [st1 i1].
  destruct (parseUse st tokens i fileKey) as [st2 i2].
  cbn [fst] in *.
  destruct (tok_type token);
    try (exfalso; apply Hty; simpl; tauto);
    rewrite IH by exact H; try reflexivity; assumption.
Qed.

(** X27: a doc comment stays pending from one file to the next.  When the
    text of a file holds no doc comment and none of the keywords class,
    interface, trait and function (as tokens), [processPhpFile] leaves the
    pending doc comment as it was: neither the start of a file nor a
    namespace or use statement clears it, and a failed read changes
    nothing. *)
Theorem processPhpFile_keeps_pending_doc :
  forall (st : Indexer) (filePath : jsstring) (content : option jsstring)
         (now : Z),
    (forall text t,
       content = Some text -> In t (tokenize text) ->
       ~ In (tok_type t)
           [T_CLASS; T_INTERFACE; T_TRAIT; T_FUNCTION; T_DOC_COMMENT]) ->
    ix_lastDocComment (processPhpFile st filePath content now)
    = ix_lastDocComment st.
Proof.
  intros st filePath [text|] now H; [|reflexivity].
  unfold processPhpFile, parseTokens.
  rewrite parseTokensLoop_pending; [reflexivity|].
  intros t Ht. apply (H text t eq_refl Ht).
Qed.

Lemma processPhpFile_keeps_pending_doc_witness :
  let st1 :=
    processPhpFile newIndexer (lit "config.php")
      (Some (lit "<?php /** Settings of the server. */ return [];")) 0%Z in
  let st2 :=
    processPhpFile st1 (lit "index.php")
      (Some (lit "<?php namespace App; use App\Util; $x = 1;")) 0%Z in
  let st3 :=
    processPhpFile st2 (lit "A.php") (Some (lit "<?php class A {}")) 0%Z in
  ix_lastDocComment st2 = ix_lastDocComment st1
  /\ option_map doc_summary (ix_lastDocComment st1)
     = Some (lit "Settings of the server.")
  /\ map (fun c => (cls_name c, option_map doc_summary (cls_docComment c)))
       (ix_heap st3)
     = [(lit "A", Some (lit "Settings of the server."))].
Proof.
  intros st1 st2 st3. split; [|split; vm_compute; reflexivity].
  apply (@processPhpFile_keeps_pending_doc st1 (lit "index.php")
           (Some (lit "<?php namespace App; use App\Util; $x = 1;")) 0%Z).
  intros text t Htext Ht. injection Htext as <-.
  assert (Hall : forallb
                   (fun t =>
                      negb (existsb (TokenType_eqb (tok_type t))
                              [T_CLASS; T_INTERFACE; T_TRAIT; T_FUNCTION;
                               T_DOC_COMMENT]))
                   (tokenize
                      (lit "<?php namespace App; use App\Util; $x = 1;"))
                 = true) by (vm_compute; reflexivity).
  rewrite forallb_forall in Hall. specialize (Hall t Ht).
  clear Ht. clearbody st1. clear st2 st3.
  apply negb_true_iff in Hall. intros Hin.
  assert (Hex : existsb (TokenType_eqb (tok_type t))
                  [T_CLASS; T_INTERFACE; T_TRAIT; T_FUNCTION; T_DOC_COMMENT]
                = true).
  { apply existsb_exists. exists (tok_type t). split; [exact Hin|].
    destruct (tok_type t); reflexivity. }
  rewrite Hex in Hall. discriminate Hall.
Defined.

(* ------------------------------------------------------------------ *)
(** ** The documentation text of the items *)
(* ------------------------------------------------------------------ *)

Lemma nonEmpty_true : forall s, nonEmpty s = true -> s <> [].
Proof. intros [|c s] H; [discriminate H | discriminate]. Qed.

Lemma app_nonempty_l : forall (A : Type) (a b : list A),
  a <> [] -> a ++ b <> [].
Proof. intros A [|x a] b H; [contradiction | discriminate]. Qed.

Lemma app_nonempty_r : forall (A : Type) (a b : list A),
  b <> [] -> a ++ b <> [].
Proof.
  intros A a b H E. apply app_eq_nil in E. destruct E as [_ E].
  contradiction.
Qed.

Lemma formatDocText_nonempty : forall docComment name,
  formatDocText docComment name <> [].
Proof.
  intros docComment name.
  assert (Hn : nameOrNoDoc name <> []).
  { unfold nameOrNoDoc. destruct (nonEmpty name) eqn:E;
      [apply nonEmpty_true; exact E | discriminate]. }
  unfold formatDocText. destruct docComment as [doc|]; [|exact Hn].
  match goal with
  | |- (if nonEmpty ?t then _ else _) <> [] =>
      destruct (nonEmpty t) eqn:E; [apply nonEmpty_true; exact E | exact Hn]
  end.
Qed.

Lemma methodItems_Forall :
  forall (P : Completion -> Prop) keep finish methods acc,
    (forall name m, P (finish (createMethodCompletion name m))) ->
    Forall P (fst acc) ->
    Forall P (fst (methodItems keep finish methods acc)).
Proof.
  intros P keep finish methods acc Hitem Hacc. unfold methodItems.
  apply fold_left_Forall_fst; [|exact Hacc].
  intros [cs d] [name m] Hcs. cbn [fst] in *.
  destruct (keep name m); [|exact Hcs].
  destruct (set_has d name); [exact Hcs|].
  cbn [fst]. apply Forall_app. split; [exact Hcs|].
  constructor; [apply Hitem | constructor].
Qed.

(** X28: no item comes without a documentation text.  [formatDocText]
    never gives the empty string (it falls back to the name, and then to a
    fixed text), and every item of the class, function, method, namespace
    and default completions has a [docText] that is not empty. *)
Theorem completions_documented :
  forall (localeCompare : jsstring -> jsstring -> Z) (st : Indexer)
         (prefix : jsstring) (context : QueryContext),
    (forall docComment name, formatDocText docComment name <> [])
    /\ Forall (fun item => docText item <> [])
         (fst (getClassCompletions localeCompare st prefix)
          ++ fst (getFunctionCompletions localeCompare st prefix)
          ++ fst (getMethodCompletions localeCompare st prefix context)
          ++ fst (getNamespaceCompletions localeCompare st prefix)
          ++ fst (getDefaultCompletions localeCompare st prefix)).
Proof.
  intros lc st prefix context. split; [apply formatDocText_nonempty|].
  assert (Hclass : forall st,
            Forall (fun item => docText item <> [])
              (fst (getClassCompletions lc st prefix))).
  { intros s. unfold getClassCompletions.
    match goal with
    | |- context [fold_left ?F ?l ?a] =>
        pose proof (@fold_left_Forall_fst _ _ _
                      (fun item => docText item <> []) F l a) as Hfold;
        destruct (fold_left F l a) as [completions done]
    end.
    cbn [fst] in *. apply sortCompletions_Forall. apply Hfold;
      [|constructor].
    intros [cs d] [key r] Hcs. cbn [fst snd] in *.
    destruct (deref _ r) as [cd|]; [|exact Hcs].
    destruct (includes _ _); [|exact Hcs].
    destruct (set_has d (cls_name cd)); [exact Hcs|].
    cbn [fst]. apply Forall_app. split; [exact Hcs|].
    constructor; [|constructor].
    destruct (map_get (cls_methods cd) (lit "__construct"));
      destruct (nonEmpty (cls_namespace cd));
      cbn [docText withDocText withSnippet];
      repeat apply app_nonempty_l; apply formatDocText_nonempty. }
  assert (Hfunction : forall st,
            Forall (fun item => docText item <> [])
              (fst (getFunctionCompletions lc st prefix))).
  { intros s. unfold getFunctionCompletions.
    match goal with
    | |- context [fold_left ?F ?l ?a] =>
        pose proof (@fold_left_Forall_fst _ _ _
                      (fun item => docText item <> []) F l a) as Hfold;
        destruct (fold_left F l a) as [completions done]
    end.
    cbn [fst] in *. apply sortCompletions_Forall. apply Hfold;
      [|constructor].
    intros [cs d] [key fd] Hcs. cbn [fst snd] in *.
    destruct (startsWith _ _); [|exact Hcs].
    destruct (set_has d (fn_name fd)); [exact Hcs|].
    cbn [fst]. apply Forall_app. split; [exact Hcs|].
    constructor; [|constructor].
    unfold createFunctionCompletion. cbn [docText].
    apply app_nonempty_l. apply formatDocText_nonempty. }
  assert (Hmethod :
            Forall (fun item => docText item <> [])
              (fst (getMethodCompletions lc st prefix context))).
  { unfold getMethodCompletions, inferClassContext.
    match goal with
    | |- context [fold_left ?F ?l ?a] =>
        pose proof (@fold_left_Forall_fst _ _ _
                      (fun item => docText item <> []) F l a) as Hfold;
        destruct (fold_left F l a) as [completions done]
    end.
    cbn [fst] in *. apply sortCompletions_Forall. apply Hfold;
      [|constructor].
    intros acc [key r] Hcs. cbn [fst snd] in *.
    destruct (deref _ r) as [cd|]; [|exact Hcs].
    apply methodItems_Forall; [|exact Hcs].
    intros name m. unfold createMethodCompletion.
    cbn [docText withDocText withSnippet].
    repeat apply app_nonempty_l. apply formatDocText_nonempty. }
  assert (Hnamespace :
            Forall (fun item => docText item <> [])
              (fst (getNamespaceCompletions lc st prefix))).
  { unfold getNamespaceCompletions.
    match goal with
    | |- context [fold_left ?F ?l (fold_left ?G ?m ?a)] =>
        pose proof (@fold_left_Forall_fst _ _ _
                      (fun item => docText item <> []) G m a) as Hns;
        pose proof (@fold_left_Forall_fst _ _ _
                      (fun item => docText item <> []) F l
                      (fold_left G m a)) as Hcl;
        destruct (fold_left F l (fold_left G m a)) as [completions done]
    end.
    cbn [fst] in *. apply sortCompletions_Forall. apply Hcl.
    - intros [cs d] [key r] Hcs. cbn [fst snd] in *.
      destruct (deref _ r) as [cd|]; [|exact Hcs].
      destruct (includes _ _); [|exact Hcs].
      destruct (set_has d key); [exact Hcs|].
      cbn [fst]. apply Forall_app. split; [exact Hcs|].
      constructor; [|constructor]. cbn [docText].
      apply formatDocText_nonempty.
    - apply Hns; [|constructor].
      intros [cs d] [ns members] Hcs. cbn [fst snd] in *.
      destruct (includes _ _); [|exact Hcs].
      destruct (set_has d ns); [exact Hcs|].
      cbn [fst]. apply Forall_app. split; [exact Hcs|].
      constructor; [|constructor]. cbn [docText]. discriminate. }
  repeat (apply Forall_app; split); try apply Hclass; try apply Hfunction;
    try assumption.
  unfold getDefaultCompletions.
  pose proof (Hclass st) as H1.
  destruct (getClassCompletions lc st prefix) as [c1 st1].
  pose proof (Hfunction st1) as H2.
  destruct (getFunctionCompletions lc st1 prefix) as [c2 st2].
  cbn [fst] in *. apply Forall_app. split; assumption.
Qed.

(* ------------------------------------------------------------------ *)
(** ** The namespace statement *)
(* ------------------------------------------------------------------ *)

Lemma collectUntil_run : forall stop (run : list Token) fuel tokens i acc,
  (forall j t, nth_error run j = Some t -> nth_error tokens (i + j) = Some t) ->
  Forall (fun t => stop t = false) run ->
  (forall next,
     nth_error tokens (i + length run) = Some next -> stop next = true) ->
  length run <= fuel ->
  collectUntil stop fuel tokens i acc
  = (i + length run, acc ++ concat (map tok_value run)).
Proof.
  intros stop. induction run as [|t run IH];
    intros fuel tokens i acc Hrun Hall Hnext Hfuel.
  - simpl. rewrite Nat.add_0_r, app_nil_r. simpl in Hnext.
    rewrite Nat.add_0_r in Hnext.
    destruct fuel; [reflexivity|]. simpl.
    destruct (nth_error tokens i) as [next|] eqn:E; [|reflexivity].
    rewrite (Hnext next eq_refl). reflexivity.
  - destruct fuel as [|fuel]; [simpl in Hfuel; lia|].
    inversion Hall as [|? ? Ht Hall']; subst.
    pose proof (Hrun 0 t eq_refl) as H0. rewrite Nat.add_0_r in H0.
    simpl. rewrite H0, Ht.
    rewrite (IH fuel tokens (S i) (acc ++ tok_value t)).
    + rewrite <- app_assoc. f_equal. lia.
    + intros j u Hj. specialize (Hrun (S j) u Hj).
      rewrite <- Hrun. f_equal. lia.
    + exact Hall'.
    + intros next Hn. apply Hnext. rewrite <- Hn. f_equal. simpl. lia.
    + simpl in Hfuel. lia.
Qed.

(** X29: what a namespace statement does.  The name is the text of the
    tokens after the keyword for as long as they are names or
    backslashes; when it is not empty it becomes the current namespace
    and the namespace of the file record, it gets an entry in the
    namespace map (an entry that is there is kept), classes, functions
    and class objects are left alone, parsing resumes at the token after
    the name, and a class declared next is registered under the name,
    a backslash and its own name. *)
Theorem parseNamespace_sets :
  forall (st : Indexer) (tokens : list Token) (start : nat)
         (fileKey : jsstring) (fd : FileData) (run : list Token),
    map_get (ix_fileIndex st) fileKey = Some fd ->
    (forall j t,
       nth_error run j = Some t -> nth_error tokens (S start + j) = Some t) ->
    Forall (fun t => (typeIs t T_STRING || valueIs t [BACKSLASH]) = true
                     /\ tok_type t <> T_WHITESPACE) run ->
    (forall next,
       nth_error tokens (S start + length run) = Some next ->
       (typeIs next T_STRING || valueIs next [BACKSLASH]) = false) ->
    concat (map tok_value run) <> [] ->
    let name := concat (map tok_value run) in
    let st' := fst (parseNamespace st tokens start fileKey) in
    snd (parseNamespace st tokens start fileKey) = S start + length run
    /\ ix_currentNamespace st' = name
    /\ map_get (ix_fileIndex st') fileKey = Some (fd_set_namespace fd name)
    /\ map_get (ix_namespaces st') name
       = Some (match map_get (ix_namespaces st) name with
               | Some members => members
               | None => []
               end)
    /\ (forall other,
          other <> name ->
          map_get (ix_namespaces st') other
          = map_get (ix_namespaces st) other)
    /\ (ix_classes st', ix_functions st', ix_heap st')
       = (ix_classes st, ix_functions st, ix_heap st)
    /\ (forall tokens' start' keyword classToken,
          nth_error tokens' start' = Some keyword ->
          nth_error tokens'
            (scanWhile (fun t => typeIs t T_WHITESPACE || typeIs t T_COMMENT
                                 || typeIs t T_DOC_COMMENT)
               (length tokens') tokens' (S start')) = Some classToken ->
          tok_type classToken = T_STRING ->
          map_get
            (ix_classes (fst (parseClass st' tokens' start' fileKey)))
            (name ++ [BACKSLASH] ++ tok_value classToken)
          = Some (length (ix_heap st))).
Proof.
  intros st tokens start fileKey fd run Hfd Hrun Hall Hnext Hne name st'.
  assert (Hnon : nonEmpty name = true)
    by (unfold name; destruct (concat (map tok_value run));
        [contradiction | reflexivity]).
  destruct run as [|t0 run']; [contradiction Hne; reflexivity|].
  set (run := t0 :: run') in *.
  assert (H0 : nth_error tokens (S start) = Some t0).
  { specialize (Hrun 0 t0 eq_refl). rewrite Nat.add_0_r in Hrun.
    exact Hrun. }
  assert (Hws : scanWhile (fun t => typeIs t T_WHITESPACE) (length tokens)
                  tokens (S start) = S start).
  { apply (@scanWhile_false _ _ _ _ _ t0 H0).
    inversion Hall as [|? ? [_ Ht0] _]; subst.
    unfold typeIs. destruct (tok_type t0); try reflexivity.
    contradiction Ht0; reflexivity. }
  assert (Hlen : length run <= length tokens).
  { assert (Hlast : nth_error tokens (S start + (length run - 1)) <> None).
    { destruct (nth_error run (length run - 1)) as [t|] eqn:E.
      - rewrite (Hrun _ t E). discriminate.
      - apply nth_error_None in E. subst run. simpl in E. lia. }
    apply nth_error_Some in Hlast. lia. }
  assert (Hcollect :
            collectUntil
              (fun t => negb (typeIs t T_STRING || valueIs t [BACKSLASH]))
              (length tokens) tokens (S start) []
            = (S start + length run, name)).
  { rewrite (@collectUntil_run _ run); [reflexivity| | | |exact Hlen].
    - exact Hrun.
    - apply Forall_impl with (2 := Hall). intros t [Ht _].
      rewrite Ht. reflexivity.
    - intros next Hn. rewrite (Hnext next Hn). reflexivity. }
  assert (Hst : st' = (if map_has (ix_namespaces st) name
                       then updFile (set_currentNamespace st name) fileKey
                              (fun fd => fd_set_namespace fd name)
                       else set_namespaces
                              (updFile (set_currentNamespace st name) fileKey
                                 (fun fd => fd_set_namespace fd name))
                              (map_set (ix_namespaces st) name []))
                /\ snd (parseNamespace st tokens start fileKey)
                   = S start + length run).
  { unfold st', parseNamespace. rewrite Hws, Hcollect, Hnon.
    unfold updFile. cbn [ix_fileIndex set_currentNamespace].
    rewrite Hfd. cbn [ix_namespaces set_fileIndex set_currentNamespace].
    destruct (map_has (ix_namespaces st) name); split; reflexivity. }
  destruct Hst as [Hst Hsnd].
  assert (Hfile : map_get (ix_fileIndex st') fileKey
                  = Some (fd_set_namespace fd name)).
  { rewrite Hst. unfold updFile. cbn [ix_fileIndex set_currentNamespace].
    rewrite Hfd.
    destruct (map_has (ix_namespaces st) name);
      cbn [ix_fileIndex set_fileIndex set_namespaces];
      apply map_get_set_same. }
  assert (Hcur : ix_currentNamespace st' = name).
  { rewrite Hst. unfold updFile. cbn [ix_fileIndex set_currentNamespace].
    rewrite Hfd. destruct (map_has (ix_namespaces st) name); reflexivity. }
  assert (Hheap : (ix_classes st', ix_functions st', ix_heap st')
                  = (ix_classes st, ix_functions st, ix_heap st)).
  { rewrite Hst. unfold updFile. cbn [ix_fileIndex set_currentNamespace].
    rewrite Hfd. destruct (map_has (ix_namespaces st) name); reflexivity. }
  split; [exact Hsnd|]. split; [exact Hcur|]. split; [exact Hfile|].
  split; [|split; [|split; [exact Hheap|]]].
  - rewrite Hst. unfold updFile. cbn [ix_fileIndex set_currentNamespace].
    rewrite Hfd. unfold map_has.
    destruct (map_get (ix_namespaces st) name) as [members|] eqn:Eg.
    + cbn [ix_namespaces set_fileIndex set_currentNamespace]. exact Eg.
    + cbn [ix_namespaces set_namespaces]. apply map_get_set_same.
  - intros other Hother. rewrite Hst. unfold updFile.
    cbn [ix_fileIndex set_currentNamespace]. rewrite Hfd.
    destruct (map_has (ix_namespaces st) name); [reflexivity|].
    cbn [ix_namespaces set_namespaces].
    apply map_get_set_other. congruence.
  - intros tokens' start' keyword classToken Hk Hc Hty.
    destruct (@parseClass_registers st' tokens' start' fileKey keyword
                classToken (fd_set_namespace fd name) Hk Hc Hty Hfile)
      as [Hreg _].
    rewrite Hcur, Hnon in Hreg.
    injection Hheap as _ _ Hh. rewrite Hh in Hreg. exact Hreg.
Qed.

Lemma parseNamespace_sets_witness :
  let tokens := tokenize (lit "<?php namespace App\Models; class User {}") in
  let st :=
    set_fileIndex newIndexer
      [(lit "User.php", mkFile (lit "User.php") [] [] [] [] 0%Z)] in
  let st' := fst (parseNamespace st tokens 1 (lit "User.php")) in
  snd (parseNamespace st tokens 1 (lit "User.php")) = 3
  /\ ix_currentNamespace st' = lit "App\Models"
  /\ map_get (ix_namespaces st') (lit "App\Models") = Some []
  /\ map_get (ix_classes (fst (parseClass st' tokens 4 (lit "User.php"))))
       (lit "App\Models\User") = Some 0.
Proof.
  intros tokens st st'.
  destruct (@parseNamespace_sets st tokens 1 (lit "User.php")
              (mkFile (lit "User.php") [] [] [] [] 0%Z)
              [mkToken T_STRING (lit "App\Models") 1 6])
    as [H1 [H2 [_ [H4 [_ [_ H7]]]]]].
  - reflexivity.
  - intros [|[|j]] t Ht; simpl in Ht; try discriminate.
    injection Ht as <-. reflexivity.
  - constructor; [|constructor]. split; [reflexivity | discriminate].
  - intros next Hn. vm_compute in Hn. injection Hn as <-. reflexivity.
  - discriminate.
  - split; [exact H1|]. split; [exact H2|]. split; [exact H4|].
    apply (H7 tokens 4 (mkToken T_CLASS (lit "class") 1 9)
             (mkToken T_STRING (lit "User") 1 11));
      reflexivity.
Defined.

(* ------------------------------------------------------------------ *)
(** ** Property declarations *)
(* ------------------------------------------------------------------ *)

(** The modifier loop of [parseProperty] over a run of visibility and
    static modifiers and comments that ends at a variable, a name or the
    function keyword: it stops there, and the modifiers are those it had
    and those of the run. *)
Lemma propertyModifiersLoop_run :
  forall n fuel tokens k modifiers stopper,
    (forall j t,
       k <= j < k + n -> nth_error tokens j = Some t ->
       In (tok_type t)
         [T_PUBLIC; T_PROTECTED; T_PRIVATE; T_STATIC; T_COMMENT;
          T_DOC_COMMENT]) ->
    nth_error tokens (k + n) = Some stopper ->
    In (tok_type stopper) [T_VARIABLE; T_STRING; T_FUNCTION] ->
    n < fuel ->
    fst (propertyModifiersLoop fuel tokens k modifiers) = k + n
    /\ forall x,
         In x (snd (propertyModifiersLoop fuel tokens k modifiers))
         <-> In x modifiers
             \/ exists j t,
                  k <= j < k + n /\ nth_error tokens j = Some t
                  /\ modifierName (tok_type t) = Some x.
Proof.
  induction n as [|n IH]; intros fuel tokens k modifiers stopper Hrun Hk Hty
    Hf; (destruct fuel as [|fuel]; [lia|]); simpl.
  - rewrite Nat.add_0_r in *. rewrite Hk.
    assert (E : typeIs stopper T_PUBLIC = false
                /\ typeIs stopper T_PROTECTED = false
                /\ typeIs stopper T_PRIVATE = false
                /\ typeIs stopper T_STATIC = false
                /\ typeIs stopper T_CONST = false
                /\ isIgnorable stopper = false).
    { unfold isIgnorable, typeIs. simpl in Hty.
      destruct Hty as [E | [E | [E | []]]]; rewrite <- E;
        repeat split; reflexivity. }
    destruct E as [E1 [E2 [E3 [E4 [E5 E6]]]]].
    rewrite E1, E2, E3, E4, E5, E6. cbn [fst snd].
    split; [reflexivity|]. intros x. split; [tauto|].
    intros [H | [j [t [Hj _]]]]; [exact H | lia].
  - destruct (nth_error tokens k) as [t|] eqn:Et.
    2:{ apply nth_error_None in Et.
        assert (k + S n < length tokens)
          by (apply nth_error_Some; congruence). lia. }
    assert (Hrec : forall mods,
              fst (propertyModifiersLoop fuel tokens (S k) mods) = k + S n
              /\ forall x,
                   In x (snd (propertyModifiersLoop fuel tokens (S k) mods))
                   <-> In x mods
                       \/ exists j t,
                            S k <= j < k + S n
                            /\ nth_error tokens j = Some t
                            /\ modifierName (tok_type t) = Some x).
    { intros mods.
      destruct (IH fuel tokens (S k) mods stopper) as [H1 H2];
        try assumption; try lia.
      - intros j t' Hj Ht'. apply (Hrun j t'); [lia | exact Ht'].
      - rewrite <- Hk. f_equal. lia.
      - split; [rewrite H1; lia|]. intros x. rewrite H2.
        split; (intros [H | [j [t' [Hj H]]]]; [left; exact H|]);
          right; exists j, t'; (split; [lia | exact H]). }
    pose proof (Hrun k t ltac:(lia) Et) as Hin.
    assert (Hhead : forall x added,
              (modifierName (tok_type t) = Some added
               \/ (modifierName (tok_type t) = None /\ False)) ->
              (In x (set_add modifiers added)
               \/ (exists j t',
                     S k <= j < k + S n /\ nth_error tokens j = Some t'
                     /\ modifierName (tok_type t') = Some x))
              <-> (In x modifiers
                   \/ exists j t',
                        k <= j < k + S n /\ nth_error tokens j = Some t'
                        /\ modifierName (tok_type t') = Some x)).
    { intros x added [Hm | [_ []]]. rewrite set_add_In. split.
      - intros [[-> | H] | [j [t' [Hj H]]]].
        + right. exists k, t. split; [lia|]. split; assumption.
        + left. exact H.
        + right. exists j, t'. split; [lia | exact H].
      - intros [H | [j [t' [Hj [Ht' Hx]]]]]; [left; right; exact H|].
        destruct (Nat.eq_dec j k) as [-> | Hne].
        + rewrite Et in Ht'. injection Ht' as <-.
          rewrite Hm in Hx. injection Hx as <-. left. left. reflexivity.
        + right. exists j, t'. split; [lia|]. split; assumption. }
    assert (Hskip : forall x,
              modifierName (tok_type t) = None ->
              (In x modifiers
               \/ (exists j t',
                     S k <= j < k + S n /\ nth_error tokens j = Some t'
                     /\ modifierName (tok_type t') = Some x))
              <-> (In x modifiers
                   \/ exists j t',
                        k <= j < k + S n /\ nth_error tokens j = Some t'
                        /\ modifierName (tok_type t') = Some x)).
    { intros x Hm. split.
      - intros [H | [j [t' [Hj H]]]]; [left; exact H|].
        right. exists j, t'. split; [lia | exact H].
      - intros [H | [j [t' [Hj [Ht' Hx]]]]]; [left; exact H|].
        destruct (Nat.eq_dec j k) as [-> | Hne].
        + rewrite Et in Ht'. injection Ht' as <-. congruence.
        + right. exists j, t'. split; [lia|]. split; assumption. }
    unfold typeIs, isIgnorable, typeIs. simpl in Hin.
    destruct Hin as [E | [E | [E | [E | [E | [E | []]]]]]]; rewrite <- E;
      simpl;
      match goal with
      | |- context [propertyModifiersLoop fuel tokens (S k) ?mods] =>
          destruct (Hrec mods) as [H1 H2]
      end;
      (split; [exact H1|]); intros x; rewrite H2;
      first [ apply Hhead; left; rewrite <- E; reflexivity
            | apply Hskip; rewrite <- E; reflexivity ].
Qed.

(** X30: what [parseProperty] stores.  After a run of visibility and
    static modifiers (and comments), a variable that is followed by a
    semicolon is stored as a property of the current class: under its
    name without the dollar sign, with the modifiers of the run (and
    [public] when the run holds neither [protected] nor [private]),
    without a default value, with the line of the variable and the
    pending doc comment, which is then cleared; the other class objects
    are left alone and parsing resumes after the semicolon.  When a name
    stands between the modifiers and the variable, as the type of a typed
    property does, nothing is stored. *)
Theorem parseProperty_stores :
  forall (st : Indexer) (tokens : list Token) (start m : nat)
         (fileKey : jsstring) (r : ClassRef) (classData : ClassDef)
         (head : Token),
    start <= m ->
    (forall k t,
       start <= k < m -> nth_error tokens k = Some t ->
       In (tok_type t)
         [T_PUBLIC; T_PROTECTED; T_PRIVATE; T_STATIC; T_COMMENT;
          T_DOC_COMMENT]) ->
    nth_error tokens m = Some head ->
    ix_currentClass st = Some r ->
    deref st r = Some classData ->
    let st' := fst (parseProperty st tokens start fileKey) in
    let name := stripPrefix [DOLLAR] (tok_value head) in
    (forall semi,
       tok_type head = T_VARIABLE ->
       nth_error tokens (S m) = Some semi ->
       tok_type semi = CHAR -> tok_value semi = lit ";" ->
       snd (parseProperty st tokens start fileKey) = S (S m)
       /\ ix_lastDocComment st' = None
       /\ (forall r', r' <> r -> deref st' r' = deref st r')
       /\ exists modifiers,
            deref st' r
            = Some (cls_set_properties classData
                      (map_set (cls_properties classData) name
                         (mkProperty name modifiers None (ix_currentFile st)
                            (tok_line head) (ix_lastDocComment st) false)))
            /\ forall x,
                 In x modifiers
                 <-> (exists k t,
                        start <= k < m /\ nth_error tokens k = Some t
                        /\ modifierName (tok_type t) = Some x)
                     \/ (x = lit "public"
                         /\ forall k t,
                              start <= k < m -> nth_error tokens k = Some t ->
                              tok_type t <> T_PROTECTED
                              /\ tok_type t <> T_PRIVATE))
    /\ (tok_type head = T_STRING -> st' = set_lastDocComment st None).
Proof.
  intros st tokens start m fileKey r classData head Hle Hrun Hhead Hcur Hd
    st' name.
  assert (Hlen : m < length tokens) by (apply nth_error_Some; congruence).
  assert (Hloop : In (tok_type head) [T_VARIABLE; T_STRING; T_FUNCTION] ->
            fst (propertyModifiersLoop (length tokens) tokens start []) = m
            /\ forall x,
                 In x (snd (propertyModifiersLoop (length tokens) tokens
                              start []))
                 <-> exists k t,
                       start <= k < m /\ nth_error tokens k = Some t
                       /\ modifierName (tok_type t) = Some x).
  { intros Hty.
    destruct (@propertyModifiersLoop_run (m - start) (length tokens) tokens
                start [] head) as [H1 H2].
    - intros j t Hj Ht. apply (Hrun j t); [lia | exact Ht].
    - replace (start + (m - start)) with m by lia. exact Hhead.
    - exact Hty.
    - lia.
    - replace (start + (m - start)) with m in * by lia.
      split; [exact H1|]. intros x. rewrite H2. simpl. tauto. }
  assert (Hnames : forall k t x,
            start <= k < m -> nth_error tokens k = Some t ->
            modifierName (tok_type t) = Some x ->
            (x = lit "public" /\ tok_type t = T_PUBLIC)
            \/ (x = lit "protected" /\ tok_type t = T_PROTECTED)
            \/ (x = lit "private" /\ tok_type t = T_PRIVATE)
            \/ (x = lit "static" /\ tok_type t = T_STATIC)).
  { intros k t x Hk Ht Hx. pose proof (Hrun k t Hk Ht) as Hin.
    simpl in Hin.
    destruct Hin as [E | [E | [E | [E | [E | [E | []]]]]]];
      rewrite <- E in *; simpl in Hx; try discriminate;
      injection Hx as <-; tauto. }
  split.
  - intros semi Hty Hsemi Hsty Hsval.
    destruct (Hloop ltac:(rewrite Hty; left; reflexivity)) as [Hi Hmods].
    unfold st', parseProperty.
    destruct (propertyModifiersLoop (length tokens) tokens start [])
      as [i modifiers].
    cbn [fst snd] in Hi, Hmods. subst i.
    set (mods := if negb (set_has modifiers (lit "public"))
                    && negb (set_has modifiers (lit "protected"))
                    && negb (set_has modifiers (lit "private"))
                    && negb (set_has modifiers (lit "const"))
                 then set_add modifiers (lit "public") else modifiers).
    assert (Hconst0 : set_has modifiers (lit "const") = false).
    { destruct (set_has modifiers (lit "const")) eqn:E; [|reflexivity].
      apply set_has_In, Hmods in E. destruct E as [k [t [Hk [Ht Hx]]]].
      destruct (Hnames k t _ Hk Ht Hx) as [[E _] | [[E _] | [[E _] | [E _]]]];
        discriminate E. }
    assert (Hconst : set_has mods (lit "const") = false).
    { unfold mods. destruct (_ && _); [|exact Hconst0].
      rewrite set_add_has, Hconst0. reflexivity. }
    rewrite Hconst.
    assert (Hscan0 : scanWhile isSpaceOrComment (length tokens) tokens m = m).
    { apply (@scanWhile_false _ _ _ _ _ head Hhead).
      unfold isSpaceOrComment, typeIs. rewrite Hty. reflexivity. }
    assert (Hscan1 : scanWhile isSpaceOrComment (length tokens) tokens (S m)
                     = S m).
    { apply (@scanWhile_false _ _ _ _ _ semi Hsemi).
      unfold isSpaceOrComment, typeIs. rewrite Hsty. reflexivity. }
    assert (Hvar : typeIs head T_VARIABLE = true)
      by (unfold typeIs; rewrite Hty; reflexivity).
    assert (Hv1 : valueIs semi (lit "=") = false)
      by (unfold valueIs; rewrite Hsval; reflexivity).
    assert (Hv2 : valueIs semi (lit ",") = false)
      by (unfold valueIs; rewrite Hsval; reflexivity).
    assert (Hv3 : valueIs semi (lit ";") = true)
      by (unfold valueIs; rewrite Hsval; reflexivity).
    assert (Hlt : (m <? length tokens) = true)
      by (apply Nat.ltb_lt; exact Hlen).
    cbn [propertyVarsLoop].
    rewrite Hlt, Hscan0, Hhead, Hvar, Hscan1, Hsemi, Hv1.
    cbv beta iota zeta. rewrite Hcur, Hsemi, Hv2, Hv3.
    cbn [fst snd]. fold name.
    split; [reflexivity|]. split; [reflexivity|]. split.
    + intros r' Hr'.
      change (deref (set_lastDocComment ?s None) r') with (deref s r').
      apply deref_updClass_other. congruence.
    + exists mods. split.
      * change (deref (set_lastDocComment ?s None) r) with (deref s r).
        rewrite (@deref_updClass_same st r _ classData Hd). reflexivity.
      * intros x. unfold mods.
        assert (Hpp : forall v,
                  v = lit "protected" \/ v = lit "private" ->
                  set_has modifiers v = true ->
                  (forall k t,
                     start <= k < m -> nth_error tokens k = Some t ->
                     tok_type t <> T_PROTECTED /\ tok_type t <> T_PRIVATE) ->
                  False).
        { intros v Hv Hset Hnone. apply set_has_In, Hmods in Hset.
          destruct Hset as [k [t [Hk [Ht Hx]]]].
          destruct (Hnone k t Hk Ht) as [N1 N2].
          destruct (Hnames k t v Hk Ht Hx)
            as [[E1 E2] | [[E1 E2] | [[E1 E2] | [E1 E2]]]];
            destruct Hv as [-> | ->]; try discriminate E1; contradiction. }
        assert (Hnone : set_has modifiers (lit "protected") = false ->
                        set_has modifiers (lit "private") = false ->
                        forall k t,
                          start <= k < m -> nth_error tokens k = Some t ->
                          tok_type t <> T_PROTECTED
                          /\ tok_type t <> T_PRIVATE).
        { intros Eprot Epriv k t Hk Ht. split; intros Ety.
          - assert (H : In (lit "protected") modifiers).
            { apply Hmods. exists k, t. rewrite Ety. auto. }
            apply set_has_In in H. congruence.
          - assert (H : In (lit "private") modifiers).
            { apply Hmods. exists k, t. rewrite Ety. auto. }
            apply set_has_In in H. congruence. }
        destruct (set_has modifiers (lit "public")) eqn:Epub;
          destruct (set_has modifiers (lit "protected")) eqn:Eprot;
          destruct (set_has modifiers (lit "private")) eqn:Epriv;
          rewrite ?Hconst0; cbn [negb andb];
          rewrite ?set_add_In, Hmods.
        8:{ split.
            - intros [-> | H]; [|left; exact H].
              right. split; [reflexivity | apply Hnone; reflexivity].
            - intros [H | [-> _]]; [right; exact H | left; reflexivity]. }
        all: split; [intros H; left; exact H|];
          intros [H | [-> Hn]]; [exact H|].
        all: try (apply Hmods, set_has_In; exact Epub).
        all: exfalso;
          first [ apply (Hpp (lit "protected") (or_introl eq_refl) Eprot Hn)
                | apply (Hpp (lit "private") (or_intror eq_refl) Epriv Hn) ].
  - intros Hty.
    destruct (Hloop ltac:(rewrite Hty; right; left; reflexivity))
      as [Hi Hmods].
    unfold st', parseProperty.
    destruct (propertyModifiersLoop (length tokens) tokens start [])
      as [i modifiers].
    cbn [fst snd] in Hi, Hmods. subst i.
    set (mods := if negb (set_has modifiers (lit "public"))
                    && negb (set_has modifiers (lit "protected"))
                    && negb (set_has modifiers (lit "private"))
                    && negb (set_has modifiers (lit "const"))
                 then set_add modifiers (lit "public") else modifiers).
    assert (Hconst0 : set_has modifiers (lit "const") = false).
    { destruct (set_has modifiers (lit "const")) eqn:E; [|reflexivity].
      apply set_has_In, Hmods in E. destruct E as [k [t [Hk [Ht Hx]]]].
      destruct (Hnames k t _ Hk Ht Hx) as [[E _] | [[E _] | [[E _] | [E _]]]];
        discriminate E. }
    assert (Hconst : set_has mods (lit "const") = false).
    { unfold mods. destruct (_ && _); [|exact Hconst0].
      rewrite set_add_has, Hconst0. reflexivity. }
    rewrite Hconst.
    assert (Hscan0 : scanWhile isSpaceOrComment (length tokens) tokens m = m).
    { apply (@scanWhile_false _ _ _ _ _ head Hhead).
      unfold isSpaceOrComment, typeIs. rewrite Hty. reflexivity. }
    assert (Hvar : typeIs head T_VARIABLE = false)
      by (unfold typeIs; rewrite Hty; reflexivity).
    assert (Hlt : (m <? length tokens) = true)
      by (apply Nat.ltb_lt; exact Hlen).
    cbn [propertyVarsLoop].
    rewrite Hlt, Hscan0, Hhead, Hvar. reflexivity.
Qed.

Lemma parseProperty_stores_witness :
  let tokens :=
    tokenize
      (lit "<?php class A { private static $count; public int $size; }") in
  let classData :=
    mkClass (lit "A") (lit "A") [] (lit "class") [] [] [] [] [] [] None None
      1 false in
  let st := set_currentClass (set_heap newIndexer [classData]) (Some 0) in
  (snd (parseProperty st tokens 4 (lit "A.php")) = 8
   /\ option_map
        (fun c => map (fun e => (fst e, pr_modifiers (snd e)))
                    (cls_properties c))
        (deref (fst (parseProperty st tokens 4 (lit "A.php"))) 0)
      = Some [(lit "count", [lit "private"; lit "static"])])
  /\ fst (parseProperty st tokens 8 (lit "A.php"))
     = set_lastDocComment st None.
Proof.
  intros tokens classData st.
  assert (Hrun : forall start m,
            forallb
              (fun t =>
                 existsb (TokenType_eqb (tok_type t))
                   [T_PUBLIC; T_PROTECTED; T_PRIVATE; T_STATIC; T_COMMENT;
                    T_DOC_COMMENT])
              (firstn (m - start) (skipn start tokens)) = true ->
            forall k t,
              start <= k < m -> nth_error tokens k = Some t ->
              In (tok_type t)
                [T_PUBLIC; T_PROTECTED; T_PRIVATE; T_STATIC; T_COMMENT;
                 T_DOC_COMMENT]).
  { intros start m Hall k t Hk Ht. rewrite forallb_forall in Hall.
    assert (Hin : In t (firstn (m - start) (skipn start tokens))).
    { apply (nth_error_In _ (k - start)).
      rewrite nth_error_firstn.
      replace (k - start <? m - start) with true
        by (symmetry; apply Nat.ltb_lt; lia).
      rewrite nth_error_skipn. rewrite <- Ht. f_equal. lia. }
    specialize (Hall t Hin). apply existsb_exists in Hall.
    destruct Hall as [ty [Hty Heq]].
    replace (tok_type t) with ty; [exact Hty|].
    destruct (tok_type t), ty; try discriminate Heq; reflexivity. }
  split.
  - destruct (@parseProperty_stores st tokens 4 6 (lit "A.php") 0 classData
                (mkToken T_VARIABLE (lit "$count") 1 14))
      as [Hvar _].
    + lia.
    + apply Hrun. reflexivity.
    + reflexivity.
    + reflexivity.
    + reflexivity.
    + destruct (Hvar (mkToken CHAR (lit ";") 1 15))
        as [H1 [_ [_ [modifiers [H4 _]]]]]; try reflexivity.
      split; [exact H1|]. vm_compute. reflexivity.
  - destruct (@parseProperty_stores st tokens 8 9 (lit "A.php") 0 classData
                (mkToken T_STRING (lit "int") 1 19))
      as [_ Htyped].
    + lia.
    + apply Hrun. reflexivity.
    + reflexivity.
    + reflexivity.
    + reflexivity.
    + apply Htyped. reflexivity.
Defined.

(** ** The range of the lower-casing *)

Lemma lowerUnit_latin1 : forall c : codeunit,
  (c <=? 255)%N = true -> (lowerUnit c <=? 255)%N = true.
Proof.
  intros c H. unfold lowerUnit.
  destruct ((65 <=? c) && (c <=? 90))%N eqn:E1.
  - apply andb_true_iff in E1. destruct E1 as [_ E1].
    apply N.leb_le in E1. apply N.leb_le. lia.
  - destruct ((192 <=? c) && (c <=? 222) && negb (c =? 215))%N eqn:E2;
      [|exact H].
    apply andb_true_iff in E2. destruct E2 as [E2 _].
    apply andb_true_iff in E2. destruct E2 as [_ E2].
    apply N.leb_le in E2. apply N.leb_le. lia.
Qed.

(** Lower-casing stays within U+0000..U+00FF and keeps the length. *)
Lemma toLowerCase_latin1 : forall s : jsstring,
  latin1 s = true ->
  latin1 (toLowerCase s) = true
  /\ length (toLowerCase s) = length s.
Proof.
  intros s H. unfold toLowerCase. split; [|apply length_map].
  unfold latin1 in *. rewrite forallb_forall in *.
  intros c Hc. apply in_map_iff in Hc. destruct Hc as [x [<- Hx]].
  apply lowerUnit_latin1. apply H. exact Hx.
Qed.
